(** * Multi-pack index (midx.c) and sparse index (sparse-index.c)

    A shallow embedding of the MIDX writer, reader, lookup path and verifier
    of [midx.c], and of the sparse-index contractor and expander of
    [sparse-index.c], followed by the properties proved about them.

    Conventions.
    - A file, a chunk or an object id is a [list byte]; a C integer is a [Z]
      whose wrap-around is written out ([u32], [u64], [s32]).
    - Code that can stop early returns an [outcome]: [Bug] for [BUG()],
      [Died] for [die()], [Fault] for an access outside an array or outside
      the mapped file, [Unfinished] when the fuel given to a loop that need
      not terminate has run out.
    - C arrays that the code updates by index are lists used with stdpp's
      lookup and insert. *)

From Stdlib Require Import ZArith Lia List String Bool.
From stdpp Require Import base list numbers.
From coqutil Require Import Byte Word.LittleEndianList.
Import ListNotations.
Local Open Scope Z_scope.

(* ===================================================================== *)
(** * Outcomes of fallible code *)
(* ===================================================================== *)

Inductive outcome (A : Type) : Type :=
| Ok (a : A)
| Bug (msg : string)
| Died (msg : string)
| Fault
| Unfinished.
Arguments Ok {A} a.
Arguments Bug {A} msg.
Arguments Died {A} msg.
Arguments Fault {A}.
Arguments Unfinished {A}.

Definition bind {A B : Type} (c : outcome A) (k : A -> outcome B) : outcome B :=
  match c with
  | Ok a => k a
  | Bug msg => Bug msg
  | Died msg => Died msg
  | Fault => Fault
  | Unfinished => Unfinished
  end.

Notation "'let*' x := c 'in' k" := (bind c (fun x => k))
  (at level 10, x pattern, c at level 100, k at level 200).

(* ===================================================================== *)
(** * Machine integers and bytes *)
(* ===================================================================== *)

Definition u32 (z : Z) : Z := z mod 2 ^ 32.
Definition u64 (z : Z) : Z := z mod 2 ^ 64.
(** [int]: two's complement on 32 bits. *)
Definition s32 (z : Z) : Z := (z + 2 ^ 31) mod 2 ^ 32 - 2 ^ 31.
(** [off_t]: two's complement on 64 bits. *)
Definition s64 (z : Z) : Z := (z + 2 ^ 63) mod 2 ^ 64 - 2 ^ 63.

(** [hashwrite_be32(f, x)]: the four bytes of [x], most significant first. *)
Definition be32 (x : Z) : list byte := rev (le_split 4 x).

(** [ntohl] of the 32-bit word at [p], or [get_be32(p)]: the four bytes at
    [p] read most significant first. *)
Definition get_be32 (bs : list byte) : Z := le_combine (rev bs).

(** The bytes [p[off .. off+len)] of a mapped region; outside it, a fault. *)
Definition slice (data : list byte) (off len : Z) : outcome (list byte) :=
  if (0 <=? off) && (0 <=? len) && (off + len <=? Z.of_nat (length data))
  then Ok (take (Z.to_nat len) (drop (Z.to_nat off) data))
  else Fault.

Definition read_be32 (data : list byte) (off : Z) : outcome Z :=
  let* bs := slice data off 4 in Ok (get_be32 bs).

Definition read_u8 (data : list byte) (off : Z) : outcome Z :=
  let* bs := slice data off 1 in Ok (get_be32 bs).

(** A C array read [a[i]]; outside the array, a fault. *)
Definition array_get {A : Type} (a : list A) (i : Z) : outcome A :=
  if 0 <=? i then
    match a !! Z.to_nat i with
    | Some x => Ok x
    | None => Fault
    end
  else Fault.

(** A C array write [a[i] = x]; outside the array, a fault. *)
Definition array_set {A : Type} (a : list A) (i : Z) (x : A) : outcome (list A) :=
  if (0 <=? i) && (i <? Z.of_nat (length a))
  then Ok (<[Z.to_nat i := x]> a)
  else Fault.

(** [memcmp(a, b, n)] on two buffers of the same length: the difference of
    the first pair of bytes that differ, 0 when there is none. *)
Fixpoint memcmp (a b : list byte) : Z :=
  match a, b with
  | x :: a', y :: b' =>
      if byte.unsigned x =? byte.unsigned y then memcmp a' b'
      else byte.unsigned x - byte.unsigned y
  | _, _ => 0
  end.

#[global] Instance byte_eq_dec : EqDecision byte := Byte.byte_eq_dec.

(** A C string: its bytes before the terminating NUL. *)
Definition cstring := list byte.

Definition strlen (s : cstring) : Z := Z.of_nat (length s).

(** [strcmp(a, b)]: the terminating NUL takes part in the comparison. *)
Definition strcmp (a b : cstring) : Z :=
  memcmp (a ++ [Byte.x00]) (b ++ [Byte.x00]).

(** Modelled from the spec: [QSORT] (git-compat-util.h, not under src/).  The
    spec asks for a stable sort ("stable sort and dedup discipline"); this is
    insertion sort, which leaves elements that compare equal in input
    order.  [cmp a b] is the C comparator's result. *)
Fixpoint qsort_insert {A : Type} (cmp : A -> A -> Z) (x : A) (l : list A) : list A :=
  match l with
  | [] => [x]
  | y :: l' => if cmp x y <? 0 then x :: y :: l' else y :: qsort_insert cmp x l'
  end.

Definition QSORT {A : Type} (cmp : A -> A -> Z) (l : list A) : list A :=
  fold_left (fun acc x => qsort_insert cmp x acc) l [].

(* ===================================================================== *)
(** * midx.c: data model *)
(* ===================================================================== *)

Module Midx.

Definition MIDX_SIGNATURE : Z := 0x4d494458.
Definition MIDX_CHUNKID_PACKLOOKUP : Z := 0x504c4f4f.
Definition MIDX_CHUNKID_PACKNAMES : Z := 0x504e414d.
Definition MIDX_CHUNKID_OIDFANOUT : Z := 0x4f494446.
Definition MIDX_CHUNKID_OIDLOOKUP : Z := 0x4f49444c.
Definition MIDX_CHUNKID_OBJECTOFFSETS : Z := 0x4f4f4646.
Definition MIDX_CHUNKID_LARGEOFFSETS : Z := 0x4c4f4646.

Definition MIDX_VERSION_GVFS : Z := 0x80000001.
Definition MIDX_VERSION : Z := MIDX_VERSION_GVFS.

Definition MIDX_OID_VERSION_SHA1 : Z := 1.
Definition MIDX_OID_LEN_SHA1 : Z := 20.
Definition MIDX_OID_VERSION : Z := MIDX_OID_VERSION_SHA1.
Definition MIDX_OID_LEN : Z := MIDX_OID_LEN_SHA1.

Definition MIDX_LARGE_OFFSET_NEEDED : Z := 0x80000000.
Definition MIDX_CHUNKLOOKUP_WIDTH : Z := 4 + 8.
Definition MIDX_CHUNK_FANOUT_SIZE : Z := 4 * 256.
Definition MIDX_CHUNK_OFFSET_WIDTH : Z := 2 * 4.
Definition MIDX_CHUNK_LARGE_OFFSET_WIDTH : Z := 8.

(** Modelled from the spec: [GIT_MAX_RAWSZ] (cache.h, not under src/); the
    spec fixes object ids at 20 bytes. *)
Definition GIT_MAX_RAWSZ : Z := 20.

(** [struct object_id]: the [hash] array, [GIT_MAX_RAWSZ] bytes. *)
Definition object_id := list byte.

(** [oid.hash[0]]. *)
Definition hash0 (o : object_id) : Z := byte.unsigned (hd Byte.x00 o).

(** [hashcmp] / [oidcmp]: [memcmp] over the raw width of the hash. *)
Definition hashcmp (a b : list byte) : Z :=
  memcmp (take (Z.to_nat GIT_MAX_RAWSZ) a) (take (Z.to_nat GIT_MAX_RAWSZ) b).
Definition oidcmp (a b : object_id) : Z := hashcmp a b.

(** [struct pack_midx_entry] (midx.h). *)
Record pack_midx_entry := {
  oid : object_id;
  pack_int_id : Z;
  offset : Z;
  pack_mtime : Z
}.

(** [struct pack_midx_details] (midx.h). *)
Record pack_midx_details := {
  d_pack_int_id : Z;
  d_offset : Z
}.

(** [struct pack_midx_header] as it lies in the file: 16 bytes. *)
Definition header_bytes (num_chunks nr_packs : Z) : list byte :=
  be32 MIDX_SIGNATURE ++ be32 MIDX_VERSION ++
  [byte.of_Z MIDX_OID_VERSION; byte.of_Z MIDX_OID_LEN; byte.of_Z 0;
   byte.of_Z num_chunks] ++
  be32 nr_packs.

(* ===================================================================== *)
(** * midx.c: the writer (lines 874-1263) *)
(* ===================================================================== *)

(** [write_midx_chunk_packlookup]: for each pack the offset of its name in
    the Pack Names chunk; returns the bytes and their count. *)
Fixpoint packlookup_loop (cur_len : Z) (pack_names : list cstring) : list byte :=
  match pack_names with
  | [] => []
  | n :: rest => be32 cur_len ++ packlookup_loop (u32 (cur_len + (strlen n + 1))) rest
  end.

Definition write_midx_chunk_packlookup (pack_names : list cstring) : list byte * Z :=
  (packlookup_loop 0 pack_names, 4 * Z.of_nat (length pack_names)).

(** [write_midx_chunk_packnames]: the names with their NUL, [BUG] when a
    name is not greater than the one before it. *)
Fixpoint packnames_loop (prev : option cstring) (pack_names : list cstring)
  : outcome (list byte * Z) :=
  match pack_names with
  | [] => Ok ([], 0)
  | n :: rest =>
      let writelen := strlen n + 1 in
      if match prev with
         | Some p => strcmp n p <=? 0
         | None => false
         end
      then Bug "incorrect pack order"
      else
        let* (bs, written) := packnames_loop (Some n) rest in
        Ok (n ++ [Byte.x00] ++ bs, writelen + written)
  end.

Definition write_midx_chunk_packnames (pack_names : list cstring)
  : outcome (list byte * Z) :=
  packnames_loop None pack_names.

(** The inner [while] of [write_midx_chunk_oidfanout] for bucket [i]:
    consumes the entries whose first byte is [i]. *)
Fixpoint fanout_bucket (i : Z) (prev : option pack_midx_entry)
    (next : list pack_midx_entry) (count_distinct : Z)
  : list pack_midx_entry * Z :=
  match next with
  | [] => ([], count_distinct)
  | e :: rest =>
      if negb (hash0 (oid e) =? i) then (next, count_distinct)
      else
        let count' :=
          match prev with
          | None => u32 (count_distinct + 1)
          | Some p => if oidcmp (oid p) (oid e) =? 0 then count_distinct
                      else u32 (count_distinct + 1)
          end in
        fanout_bucket i (Some e) rest count'
  end.

(** The outer [for (i = 0; i < 256; i++)], [n] iterations from [i]. *)
Fixpoint fanout_loop (n : nat) (i : Z) (lst : list pack_midx_entry)
    (count_distinct : Z) : list byte :=
  match n with
  | O => []
  | S n' =>
      let '(next, count') := fanout_bucket i None lst count_distinct in
      be32 count' ++ fanout_loop n' (i + 1) next count'
  end.

Definition write_midx_chunk_oidfanout (objects : list pack_midx_entry)
  : list byte * Z :=
  (fanout_loop 256 0 objects 0, MIDX_CHUNK_FANOUT_SIZE).

(** [write_midx_chunk_oidlookup]: the object ids in order; [BUG] when an
    entry is not smaller than its successor. *)
Fixpoint oidlookup_loop (hash_len : Z) (last_oid : option object_id)
    (lst : list pack_midx_entry) : outcome (list byte * Z) :=
  match lst with
  | [] => Ok ([], 0)
  | obj :: rest =>
      if match rest with
         | next :: _ => oidcmp (oid obj) (oid next) >=? 0
         | [] => false
         end
      then Bug "OIDs not in order"
      else
        if match last_oid with
           | Some l => oidcmp l (oid obj) =? 0
           | None => false
           end
        then oidlookup_loop hash_len last_oid rest
        else
          let* (bs, written) := oidlookup_loop hash_len (Some (oid obj)) rest in
          Ok (take (Z.to_nat hash_len) (oid obj) ++ bs, hash_len + written)
  end.

Definition write_midx_chunk_oidlookup (hash_len : Z)
    (objects : list pack_midx_entry) : outcome (list byte * Z) :=
  oidlookup_loop hash_len None objects.

(** [write_midx_chunk_objectoffsets]: per distinct object the permuted pack
    id and the offset word. *)
Fixpoint objectoffsets_loop (large_offset_needed : bool) (pack_perm : list Z)
    (last_oid : option object_id) (nr_large_offset : Z)
    (lst : list pack_midx_entry) : outcome (list byte * Z) :=
  match lst with
  | [] => Ok ([], 0)
  | obj :: rest =>
      if match last_oid with
         | Some l => oidcmp l (oid obj) =? 0
         | None => false
         end
      then objectoffsets_loop large_offset_needed pack_perm last_oid
             nr_large_offset rest
      else
        let* perm := array_get pack_perm (pack_int_id obj) in
        if large_offset_needed && negb (Z.shiftr (offset obj) 31 =? 0) then
          let* (bs, written) := objectoffsets_loop large_offset_needed pack_perm
                              (Some (oid obj)) (u32 (nr_large_offset + 1)) rest in
          Ok (be32 perm ++
              be32 (Z.lor MIDX_LARGE_OFFSET_NEEDED nr_large_offset) ++ bs,
              MIDX_CHUNK_OFFSET_WIDTH + written)
        else if negb large_offset_needed && negb (Z.shiftr (offset obj) 32 =? 0) then
          Bug "object requires a large offset but the MIDX is not writing large offsets!"
        else
          let* (bs, written) := objectoffsets_loop large_offset_needed pack_perm
                              (Some (oid obj)) nr_large_offset rest in
          Ok (be32 perm ++ be32 (u32 (offset obj)) ++ bs,
              MIDX_CHUNK_OFFSET_WIDTH + written)
  end.

Definition write_midx_chunk_objectoffsets (large_offset_needed : bool)
    (objects : list pack_midx_entry) (pack_perm : list Z)
  : outcome (list byte * Z) :=
  objectoffsets_loop large_offset_needed pack_perm None 0 objects.

(** [write_midx_chunk_largeoffsets]: runs until [nr_large_offset] offsets
    have been written; the list is read past its end when it holds fewer. *)
Fixpoint largeoffsets_loop (nr_large_offset : Z) (last_oid : option object_id)
    (lst : list pack_midx_entry) : outcome (list byte * Z) :=
  if nr_large_offset =? 0 then Ok ([], 0)
  else
    match lst with
    | [] => Fault
    | obj :: rest =>
        let offset := u64 (offset obj) in
        if match last_oid with
           | Some l => oidcmp l (oid obj) =? 0
           | None => false
           end
        then largeoffsets_loop nr_large_offset last_oid rest
        else if Z.shiftr offset 31 =? 0
        then largeoffsets_loop nr_large_offset (Some (oid obj)) rest
        else
          let* (bs, written) := largeoffsets_loop (u32 (nr_large_offset - 1))
                              (Some (oid obj)) rest in
          Ok (be32 (Z.shiftr offset 32) ++ be32 (Z.land offset 0xffffffff) ++ bs,
              2 * 4 + written)
    end.

Definition write_midx_chunk_largeoffsets (nr_large_offset : Z)
    (objects : list pack_midx_entry) : outcome (list byte * Z) :=
  largeoffsets_loop nr_large_offset None objects.

(** [struct pack_pair]. *)
Record pack_pair := { pp_pack_int_id : Z; pp_pack_name : cstring }.

Definition pack_pair_compare (a b : pack_pair) : Z :=
  strcmp (pp_pack_name a) (pp_pack_name b).

(** The second loop of [sort_packs_by_name]: [perm[pairs[i].pack_int_id] = i]. *)
Fixpoint fill_perm (i : Z) (pairs : list pack_pair) (perm : list Z)
  : outcome (list Z) :=
  match pairs with
  | [] => Ok perm
  | p :: rest =>
      let* perm' := array_set perm (pp_pack_int_id p) i in
      fill_perm (i + 1) rest perm'
  end.

(** [sort_packs_by_name]: the names sorted, and the permutation from the
    position before the sort to the position after it. *)
Definition sort_packs_by_name (pack_names : list cstring)
  : outcome (list cstring * list Z) :=
  let pairs :=
    imap (fun i n => {| pp_pack_int_id := Z.of_nat i; pp_pack_name := n |})
         pack_names in
  let pairs := QSORT pack_pair_compare pairs in
  let* perm := fill_perm 0 pairs (repeat 0 (length pack_names)) in
  Ok (map pp_pack_name pairs, perm).

(** The chunk table written after the header: id, then the offset as two
    32-bit halves. *)
Definition chunk_table_bytes (chunks : list (Z * Z)) : list byte :=
  flat_map (fun '(id, off) =>
              be32 id ++ be32 (Z.shiftr off 32) ++ be32 (Z.land off 0xffffffff))
           chunks.

(** One step of the chunk-writing loop of [write_midx_file]. *)
Definition write_chunk (large_offset_needed : bool) (nr_large_offset : Z)
    (pack_names : list cstring) (objects : list pack_midx_entry)
    (pack_perm : list Z) (chunk_id : Z) : outcome (list byte * Z) :=
  if chunk_id =? MIDX_CHUNKID_PACKLOOKUP then
    Ok (write_midx_chunk_packlookup pack_names)
  else if chunk_id =? MIDX_CHUNKID_PACKNAMES then
    write_midx_chunk_packnames pack_names
  else if chunk_id =? MIDX_CHUNKID_OIDFANOUT then
    Ok (write_midx_chunk_oidfanout objects)
  else if chunk_id =? MIDX_CHUNKID_OIDLOOKUP then
    write_midx_chunk_oidlookup MIDX_OID_LEN objects
  else if chunk_id =? MIDX_CHUNKID_OBJECTOFFSETS then
    write_midx_chunk_objectoffsets large_offset_needed objects pack_perm
  else if chunk_id =? MIDX_CHUNKID_LARGEOFFSETS then
    write_midx_chunk_largeoffsets nr_large_offset objects
  else if chunk_id =? 0 then
    Ok ([], 0)
  else Bug "midx tried to write an invalid chunk ID".

(** The loop [for (chunk = 0; chunk <= hdr.num_chunks; chunk++)]. *)
Fixpoint write_chunks (large_offset_needed : bool) (nr_large_offset : Z)
    (pack_names : list cstring) (objects : list pack_midx_entry)
    (pack_perm : list Z) (chunks : list (Z * Z)) (written : Z)
  : outcome (list byte) :=
  match chunks with
  | [] => Ok []
  | (chunk_id, chunk_offset) :: rest =>
      if negb (chunk_offset =? written)
      then Bug "chunk has intended chunk offset does not match expected"
      else
        let* (bs, n) := write_chunk large_offset_needed nr_large_offset pack_names
                      objects pack_perm chunk_id in
        let* more := write_chunks large_offset_needed nr_large_offset pack_names
                  objects pack_perm rest (u64 (written + n)) in
        Ok (bs ++ more)
  end.

(** The chunk ids and offsets that [write_midx_file] computes before it
    writes any chunk ([chunk_ids], [chunk_offsets]). *)
Definition chunk_plan (large_offset_needed : bool) (nr_large_offset : Z)
    (nr_packs nr_objects total_name_len : Z) : list (Z * Z) :=
  let num_chunks := if large_offset_needed then 6 else 5 in
  let o0 := 16 + MIDX_CHUNKLOOKUP_WIDTH * (num_chunks + 1) in
  let o1 := u64 (o0 + u32 (nr_packs * 4)) in
  let o2 := u64 (o1 + MIDX_CHUNK_FANOUT_SIZE) in
  let o3 := u64 (o2 + u64 (nr_objects * MIDX_OID_LEN)) in
  let o4 := u64 (o3 + u64 (MIDX_CHUNK_OFFSET_WIDTH * nr_objects)) in
  if large_offset_needed then
    let o5 := u64 (o4 + u64 (MIDX_CHUNK_LARGE_OFFSET_WIDTH * nr_large_offset)) in
    let o6 := u64 (o5 + total_name_len) in
    [(MIDX_CHUNKID_PACKLOOKUP, o0); (MIDX_CHUNKID_OIDFANOUT, o1);
     (MIDX_CHUNKID_OIDLOOKUP, o2); (MIDX_CHUNKID_OBJECTOFFSETS, o3);
     (MIDX_CHUNKID_LARGEOFFSETS, o4); (MIDX_CHUNKID_PACKNAMES, o5); (0, o6)]
  else
    let o5 := u64 (o4 + total_name_len) in
    [(MIDX_CHUNKID_PACKLOOKUP, o0); (MIDX_CHUNKID_OIDFANOUT, o1);
     (MIDX_CHUNKID_OIDLOOKUP, o2); (MIDX_CHUNKID_OBJECTOFFSETS, o3);
     (MIDX_CHUNKID_PACKNAMES, o4); (0, o5)].

Section Writer.
(** The hash of [hashfile] ([the_hash_algo], csum-file.c: not under src/). *)
Variable hash_fn : list byte -> list byte.

(** [write_midx_file] (lines 1072-1263).  [Ok None] is the early
    [return 0] when [core_midx] is off; otherwise the bytes of the file.
    [nr_packs] and [nr_objects] are the lengths of the two arrays. *)
Definition write_midx_file (core_midx : bool) (pack_names : list cstring)
    (objects : list pack_midx_entry) : outcome (option (list byte)) :=
  if negb core_midx then Ok None
  else
    let nr_packs := Z.of_nat (length pack_names) in
    let nr_objects := Z.of_nat (length objects) in
    (* determine if large offsets are required *)
    let nr_large_offset :=
      u32 (Z.of_nat (length (List.filter (fun o => 0x7fffffff <? offset o) objects))) in
    let large_offset_needed := existsb (fun o => 0xffffffff <? offset o) objects in
    (* Sort packs *)
    let* (pack_names, pack_perm) :=
      (if nr_packs =? 0 then Ok (pack_names, []) else sort_packs_by_name pack_names) in
    let total_name_len :=
      fold_left (fun acc n => s32 (acc + (strlen n + 1))) pack_names 0 in
    let num_chunks := if large_offset_needed then 6 else 5 in
    let hdr := header_bytes num_chunks nr_packs in
    let written := 16 in
    let chunks := chunk_plan large_offset_needed nr_large_offset nr_packs
                    nr_objects total_name_len in
    let table := chunk_table_bytes chunks in
    let written := written + MIDX_CHUNKLOOKUP_WIDTH * (num_chunks + 1) in
    let* payload := write_chunks large_offset_needed nr_large_offset pack_names
                 objects pack_perm chunks written in
    let f := hdr ++ table ++ payload in
    Ok (Some (f ++ hash_fn f)).
End Writer.

(* ===================================================================== *)
(** * midx.c: the reader (lines 507-766) *)
(* ===================================================================== *)

(** [struct midxed_git] (midx.h).  A pointer into the mapped file is its
    offset from [data]; [None] is the null pointer.  The fields of [hdr]
    are the header bytes of [data]. *)
Record midxed_git := {
  data : list byte;
  data_len : Z;
  hdr_hash_version : Z;
  hdr_hash_len : Z;
  hdr_num_chunks : Z;
  num_objects : Z;
  num_packs : Z;
  chunk_pack_lookup : option Z;
  chunk_pack_names : option Z;
  chunk_oid_fanout : option Z;
  chunk_oid_lookup : option Z;
  chunk_object_offsets : option Z;
  chunk_large_offsets : option Z;
  pack_names : list Z
}.

(** The six chunk pointers while the chunk table is being read. *)
Record chunk_ptrs := {
  c_pack_lookup : option Z;
  c_pack_names : option Z;
  c_oid_fanout : option Z;
  c_oid_lookup : option Z;
  c_object_offsets : option Z;
  c_large_offsets : option Z
}.

Definition no_chunks : chunk_ptrs :=
  {| c_pack_lookup := None; c_pack_names := None; c_oid_fanout := None;
     c_oid_lookup := None; c_object_offsets := None; c_large_offsets := None |}.

(** The [switch (chunk_id)] of [load_midxed_git_one]. *)
Definition set_chunk (c : chunk_ptrs) (chunk_id chunk_offset : Z) : chunk_ptrs :=
  if chunk_id =? MIDX_CHUNKID_PACKLOOKUP then
    {| c_pack_lookup := Some chunk_offset; c_pack_names := c_pack_names c;
       c_oid_fanout := c_oid_fanout c; c_oid_lookup := c_oid_lookup c;
       c_object_offsets := c_object_offsets c;
       c_large_offsets := c_large_offsets c |}
  else if chunk_id =? MIDX_CHUNKID_PACKNAMES then
    {| c_pack_lookup := c_pack_lookup c; c_pack_names := Some chunk_offset;
       c_oid_fanout := c_oid_fanout c; c_oid_lookup := c_oid_lookup c;
       c_object_offsets := c_object_offsets c;
       c_large_offsets := c_large_offsets c |}
  else if chunk_id =? MIDX_CHUNKID_OIDFANOUT then
    {| c_pack_lookup := c_pack_lookup c; c_pack_names := c_pack_names c;
       c_oid_fanout := Some chunk_offset; c_oid_lookup := c_oid_lookup c;
       c_object_offsets := c_object_offsets c;
       c_large_offsets := c_large_offsets c |}
  else if chunk_id =? MIDX_CHUNKID_OIDLOOKUP then
    {| c_pack_lookup := c_pack_lookup c; c_pack_names := c_pack_names c;
       c_oid_fanout := c_oid_fanout c; c_oid_lookup := Some chunk_offset;
       c_object_offsets := c_object_offsets c;
       c_large_offsets := c_large_offsets c |}
  else if chunk_id =? MIDX_CHUNKID_OBJECTOFFSETS then
    {| c_pack_lookup := c_pack_lookup c; c_pack_names := c_pack_names c;
       c_oid_fanout := c_oid_fanout c; c_oid_lookup := c_oid_lookup c;
       c_object_offsets := Some chunk_offset;
       c_large_offsets := c_large_offsets c |}
  else if chunk_id =? MIDX_CHUNKID_LARGEOFFSETS then
    {| c_pack_lookup := c_pack_lookup c; c_pack_names := c_pack_names c;
       c_oid_fanout := c_oid_fanout c; c_oid_lookup := c_oid_lookup c;
       c_object_offsets := c_object_offsets c;
       c_large_offsets := Some chunk_offset |}
  else c.

(** The loop [for (i = 0; i <= hdr->num_chunks; i++)] over the chunk table,
    [n] iterations from entry [i].  [host32] says that pointers are four
    bytes wide ([sizeof(data) == 4]). *)
Fixpoint read_chunk_table (host32 : bool) (data : list byte) (n : nat) (i : Z)
    (c : chunk_ptrs) : outcome chunk_ptrs :=
  match n with
  | O => Ok c
  | S n' =>
      let* chunk_id := read_be32 data (16 + 12 * i) in
      let* chunk_offset1 := read_be32 data (16 + 12 * i + 4) in
      let* chunk_offset2 := read_be32 data (16 + 12 * i + 8) in
      let chunk_offset := Z.lor (u64 (Z.shiftl chunk_offset1 32)) chunk_offset2 in
      if host32 && negb (Z.shiftr chunk_offset 32 =? 0)
      then Died "unable to memory-map in 32-bit address space"
      else read_chunk_table host32 data n' (i + 1)
             (set_chunk c chunk_id chunk_offset)
  end.

(** The loop that fills [midx->pack_names], [n] iterations from pack [i]. *)
Fixpoint read_pack_names (data : list byte) (data_len : Z)
    (chunk_pack_lookup chunk_pack_names : Z) (n : nat) (i : Z)
  : outcome (list Z) :=
  match n with
  | O => Ok []
  | S n' =>
      let* name_offset := read_be32 data (chunk_pack_lookup + u32 (4 * i)) in
      if chunk_pack_names + name_offset >=? data_len
      then Died "invalid packfile name lookup"
      else
        let* rest := read_pack_names data data_len chunk_pack_lookup
                       chunk_pack_names n' (i + 1) in
        Ok ((chunk_pack_names + name_offset) :: rest)
  end.

(** [load_midxed_git_one] (lines 507-630).  [file] is the content that
    [git_open], [fstat] and [xmmap] deliver, [None] when the file cannot be
    opened; [Ok None] is the [return 0] of that case. *)
Definition load_midxed_git_one (host32 : bool) (file : option (list byte))
  : outcome (option midxed_git) :=
  match file with
  | None => Ok None
  | Some data =>
      (* xsize_t(st.st_size) *)
      if host32 && (2 ^ 32 <=? Z.of_nat (length data))
      then Died "Cannot handle files this big"
      else
      let midx_size := Z.of_nat (length data) in
      if midx_size <? 16 + 8 * 5 + 4 * 256 + GIT_MAX_RAWSZ
      then Died "midx file is too small"
      else
        let* signature := read_be32 data 0 in
        if negb (signature =? MIDX_SIGNATURE)
        then Died "midx signature does not match signature"
        else
          let* version := read_be32 data 4 in
          if negb (version =? MIDX_VERSION)
          then Died "midx version does not match version"
          else
            let* hash_version := read_u8 data 8 in
            let* hash_len := read_u8 data 9 in
            let* num_chunks := read_u8 data 11 in
            (* read chunk ids to find pointers *)
            let* c := read_chunk_table host32 data (S (Z.to_nat num_chunks)) 0
                        no_chunks in
            match c_oid_fanout c, c_pack_lookup c, c_pack_names c with
            | None, _, _ => Died "midx missing OID Fanout chunk"
            | Some _, None, _ => Died "midx missing Packfile Name Lookup chunk"
            | Some _, Some _, None => Died "midx missing Packfile Name chunk"
            | Some fanout, Some lookup, Some names =>
                let* num_objects := read_be32 data (fanout + 255 * 4) in
                let* num_packs := read_be32 data 12 in
                (* st_mult(sizeof(struct packed_git * ), num_packs) *)
                if host32 && (2 ^ 32 <=? 4 * num_packs)
                then Died "size_t overflow"
                else
                  let* pack_names :=
                    read_pack_names data midx_size lookup names
                      (Z.to_nat num_packs) 0 in
                  Ok (Some {| data := data; data_len := midx_size;
                              hdr_hash_version := hash_version;
                              hdr_hash_len := hash_len;
                              hdr_num_chunks := num_chunks;
                              num_objects := num_objects;
                              num_packs := num_packs;
                              chunk_pack_lookup := c_pack_lookup c;
                              chunk_pack_names := c_pack_names c;
                              chunk_oid_fanout := c_oid_fanout c;
                              chunk_oid_lookup := c_oid_lookup c;
                              chunk_object_offsets := c_object_offsets c;
                              chunk_large_offsets := c_large_offsets c;
                              pack_names := pack_names |})
            end
  end.

(** Dereferencing [p + off] for a chunk pointer [p]: a null [p] faults. *)
Definition chunk_at (p : option Z) (off : Z) : outcome Z :=
  match p with
  | Some base => Ok (base + off)
  | None => Fault
  end.

(** [nth_midxed_object_details] (lines 679-703); [Ok None] is the
    [return NULL] for an index past the last object. *)
Definition nth_midxed_object_details (m : midxed_git) (n : Z)
  : outcome (option pack_midx_details) :=
  if n >=? num_objects m then Ok None
  else
    let* d_internal := chunk_at (chunk_object_offsets m) (u32 (8 * n)) in
    let* pack := read_be32 (data m) d_internal in
    let* off := read_be32 (data m) (d_internal + 4) in
    match chunk_large_offsets m with
    | Some large_chunk =>
        if negb (Z.land off MIDX_LARGE_OFFSET_NEEDED =? 0) then
          let large_offset := u32 (Z.lxor off MIDX_LARGE_OFFSET_NEEDED) in
          let large_offsets := large_chunk + u32 (8 * large_offset) in
          let* hi := read_be32 (data m) large_offsets in
          let* lo := read_be32 (data m) (large_offsets + 4) in
          Ok (Some {| d_pack_int_id := pack;
                      d_offset := s64 (Z.lor (u64 (Z.shiftl hi 32)) lo) |})
        else Ok (Some {| d_pack_int_id := pack; d_offset := off |})
    | None => Ok (Some {| d_pack_int_id := pack; d_offset := off |})
    end.

(** [nth_midxed_object_entry] (lines 705-723): the details and the object
    id copied out of the OID Lookup chunk; [pack_mtime] is set to zero. *)
Definition nth_midxed_object_entry (m : midxed_git) (n : Z)
  : outcome (option pack_midx_entry) :=
  let* details := nth_midxed_object_details m n in
  match details with
  | None => Ok None
  | Some d =>
      let* index := chunk_at (chunk_oid_lookup m) (u32 (hdr_hash_len m * n)) in
      let* hash := slice (data m) index (hdr_hash_len m) in
      Ok (Some {| oid := hash; pack_int_id := d_pack_int_id d;
                  offset := d_offset d; pack_mtime := 0 |})
  end.

(** [nth_midxed_object_oid] (lines 725-736). *)
Definition nth_midxed_object_oid (m : midxed_git) (n : Z)
  : outcome (option object_id) :=
  let* e := nth_midxed_object_entry m n in
  Ok (option_map oid e).

(** The [while (first < last)] of [bsearch_midx].  The fuel bounds the
    number of iterations; [bsearch_midx] passes [last - first], which the
    loop never exhausts. *)
Fixpoint bsearch_loop (fuel : nat) (m : midxed_git) (sha1 : list byte)
    (first last : Z) : outcome (bool * Z) :=
  if first <? last then
    match fuel with
    | O => Unfinished
    | S fuel' =>
        let mid := u32 (first + (last - first) / 2) in
        let* current := chunk_at (chunk_oid_lookup m) (u32 (hdr_hash_len m * mid)) in
        let* cur := slice (data m) current GIT_MAX_RAWSZ in
        let cmp := hashcmp sha1 cur in
        if cmp =? 0 then Ok (true, mid)
        else if cmp >? 0 then bsearch_loop fuel' m sha1 (u32 (mid + 1)) last
        else bsearch_loop fuel' m sha1 first mid
    end
  else Ok (false, first).

(** [bsearch_midx] (lines 738-766): whether [sha1] was found, and [*pos]. *)
Definition bsearch_midx (m : midxed_git) (sha1 : list byte) : outcome (bool * Z) :=
  let b := hash0 sha1 in
  let* first :=
    (if negb (b =? 0)
     then let* p := chunk_at (chunk_oid_fanout m) (4 * (b - 1)) in
          read_be32 (data m) p
     else Ok 0) in
  let* p := chunk_at (chunk_oid_fanout m) (4 * b) in
  let* last := read_be32 (data m) p in
  bsearch_loop (Z.to_nat (last - first)) m sha1 first last.

(** The lookup path at the head of [find_pack_entry_midx] (lines 797-799):
    [bsearch_midx] followed by [nth_midxed_object_details]; [Ok None] is
    the miss ([return 0]). *)
Definition lookup_details (m : midxed_git) (o : object_id)
  : outcome (option pack_midx_details) :=
  let* (found, pos) := bsearch_midx m o in
  if negb found then Ok None
  else nth_midxed_object_details m pos.

(* ===================================================================== *)
(** * midx.c: the verifier (lines 768-787, 1306-1447) *)
(* ===================================================================== *)

(** Modelled from the spec: [struct packed_git] and the pack-index
    accessors [open_pack_index], [find_pack_entry_pos] and
    [nth_packed_object_offset] (packfile.c, not under src/).  The spec has
    the verifier "open its pack's index and confirm the recorded offset
    equals the pack-index's offset for that OID": a pack is the table of
    its index, whether the table is loaded, and what opening it returns. *)
Record packed_git := {
  index_data : bool;
  open_pack_index : Z;
  idx_entries : list (object_id * Z)
}.

Fixpoint find_pack_entry_pos_from (sha1 : list byte)
    (entries : list (object_id * Z)) (pos : Z) : option Z :=
  match entries with
  | [] => None
  | (o, _) :: rest =>
      if hashcmp sha1 o =? 0 then Some pos
      else find_pack_entry_pos_from sha1 rest (pos + 1)
  end.

Definition find_pack_entry_pos (sha1 : list byte) (p : packed_git) : option Z :=
  find_pack_entry_pos_from sha1 (idx_entries p) 0.

Definition nth_packed_object_offset (p : packed_git) (pos : Z) : outcome Z :=
  let* e := array_get (idx_entries p) pos in Ok (snd e).

(** The surroundings of the verifier: the byte order of the host, the
    size of a page of its memory mappings, the pack directory, and
    [add_packed_git] (packfile.c), which opens a pack index by name or
    fails. *)
Record verify_env := {
  little_endian_host : bool;
  page_size : Z;
  pack_dir : cstring;
  add_packed_git : cstring -> option packed_git
}.

(** The C string at the head of [bs], when a NUL ends it there. *)
Fixpoint c_str (bs : list byte) : option cstring :=
  match bs with
  | [] => None
  | b :: rest =>
      if byte.unsigned b =? 0 then Some []
      else match c_str rest with
           | Some s => Some (b :: s)
           | None => None
           end
  end.

(** The C string that starts at [data + off], as [strlen] and [strcmp]
    read it.  The file is mapped in whole pages, and behind the last byte
    of the file the last page reads as zeros: a string that no NUL ends
    inside the file ends with the file, unless the file fills its last
    page; then the read leaves the mapping.  A page size of 1 stands for
    a mapping without such a tail, and a page size that is not positive
    for no mapping at all. *)
Definition cstring_at (page_size : Z) (data : list byte) (off : Z)
  : outcome cstring :=
  match c_str (drop (Z.to_nat off) data) with
  | Some s => Ok s
  | None =>
      if (page_size <=? 0) || (Z.of_nat (length data) mod page_size =? 0)
      then Fault
      else Ok (drop (Z.to_nat off) data)
  end.

(** [strbuf_strip_suffix(sb, suffix)]. *)
Definition strbuf_strip_suffix (sb suffix : cstring) : cstring :=
  let n := (length sb - length suffix)%nat in
  if (length suffix <=? length sb)%nat && (memcmp (drop n sb) suffix =? 0)
  then take n sb else sb.

(** [m->hdr->num_packs] read without [ntohl]: in host byte order. *)
Definition hdr_num_packs (env : verify_env) (m : midxed_git) : outcome Z :=
  let* bs := slice (data m) 12 4 in
  Ok (if little_endian_host env then le_combine bs else get_be32 bs).

(** [prepare_midx_pack] (lines 768-787) on the array [m->packs]: the
    returned flag and the array afterwards. *)
Definition prepare_midx_pack (env : verify_env) (m : midxed_git)
    (packs : list (option packed_git)) (pack_int_id : Z)
  : outcome (Z * list (option packed_git)) :=
  let* raw := hdr_num_packs env m in
  if pack_int_id >=? raw then Ok (1, packs)
  else
    let* slot := array_get packs pack_int_id in
    match slot with
    | Some _ => Ok (0, packs)
    | None =>
        let* name_ptr := array_get (pack_names m) pack_int_id in
        let* name := cstring_at (page_size env) (data m) name_ptr in
        let pack_name := pack_dir env ++ list_byte_of_string "/" ++ name in
        let pack_name := strbuf_strip_suffix pack_name (list_byte_of_string ".pack") in
        let pack_name := pack_name ++ list_byte_of_string ".idx" in
        let p := add_packed_git env pack_name in
        let* packs' := array_set packs pack_int_id p in
        Ok (match p with Some _ => 0 | None => 1 end, packs')
    end.

(** The state of [midx_verify]: the file-scope flag [verify_midx_error],
    the lines [midx_report] has printed, and [m->packs]. *)
Record verify_state := {
  verify_midx_error : Z;
  reports : list string;
  packs : list (option packed_git)
}.

(** [midx_report(...)]. *)
Definition midx_report (st : verify_state) (msg : string) : verify_state :=
  {| verify_midx_error := 1; reports := reports st ++ [msg]; packs := packs st |}.

Definition set_packs (st : verify_state) (ps : list (option packed_git))
  : verify_state :=
  {| verify_midx_error := verify_midx_error st; reports := reports st;
     packs := ps |}.

(** [midx_report] with the name of pack [i] as its [%s] argument: the name
    is read out of the file. *)
Definition report_pack (env : verify_env) (m : midxed_git) (i : Z)
    (st : verify_state) (msg : string) : outcome verify_state :=
  let* name_ptr := array_get (pack_names m) i in
  let* _ := cstring_at (page_size env) (data m) name_ptr in
  Ok (midx_report st msg).

(** The first loop of [midx_verify], over the packs (lines 1374-1385). *)
Fixpoint verify_packs (env : verify_env) (m : midxed_git) (n : nat) (i : Z)
    (st : verify_state) : outcome verify_state :=
  match n with
  | O => Ok st
  | S n' =>
      let* (failed, ps) := prepare_midx_pack env m (packs st) i in
      let st := set_packs st ps in
      if negb (failed =? 0) then
        let* st := report_pack env m i st "failed to prepare pack" in
        verify_packs env m n' (i + 1) st
      else
        let* slot := array_get (packs st) i in
        match slot with
        | None => Fault
        | Some p =>
            let* st :=
              if negb (index_data p) && negb (open_pack_index p =? 0)
              then report_pack env m i st "failed to open index for pack"
              else Ok st in
            verify_packs env m n' (i + 1) st
        end
  end.

(** The [while (cur_oid.hash[0] > cur_fanout_pos)] of the object loop:
    the new [cur_fanout_pos] and the state. *)
Fixpoint verify_fanout (m : midxed_git) (fanout : Z) (fuel : nat)
    (first_byte i cur_fanout_pos : Z) (st : verify_state)
  : outcome (Z * verify_state) :=
  if first_byte >? cur_fanout_pos then
    match fuel with
    | O => Unfinished
    | S fuel' =>
        let* fanout_value := read_be32 (data m) (fanout + cur_fanout_pos * 4) in
        let st :=
          if negb (i =? fanout_value)
          then midx_report st "midx has incorrect fanout value"
          else st in
        verify_fanout m fanout fuel' first_byte i (u32 (cur_fanout_pos + 1)) st
    end
  else Ok (cur_fanout_pos, st).

(** The body of the object loop after the order check (lines 1414-1439). *)
Definition verify_object (m : midxed_git) (i : Z) (cur_oid : object_id)
    (st : verify_state) : outcome verify_state :=
  let* details := nth_midxed_object_details m i in
  match details with
  | None => Ok (midx_report st "nth_midxed_object_details failed")
  | Some details =>
      let pack_id := d_pack_int_id details in
      if pack_id >=? num_packs m
      then Ok (midx_report st "pack-int-id for object is invalid")
      else
        let* slot := array_get (packs st) pack_id in
        match slot with
        | None => Fault
        | Some p =>
            match find_pack_entry_pos cur_oid p with
            | None =>
                Ok (midx_report st "midx contains object not present in packfile")
            | Some index_pos =>
                let* pack_offset := nth_packed_object_offset p index_pos in
                if negb (d_offset details =? pack_offset)
                then Ok (midx_report st "midx has incorrect offset")
                else Ok st
            end
        end
  end.

(** The second loop of [midx_verify], over the objects (lines 1390-1440). *)
Fixpoint verify_objects (m : midxed_git) (fanout lookup : Z) (n : nat) (i : Z)
    (cur_fanout_pos : Z) (prev_oid : object_id) (st : verify_state)
  : outcome verify_state :=
  match n with
  | O => Ok st
  | S n' =>
      let* cur_oid := slice (data m) (lookup + u32 (hdr_hash_len m * i)) GIT_MAX_RAWSZ in
      let* (cur_fanout_pos, st) :=
        verify_fanout m fanout 256 (hash0 cur_oid) i cur_fanout_pos st in
      let st :=
        if negb (i =? 0) && (oidcmp prev_oid cur_oid >=? 0)
        then midx_report st "midx has incorrect OID order"
        else st in
      let* st := verify_object m i cur_oid st in
      verify_objects m fanout lookup n' (i + 1) cur_fanout_pos cur_oid st
  end.

Definition checksum_message : string :=
  "the midx file has incorrect checksum and is likely corrupt".

Section Verifier.
Variable hash_fn : list byte -> list byte.

(** [midx_verify] (lines 1322-1447) from the point where the file has
    been loaded.  [error0] is the value of [verify_midx_error] on entry.
    The result is the return value, with the final state. *)
Definition midx_verify_loaded (env : verify_env) (error0 : Z) (m : midxed_git)
  : outcome (Z * verify_state) :=
  let st := {| verify_midx_error := error0; reports := [];
               packs := repeat None (Z.to_nat (num_packs m)) |} in
  let checksum := hash_fn (take (Z.to_nat (data_len m - hdr_hash_len m)) (data m)) in
  let* stored := slice (data m) (data_len m - hdr_hash_len m) GIT_MAX_RAWSZ in
  let '(st, checksum_fail) :=
    if negb (hashcmp checksum stored =? 0) then
      let st := midx_report st checksum_message in
      ({| verify_midx_error := 0; reports := reports st; packs := packs st |}, 1)
    else (st, 0) in
  let st := if negb (hdr_hash_version m =? MIDX_OID_VERSION)
            then midx_report st "invalid hash version" else st in
  let st := if negb (hdr_hash_len m =? MIDX_OID_LEN)
            then midx_report st "invalid hash length" else st in
  if negb (verify_midx_error st =? 0)
  then Ok (Z.lor (verify_midx_error st) checksum_fail, st)
  else
    let st := match chunk_oid_lookup m with
              | None => midx_report st "missing OID Lookup chunk"
              | Some _ => st
              end in
    let st := match chunk_object_offsets m with
              | None => midx_report st "missing Object Offset chunk"
              | Some _ => st
              end in
    if negb (verify_midx_error st =? 0)
    then Ok (Z.lor (verify_midx_error st) checksum_fail, st)
    else
      let* st := verify_packs env m (Z.to_nat (num_packs m)) 0 st in
      if negb (verify_midx_error st =? 0)
      then Ok (Z.lor (verify_midx_error st) checksum_fail, st)
      else
        let* fanout := chunk_at (chunk_oid_fanout m) 0 in
        let* lookup := chunk_at (chunk_oid_lookup m) 0 in
        let* st := verify_objects m fanout lookup (Z.to_nat (num_objects m))
                     0 0 [] st in
        Ok (Z.lor (verify_midx_error st) checksum_fail, st).

(** [midx_verify]: [file] is the content of the MIDX file named by
    [midx_id], or of the one [midx-head] names; [None] when there is no
    such file. *)
Definition midx_verify (env : verify_env) (host32 : bool) (error0 : Z)
    (file : option (list byte)) : outcome (Z * verify_state) :=
  let* m := load_midxed_git_one host32 file in
  match m with
  | None =>
      let st := midx_report {| verify_midx_error := error0; reports := [];
                               packs := [] |}
                  "failed to find specified midx file" in
      Ok (Z.lor (verify_midx_error st) 0, st)
  | Some m => midx_verify_loaded env error0 m
  end.
End Verifier.

End Midx.

(* ===================================================================== *)
(** * midx.c, first revision in the file (lines 1-397) *)
(* ===================================================================== *)

(** The writer as [midx.h] declares it: [write_midx_file] receives an array
    of pointers to entries and sorts it itself.  The chunk ids and the
    header constants are the ones of [Midx]. *)
Module MidxRev1.
Import Midx.

(** [midx_oid_compare] (lines 24-29). *)
Definition midx_oid_compare (a b : pack_midx_entry) : Z :=
  oidcmp (oid a) (oid b).

(** [write_midx_chunk_packnames] (lines 44-52). *)
Definition write_midx_chunk_packnames (pack_names : list cstring) : list byte :=
  flat_map (fun n => n ++ [Byte.x00]) pack_names.

(** [write_midx_chunk_oidfanout] (lines 54-91): the loops of the later
    revision, on the pointer array. *)
Definition write_midx_chunk_oidfanout (objects : list pack_midx_entry)
  : list byte :=
  fanout_loop 256 0 objects 0.

(** [write_midx_chunk_oidlookup] (lines 93-110). *)
Fixpoint oidlookup_loop (hash_len : Z) (last_oid : option object_id)
    (lst : list pack_midx_entry) : list byte :=
  match lst with
  | [] => []
  | obj :: rest =>
      if match last_oid with
         | Some l => oidcmp l (oid obj) =? 0
         | None => false
         end
      then oidlookup_loop hash_len last_oid rest
      else take (Z.to_nat hash_len) (oid obj) ++
           oidlookup_loop hash_len (Some (oid obj)) rest
  end.

Definition write_midx_chunk_oidlookup (hash_len : Z)
    (objects : list pack_midx_entry) : list byte :=
  oidlookup_loop hash_len None objects.

(** [write_midx_chunk_objectoffsets] (lines 112-139). *)
Fixpoint objectoffsets_loop (large_offset_needed : bool) (pack_perm : list Z)
    (last_oid : option object_id) (nr_large_offset : Z)
    (lst : list pack_midx_entry) : outcome (list byte) :=
  match lst with
  | [] => Ok []
  | obj :: rest =>
      if match last_oid with
         | Some l => oidcmp l (oid obj) =? 0
         | None => false
         end
      then objectoffsets_loop large_offset_needed pack_perm last_oid
             nr_large_offset rest
      else
        let* perm := array_get pack_perm (pack_int_id obj) in
        if large_offset_needed && negb (Z.shiftr (offset obj) 31 =? 0) then
          let* bs := objectoffsets_loop large_offset_needed pack_perm
                       (Some (oid obj)) (u32 (nr_large_offset + 1)) rest in
          Ok (be32 perm ++
              be32 (Z.lor MIDX_LARGE_OFFSET_NEEDED nr_large_offset) ++ bs)
        else
          let* bs := objectoffsets_loop large_offset_needed pack_perm
                       (Some (oid obj)) nr_large_offset rest in
          Ok (be32 perm ++ be32 (u32 (offset obj)) ++ bs)
  end.

Definition write_midx_chunk_objectoffsets (large_offset_needed : bool)
    (objects : list pack_midx_entry) (pack_perm : list Z) : outcome (list byte) :=
  objectoffsets_loop large_offset_needed pack_perm None 0 objects.

(** [write_midx_chunk_largeoffsets] (lines 141-167). *)
Definition write_midx_chunk_largeoffsets (nr_large_offset : Z)
    (objects : list pack_midx_entry) : outcome (list byte) :=
  let* (bs, _) := Midx.write_midx_chunk_largeoffsets nr_large_offset objects in
  Ok bs.

(** The counting loop of [write_midx_file] (lines 241-253) from index
    [i]: [count_distinct], [nr_large_offset], [large_offset_needed]. *)
Fixpoint count_loop (prev : option pack_midx_entry) (lst : list pack_midx_entry)
    (acc : Z * Z * bool) : Z * Z * bool :=
  match lst with
  | [] => acc
  | cur :: rest =>
      let '(count_distinct, nr_large_offset, large_offset_needed) := acc in
      let acc' :=
        match prev with
        | None => acc
        | Some p =>
            if oidcmp (oid p) (oid cur) =? 0 then acc
            else
              (u32 (count_distinct + 1),
               if negb (Z.shiftr (offset cur) 31 =? 0)
               then u32 (nr_large_offset + 1) else nr_large_offset,
               if negb (Z.shiftr (offset cur) 32 =? 0)
               then true else large_offset_needed)
        end in
      count_loop (Some cur) rest acc'
  end.

(** The [switch] of the chunk-writing loop (lines 344-374); an id that is
    none of the six writes nothing. *)
Definition write_chunk (large_offset_needed : bool) (nr_large_offset : Z)
    (pack_names : list cstring) (sorted_by_sha : list pack_midx_entry)
    (pack_perm : list Z) (chunk_id : Z) : outcome (list byte) :=
  if chunk_id =? MIDX_CHUNKID_PACKLOOKUP then
    Ok (fst (write_midx_chunk_packlookup pack_names))
  else if chunk_id =? MIDX_CHUNKID_PACKNAMES then
    Ok (write_midx_chunk_packnames pack_names)
  else if chunk_id =? MIDX_CHUNKID_OIDFANOUT then
    Ok (write_midx_chunk_oidfanout sorted_by_sha)
  else if chunk_id =? MIDX_CHUNKID_OIDLOOKUP then
    Ok (write_midx_chunk_oidlookup MIDX_OID_LEN sorted_by_sha)
  else if chunk_id =? MIDX_CHUNKID_OBJECTOFFSETS then
    write_midx_chunk_objectoffsets large_offset_needed sorted_by_sha pack_perm
  else if chunk_id =? MIDX_CHUNKID_LARGEOFFSETS then
    write_midx_chunk_largeoffsets nr_large_offset sorted_by_sha
  else Ok [].

Fixpoint write_chunks (large_offset_needed : bool) (nr_large_offset : Z)
    (pack_names : list cstring) (sorted_by_sha : list pack_midx_entry)
    (pack_perm : list Z) (chunk_ids : list Z) : outcome (list byte) :=
  match chunk_ids with
  | [] => Ok []
  | chunk_id :: rest =>
      let* bs := write_chunk large_offset_needed nr_large_offset pack_names
                   sorted_by_sha pack_perm chunk_id in
      let* more := write_chunks large_offset_needed nr_large_offset pack_names
                     sorted_by_sha pack_perm rest in
      Ok (bs ++ more)
  end.

(** [chunk_ids] and [chunk_offsets] (lines 312-333).  With large offsets
    [chunk_ids[4]] is assigned twice and [chunk_ids[5]] never:
    [stack_word] is what that slot of the stack held. *)
Definition chunk_plan (stack_word : Z) (large_offset_needed : bool)
    (nr_large_offset nr_packs count_distinct total_name_len : Z)
  : list (Z * Z) :=
  let num_chunks := if large_offset_needed then 6 else 5 in
  let o0 := 16 + 12 * (num_chunks + 1) in
  let o1 := u64 (o0 + u32 (nr_packs * 4)) in
  let o2 := u64 (o1 + 256 * 4) in
  let o3 := u64 (o2 + u64 (count_distinct * MIDX_OID_LEN)) in
  let o4 := u64 (o3 + u64 (8 * count_distinct)) in
  if large_offset_needed then
    let o5 := u64 (o4 + u64 (8 * nr_large_offset)) in
    let o6 := u64 (o5 + total_name_len) in
    [(MIDX_CHUNKID_PACKLOOKUP, o0); (MIDX_CHUNKID_OIDFANOUT, o1);
     (MIDX_CHUNKID_OIDLOOKUP, o2); (MIDX_CHUNKID_OBJECTOFFSETS, o3);
     (MIDX_CHUNKID_PACKNAMES, o4); (stack_word, o5); (0, o6)]
  else
    let o5 := u64 (o4 + total_name_len) in
    [(MIDX_CHUNKID_PACKLOOKUP, o0); (MIDX_CHUNKID_OIDFANOUT, o1);
     (MIDX_CHUNKID_OIDLOOKUP, o2); (MIDX_CHUNKID_OBJECTOFFSETS, o3);
     (MIDX_CHUNKID_PACKNAMES, o4); (0, o5)].

Section Writer.
Variable hash_fn : list byte -> list byte.

(** [write_midx_file] (lines 201-397). *)
Definition write_midx_file (stack_word : Z) (core_midx : bool)
    (pack_names : list cstring) (objects : list pack_midx_entry)
  : outcome (option (list byte)) :=
  if negb core_midx then Ok None
  else
    let nr_packs := Z.of_nat (length pack_names) in
    (* Sort packs *)
    let* (pack_names, pack_perm) :=
      (if nr_packs =? 0 then Ok (pack_names, []) else sort_packs_by_name pack_names) in
    (* Sort objects *)
    let sorted_by_sha := QSORT midx_oid_compare objects in
    let '(count_distinct, nr_large_offset, large_offset_needed) :=
      match sorted_by_sha with
      | [] => (0, 0, false)
      | _ :: _ => count_loop None sorted_by_sha (1, 0, false)
      end in
    let total_name_len :=
      fold_left (fun acc n => s32 (acc + (strlen n + 1))) pack_names 0 in
    let num_chunks := if large_offset_needed then 6 else 5 in
    let hdr := header_bytes num_chunks nr_packs in
    let chunks := chunk_plan stack_word large_offset_needed nr_large_offset
                    nr_packs count_distinct total_name_len in
    let table := chunk_table_bytes chunks in
    let* payload := write_chunks large_offset_needed nr_large_offset
                      pack_names sorted_by_sha pack_perm
                      (take (Z.to_nat num_chunks) (map fst chunks)) in
    let f := hdr ++ table ++ payload in
    Ok (Some (f ++ hash_fn f)).
End Writer.

End MidxRev1.

(* ===================================================================== *)
(** * sparse-index.c: data model *)
(* ===================================================================== *)

Module SparseIndex.

Definition object_id := list byte.

(** [S_IFMT], [S_ISDIR] and [S_ISGITLINK] (cache.h, not under src/): octal
    0170000, 0040000 and 0160000. *)
Definition S_IFMT : Z := 0xF000.
Definition S_IFDIR : Z := 0x4000.
Definition S_IFGITLINK : Z := 0xE000.
Definition S_ISDIR (mode : Z) : bool := Z.land mode S_IFMT =? S_IFDIR.
Definition S_ISGITLINK (mode : Z) : bool := Z.land mode S_IFMT =? S_IFGITLINK.

(** Modelled from the spec: [struct cache_entry] (cache.h, not under src/).
    The spec's index entry "at minimum carries: path, file mode, OID,
    skip-worktree bit, stage number"; [skip_worktree] is the bit
    [CE_SKIP_WORKTREE] of [ce_flags], [ce_stage] what [ce_stage(ce)] reads. *)
Record cache_entry := {
  name : cstring;
  ce_mode : Z;
  oid : object_id;
  ce_stage : Z;
  skip_worktree : bool
}.

(** Modelled from the spec: [SPARSE_DIR_MODE] and [S_ISSPARSEDIR] (cache.h,
    not under src/): a sparse-directory entry is one "whose mode denotes a
    tree object". *)
Definition SPARSE_DIR_MODE : Z := S_IFDIR.
Definition S_ISSPARSEDIR (ce : cache_entry) : bool := S_ISDIR (ce_mode ce).

(** Modelled from the spec: [make_cache_entry(istate, mode, oid, path, stage,
    0)] (read-cache.c, not under src/): "a new index entry with the blob's
    mode, OID, and full path". *)
Definition make_cache_entry (mode : Z) (o : object_id) (path : cstring)
    (stage : Z) : cache_entry :=
  {| name := path; ce_mode := mode; oid := o; ce_stage := stage;
     skip_worktree := false |}.

(** [ce->ce_flags |= CE_SKIP_WORKTREE]. *)
Definition set_skip_worktree (ce : cache_entry) : cache_entry :=
  {| name := name ce; ce_mode := ce_mode ce; oid := oid ce;
     ce_stage := ce_stage ce; skip_worktree := true |}.

(** Modelled from the spec: [struct cache_tree] and [struct cache_tree_sub]
    (cache-tree.h, not under src/): "nodes { path, oid, entry_count,
    children[] }"; a child carries its directory name. *)
#[local] Unset Elimination Schemes.
Inductive cache_tree := CacheTree {
  entry_count : Z;
  ct_oid : object_id;
  down : list (cstring * cache_tree)
}.

#[local] Set Elimination Schemes.

(** Modelled from the spec: [cache_tree_subtree_pos] (cache-tree.c, not
    under src/), "binary-searching a subdirectory by name among the
    children": the position of the child named [path], negative when there
    is none. *)
Fixpoint subtree_pos_from (children : list (cstring * cache_tree))
    (path : cstring) (pos : Z) : Z :=
  match children with
  | [] => -1
  | (n, _) :: rest =>
      if bool_decide (n = path) then pos else subtree_pos_from rest path (pos + 1)
  end.

Definition cache_tree_subtree_pos (ct : cache_tree) (path : cstring) : Z :=
  subtree_pos_from (down ct) path 0.

(** [enum pattern_match_result] (dir.h, not under src/). *)
Inductive pattern_match_result :=
| UNDECIDED
| NOT_MATCHED
| MATCHED
| MATCHED_RECURSIVE.

(** [struct pattern_list] (dir.h, not under src/), as far as sparse-index.c
    uses it: the cone-mode flag, and what [path_matches_pattern_list]
    answers for a path. *)
Record pattern_list := {
  use_cone_patterns : bool;
  path_matches_pattern_list : cstring -> pattern_match_result
}.

(** Modelled from the spec: tree objects (tree.c, not under src/).  An item
    of a tree has a mode, a name and an object id; for a directory, [sub] is
    the tree that [oid] names in the object store, when it is there. *)
Inductive tree := Tree (items : list tree_item)
with tree_item := TreeItem (mode : Z) (item_name : cstring) (item_oid : object_id)
                           (sub : option tree).

(** [struct index_state] (cache.h, not under src/), as far as sparse-index.c
    uses it.  [cache] holds every allocated slot of the array, of which the
    first [cache_nr] are the entries; [repo_sparse_index] is
    [istate->repo->settings.sparse_index]. *)
Record index_state := {
  cache : list cache_entry;
  cache_nr : Z;
  sparse_index : bool;
  split_index : bool;
  sparse_checkout_patterns : option pattern_list;
  index_cache_tree : option cache_tree;
  drop_cache_tree : bool;
  fsmonitor : bool;
  repo_sparse_index : bool
}.

(** What sparse-index.c takes from outside: the two configuration globals,
    the environment variable [GIT_TEST_SPARSE_INDEX], the results of
    [upgrade_repository_format] and [get_sparse_checkout_patterns], the
    cache tree that [cache_tree_update] computes for the entries ([None]
    when it fails), and [lookup_tree] on the object store. *)
Record sparse_env := {
  core_apply_sparse_checkout : bool;
  core_sparse_checkout_cone : bool;
  GIT_TEST_SPARSE_INDEX : option bool;
  upgrade_repository_format : Z;
  get_sparse_checkout_patterns : option pattern_list;
  cache_tree_update : list cache_entry -> option cache_tree;
  lookup_tree : object_id -> option tree
}.

(* ===================================================================== *)
(** * sparse-index.c: the contractor (lines 12-188) *)
(* ===================================================================== *)

(** [construct_sparse_dir_entry] (lines 12-23). *)
Definition construct_sparse_dir_entry (sparse_dir : cstring) (tree : cache_tree)
  : cache_entry :=
  let de := make_cache_entry SPARSE_DIR_MODE (ct_oid tree) sparse_dir 0 in
  set_skip_worktree de.

Definition slash : byte := Byte.x2f.

(** [strchr(s, '/')]: the position of the first slash. *)
Fixpoint strchr_slash (s : cstring) : option Z :=
  match s with
  | [] => None
  | c :: rest =>
      if bool_decide (c = slash) then Some 0
      else option_map Z.succ (strchr_slash rest)
  end.

(** The first loop of [convert_to_sparse_rec] (lines 51-58), [n] entries
    from index [i]. *)
Fixpoint scan_span (cache : list cache_entry) (n : nat) (i : Z)
    (can_convert : bool) : outcome bool :=
  match n with
  | O => Ok can_convert
  | S n' =>
      if negb can_convert then Ok false
      else
        let* ce := array_get cache i in
        let can_convert :=
          if negb (ce_stage ce =? 0) || S_ISGITLINK (ce_mode ce)
             || negb (skip_worktree ce)
          then false else can_convert in
        scan_span cache n' (i + 1) can_convert
  end.

(** [convert_to_sparse_rec] (lines 28-103) on the array [istate->cache]: the
    array afterwards and the number of entries written.  [convert_loop] is
    its second loop (lines 68-99).  A cache tree whose counts do not fit the
    entries can keep the loop from ending, hence the fuel. *)
Fixpoint convert_to_sparse_rec (fuel : nat) (pl : pattern_list)
    (cache : list cache_entry) (num_converted start end_ : Z)
    (ct_path : cstring) (ct : cache_tree) {struct fuel}
  : outcome (list cache_entry * Z) :=
  match fuel with
  | O => Unfinished
  | S fuel' =>
      let start_converted := num_converted in
      let can_convert :=
        match path_matches_pattern_list pl ct_path with
        | NOT_MATCHED => true
        | _ => false
        end in
      let* can_convert := scan_span cache (Z.to_nat (end_ - start)) start can_convert in
      if can_convert then
        let se := construct_sparse_dir_entry ct_path ct in
        let* cache := array_set cache num_converted se in
        Ok (cache, 1)
      else
        convert_loop fuel' pl cache num_converted start end_ ct_path ct
          start_converted
  end
with convert_loop (fuel : nat) (pl : pattern_list)
    (cache : list cache_entry) (num_converted i end_ : Z)
    (ct_path : cstring) (ct : cache_tree) (start_converted : Z) {struct fuel}
  : outcome (list cache_entry * Z) :=
  if i <? end_ then
    match fuel with
    | O => Unfinished
    | S fuel' =>
        let* ce := array_get cache i in
        let ct_pathlen := strlen ct_path in
        if strlen (name ce) <? ct_pathlen then Fault
        else
          let base := drop (Z.to_nat ct_pathlen) (name ce) in
          let slash_pos := strchr_slash base in
          let pos :=
            match slash_pos with
            | Some len => cache_tree_subtree_pos ct (take (Z.to_nat len) base)
            | None => -1
            end in
          match slash_pos with
          | Some len =>
              if pos <? 0 then
                let* cache := array_set cache num_converted ce in
                convert_loop fuel' pl cache (num_converted + 1) (i + 1) end_
                  ct_path ct start_converted
              else
                let child_path := take (Z.to_nat (ct_pathlen + len + 1)) (name ce) in
                let* sub := array_get (down ct) pos in
                let span := entry_count (snd sub) in
                let* (cache, count) :=
                  convert_to_sparse_rec fuel' pl cache num_converted i (i + span)
                    child_path (snd sub) in
                convert_loop fuel' pl cache (num_converted + count) (i + span)
                  end_ ct_path ct start_converted
          | None =>
              let* cache := array_set cache num_converted ce in
              convert_loop fuel' pl cache (num_converted + 1) (i + 1) end_
                ct_path ct start_converted
          end
    end
  else Ok (cache, num_converted - start_converted).

(** [set_sparse_index_config] with [enable_sparse_index] (lines 105-134):
    the new value of [repo->settings.sparse_index]. *)
Definition set_sparse_index_config (env : sparse_env) (repo_sparse_index : bool)
    (enable : bool) : bool :=
  if enable then
    if upgrade_repository_format env <? 0 then repo_sparse_index else true
  else false.

Definition with_patterns (istate : index_state) (pl : option pattern_list)
    (repo : bool) : index_state :=
  {| cache := cache istate; cache_nr := cache_nr istate;
     sparse_index := sparse_index istate; split_index := split_index istate;
     sparse_checkout_patterns := pl;
     index_cache_tree := index_cache_tree istate;
     drop_cache_tree := drop_cache_tree istate;
     fsmonitor := fsmonitor istate; repo_sparse_index := repo |}.

(** [convert_to_sparse] (lines 136-188): the return value and the index
    afterwards. *)
Definition convert_to_sparse (fuel : nat) (env : sparse_env)
    (istate : index_state) : outcome (Z * index_state) :=
  if split_index istate || sparse_index istate
     || negb (core_apply_sparse_checkout env)
     || negb (core_sparse_checkout_cone env)
  then Ok (0, istate)
  else
    let repo :=
      match GIT_TEST_SPARSE_INDEX env with
      | Some test_env => set_sparse_index_config env (repo_sparse_index istate) test_env
      | None => repo_sparse_index istate
      end in
    let istate := with_patterns istate (sparse_checkout_patterns istate) repo in
    (* Only convert to sparse if extensions.sparseIndex is set. *)
    if negb repo then Ok (0, istate)
    else
      match
        match sparse_checkout_patterns istate with
        | Some pl => Some pl
        | None => get_sparse_checkout_patterns env
        end
      with
      | None => Ok (0, istate)
      | Some pl =>
          let istate := with_patterns istate (Some pl) repo in
          if negb (use_cone_patterns pl) then Ok (-1, istate)
          else
            match cache_tree_update env (take (Z.to_nat (cache_nr istate)) (cache istate)) with
            | None => Ok (-1, istate)
            | Some ct =>
                let* (cache', n) :=
                  convert_to_sparse_rec fuel pl (cache istate) 0 0
                    (cache_nr istate) [] ct in
                Ok (0, {| cache := cache'; cache_nr := n;
                          sparse_index := true;
                          split_index := split_index istate;
                          sparse_checkout_patterns := Some pl;
                          index_cache_tree := Some ct;
                          drop_cache_tree := true;
                          fsmonitor := false;
                          repo_sparse_index := repo |})
            end
      end.

(* ===================================================================== *)
(** * sparse-index.c: the expander (lines 190-282) *)
(* ===================================================================== *)

(** [add_path_to_index] (lines 198-217) as the callback of
    [read_tree_recursive]: a directory asks for recursion and adds nothing,
    anything else is appended with [CE_SKIP_WORKTREE] set. *)
Definition add_path_to_index (o : object_id) (base path : cstring) (mode : Z)
  : option cache_entry :=
  if S_ISDIR mode then None
  else Some (set_skip_worktree (make_cache_entry mode o (base ++ path) 0)).

(** Modelled from the spec: [read_tree_recursive] (tree.c, not under src/)
    with the all-matching pathspec that [ensure_full_index] builds: the tree
    is read "recursively", and the callback sees every item with the
    directory prefix in [base]. *)
Fixpoint read_tree_recursive (t : tree) (base : cstring) : list cache_entry :=
  match t with
  | Tree items =>
      (fix walk (items : list tree_item) : list cache_entry :=
         match items with
         | [] => []
         | TreeItem mode n o sub :: rest =>
             match add_path_to_index o base n mode with
             | Some ce => ce :: walk rest
             | None =>
                 match sub with
                 | Some t' => read_tree_recursive t' (base ++ n ++ [slash]) ++ walk rest
                 | None => walk rest
                 end
             end
         end) items
  end.

(** The loop of [ensure_full_index] (lines 242-270) over the entries. *)
Fixpoint expand_entries (env : sparse_env) (entries : list cache_entry)
  : list cache_entry :=
  match entries with
  | [] => []
  | ce :: rest =>
      if negb (S_ISSPARSEDIR ce) then ce :: expand_entries env rest
      else
        match lookup_tree env (oid ce) with
        | Some t => read_tree_recursive t (name ce) ++ expand_entries env rest
        | None => expand_entries env rest
        end
  end.

(** [ensure_full_index] (lines 219-282).  The new array is as long as its
    entries: the slots that [ALLOC_ARRAY] leaves behind them are not
    represented. *)
Definition ensure_full_index (env : sparse_env) (istate : index_state)
  : index_state :=
  if negb (sparse_index istate) then istate
  else
    let full := expand_entries env (take (Z.to_nat (cache_nr istate)) (cache istate)) in
    {| cache := full; cache_nr := Z.of_nat (length full);
       sparse_index := false;
       split_index := split_index istate;
       sparse_checkout_patterns := sparse_checkout_patterns istate;
       index_cache_tree := index_cache_tree istate;
       drop_cache_tree := drop_cache_tree istate;
       fsmonitor := fsmonitor istate;
       repo_sparse_index := repo_sparse_index istate |}.

End SparseIndex.


(* ===================================================================== *)
(** * Notions used to state the properties of the MIDX code *)
(* ===================================================================== *)

(** Neighbours are in the order of the comparator. *)
Fixpoint in_order {A : Type} (cmp : A -> A -> Z) (l : list A) : Prop :=
  match l with
  | [] => True
  | a :: rest =>
      match rest with
      | [] => True
      | b :: _ => cmp a b <= 0
      end /\ in_order cmp rest
  end.

Module MidxSpec.
Import Midx.

(** An object id fills the [hash] array. *)
Definition wf_oid (o : object_id) : Prop := length o = 20%nat.

(** A C string holds no NUL. *)
Definition nul_free (s : cstring) : Prop := Forall (fun b => b <> Byte.x00) s.

(** The bytes the pack names occupy with their terminators. *)
Definition names_size (names : list cstring) : Z :=
  fold_right (fun n acc => strlen n + 1 + acc) 0 names.

(** An entry as [write_midx_file] can receive it for [nr_packs] packs:
    a full object id, a pack id that names one of the packs, and a
    non-negative [off_t]. *)
Definition wf_entry (nr_packs : Z) (e : pack_midx_entry) : Prop :=
  wf_oid (oid e) /\ 0 <= pack_int_id e < nr_packs /\ 0 <= offset e < 2 ^ 63.

(** Entries in strictly ascending order of object id. *)
Definition oid_lt (a b : pack_midx_entry) : Prop := oidcmp (oid a) (oid b) < 0.

Fixpoint ascending (l : list pack_midx_entry) : Prop :=
  match l with
  | [] => True
  | a :: rest =>
      match rest with
      | [] => True
      | b :: _ => oid_lt a b
      end /\ ascending rest
  end.

(** How many of the object ids have a first byte of at most [i]. *)
Definition count_le (oids : list object_id) (i : Z) : Z :=
  Z.of_nat (length (List.filter (fun o => hash0 o <=? i) oids)).

(** The offset needs the escape: [offset >> 31] is not zero. *)
Definition is_large (e : pack_midx_entry) : bool :=
  negb (Z.shiftr (offset e) 31 =? 0).


(** How many of the first [k] entries need the escape. *)
Definition large_before (l : list pack_midx_entry) (k : nat) : Z :=
  Z.of_nat (length (List.filter is_large (take k l))).

(** The pack id after the sort, for an entry whose pack id is in range. *)
Definition perm_at (perm : list Z) (e : pack_midx_entry) : Z :=
  default 0 (perm !! Z.to_nat (pack_int_id e)).

(** The offset word of an entry when [c] escapes precede it. *)
Definition offset_word (large : bool) (c : Z) (e : pack_midx_entry) : Z :=
  if large && is_large e then Z.lor MIDX_LARGE_OFFSET_NEEDED c
  else u32 (offset e).

(** The records of the Object Offsets chunk, counting escapes from [c]. *)
Fixpoint ooff_records (large : bool) (perm : list Z) (c : Z)
    (l : list pack_midx_entry) : list (list byte) :=
  match l with
  | [] => []
  | e :: rest =>
      (be32 (perm_at perm e) ++ be32 (offset_word large c e)) ::
      ooff_records large perm (if large && is_large e then c + 1 else c) rest
  end.

(** The record of the Large Offsets chunk for an entry. *)
Definition loff_record (e : pack_midx_entry) : list byte :=
  be32 (Z.shiftr (offset e) 32) ++ be32 (Z.land (offset e) 0xffffffff).

(** Where each pack name starts in the Pack Names chunk, from [c]. *)
Fixpoint name_starts (c : Z) (names : list cstring) : list Z :=
  match names with
  | [] => []
  | n :: rest => c :: name_starts (c + (strlen n + 1)) rest
  end.

(** Pack names in strictly ascending [strcmp] order. *)
Fixpoint names_ascending (names : list cstring) : Prop :=
  match names with
  | [] => True
  | a :: rest =>
      match rest with
      | [] => True
      | b :: _ => strcmp a b < 0
      end /\ names_ascending rest
  end.

(** The remembered pack name is below the one at the head. *)
Definition prev_below (prev : option cstring) (names : list cstring) : Prop :=
  match prev, names with
  | Some p, n :: _ => strcmp p n < 0
  | _, _ => True
  end.

(** All entries carry full object ids. *)
Definition wf_oids (l : list pack_midx_entry) : Prop :=
  Forall (fun e => wf_oid (oid e)) l.

(** Entries by the place of their first byte relative to a bucket. *)
Definition bucket_eq (i : Z) (e : pack_midx_entry) : bool := hash0 (oid e) =? i.
Definition bucket_gt (i : Z) (e : pack_midx_entry) : bool := i <? hash0 (oid e).
Definition bucket_le (i : Z) (e : pack_midx_entry) : bool := hash0 (oid e) <=? i.


(** The remembered object id differs from the one at the head. *)
Definition last_differs (last : option object_id) (l : list pack_midx_entry) : Prop :=
  match last, l with
  | Some o, e :: _ => oidcmp o (oid e) <> 0
  | _, _ => True
  end.

(** ** The file that [write_midx_file] produces, chunk by chunk *)

Definition large_needed (objs : list pack_midx_entry) : bool :=
  existsb (fun o => 0xffffffff <? offset o) objs.

Definition nr_chunks (objs : list pack_midx_entry) : Z :=
  if large_needed objs then 6 else 5.

Definition off_ploo (objs : list pack_midx_entry) : Z :=
  16 + 12 * (nr_chunks objs + 1).
Definition off_oidf (names : list cstring) (objs : list pack_midx_entry) : Z :=
  off_ploo objs + 4 * Z.of_nat (length names).
Definition off_oidl (names : list cstring) (objs : list pack_midx_entry) : Z :=
  off_oidf names objs + 1024.
Definition off_ooff (names : list cstring) (objs : list pack_midx_entry) : Z :=
  off_oidl names objs + 20 * Z.of_nat (length objs).
Definition off_loff (names : list cstring) (objs : list pack_midx_entry) : Z :=
  off_ooff names objs + 8 * Z.of_nat (length objs).
Definition off_pnam (names : list cstring) (objs : list pack_midx_entry) : Z :=
  off_loff names objs +
  (if large_needed objs
   then 8 * Z.of_nat (length (List.filter is_large objs)) else 0).
Definition off_end (names : list cstring) (objs : list pack_midx_entry) : Z :=
  off_pnam names objs + names_size names.

Definition image_plan (names : list cstring) (objs : list pack_midx_entry)
  : list (Z * Z) :=
  if large_needed objs then
    [(MIDX_CHUNKID_PACKLOOKUP, off_ploo objs);
     (MIDX_CHUNKID_OIDFANOUT, off_oidf names objs);
     (MIDX_CHUNKID_OIDLOOKUP, off_oidl names objs);
     (MIDX_CHUNKID_OBJECTOFFSETS, off_ooff names objs);
     (MIDX_CHUNKID_LARGEOFFSETS, off_loff names objs);
     (MIDX_CHUNKID_PACKNAMES, off_pnam names objs);
     (0, off_end names objs)]
  else
    [(MIDX_CHUNKID_PACKLOOKUP, off_ploo objs);
     (MIDX_CHUNKID_OIDFANOUT, off_oidf names objs);
     (MIDX_CHUNKID_OIDLOOKUP, off_oidl names objs);
     (MIDX_CHUNKID_OBJECTOFFSETS, off_ooff names objs);
     (MIDX_CHUNKID_PACKNAMES, off_pnam names objs);
     (0, off_end names objs)].

Definition ploo_image (names : list cstring) : list byte :=
  concat (map be32 (name_starts 0 names)).
Definition oidf_image (objs : list pack_midx_entry) : list byte :=
  fst (write_midx_chunk_oidfanout objs).
Definition oidl_image (objs : list pack_midx_entry) : list byte :=
  concat (map oid objs).
Definition ooff_image (perm : list Z) (objs : list pack_midx_entry) : list byte :=
  concat (ooff_records (large_needed objs) perm 0 objs).
Definition loff_image (objs : list pack_midx_entry) : list byte :=
  if large_needed objs
  then concat (map loff_record (List.filter is_large objs)) else [].
Definition pnam_image (names : list cstring) : list byte :=
  concat (map (fun n => n ++ [Byte.x00]) names).

(** The file up to the end of the offsets, for sorted [names] and the
    permutation [perm]. *)
Definition midx_body (names : list cstring) (perm : list Z)
    (objs : list pack_midx_entry) : list byte :=
  header_bytes (nr_chunks objs) (Z.of_nat (length names)) ++
  chunk_table_bytes (image_plan names objs) ++
  ploo_image names ++ oidf_image objs ++ oidl_image objs ++
  ooff_image perm objs ++ loff_image objs.

(** Everything before the trailing hash. *)
Definition midx_image (names : list cstring) (perm : list Z)
    (objs : list pack_midx_entry) : list byte :=
  midx_body names perm objs ++ pnam_image names.


(** The pairs that [sort_packs_by_name] sorts. *)
Definition pairs_of (names : list cstring) : list pack_pair :=
  imap (fun i n => {| pp_pack_int_id := Z.of_nat i; pp_pack_name := n |}) names.

(** A pair holds a position and the name at that position. *)
Definition pair_ok (names : list cstring) (p : pack_pair) : Prop :=
  0 <= pp_pack_int_id p /\
  names !! Z.to_nat (pp_pack_int_id p) = Some (pp_pack_name p).

(** The sizes the arithmetic of [write_midx_file] can carry. *)
Definition sizes_ok (names : list cstring) (objs : list pack_midx_entry) : Prop :=
  Z.of_nat (length names) < 2 ^ 30 /\
  names_size names < 2 ^ 31 /\
  Z.of_nat (length objs) < 2 ^ 32.

(** The conditions under which the writer goes through, for the sorted
    names and the permutation. *)
Definition writable (names : list cstring) (perm : list Z)
    (objs : list pack_midx_entry) : Prop :=
  sizes_ok names objs /\
  names_ascending names /\
  length perm = length names /\
  ascending objs /\
  Forall (wf_entry (Z.of_nat (length names))) objs.


(** An entry of the chunk table fits its fields. *)
Definition plan_entry_ok (e : Z * Z) : Prop :=
  0 <= fst e < 2 ^ 32 /\ 0 <= snd e < 2 ^ 64.

(** The chunk pointers after the entries of a chunk table. *)
Definition set_chunks (c : chunk_ptrs) (plan : list (Z * Z)) : chunk_ptrs :=
  fold_left (fun c e => set_chunk c (fst e) (snd e)) plan c.

(** The reader that [load_midxed_git_one] builds for a file laid out as
    the image, when the last fanout entry reads [nobj]. *)
Definition image_reader (file : list byte) (names : list cstring)
    (objs : list pack_midx_entry) (nobj : Z) : midxed_git :=
  {| data := file;
     data_len := Z.of_nat (length file);
     hdr_hash_version := 1;
     hdr_hash_len := 20;
     hdr_num_chunks := nr_chunks objs;
     num_objects := nobj;
     num_packs := Z.of_nat (length names);
     chunk_pack_lookup := Some (off_ploo objs);
     chunk_pack_names := Some (off_pnam names objs);
     chunk_oid_fanout := Some (off_oidf names objs);
     chunk_oid_lookup := Some (off_oidl names objs);
     chunk_object_offsets := Some (off_ooff names objs);
     chunk_large_offsets :=
       if large_needed objs then Some (off_loff names objs) else None;
     pack_names := map (fun s => off_pnam names objs + s) (name_starts 0 names) |}.

(** ** Entries that share an object id *)

(** The entries that the chunk writers of the first revision keep: an
    entry whose object id is the one written last is passed over. *)
Fixpoint survivors (last : option object_id) (l : list pack_midx_entry)
  : list pack_midx_entry :=
  match l with
  | [] => []
  | e :: rest =>
      if match last with
         | Some o => oidcmp o (oid e) =? 0
         | None => false
         end
      then survivors last rest
      else e :: survivors (Some (oid e)) rest
  end.


(** The file without the byte that comes before the trailing hash. *)
Definition without_byte_before_hash (file : list byte) : list byte :=
  take (length file - 21) file ++ drop (length file - 20) file.

(** ** States of the verifier *)

(** A later state of the verifier: the same packs, and no report lost. *)
Definition after (st st' : verify_state) : Prop :=
  packs st' = packs st /\
  (forall msg, In msg (reports st) -> In msg (reports st')) /\
  (verify_midx_error st <> 0 -> verify_midx_error st' <> 0).

(** All the packs up to [i] are open. *)
Definition opened (ps : list (option packed_git)) (i : Z) : Prop :=
  forall j, (Z.of_nat j < i) -> exists q, ps !! j = Some (Some q).

End MidxSpec.

(* ===================================================================== *)
(** * Notions used to state the properties of the sparse-index code *)
(* ===================================================================== *)

Module SparseSpec.
Import SparseIndex.

(** What keeps a span from being collapsed: the test of the first loop of
    [convert_to_sparse_rec] on one entry. *)
Definition dirty (ce : cache_entry) : bool :=
  negb (ce_stage ce =? 0) || S_ISGITLINK (ce_mode ce) || negb (skip_worktree ce).

(** The entries of an index: the first [cache_nr] slots of the array. *)
Definition entries_of (st : index_state) : list cache_entry :=
  take (Z.to_nat (cache_nr st)) (cache st).

(** The path is outside of the sparse cone. *)
Definition outside (pl : pattern_list) (path : cstring) : bool :=
  match path_matches_pattern_list pl path with
  | NOT_MATCHED => true
  | _ => false
  end.

(** The subtree that the second loop of [convert_to_sparse_rec] finds for
    an entry under [path], with the path of that subtree. *)
Definition subtree_for (path : cstring) (ct : cache_tree) (ce : cache_entry)
  : option (cstring * cache_tree) :=
  let base := drop (Z.to_nat (strlen path)) (name ce) in
  match strchr_slash base with
  | Some len =>
      let pos := cache_tree_subtree_pos ct (take (Z.to_nat len) base) in
      if pos <? 0 then None
      else
        match down ct !! Z.to_nat pos with
        | Some sub =>
            Some (take (Z.to_nat (strlen path + len + 1)) (name ce), snd sub)
        | None => None
        end
  | None => None
  end.

(** The cache tree fits the entries: an entry for which the tree has a
    subtree starts a run of as many entries as the subtree counts, and the
    subtree fits that run.  [P] is asked of every subtree and its run. *)
Inductive laid_out (P : cstring -> cache_tree -> list cache_entry -> Prop)
  : cstring -> cache_tree -> list cache_entry -> Prop :=
| laid_nil path ct : laid_out P path ct []
| laid_file path ct ce rest :
    strlen path <= strlen (name ce) ->
    subtree_for path ct ce = None ->
    laid_out P path ct rest ->
    laid_out P path ct (ce :: rest)
| laid_sub path ct ce span rest child_path child :
    strlen path <= strlen (name ce) ->
    subtree_for path ct ce = Some (child_path, child) ->
    entry_count child = Z.of_nat (length (ce :: span)) ->
    P child_path child (ce :: span) ->
    laid_out P child_path child (ce :: span) ->
    laid_out P path ct rest ->
    laid_out P path ct ((ce :: span) ++ rest).

(** A span is collapsed: it lies outside the cone and none of its entries
    is dirty. *)
Definition collapses (pl : pattern_list) (path : cstring)
    (span : list cache_entry) : bool :=
  outside pl path && negb (existsb dirty span).

(** What the second loop writes for the entries it walks over: an entry
    without a subtree is copied; the run of an entry with a subtree, as
    long as the subtree counts, is replaced by one sparse-directory entry
    when it is collapsed, and walked over with the subtree otherwise. *)
Inductive contracts (pl : pattern_list)
  : cstring -> cache_tree -> list cache_entry -> list cache_entry -> Prop :=
| contracts_nil path ct : contracts pl path ct [] []
| contracts_file path ct ce rest out :
    subtree_for path ct ce = None ->
    contracts pl path ct rest out ->
    contracts pl path ct (ce :: rest) (ce :: out)
| contracts_collapse path ct ce span rest out child_path child :
    subtree_for path ct ce = Some (child_path, child) ->
    entry_count child = Z.of_nat (length (ce :: span)) ->
    collapses pl child_path (ce :: span) = true ->
    contracts pl path ct rest out ->
    contracts pl path ct ((ce :: span) ++ rest)
      (construct_sparse_dir_entry child_path child :: out)
| contracts_descend path ct ce span rest out1 out2 child_path child :
    subtree_for path ct ce = Some (child_path, child) ->
    entry_count child = Z.of_nat (length (ce :: span)) ->
    collapses pl child_path (ce :: span) = false ->
    contracts pl child_path child (ce :: span) out1 ->
    contracts pl path ct rest out2 ->
    contracts pl path ct ((ce :: span) ++ rest) (out1 ++ out2).

(** What [convert_to_sparse_rec] writes for a span. *)
Definition contracted (pl : pattern_list) (path : cstring) (ct : cache_tree)
    (span out : list cache_entry) : Prop :=
  if collapses pl path span
  then out = [construct_sparse_dir_entry path ct]
  else contracts pl path ct span out.

(** Path, mode and object id of an entry. *)
Definition key (ce : cache_entry) : cstring * Z * object_id :=
  (name ce, ce_mode ce, oid ce).

(** The object store holds, under the object id of the cache tree, a tree
    that lists the paths, modes and object ids of the span. *)
Definition stored (env : sparse_env) (path : cstring) (ct : cache_tree)
    (span : list cache_entry) : Prop :=
  exists t, lookup_tree env (ct_oid ct) = Some t /\
            map key (read_tree_recursive t path) = map key span.

(** An entry as [add_path_to_index] makes it: merged, and skip-worktree. *)
Definition plain (ce : cache_entry) : Prop :=
  ce_stage ce = 0 /\ skip_worktree ce = true.

(** The cache tree of a full index, as [convert_to_sparse] needs it. *)
Definition valid_cache_tree (env : sparse_env) (ct : cache_tree)
    (entries : list cache_entry) : Prop :=
  entries <> [] /\
  laid_out (stored env) [] ct entries /\
  stored env [] ct entries.

End SparseSpec.

(* ===================================================================== *)
(** * Inputs on which the model is run *)
(* ===================================================================== *)

Module MidxExamples.
Import Midx MidxSpec.

(** A stand-in for the hash of the repository, 20 bytes long: the length
    of the input, the sum of its bytes, and padding. *)
Definition toy_hash (bs : list byte) : list byte :=
  be32 (Z.of_nat (length bs)) ++
  be32 (fold_right (fun b acc => byte.unsigned b + acc) 0 bs) ++
  repeat Byte.x00 12.

(** An object id with first byte [b]. *)
Definition oid_of (b : Z) : object_id := byte.of_Z b :: repeat Byte.x00 19.

Definition entry (b pack off mtime : Z) : pack_midx_entry :=
  {| oid := oid_of b; pack_int_id := pack; offset := off; pack_mtime := mtime |}.

(** Two packs, given in descending order of their names. *)
Definition two_packs : list cstring :=
  [list_byte_of_string "pack-b.pack"; list_byte_of_string "pack-a.pack"].

Definition one_pack : list cstring := [list_byte_of_string "pack-a.pack"].

(** Two objects in ascending order of object id, and the same two in
    descending order. *)
Definition two_objects : list pack_midx_entry :=
  [entry 1 0 100 0; entry 2 1 200 0].
Definition swapped_objects : list pack_midx_entry :=
  [entry 2 1 200 0; entry 1 0 100 0].

(** One object at offset [2^31], and one past [2^32]. *)
Definition object_at_2G : list pack_midx_entry := [entry 1 0 (2 ^ 31) 0].
Definition object_past_4G : list pack_midx_entry :=
  [entry 1 0 100 0; entry 2 0 (2 ^ 32 + 7) 0; entry 3 0 (2 ^ 31) 0].


(** The file written for two packs and two objects. *)
Definition two_objects_file : list byte :=
  match write_midx_file toy_hash true two_packs two_objects with
  | Ok (Some f) => f
  | _ => []
  end.

(** The file written for one pack that holds the first of the two
    objects only. *)
Definition first_object_file : list byte :=
  match write_midx_file toy_hash true one_pack [entry 1 0 100 0] with
  | Ok (Some f) => f
  | _ => []
  end.

(** The same file with the hash length in the header set to zero. *)
Definition bad_hash_len_file : list byte := <[9%nat := Byte.x00]> two_objects_file.

(** The same file with the ids of the OID Lookup and Object Offsets chunks
    overwritten in the chunk table (entries 2 and 3). *)
Definition no_lookup_file : list byte :=
  <[40%nat := Byte.x58]> (<[52%nat := Byte.x58]> two_objects_file).

(** The same file without the byte before the trailing hash. *)
Definition truncated_file : list byte :=
  without_byte_before_hash two_objects_file.

(** A pack index that holds the two objects, and surroundings in which
    every pack opens with that index. *)
Definition example_pack : packed_git :=
  {| index_data := true; open_pack_index := 0;
     idx_entries := [(oid_of 1, 100); (oid_of 2, 200)] |}.
Definition example_env : verify_env :=
  {| little_endian_host := true;
     page_size := 4096;
     pack_dir := list_byte_of_string "objects/pack";
     add_packed_git := fun _ => Some example_pack |}.

End MidxExamples.

(* ===================================================================== *)
(** * The properties of the MIDX code, as statements *)
(* ===================================================================== *)

Module MidxClaims.
Import Midx MidxSpec.

(** Building and then reading: the file is written, it is loaded, the
    object ids read back are those given, every given entry is found with
    its pack id after the sort of the pack names and with its offset, and
    every other object id is a miss. *)
Definition round_trip (hash_fn : list byte -> list byte)
    (names0 : list cstring) (objs : list pack_midx_entry) : Prop :=
  exists names perm file m,
    sort_packs_by_name names0 = Ok (names, perm) /\
    Permutation names names0 /\ in_order strcmp names /\
    (forall i n, names0 !! i = Some n ->
       exists j, perm !! i = Some (Z.of_nat j) /\ names !! j = Some n) /\
    write_midx_file hash_fn true names0 objs = Ok (Some file) /\
    load_midxed_git_one false (Some file) = Ok (Some m) /\
    (forall o, In o (map oid objs) <->
       exists k, 0 <= k < num_objects m /\
                 nth_midxed_object_oid m k = Ok (Some o)) /\
    (forall e, In e objs ->
       lookup_details m (oid e) =
       Ok (Some {| d_pack_int_id := perm_at perm e; d_offset := offset e |})) /\
    (forall o, wf_oid o -> ~ In o (map oid objs) -> lookup_details m o = Ok None).

(** The writer stops at the order check of the OID Lookup chunk. *)
Definition unsorted_refused (hash_fn : list byte -> list byte)
    (names0 : list cstring) (objs : list pack_midx_entry) : Prop :=
  write_midx_file hash_fn true names0 objs = Bug "OIDs not in order".

(** Building and reading back for entries in strictly ascending order of
    object id; the order check for any other entries. *)
Definition round_trip_or_refused (hash_fn : list byte -> list byte)
    (names0 : list cstring) (objs : list pack_midx_entry) : Prop :=
  (ascending objs -> round_trip hash_fn names0 objs) /\
  (~ ascending objs -> unsorted_refused hash_fn names0 objs).

(** The count of the offsets past 31 bits, as [write_midx_file] takes it. *)
Definition nr_large (objs : list pack_midx_entry) : Z :=
  u32 (Z.of_nat (length (List.filter (fun o => 0x7fffffff <? offset o) objs))).

(** Two orders of the chunks: with the Pack Names second, and with the
    Pack Names last. *)
Definition names_second (large : bool) : list Z :=
  [MIDX_CHUNKID_PACKLOOKUP; MIDX_CHUNKID_PACKNAMES; MIDX_CHUNKID_OIDFANOUT;
   MIDX_CHUNKID_OIDLOOKUP; MIDX_CHUNKID_OBJECTOFFSETS] ++
  (if large then [MIDX_CHUNKID_LARGEOFFSETS] else []).
Definition names_last (large : bool) : list Z :=
  [MIDX_CHUNKID_PACKLOOKUP; MIDX_CHUNKID_OIDFANOUT;
   MIDX_CHUNKID_OIDLOOKUP; MIDX_CHUNKID_OBJECTOFFSETS] ++
  (if large then [MIDX_CHUNKID_LARGEOFFSETS] else []) ++
  [MIDX_CHUNKID_PACKNAMES].

(** The file holds, after the header and a chunk table with one more
    entry than there are chunks, what the chunk writers give in the
    order of the ids, and then the hash of all that comes before. *)
Definition chunks_written_as (order : bool -> list Z)
    (hash_fn : list byte -> list byte) (names0 : list cstring)
    (objs : list pack_midx_entry) (file : list byte) : Prop :=
  exists names perm pieces front,
    sort_packs_by_name names0 = Ok (names, perm) /\
    Forall2 (fun id bs =>
               exists n, write_chunk (large_needed objs) (nr_large objs)
                           names objs perm id = Ok (bs, n))
            (order (large_needed objs)) pieces /\
    Z.of_nat (length front) =
      16 + 12 * (Z.of_nat (length (order (large_needed objs))) + 1) /\
    file = (front ++ concat pieces) ++ hash_fn (front ++ concat pieces).

(** The offset word of record [k] of the Object Offsets chunk. *)
Definition offset_word_at (m : midxed_git) (k : Z) : outcome Z :=
  let* base := chunk_at (chunk_object_offsets m) (8 * k) in
  read_be32 (data m) (base + 4).

(** Entry [j] of the Large Offsets chunk, as a 64-bit number. *)
Definition large_offset_at (m : midxed_git) (j : Z) : outcome Z :=
  let* base := chunk_at (chunk_large_offsets m) (8 * j) in
  let* hi := read_be32 (data m) base in
  let* lo := read_be32 (data m) (base + 4) in
  Ok (hi * 2 ^ 32 + lo).

(** Record [k] has the high bit set and its low 31 bits index an entry
    of the Large Offsets chunk that holds [off]. *)
Definition escaped (m : midxed_git) (k off : Z) : Prop :=
  exists word,
    offset_word_at m k = Ok word /\ Z.testbit word 31 = true /\
    large_offset_at m (Z.land word 0x7fffffff) = Ok off.

(** [nth_midxed_object_details] gives [off] for record [k]. *)
Definition decodes (m : midxed_git) (k off : Z) : Prop :=
  exists d, nth_midxed_object_details m k = Ok (Some d) /\ d_offset d = off.

(** Every offset of at least [2^31] goes through the Large Offsets
    chunk. *)
Definition large_offsets_escaped (hash_fn : list byte -> list byte)
    (names0 : list cstring) (objs : list pack_midx_entry) : Prop :=
  exists file m,
    write_midx_file hash_fn true names0 objs = Ok (Some file) /\
    load_midxed_git_one false (Some file) = Ok (Some m) /\
    forall k e, objs !! k = Some e -> 2 ^ 31 <= offset e ->
      escaped m (Z.of_nat k) (offset e) /\ decodes m (Z.of_nat k) (offset e).

(** The Large Offsets chunk is there exactly when an offset does not fit
    32 bits; an offset of at least [2^31] goes through it when it is
    there and is written as it is when it is not, and is decoded in both
    cases. *)
Definition large_offsets_kept (hash_fn : list byte -> list byte)
    (names0 : list cstring) (objs : list pack_midx_entry) : Prop :=
  exists file m,
    write_midx_file hash_fn true names0 objs = Ok (Some file) /\
    load_midxed_git_one false (Some file) = Ok (Some m) /\
    (chunk_large_offsets m <> None <->
     exists e, In e objs /\ 2 ^ 32 <= offset e) /\
    forall k e, objs !! k = Some e -> 2 ^ 31 <= offset e ->
      decodes m (Z.of_nat k) (offset e) /\
      match chunk_large_offsets m with
      | Some _ => escaped m (Z.of_nat k) (offset e)
      | None => offset_word_at m (Z.of_nat k) = Ok (offset e)
      end.

(** Entry [i] of the OID Fanout chunk, read as [bsearch_midx] reads it. *)
Definition fanout_entry (m : midxed_git) (i : Z) : outcome Z :=
  let* p := chunk_at (chunk_oid_fanout m) (4 * i) in
  read_be32 (data m) p.

(** The distinct object ids among the entries. *)
Definition distinct_oids (objs : list pack_midx_entry) : list object_id :=
  remove_dups (map oid objs).

(** ** What makes [load_midxed_git_one] give up *)

(** The id and the offset of entry [i] of the chunk table. *)
Definition table_id (data : list byte) (i : Z) : outcome Z :=
  read_be32 data (16 + 12 * i).
Definition table_offset (data : list byte) (i : Z) : outcome Z :=
  let* hi := read_be32 data (16 + 12 * i + 4) in
  let* lo := read_be32 data (16 + 12 * i + 8) in
  Ok (Z.lor (u64 (Z.shiftl hi 32)) lo).

(** The chunk table, of [num_chunks + 1] entries, names the chunk. *)
Definition in_table (data : list byte) (id : Z) : Prop :=
  exists nc i, read_u8 data 11 = Ok nc /\ 0 <= i <= nc /\ table_id data i = Ok id.

Definition usable (host32 : bool) (data : list byte) : Prop :=
  exists m, load_midxed_git_one host32 (Some data) = Ok (Some m).

Definition too_short (data : list byte) : Prop :=
  Z.of_nat (length data) < 16 + 8 * 5 + 4 * 256 + GIT_MAX_RAWSZ.
Definition wrong_magic (data : list byte) : Prop :=
  read_be32 data 0 <> Ok MIDX_SIGNATURE.
Definition wrong_version (data : list byte) : Prop :=
  read_be32 data 4 <> Ok MIDX_VERSION.
Definition wrong_hash_len (data : list byte) : Prop :=
  read_u8 data 9 <> Ok MIDX_OID_LEN.
Definition missing_one_of (ids : list Z) (data : list byte) : Prop :=
  exists id, In id ids /\ ~ in_table data id.
Definition offset_overflows (data : list byte) : Prop :=
  exists nc i off,
    read_u8 data 11 = Ok nc /\ 0 <= i <= nc /\
    table_offset data i = Ok off /\ 2 ^ 32 <= off.

(** The five chunks a reader needs, and the three that the loader looks
    for. *)
Definition required_chunks : list Z :=
  [MIDX_CHUNKID_PACKLOOKUP; MIDX_CHUNKID_PACKNAMES; MIDX_CHUNKID_OIDFANOUT;
   MIDX_CHUNKID_OIDLOOKUP; MIDX_CHUNKID_OBJECTOFFSETS].
Definition checked_chunks : list Z :=
  [MIDX_CHUNKID_PACKLOOKUP; MIDX_CHUNKID_PACKNAMES; MIDX_CHUNKID_OIDFANOUT].

(** The loader gives no reader for a file with one of the defects. *)
Definition rejects_all_defects : Prop :=
  forall host32 data,
    too_short data \/ wrong_magic data \/ wrong_version data \/
    wrong_hash_len data \/ missing_one_of required_chunks data \/
    (host32 = true /\ offset_overflows data) ->
    ~ usable host32 data.

(** ** The verifier and the loader on an altered file *)

(** The verifier reports the checksum and returns a status that is not
    zero. *)
Definition checksum_reported (hash_fn : list byte -> list byte)
    (env : verify_env) (error0 : Z) (file : list byte) : Prop :=
  exists r st,
    midx_verify hash_fn env false error0 (Some file) = Ok (r, st) /\
    r <> 0 /\ In checksum_message (reports st).

(** The recomputed hash is not the stored one. *)
Definition hash_differs (hash_fn : list byte -> list byte) (file : list byte)
  : Prop :=
  hash_fn (take (length file - 20) file) <> drop (length file - 20) file.

(** The pack names of the file end inside its mapping: the last 20 bytes
    of the file hold a NUL, or the file does not fill its last page. *)
Definition names_end_in_mapping (env : verify_env) (file : list byte) : Prop :=
  In Byte.x00 (drop (length file - 20) file) \/
  (0 < page_size env /\ Z.of_nat (length file) mod page_size env <> 0).

Definition truncation_refused (hash_fn : list byte -> list byte)
    (env : verify_env) (error0 : Z) (file : list byte) : Prop :=
  checksum_reported hash_fn env error0 file /\ ~ usable false file.

Definition truncation_reported (hash_fn : list byte -> list byte)
    (env : verify_env) (error0 : Z) (file : list byte) : Prop :=
  checksum_reported hash_fn env error0 file /\ usable false file.

(** ** Entries that share an object id, in the first revision *)



End MidxClaims.

(* ===================================================================== *)
(** * An index on which the sparse-index code is run *)
(* ===================================================================== *)

Module SparseExamples.
Import SparseIndex SparseSpec.

(** The mode of a regular file: octal 0100644. *)
Definition blob_mode : Z := 0x81A4.

Definition file_entry (path : string) (o : byte) (stage : Z) (skip : bool)
  : cache_entry :=
  {| name := list_byte_of_string path; ce_mode := blob_mode; oid := [o];
     ce_stage := stage; skip_worktree := skip |}.

(** Four files: [a] in the cone, and under [b/] two files, of which [b/d]
    lacks the skip-worktree bit, and a directory [b/e/] with one file. *)
Definition four_entries : list cache_entry :=
  [file_entry "a" Byte.x0a 0 false;
   file_entry "b/c" Byte.x0c 0 true;
   file_entry "b/d" Byte.x0d 0 false;
   file_entry "b/e/f" Byte.x0f 0 true].

Definition ct_e : cache_tree :=
  CacheTree 1 [Byte.xe0] [].
Definition ct_b : cache_tree :=
  CacheTree 3 [Byte.xb0] [(list_byte_of_string "e", ct_e)].
Definition ct_root : cache_tree :=
  CacheTree 4 [Byte.x00] [(list_byte_of_string "b", ct_b)].

Definition tree_e : tree :=
  Tree [TreeItem blob_mode (list_byte_of_string "f") [Byte.x0f] None].
Definition tree_b : tree :=
  Tree [TreeItem blob_mode (list_byte_of_string "c") [Byte.x0c] None;
        TreeItem blob_mode (list_byte_of_string "d") [Byte.x0d] None;
        TreeItem S_IFDIR (list_byte_of_string "e") [Byte.xe0] (Some tree_e)].
Definition tree_root : tree :=
  Tree [TreeItem blob_mode (list_byte_of_string "a") [Byte.x0a] None;
        TreeItem S_IFDIR (list_byte_of_string "b") [Byte.xb0] (Some tree_b)].

(** The cone holds the files of the top directory only. *)
Definition top_only : pattern_list :=
  {| use_cone_patterns := true;
     path_matches_pattern_list :=
       fun p => if bool_decide (p = []) then MATCHED else NOT_MATCHED |}.

Definition four_env : sparse_env :=
  {| core_apply_sparse_checkout := true;
     core_sparse_checkout_cone := true;
     GIT_TEST_SPARSE_INDEX := None;
     upgrade_repository_format := 0;
     get_sparse_checkout_patterns := Some top_only;
     cache_tree_update := fun _ => Some ct_root;
     lookup_tree := fun o =>
       if bool_decide (o = [Byte.xe0]) then Some tree_e
       else if bool_decide (o = [Byte.xb0]) then Some tree_b
       else if bool_decide (o = [Byte.x00]) then Some tree_root
       else None |}.

Definition index_of (entries : list cache_entry) : index_state :=
  {| cache := entries; cache_nr := Z.of_nat (length entries);
     sparse_index := false; split_index := false;
     sparse_checkout_patterns := None; index_cache_tree := None;
     drop_cache_tree := false; fsmonitor := false;
     repo_sparse_index := true |}.

Definition four_index : index_state := index_of four_entries.

(** An index of one file in the cone. *)
Definition one_entry : list cache_entry := [file_entry "a" Byte.x0a 0 false].
Definition one_env : sparse_env :=
  {| core_apply_sparse_checkout := true;
     core_sparse_checkout_cone := true;
     GIT_TEST_SPARSE_INDEX := None;
     upgrade_repository_format := 0;
     get_sparse_checkout_patterns := Some top_only;
     cache_tree_update := fun _ => Some (CacheTree 1 [Byte.x00] []);
     lookup_tree := fun _ => None |}.
Definition one_index : index_state := index_of one_entry.

End SparseExamples.

(* ===================================================================== *)
(** * The properties of the sparse-index code, as statements *)
(* ===================================================================== *)

Module SparseClaims.
Import SparseIndex SparseSpec.

(** A full index: the flag is clear, no entry is a sparse-directory
    entry, and the entries lie in the array. *)
Definition is_full (st : index_state) : Prop :=
  sparse_index st = false /\
  Forall (fun ce => S_ISSPARSEDIR ce = false) (entries_of st) /\
  0 <= cache_nr st <= Z.of_nat (length (cache st)).

(** The cache tree that [cache_tree_update] computes fits the entries, and
    the object store holds its trees. *)
Definition env_valid (env : sparse_env) (entries : list cache_entry) : Prop :=
  forall ct, cache_tree_update env entries = Some ct ->
             valid_cache_tree env ct entries.

(** Contracting and then expanding gives the entries back. *)
Definition round_trips (fuel : nat) (env : sparse_env) (st : index_state) : Prop :=
  exists r st',
    convert_to_sparse fuel env st = Ok (r, st') /\
    entries_of (ensure_full_index env st') = entries_of st.

(** A span with a dirty entry is written as it is. *)
Definition dirty_span_unchanged (fuel : nat) (pl : pattern_list)
    (path : cstring) (ct : cache_tree) (span post : list cache_entry) : Prop :=
  forall cache' count,
    convert_to_sparse_rec fuel pl (span ++ post) 0 0 (Z.of_nat (length span))
      path ct = Ok (cache', count) ->
    existsb dirty span = true ->
    take (Z.to_nat count) cache' = span.

(** [convert_to_sparse_rec] on a span at the head of the array returns
    when it is given fuel enough, and whenever it returns, the array and
    the count it returns satisfy [Q]. *)
Definition contraction_returns (pl : pattern_list) (path : cstring)
    (ct : cache_tree) (span post : list cache_entry)
    (Q : list cache_entry -> Z -> Prop) : Prop :=
  (exists fuel0, forall fuel, (fuel0 <= fuel)%nat ->
     exists cache' count,
       convert_to_sparse_rec fuel pl (span ++ post) 0 0
         (Z.of_nat (length span)) path ct = Ok (cache', count) /\
       Q cache' count) /\
  (forall fuel cache' count,
     convert_to_sparse_rec fuel pl (span ++ post) 0 0
       (Z.of_nat (length span)) path ct = Ok (cache', count) ->
     Q cache' count).

(** The span is written, and what is written for it keeps its dirty
    entries, as they are and in their order; the rest is what the second
    loop writes; a span with a dirty entry is not replaced by a
    sparse-directory entry. *)
Definition dirty_entries_emitted (pl : pattern_list)
    (path : cstring) (ct : cache_tree) (span post : list cache_entry) : Prop :=
  contraction_returns pl path ct span post
    (fun cache' count =>
       exists out rest',
         cache' = out ++ rest' /\ count = Z.of_nat (length out) /\
         contracted pl path ct span out /\
         List.filter dirty out = List.filter dirty span /\
         (existsb dirty span = true ->
          out <> [construct_sparse_dir_entry path ct])).

(** ** The sparse flag *)

Inductive index_op :=
| ConvertToSparse (fuel : nat)
| EnsureFullIndex.

Definition apply_op (env : sparse_env) (op : index_op) (st : index_state)
  : outcome index_state :=
  match op with
  | ConvertToSparse fuel =>
      let* (_, st') := convert_to_sparse fuel env st in Ok st'
  | EnsureFullIndex => Ok (ensure_full_index env st)
  end.

Fixpoint run_ops (env : sparse_env) (ops : list index_op) (st : index_state)
  : outcome index_state :=
  match ops with
  | [] => Ok st
  | op :: rest => let* st' := apply_op env op st in run_ops env rest st'
  end.

(** The entries hold a sparse-directory entry. *)
Definition has_sparse_dir (st : index_state) : bool :=
  existsb S_ISSPARSEDIR (entries_of st).

Definition flag_iff_sparse_dir (st : index_state) : Prop :=
  sparse_index st = true <-> has_sparse_dir st = true.

Definition flag_covers_sparse_dir (st : index_state) : Prop :=
  has_sparse_dir st = true -> sparse_index st = true.

End SparseClaims.
(* ===================================================================== *)
(** * midx.c: finding objects and packs through a MIDX (lines 789-872) *)
(* ===================================================================== *)

Module MidxLookup.
Import Midx.

(** [find_pack_entry_midx] (lines 789-812) on the array [m->packs]: for
    [return 1] the pointer stored in [*p] with [*offset], [None] for
    [return 0]; and the array afterwards. *)
Definition find_pack_entry_midx (env : verify_env) (o : object_id)
    (m : midxed_git) (packs : list (option packed_git))
  : outcome (option (option packed_git * Z) * list (option packed_git)) :=
  let* details := lookup_details m o in
  match details with
  | None => Ok (None, packs)
  | Some d =>
      if d_pack_int_id d >=? num_packs m then Died "Bad pack-int-id"
      else
        (* load packfile, if necessary *)
        let* (failed, packs) := prepare_midx_pack env m packs (d_pack_int_id d) in
        if negb (failed =? 0) then Ok (None, packs)
        else
          let* p := array_get packs (d_pack_int_id d) in
          Ok (Some (p, d_offset d), packs)
  end.

(** [struct pack_entry] (cache.h, not under src/), as far as
    [fill_pack_entry_midx] fills it. *)
Record pack_entry := { e_offset : Z; e_p : packed_git }.

(** A MIDX of the list that the global [midxed_git] heads: its pack
    directory with the surroundings, the reader, and its array
    [m->packs]. *)
Record midx_node := {
  node_env : verify_env;
  node_midx : midxed_git;
  node_packs : list (option packed_git)
}.

Definition set_node_packs (n : midx_node) (ps : list (option packed_git))
  : midx_node :=
  {| node_env := node_env n; node_midx := node_midx n; node_packs := ps |}.

Section Fill.
(** [is_pack_valid] (packfile.c, not under src/): whether the pack file can
    still be accessed. *)
Variable is_pack_valid : packed_git -> bool.

(** The [while (m)] of [fill_pack_entry_midx] over the list of MIDXs: the
    entry for [return 1], [None] for [return 0], and the list
    afterwards. *)
Fixpoint fill_pack_entry_loop (o : object_id) (chain : list midx_node)
  : outcome (option pack_entry * list midx_node) :=
  match chain with
  | [] => Ok (None, [])
  | m :: next =>
      let* (found, ps) :=
        find_pack_entry_midx (node_env m) o (node_midx m) (node_packs m) in
      let m := set_node_packs m ps in
      match found with
      | None =>
          let* (e, next) := fill_pack_entry_loop o next in
          Ok (e, m :: next)
      | Some (p, offset) =>
          match p with
          | None => Fault
          | Some p =>
              if negb (is_pack_valid p) then Ok (None, m :: next)
              else Ok (Some {| e_offset := offset; e_p := p |}, m :: next)
          end
      end
  end.

(** [fill_pack_entry_midx] (lines 814-849). *)
Definition fill_pack_entry_midx (core_midx : bool) (o : object_id)
    (chain : list midx_node)
  : outcome (option pack_entry * list midx_node) :=
  if negb core_midx then Ok (None, chain)
  else fill_pack_entry_loop o chain.
End Fill.

(** The [while (first < last)] of [contains_pack].  The fuel bounds the
    number of iterations; [contains_pack] passes [num_packs], which the
    loop never exhausts.  [page_size] is the size of a page of the
    mapping of the file, for the read of [current]. *)
Fixpoint contains_pack_loop (fuel : nat) (page_size : Z) (m : midxed_git)
    (pack_name : cstring) (first last : Z) : outcome Z :=
  if first <? last then
    match fuel with
    | O => Unfinished
    | S fuel' =>
        let mid := u32 (first + (last - first) / 2) in
        let* current_ptr := array_get (pack_names m) mid in
        let* current := cstring_at page_size (data m) current_ptr in
        let cmp := strcmp pack_name current in
        if cmp =? 0 then Ok 1
        else if cmp >? 0
        then contains_pack_loop fuel' page_size m pack_name (u32 (mid + 1)) last
        else contains_pack_loop fuel' page_size m pack_name first mid
    end
  else Ok 0.

(** [contains_pack] (lines 851-872). *)
Definition contains_pack (page_size : Z) (m : midxed_git) (pack_name : cstring)
  : outcome Z :=
  contains_pack_loop (Z.to_nat (num_packs m)) page_size m pack_name 0
    (num_packs m).

End MidxLookup.
(* ===================================================================== *)
(** * Further notions used to state properties of the MIDX code *)
(* ===================================================================== *)

Module MidxProps.
Import Midx MidxSpec.

(** The name under which [prepare_midx_pack] asks [add_packed_git] for the
    pack that the MIDX lists as [pack_name]. *)
Definition idx_name (env : verify_env) (pack_name : cstring) : cstring :=
  strbuf_strip_suffix
    (pack_dir env ++ list_byte_of_string "/" ++ pack_name)
    (list_byte_of_string ".pack") ++
  list_byte_of_string ".idx".

(** [m->hdr->num_packs] of a file with [nr_packs] packs as
    [prepare_midx_pack] reads it, without [ntohl]: the four bytes of the
    count, written most significant first, taken in host byte order. *)
Definition host_num_packs (env : verify_env) (nr_packs : Z) : Z :=
  if little_endian_host env then le_combine (be32 nr_packs)
  else get_be32 (be32 nr_packs).

(** No pack of the file is refused by [prepare_midx_pack]: the count as
    the host reads it is not below the count. *)
Definition count_fits_host (env : verify_env) (nr_packs : Z) : Prop :=
  nr_packs <= host_num_packs env nr_packs.

(** The index of a pack is loaded, or loading it succeeds: what the first
    loop of [midx_verify] asks of a pack. *)
Definition usable_index (q : packed_git) : Prop :=
  index_data q = true \/ open_pack_index q = 0.

(** The index of the pack holds the object of the entry at the offset of
    the entry. *)
Definition pack_holds (q : packed_git) (e : pack_midx_entry) : Prop :=
  exists pos,
    find_pack_entry_pos (oid e) q = Some pos /\
    nth_packed_object_offset q pos = Ok (offset e).

(** The packs agree with the entries given to the writer: every pack
    opens under the name given for it, with a usable index, and holds
    the objects of the entries that name it, at their offsets. *)
Definition packs_agree (env : verify_env) (names0 : list cstring)
    (objs : list pack_midx_entry) : Prop :=
  forall i n, names0 !! i = Some n ->
    exists q,
      add_packed_git env (idx_name env n) = Some q /\
      usable_index q /\
      forall e, In e objs -> pack_int_id e = Z.of_nat i -> pack_holds q e.

(** The same for one entry, by the sorted names and the permutation. *)
Definition entry_checks (env : verify_env) (names : list cstring)
    (perm : list Z) (e : pack_midx_entry) : Prop :=
  exists j n q,
    perm_at perm e = Z.of_nat j /\ names !! j = Some n /\
    add_packed_git env (idx_name env n) = Some q /\ pack_holds q e.

(** The array [m->packs] while the first loop of [midx_verify] runs: the
    slots below [i] of the packs that [prepare_midx_pack] does not refuse
    (those below [raw], the count as the host reads it) hold what
    [add_packed_git] answered for the names, the other slots are empty. *)
Definition asked (env : verify_env) (names : list cstring) (raw : Z)
    (ps : list (option packed_git)) (i : Z) : Prop :=
  length ps = length names /\
  forall j n, names !! j = Some n ->
    ps !! j = Some (if (Z.of_nat j <? i) && (Z.of_nat j <? raw)
                    then add_packed_git env (idx_name env n) else None).

(** A MIDX of the list does not hold the object: [find_pack_entry_midx]
    returns 0 on it and leaves its packs as they are. *)
Definition node_misses (o : object_id) (n : MidxLookup.midx_node) : Prop :=
  MidxLookup.find_pack_entry_midx (MidxLookup.node_env n) o
    (MidxLookup.node_midx n) (MidxLookup.node_packs n) =
  Ok (None, MidxLookup.node_packs n).

End MidxProps.

(* ===================================================================== *)
(** * Further notions used to state properties of the sparse-index code *)
(* ===================================================================== *)

Module SparseProps.
Import SparseIndex SparseSpec SparseExamples.

(** An entry that is not a sparse-directory entry. *)
Definition not_sparse_dir (ce : cache_entry) : bool := negb (S_ISSPARSEDIR ce).

(** Patterns that are not in cone mode, and surroundings that deliver
    them. *)
Definition not_cone : pattern_list :=
  {| use_cone_patterns := false;
     path_matches_pattern_list := fun _ => NOT_MATCHED |}.

Definition not_cone_env : sparse_env :=
  {| core_apply_sparse_checkout := true;
     core_sparse_checkout_cone := true;
     GIT_TEST_SPARSE_INDEX := None;
     upgrade_repository_format := 0;
     get_sparse_checkout_patterns := Some not_cone;
     cache_tree_update := fun _ => Some ct_root;
     lookup_tree := fun _ => None |}.

(** A sparse index of the file [a] and the sparse directory [b/]. *)
Definition sparse_two : index_state :=
  {| cache := [file_entry "a" Byte.x0a 0 false;
               construct_sparse_dir_entry (list_byte_of_string "b/") ct_b];
     cache_nr := 2;
     sparse_index := true; split_index := false;
     sparse_checkout_patterns := Some top_only;
     index_cache_tree := Some ct_root;
     drop_cache_tree := true; fsmonitor := false;
     repo_sparse_index := true |}.

(** Nothing of a span can be collapsed: the cone takes in every path,
    or every entry of the span keeps the first loop of
    [convert_to_sparse_rec] from converting. *)
Definition nothing_to_collapse (pl : pattern_list) (span : list cache_entry)
  : Prop :=
  (forall path, outside pl path = false) \/
  Forall (fun ce => dirty ce = true) span.

End SparseProps.
(* ===================================================================== *)
(** * Proofs: bytes and slices *)
(* ===================================================================== *)

Lemma length_be32 x : length (be32 x) = 4%nat.
Proof. unfold be32. rewrite length_rev. apply length_le_split. Qed.

Lemma get_be32_be32 x : get_be32 (be32 x) = u32 x.
Proof.
  unfold get_be32, be32, u32. rewrite rev_involutive, le_combine_split.
  reflexivity.
Qed.

Lemma u32_small x : 0 <= x < 2 ^ 32 -> u32 x = x.
Proof. intros. unfold u32. apply Z.mod_small. lia. Qed.

Lemma u64_small x : 0 <= x < 2 ^ 64 -> u64 x = x.
Proof. intros. unfold u64. apply Z.mod_small. lia. Qed.

Lemma u32_range x : 0 <= u32 x < 2 ^ 32.
Proof. unfold u32. apply Z.mod_pos_bound. lia. Qed.

Lemma u64_range x : 0 <= u64 x < 2 ^ 64.
Proof. unfold u64. apply Z.mod_pos_bound. lia. Qed.

Lemma get_be32_range bs : length bs = 4%nat -> 0 <= get_be32 bs < 2 ^ 32.
Proof.
  intros H. unfold get_be32.
  pose proof (le_combine_bound (rev bs)) as B.
  rewrite length_rev, H in B. exact B.
Qed.

Lemma slice_ok data off len :
  0 <= off -> 0 <= len -> off + len <= Z.of_nat (length data) ->
  slice data off len = Ok (take (Z.to_nat len) (drop (Z.to_nat off) data)).
Proof.
  intros H1 H2 H3. unfold slice.
  rewrite (proj2 (Z.leb_le _ _) H1), (proj2 (Z.leb_le _ _) H2),
          (proj2 (Z.leb_le _ _) H3).
  reflexivity.
Qed.

Lemma slice_inv data off len bs :
  slice data off len = Ok bs ->
  0 <= off /\ 0 <= len /\ off + len <= Z.of_nat (length data) /\
  bs = take (Z.to_nat len) (drop (Z.to_nat off) data).
Proof.
  unfold slice. intros H.
  destruct (0 <=? off) eqn:E1; [|discriminate].
  destruct (0 <=? len) eqn:E2; [|discriminate].
  destruct (off + len <=? Z.of_nat (length data)) eqn:E3; [|discriminate].
  simpl in H. inversion H. repeat split; lia.
Qed.

Lemma length_slice data off len bs :
  slice data off len = Ok bs -> Z.of_nat (length bs) = len.
Proof.
  intros H. apply slice_inv in H as (H1 & H2 & H3 & ->).
  rewrite length_take, length_drop. lia.
Qed.

(** Reading inside the middle part of [pre ++ mid ++ post]. *)
Lemma slice_app_mid pre mid post off len :
  0 <= off -> 0 <= len -> off + len <= Z.of_nat (length mid) ->
  slice (pre ++ mid ++ post) (Z.of_nat (length pre) + off) len =
  slice mid off len.
Proof.
  intros H1 H2 H3.
  rewrite !slice_ok by (rewrite ?length_app; lia).
  f_equal.
  replace (Z.to_nat (Z.of_nat (length pre) + off))
    with (length pre + Z.to_nat off)%nat by lia.
  rewrite <- drop_drop, drop_app_length.
  rewrite drop_app_le by lia.
  rewrite take_app_le by (rewrite length_drop; lia).
  reflexivity.
Qed.

Lemma slice_app_r pre rest off len :
  0 <= off ->
  slice (pre ++ rest) (Z.of_nat (length pre) + off) len = slice rest off len.
Proof.
  intros H1. unfold slice. rewrite length_app.
  replace (0 <=? Z.of_nat (length pre) + off) with true
    by (symmetry; apply Z.leb_le; lia).
  replace (0 <=? off) with true by (symmetry; apply Z.leb_le; lia).
  replace (Z.of_nat (length pre) + off + len <=?
           Z.of_nat (length pre + length rest))
    with (off + len <=? Z.of_nat (length rest))
    by (apply eq_true_iff_eq; rewrite !Z.leb_le; lia).
  replace (Z.to_nat (Z.of_nat (length pre) + off))
    with (length pre + Z.to_nat off)%nat by lia.
  rewrite <- drop_drop, drop_app_length. reflexivity.
Qed.

Lemma slice_app_l mid post off len :
  0 <= off -> 0 <= len -> off + len <= Z.of_nat (length mid) ->
  slice (mid ++ post) off len = slice mid off len.
Proof.
  intros. change (mid ++ post) with ([] ++ mid ++ post).
  rewrite <- (slice_app_mid [] mid post off len) by assumption.
  reflexivity.
Qed.

Lemma slice_all bs : slice bs 0 (Z.of_nat (length bs)) = Ok bs.
Proof.
  rewrite slice_ok by lia. rewrite Nat2Z.id.
  change (Z.to_nat 0) with 0%nat. rewrite drop_0, firstn_all. reflexivity.
Qed.

Lemma read_be32_app_r pre rest off :
  0 <= off ->
  read_be32 (pre ++ rest) (Z.of_nat (length pre) + off) = read_be32 rest off.
Proof. intros. unfold read_be32. rewrite slice_app_r by lia. reflexivity. Qed.

Lemma read_be32_head x rest : read_be32 (be32 x ++ rest) 0 = Ok (u32 x).
Proof.
  unfold read_be32. rewrite slice_app_l by (rewrite ?length_be32; lia).
  pose proof (slice_all (be32 x)) as H. rewrite length_be32 in H.
  change (Z.of_nat 4) with 4 in H. rewrite H. simpl.
  rewrite get_be32_be32. reflexivity.
Qed.

Lemma read_be32_at pre x rest :
  read_be32 (pre ++ be32 x ++ rest) (Z.of_nat (length pre)) = Ok (u32 x).
Proof.
  replace (Z.of_nat (length pre)) with (Z.of_nat (length pre) + 0) by lia.
  rewrite read_be32_app_r by lia. apply read_be32_head.
Qed.
(* ===================================================================== *)
(** * Proofs: [memcmp], [oidcmp] and [strcmp] as orders *)
(* ===================================================================== *)

Lemma memcmp_refl a : memcmp a a = 0.
Proof. induction a as [|x a IH]; simpl; [reflexivity|]. rewrite Z.eqb_refl. exact IH. Qed.

Lemma memcmp_eq a b : length a = length b -> memcmp a b = 0 -> a = b.
Proof.
  revert b. induction a as [|x a IH]; intros [|y b] Hl H; simpl in *;
    try discriminate; [reflexivity|].
  destruct (byte.unsigned x =? byte.unsigned y) eqn:E.
  - apply Z.eqb_eq, byte.unsigned_inj in E. subst y. f_equal. apply IH; congruence.
  - apply Z.eqb_neq in E. lia.
Qed.

Lemma memcmp_antisym a b : memcmp b a = - memcmp a b.
Proof.
  revert b. induction a as [|x a IH]; intros [|y b]; simpl; try reflexivity.
  rewrite (Z.eqb_sym (byte.unsigned y)).
  destruct (byte.unsigned x =? byte.unsigned y); [apply IH | lia].
Qed.

Lemma memcmp_trans a b c :
  length a = length b -> length b = length c ->
  memcmp a b <= 0 -> memcmp b c <= 0 -> memcmp a c <= 0.
Proof.
  revert b c. induction a as [|x a IH]; intros [|y b] [|z c] H1 H2 Hab Hbc;
    simpl in *; try discriminate; try lia.
  destruct (byte.unsigned x =? byte.unsigned y) eqn:E1;
  destruct (byte.unsigned y =? byte.unsigned z) eqn:E2;
  destruct (byte.unsigned x =? byte.unsigned z) eqn:E3;
  rewrite ?Z.eqb_eq, ?Z.eqb_neq in *; try lia.
  apply (IH b c); auto with lia.
Qed.

Lemma memcmp_trans_lt a b c :
  length a = length b -> length b = length c ->
  memcmp a b < 0 -> memcmp b c <= 0 -> memcmp a c < 0.
Proof.
  intros H1 H2 Hab Hbc.
  assert (Hac : memcmp a c <= 0) by (eapply memcmp_trans; eauto; lia).
  destruct (Z.eq_dec (memcmp a c) 0) as [E|]; [|lia].
  apply memcmp_eq in E; [|congruence]. subst c.
  rewrite (memcmp_antisym a b) in Hbc. lia.
Qed.

Lemma memcmp_trans_le_lt a b c :
  length a = length b -> length b = length c ->
  memcmp a b <= 0 -> memcmp b c < 0 -> memcmp a c < 0.
Proof.
  intros H1 H2 Hab Hbc.
  assert (Hac : memcmp a c <= 0) by (eapply memcmp_trans; eauto; lia).
  destruct (Z.eq_dec (memcmp a c) 0) as [E|]; [|lia].
  apply memcmp_eq in E; [|congruence]. subst c.
  rewrite (memcmp_antisym a b) in Hbc. lia.
Qed.

Module OidOrder.
Import Midx MidxSpec.

Lemma hashcmp_memcmp a b : wf_oid a -> wf_oid b -> hashcmp a b = memcmp a b.
Proof.
  unfold wf_oid, hashcmp, GIT_MAX_RAWSZ. intros Ha Hb.
  rewrite !take_ge by lia. reflexivity.
Qed.

Lemma oidcmp_refl a : oidcmp a a = 0.
Proof. apply memcmp_refl. Qed.

Lemma oidcmp_eq a b : wf_oid a -> wf_oid b -> oidcmp a b = 0 -> a = b.
Proof.
  intros Ha Hb. unfold oidcmp. rewrite hashcmp_memcmp by assumption.
  apply memcmp_eq. unfold wf_oid in *. congruence.
Qed.

Lemma oidcmp_antisym a b : oidcmp b a = - oidcmp a b.
Proof. apply memcmp_antisym. Qed.

Lemma oidcmp_trans_lt a b c :
  wf_oid a -> wf_oid b -> wf_oid c ->
  oidcmp a b < 0 -> oidcmp b c <= 0 -> oidcmp a c < 0.
Proof.
  unfold oidcmp. intros Ha Hb Hc. rewrite !hashcmp_memcmp by assumption.
  apply memcmp_trans_lt; unfold wf_oid in *; congruence.
Qed.

Lemma oidcmp_trans_le_lt a b c :
  wf_oid a -> wf_oid b -> wf_oid c ->
  oidcmp a b <= 0 -> oidcmp b c < 0 -> oidcmp a c < 0.
Proof.
  unfold oidcmp. intros Ha Hb Hc. rewrite !hashcmp_memcmp by assumption.
  apply memcmp_trans_le_lt; unfold wf_oid in *; congruence.
Qed.


Lemma hash0_range o : 0 <= hash0 o <= 255.
Proof. unfold hash0. pose proof (byte.unsigned_range (hd Byte.x00 o)). lia. Qed.

(** The first byte decides the comparison when it differs. *)
Lemma oidcmp_hash0_lt a b :
  wf_oid a -> wf_oid b -> hash0 a < hash0 b -> oidcmp a b < 0.
Proof.
  intros Ha Hb. unfold oidcmp. rewrite hashcmp_memcmp by assumption.
  unfold wf_oid, hash0 in *.
  destruct a as [|x a]; [discriminate|]. destruct b as [|y b]; [discriminate|].
  simpl. intros H. destruct (byte.unsigned x =? byte.unsigned y) eqn:E.
  - apply Z.eqb_eq in E. lia.
  - lia.
Qed.

Lemma oidcmp_le_hash0 a b :
  wf_oid a -> wf_oid b -> oidcmp a b <= 0 -> hash0 a <= hash0 b.
Proof.
  intros Ha Hb H.
  destruct (Z_le_gt_dec (hash0 a) (hash0 b)) as [|G]; [assumption|].
  assert (oidcmp b a < 0) by (apply oidcmp_hash0_lt; auto; lia).
  rewrite (oidcmp_antisym a b) in H0. lia.
Qed.

End OidOrder.

(* ===================================================================== *)
(** * Proofs: tables of fixed-width records *)
(* ===================================================================== *)

Lemma length_concat_fixed (w : nat) (chunks : list (list byte)) :
  Forall (fun c => length c = w) chunks ->
  length (concat chunks) = (w * length chunks)%nat.
Proof.
  induction 1 as [|c cs Hc _ IH]; simpl; [lia|].
  rewrite length_app, IH, Hc. lia.
Qed.

(** Record [k] of a table whose records are all [w] bytes wide. *)
Lemma slice_concat_fixed (w : nat) (chunks : list (list byte)) (k : nat) c :
  Forall (fun c => length c = w) chunks ->
  chunks !! k = Some c ->
  slice (concat chunks) (Z.of_nat w * Z.of_nat k) (Z.of_nat w) = Ok c.
Proof.
  intros Hw. revert k. induction Hw as [|c0 cs Hc Hcs IH]; intros k Hk.
  - discriminate.
  - destruct k as [|k]; simpl in Hk.
    + inversion Hk; subst c0. simpl concat.
      rewrite Z.mul_0_r.
      rewrite slice_app_l by lia.
      rewrite <- Hc. apply slice_all.
    + simpl concat.
      replace (Z.of_nat w * Z.of_nat (S k))
        with (Z.of_nat (length c0) + Z.of_nat w * Z.of_nat k) by lia.
      rewrite slice_app_r by lia. apply IH. exact Hk.
Qed.

Lemma read_be32_table (vs : list Z) (k : nat) v :
  vs !! k = Some v ->
  read_be32 (concat (map be32 vs)) (4 * Z.of_nat k) = Ok (u32 v).
Proof.
  intros Hk. unfold read_be32.
  change 4 with (Z.of_nat 4).
  rewrite (slice_concat_fixed 4 (map be32 vs) k (be32 v)).
  - simpl. rewrite get_be32_be32. reflexivity.
  - apply Forall_forall. intros c Hc. apply in_map_iff in Hc as (x & <- & _).
    apply length_be32.
  - rewrite list_lookup_fmap, Hk. reflexivity.
Qed.

Lemma length_table (vs : list Z) :
  length (concat (map be32 vs)) = (4 * length vs)%nat.
Proof.
  rewrite (length_concat_fixed 4), length_map; [reflexivity|].
  apply Forall_forall. intros c Hc. apply in_map_iff in Hc as (x & <- & _).
  apply length_be32.
Qed.

(* ===================================================================== *)
(** * Proofs: the OID Fanout chunk *)
(* ===================================================================== *)

Module FanoutFacts.
Import Midx MidxSpec OidOrder.

Lemma ascending_tail a l : ascending (a :: l) -> ascending l.
Proof. simpl. tauto. Qed.

(** In an ascending list every later entry is greater. *)
Lemma ascending_all a l :
  ascending (a :: l) -> wf_oids (a :: l) -> Forall (oid_lt a) l.
Proof.
  revert a. induction l as [|b l IH]; intros a Ha Hwf; [constructor|].
  destruct Ha as [Hab Hl].
  constructor; [exact Hab|].
  inversion Hwf as [|? ? Hwa Hwl]; subst. inversion Hwl as [|? ? Hwb Hwl']; subst.
  specialize (IH b Hl Hwl).
  rewrite Forall_forall in IH, Hwl' |- *.
  intros e He. unfold oid_lt in *.
  apply (oidcmp_trans_lt _ (oid b)); auto.
  specialize (IH e He). lia.
Qed.

Lemma ascending_hash0 a l :
  ascending (a :: l) -> wf_oids (a :: l) ->
  Forall (fun e => hash0 (oid a) <= hash0 (oid e)) l.
Proof.
  intros Ha Hwf. pose proof (ascending_all a l Ha Hwf) as H.
  inversion Hwf as [|? ? Hwa Hwl]; subst.
  rewrite Forall_forall in H, Hwl |- *. intros e He.
  apply oidcmp_le_hash0; auto. specialize (H e He). unfold oid_lt in H. lia.
Qed.

Lemma filter_all_true {A} (f : A -> bool) l :
  Forall (fun x => f x = true) l -> List.filter f l = l.
Proof. induction 1; simpl; [reflexivity|]. rewrite H. f_equal. assumption. Qed.

Lemma filter_all_false {A} (f : A -> bool) l :
  Forall (fun x => f x = false) l -> List.filter f l = [].
Proof. induction 1; simpl; [reflexivity|]. rewrite H. assumption. Qed.

(** One bucket of the fanout loop on an ascending list. *)
Lemma fanout_bucket_ascending i prev l c :
  ascending l -> wf_oids l ->
  Forall (fun e => i <= hash0 (oid e)) l ->
  match prev, l with
  | Some p, e :: _ => oid_lt p e
  | _, _ => True
  end ->
  0 <= c -> c + Z.of_nat (length l) < 2 ^ 32 ->
  fanout_bucket i prev l c =
  (List.filter (bucket_gt i) l,
   c + Z.of_nat (length (List.filter (bucket_eq i) l))).
Proof.
  revert prev c. induction l as [|e l IH]; intros prev c Hasc Hwf Hge Hprev Hc Hlen.
  - simpl. f_equal. lia.
  - pose proof (ascending_hash0 e l Hasc Hwf) as Hmono.
    inversion Hge as [|? ? Hge_e Hge_l]; subst.
    inversion Hwf as [|? ? Hwf_e Hwf_l]; subst.
    cbn [fanout_bucket].
    destruct (hash0 (oid e) =? i) eqn:E.
    + apply Z.eqb_eq in E. simpl negb. cbv iota.
      assert (Hcount :
        match prev with
        | None => u32 (c + 1)
        | Some p => if oidcmp (oid p) (oid e) =? 0 then c else u32 (c + 1)
        end = c + 1).
      { simpl length in Hlen.
        destruct prev as [p|].
        - unfold oid_lt in Hprev.
          destruct (oidcmp (oid p) (oid e) =? 0) eqn:E2;
            [apply Z.eqb_eq in E2; lia | apply u32_small; lia].
        - apply u32_small; lia. }
      rewrite Hcount.
      rewrite (IH (Some e) (c + 1)); auto.
      * cbn [List.filter]. unfold bucket_eq, bucket_gt.
        replace (i <? hash0 (oid e)) with false by (symmetry; apply Z.ltb_ge; lia).
        replace (hash0 (oid e) =? i) with true by (symmetry; apply Z.eqb_eq; lia).
        simpl length. f_equal. lia.
      * eapply ascending_tail; eauto.
      * destruct l; [exact I|]. destruct Hasc as [H _]. exact H.
      * lia.
      * simpl length in Hlen. lia.
    + apply Z.eqb_neq in E. simpl negb. cbv iota.
      assert (Hall : Forall (fun x => bucket_gt i x = true) (e :: l)).
      { constructor.
        - unfold bucket_gt. apply Z.ltb_lt. lia.
        - rewrite Forall_forall in Hmono |- *. intros x Hx.
          specialize (Hmono x Hx). unfold bucket_gt. apply Z.ltb_lt. lia. }
      assert (Hnone : Forall (fun x => bucket_eq i x = false) (e :: l)).
      { rewrite Forall_forall in Hall |- *. intros x Hx.
        specialize (Hall x Hx). unfold bucket_gt, bucket_eq in *.
        apply Z.ltb_lt in Hall. apply Z.eqb_neq. lia. }
      rewrite (filter_all_true _ _ Hall), (filter_all_false _ _ Hnone).
      simpl. f_equal. lia.
Qed.

Lemma length_filter_le {A} (f : A -> bool) l :
  (length (List.filter f l) <= length l)%nat.
Proof. induction l; simpl; [lia|]. destruct (f a); simpl; lia. Qed.

Lemma filter_le_split i j l :
  i <= j -> Forall (fun e => i <= hash0 (oid e)) l ->
  length (List.filter (bucket_le j) l) =
  (length (List.filter (bucket_eq i) l) +
   length (List.filter (bucket_le j) (List.filter (bucket_gt i) l)))%nat.
Proof.
  intros Hij. induction 1 as [|e l He _ IH]; [reflexivity|].
  cbn [List.filter].
  destruct (bucket_eq i e) eqn:E1; destruct (bucket_gt i e) eqn:E2;
    destruct (bucket_le j e) eqn:E3; cbn [List.filter length];
    rewrite ?E3; cbn [length]; rewrite ?IH;
    unfold bucket_eq, bucket_gt, bucket_le in E1, E2, E3; lia.
Qed.

Lemma filter_eq_gt_le i l :
  (length (List.filter (bucket_eq i) l) + length (List.filter (bucket_gt i) l)
   <= length l)%nat.
Proof.
  induction l as [|e l IH]; [simpl; lia|].
  cbn [List.filter].
  destruct (bucket_eq i e) eqn:E1; destruct (bucket_gt i e) eqn:E2;
    cbn [length]; unfold bucket_eq, bucket_gt in E1, E2; lia.
Qed.

Lemma ascending_filter f l :
  wf_oids l -> ascending l -> ascending (List.filter f l).
Proof.
  induction l as [|a l IH]; intros Hwf Hasc; [exact I|].
  pose proof (ascending_all a l Hasc Hwf) as Hall.
  inversion Hwf; subst.
  simpl. destruct (f a).
  - simpl. split; [|apply IH; eauto using ascending_tail].
    destruct (List.filter f l) as [|b r] eqn:E; [exact I|].
    assert (Hb : In b (List.filter f l)) by (rewrite E; left; reflexivity).
    apply filter_In in Hb as [Hb _].
    rewrite Forall_forall in Hall. apply Hall. exact Hb.
  - apply IH; eauto using ascending_tail.
Qed.

Lemma wf_oids_filter f l : wf_oids l -> wf_oids (List.filter f l).
Proof.
  unfold wf_oids. rewrite !Forall_forall. intros H e He.
  apply filter_In in He as [He _].
  apply H, He.
Qed.

(** The whole fanout table of an ascending list. *)
Lemma fanout_loop_ascending n i l c :
  ascending l -> wf_oids l ->
  Forall (fun e => i <= hash0 (oid e)) l ->
  0 <= c -> c + Z.of_nat (length l) < 2 ^ 32 ->
  fanout_loop n i l c =
  concat (map be32
            (map (fun j => c + Z.of_nat (length (List.filter (bucket_le j) l)))
                 (seqZ i (Z.of_nat n)))).
Proof.
  revert i l c. induction n as [|n IH]; intros i l c Hasc Hwf Hge Hc Hlen.
  - reflexivity.
  - cbn [fanout_loop].
    rewrite (fanout_bucket_ascending i None l c) by (auto; destruct l; exact I).
    rewrite Nat2Z.inj_succ, seqZ_cons by lia.
    replace (Z.pred (Z.succ (Z.of_nat n))) with (Z.of_nat n) by lia.
    cbn [map concat].
    pose proof (length_filter_le (bucket_eq i) l) as L1.
    pose proof (length_filter_le (bucket_gt i) l) as L2.
    pose proof (filter_eq_gt_le i l) as L3.
    assert (Hsplit : forall j, i <= j ->
      length (List.filter (bucket_le j) l) =
      (length (List.filter (bucket_eq i) l) +
       length (List.filter (bucket_le j) (List.filter (bucket_gt i) l)))%nat)
      by (intros; apply filter_le_split; auto).
    f_equal.
    + f_equal. rewrite (Hsplit i) by lia.
      replace (List.filter (bucket_le i) (List.filter (bucket_gt i) l)) with (@nil pack_midx_entry).
      * simpl. lia.
      * symmetry. apply filter_all_false. rewrite Forall_forall. intros x Hx.
        apply filter_In in Hx as [_ Hx].
        unfold bucket_gt, bucket_le in *. apply Z.ltb_lt in Hx. apply Z.leb_gt. lia.
    + rewrite IH.
      * f_equal. f_equal. apply map_ext_in. intros j Hj.
        apply list_elem_of_In, elem_of_seqZ in Hj.
        rewrite (Hsplit j) by lia. lia.
      * apply ascending_filter; auto.
      * apply wf_oids_filter; auto.
      * rewrite Forall_forall. intros x Hx.
        apply filter_In in Hx as [_ Hx].
        unfold bucket_gt in Hx. apply Z.ltb_lt in Hx. lia.
      * lia.
      * lia.
Qed.

Lemma count_le_map l j :
  count_le (map oid l) j = Z.of_nat (length (List.filter (bucket_le j) l)).
Proof.
  unfold count_le. f_equal. induction l as [|e l IH]; simpl; [reflexivity|].
  unfold bucket_le at 1. destruct (hash0 (oid e) <=? j); simpl; rewrite IH; reflexivity.
Qed.

(** Entry [j] of the chunk [write_midx_chunk_oidfanout] writes for an
    ascending list is the number of its object ids with first byte at most
    [j]. *)
Lemma fanout_chunk_entry l j :
  ascending l -> wf_oids l -> Z.of_nat (length l) < 2 ^ 32 ->
  0 <= j < 256 ->
  read_be32 (fst (write_midx_chunk_oidfanout l)) (4 * j) =
  Ok (count_le (map oid l) j).
Proof.
  intros Hasc Hwf Hlen Hj. unfold write_midx_chunk_oidfanout. cbn [fst].
  rewrite (fanout_loop_ascending 256 0 l 0); auto; try lia.
  - replace (4 * j) with (4 * Z.of_nat (Z.to_nat j)) by lia.
    erewrite read_be32_table.
    + rewrite u32_small; [rewrite count_le_map; reflexivity|].
      pose proof (length_filter_le (bucket_le j) l). lia.
    + rewrite list_lookup_fmap, lookup_seqZ_lt by lia.
      cbn [fmap option_fmap option_map]. rewrite Z.add_0_l, Z2Nat.id by lia.
      reflexivity.
  - rewrite Forall_forall. intros e _. pose proof (hash0_range (oid e)). lia.
Qed.

Lemma length_fanout_loop n i l c : length (fanout_loop n i l c) = (4 * n)%nat.
Proof.
  revert i l c. induction n as [|n IH]; intros; [reflexivity|].
  cbn [fanout_loop]. destruct (fanout_bucket i None l c) as [next c'].
  rewrite length_app, length_be32, IH. lia.
Qed.

Lemma count_le_255 oids : count_le oids 255 = Z.of_nat (length oids).
Proof.
  unfold count_le. f_equal. rewrite filter_all_true; [reflexivity|].
  rewrite Forall_forall. intros o _. apply Z.leb_le. apply hash0_range.
Qed.

End FanoutFacts.

(* ===================================================================== *)
(** * Proofs: the other chunks of the writer *)
(* ===================================================================== *)

Module ChunkFacts.
Import Midx MidxSpec OidOrder FanoutFacts.

(** ** OID Lookup *)

Lemma oidlookup_loop_ok last l :
  wf_oids l -> ascending l -> last_differs last l ->
  oidlookup_loop 20 last l =
  Ok (concat (map oid l), 20 * Z.of_nat (length l)).
Proof.
  revert last. induction l as [|e l IH]; intros last Hwf Hasc Hlast.
  - reflexivity.
  - inversion Hwf as [|? ? Hwe Hwl]; subst. destruct Hasc as [Hh Hasc].
    cbn [oidlookup_loop].
    assert (Hnext : match l with
                    | next :: _ => oidcmp (oid e) (oid next) >=? 0
                    | [] => false
                    end = false).
    { destruct l as [|b l]; [reflexivity|]. unfold oid_lt in Hh.
      rewrite Z.geb_leb. apply Z.leb_gt. lia. }
    rewrite Hnext.
    assert (Hskip : match last with
                    | Some l0 => oidcmp l0 (oid e) =? 0
                    | None => false
                    end = false).
    { destruct last as [o|]; [|reflexivity]. simpl in Hlast.
      apply Z.eqb_neq. exact Hlast. }
    rewrite Hskip.
    rewrite (IH (Some (oid e))); auto.
    + cbn [bind map concat length]. rewrite take_ge by (unfold wf_oid in Hwe; lia).
      f_equal. f_equal. lia.
    + destruct l as [|b l]; [exact I|]. simpl. unfold oid_lt in Hh. lia.
Qed.

Lemma oidlookup_loop_ascending h last l r :
  oidlookup_loop h last l = Ok r -> ascending l.
Proof.
  revert last r. induction l as [|e l IH]; intros last r H; [exact I|].
  cbn [oidlookup_loop] in H.
  destruct (match l with
            | next :: _ => oidcmp (oid e) (oid next) >=? 0
            | [] => false
            end) eqn:Hnext; [discriminate|].
  assert (Hl : ascending l).
  { destruct (match last with
              | Some l0 => oidcmp l0 (oid e) =? 0
              | None => false
              end).
    - eapply IH; eauto.
    - destruct (oidlookup_loop h (Some (oid e)) l) as [r'| | | |] eqn:E;
        try discriminate. eapply IH; eauto. }
  split; [|exact Hl].
  destruct l as [|b l]; [exact I|].
  unfold oid_lt. rewrite Z.geb_leb in Hnext. apply Z.leb_gt in Hnext. lia.
Qed.

(** ** Object Offsets *)

Lemma length_ooff_records large perm c l :
  Forall (fun r => length r = 8%nat) (ooff_records large perm c l).
Proof.
  revert c. induction l as [|e l IH]; intros c; [constructor|].
  cbn [ooff_records]. constructor; [|apply IH].
  rewrite length_app, !length_be32. reflexivity.
Qed.

Lemma length_ooff_records' large perm c l :
  length (ooff_records large perm c l) = length l.
Proof. revert c. induction l; intros; simpl; [reflexivity|]. f_equal. auto. Qed.

Lemma objectoffsets_loop_ok large perm last c l :
  wf_oids l -> ascending l -> last_differs last l ->
  Forall (fun e => 0 <= pack_int_id e < Z.of_nat (length perm)) l ->
  (large = false -> Forall (fun e => Z.shiftr (offset e) 32 = 0) l) ->
  0 <= c -> c + Z.of_nat (length l) < 2 ^ 32 ->
  objectoffsets_loop large perm last c l =
  Ok (concat (ooff_records large perm c l), 8 * Z.of_nat (length l)).
Proof.
  revert last c. induction l as [|e l IH]; intros last c Hwf Hasc Hlast Hid Hsmall Hc Hlen.
  - reflexivity.
  - inversion Hwf as [|? ? Hwe Hwl]; subst. destruct Hasc as [Hh Hasc].
    inversion Hid as [|? ? Hide Hidl]; subst.
    cbn [objectoffsets_loop].
    assert (Hskip : match last with
                    | Some l0 => oidcmp l0 (oid e) =? 0
                    | None => false
                    end = false).
    { destruct last as [o|]; [|reflexivity]. simpl in Hlast.
      apply Z.eqb_neq. exact Hlast. }
    rewrite Hskip.
    assert (Hget : array_get perm (pack_int_id e) = Ok (perm_at perm e)).
    { unfold array_get, perm_at.
      replace (0 <=? pack_int_id e) with true by (symmetry; apply Z.leb_le; lia).
      destruct (perm !! Z.to_nat (pack_int_id e)) eqn:E; [reflexivity|].
      apply lookup_ge_None in E. lia. }
    rewrite Hget. cbn [bind].
    assert (Hnext : last_differs (Some (oid e)) l).
    { destruct l as [|b l]; [exact I|]. simpl. unfold oid_lt in Hh. lia. }
    assert (Hsmall' : large = false -> Forall (fun e => Z.shiftr (offset e) 32 = 0) l).
    { intros HL. specialize (Hsmall HL). inversion Hsmall; assumption. }
    simpl length in Hlen.
    cbn [ooff_records]. unfold offset_word, is_large.
    destruct (large && negb (Z.shiftr (offset e) 31 =? 0)) eqn:EL.
    + rewrite (u32_small (c + 1)) by lia.
      rewrite (IH (Some (oid e)) (c + 1)); auto; try lia.
      cbn [bind concat]. rewrite <- app_assoc. do 2 f_equal.
      unfold MIDX_CHUNK_OFFSET_WIDTH. cbn [length]. lia.
    + assert (Hbug : negb large && negb (Z.shiftr (offset e) 32 =? 0) = false).
      { destruct large; [reflexivity|]. cbn [negb andb].
        specialize (Hsmall eq_refl). inversion Hsmall as [|? ? He _]; subst.
        rewrite He. reflexivity. }
      rewrite Hbug.
      rewrite (IH (Some (oid e)) c); auto; try lia.
      cbn [bind concat]. rewrite <- app_assoc. do 2 f_equal.
      unfold MIDX_CHUNK_OFFSET_WIDTH. cbn [length]. lia.
Qed.

Lemma large_before_0 l : large_before l 0 = 0.
Proof. reflexivity. Qed.

Lemma large_before_S e l k :
  large_before (e :: l) (S k) =
  (if is_large e then 1 else 0) + large_before l k.
Proof.
  unfold large_before. cbn [take List.filter].
  destruct (is_large e); cbn [length]; lia.
Qed.

Lemma large_before_nonneg l k : 0 <= large_before l k.
Proof. unfold large_before. lia. Qed.

Lemma ooff_records_lookup large perm c l k e :
  l !! k = Some e ->
  ooff_records large perm c l !! k =
  Some (be32 (perm_at perm e) ++
        be32 (offset_word large
                (c + (if large then large_before l k else 0)) e)).
Proof.
  revert c k. induction l as [|a l IH]; intros c k Hk; [discriminate|].
  destruct k as [|k]; cbn [ooff_records].
  - cbn in Hk. inversion Hk; subst a. cbn [lookup list_lookup].
    rewrite large_before_0. destruct large; rewrite Z.add_0_r; reflexivity.
  - cbn in Hk. cbn [lookup list_lookup]. rewrite (IH _ k Hk).
    rewrite large_before_S. f_equal. f_equal. f_equal.
    unfold offset_word.
    destruct large; cbn [andb]; [|reflexivity].
    destruct (is_large a); destruct (is_large e); f_equal; lia.
Qed.

(** ** Large Offsets *)

Lemma largeoffsets_loop_0 last l : largeoffsets_loop 0 last l = Ok ([], 0).
Proof. destruct l; reflexivity. Qed.

Lemma largeoffsets_loop_cons nr last e l :
  nr <> 0 ->
  largeoffsets_loop nr last (e :: l) =
  if match last with
     | Some l0 => oidcmp l0 (oid e) =? 0
     | None => false
     end
  then largeoffsets_loop nr last l
  else if Z.shiftr (u64 (offset e)) 31 =? 0
  then largeoffsets_loop nr (Some (oid e)) l
  else
    let* (bs, written) := largeoffsets_loop (u32 (nr - 1)) (Some (oid e)) l in
    Ok (be32 (Z.shiftr (u64 (offset e)) 32) ++
        be32 (Z.land (u64 (offset e)) 0xffffffff) ++ bs,
        2 * 4 + written).
Proof.
  intros H. cbn [largeoffsets_loop].
  rewrite (proj2 (Z.eqb_neq _ _) H). reflexivity.
Qed.

Lemma largeoffsets_loop_ok last l :
  wf_oids l -> ascending l -> last_differs last l ->
  Forall (fun e => 0 <= offset e < 2 ^ 64) l ->
  Z.of_nat (length l) < 2 ^ 32 ->
  largeoffsets_loop (Z.of_nat (length (List.filter is_large l))) last l =
  Ok (concat (map loff_record (List.filter is_large l)),
      8 * Z.of_nat (length (List.filter is_large l))).
Proof.
  revert last. induction l as [|e l IH]; intros last Hwf Hasc Hlast Hoff Hlen.
  - reflexivity.
  - inversion Hwf as [|? ? Hwe Hwl]; subst. destruct Hasc as [Hh Hasc].
    inversion Hoff as [|? ? Hoe Hol]; subst.
    assert (Hnext : last_differs (Some (oid e)) l).
    { destruct l as [|b l]; [exact I|]. simpl. unfold oid_lt in Hh. lia. }
    assert (Hskip : match last with
                    | Some l0 => oidcmp l0 (oid e) =? 0
                    | None => false
                    end = false).
    { destruct last as [o|]; [|reflexivity]. simpl in Hlast.
      apply Z.eqb_neq. exact Hlast. }
    cbn [length] in Hlen.
    pose proof (length_filter_le is_large l) as Hle.
    cbn [List.filter].
    destruct (is_large e) eqn:E.
    + (* the entry is written *)
      rewrite largeoffsets_loop_cons by (cbn [length]; lia).
      rewrite Hskip, (u64_small (offset e)) by lia.
      unfold is_large in E. apply negb_true_iff in E. rewrite E.
      replace (u32 (Z.of_nat (length (e :: List.filter is_large l)) - 1))
        with (Z.of_nat (length (List.filter is_large l)))
        by (rewrite u32_small; cbn [length]; lia).
      rewrite IH; auto; try lia.
      cbn [bind map concat length]. unfold loff_record at 2.
      rewrite <- app_assoc. do 2 f_equal. lia.
    + (* the entry is passed over *)
      destruct (List.filter is_large l) as [|b r] eqn:EF.
      * apply largeoffsets_loop_0.
      * rewrite largeoffsets_loop_cons by (cbn [length]; lia).
        rewrite Hskip, (u64_small (offset e)) by lia.
        unfold is_large in E. apply negb_false_iff in E. rewrite E.
        apply IH; auto. lia.
Qed.

End ChunkFacts.

(* ===================================================================== *)
(** * Proofs: pack names, their sort and the permutation *)
(* ===================================================================== *)

Module PackFacts.
Import Midx MidxSpec.

Lemma names_size_nonneg names : 0 <= names_size names.
Proof.
  induction names as [|n names IH]; simpl; [lia|]. unfold strlen. lia.
Qed.

Lemma names_size_cons n names :
  names_size (n :: names) = strlen n + 1 + names_size names.
Proof. reflexivity. Qed.

Lemma packlookup_loop_image c names :
  0 <= c -> c + names_size names < 2 ^ 32 ->
  packlookup_loop c names = concat (map be32 (name_starts c names)).
Proof.
  revert c. induction names as [|n names IH]; intros c Hc Hlt; [reflexivity|].
  rewrite names_size_cons in Hlt. pose proof (names_size_nonneg names).
  cbn [packlookup_loop name_starts map concat].
  rewrite u32_small by (unfold strlen in *; lia).
  rewrite IH by (unfold strlen in *; lia). reflexivity.
Qed.

Lemma length_name_starts c names : length (name_starts c names) = length names.
Proof. revert c. induction names; intros; simpl; [reflexivity|]. f_equal. auto. Qed.

Lemma name_starts_range c names s :
  In s (name_starts c names) -> c <= s < c + names_size names.
Proof.
  revert c. induction names as [|n names IH]; intros c H; [destruct H|].
  rewrite names_size_cons. pose proof (names_size_nonneg names).
  destruct H as [<-|H]; [unfold strlen; lia|].
  apply IH in H. unfold strlen in *. lia.
Qed.

Lemma fold_total_name_len names acc :
  0 <= acc -> acc + names_size names < 2 ^ 31 ->
  fold_left (fun acc n => s32 (acc + (strlen n + 1))) names acc =
  acc + names_size names.
Proof.
  revert acc. induction names as [|n names IH]; intros acc H0 H; simpl.
  - lia.
  - rewrite names_size_cons in H. pose proof (names_size_nonneg names).
    assert (E : s32 (acc + (strlen n + 1)) = acc + (strlen n + 1)).
    { unfold s32. unfold strlen in *. rewrite Z.mod_small; lia. }
    rewrite E, IH by (unfold strlen in *; lia). lia.
Qed.

Lemma strcmp_antisym a b : strcmp b a = - strcmp a b.
Proof. apply memcmp_antisym. Qed.

Lemma packnames_loop_ok prev names :
  names_ascending names -> prev_below prev names ->
  packnames_loop prev names =
  Ok (concat (map (fun n => n ++ [Byte.x00]) names), names_size names).
Proof.
  revert prev. induction names as [|n names IH]; intros prev Hasc Hprev;
    [reflexivity|].
  destruct Hasc as [Hh Hasc]. cbn [packnames_loop].
  assert (Hchk : match prev with
                 | Some p => strcmp n p <=? 0
                 | None => false
                 end = false).
  { destruct prev as [p|]; [|reflexivity]. simpl in Hprev.
    apply Z.leb_gt. rewrite (strcmp_antisym p n). lia. }
  assert (Hnext : prev_below (Some n) names)
    by (destruct names; [exact I|exact Hh]).
  rewrite Hchk, (IH (Some n) Hasc Hnext).
  cbn [bind map concat]. rewrite names_size_cons.
  rewrite <- app_assoc. reflexivity.
Qed.

Lemma packnames_loop_ascending prev names r :
  packnames_loop prev names = Ok r -> names_ascending names /\ prev_below prev names.
Proof.
  revert prev r. induction names as [|n names IH]; intros prev r H.
  - split; [exact I|]. destruct prev; exact I.
  - cbn [packnames_loop] in H.
    destruct (match prev with
              | Some p => strcmp n p <=? 0
              | None => false
              end) eqn:Hchk; [discriminate|].
    destruct (packnames_loop (Some n) names) as [r'| | | |] eqn:E; try discriminate.
    apply IH in E as [Hasc Hnext].
    split; [split|].
    + destruct names; [exact I|exact Hnext].
    + exact Hasc.
    + destruct prev as [p|]; [|exact I]. simpl.
      apply Z.leb_gt in Hchk. rewrite (strcmp_antisym p n) in Hchk. lia.
Qed.

Lemma length_pnam_image names :
  Z.of_nat (length (pnam_image names)) = names_size names.
Proof.
  unfold pnam_image. induction names as [|n names IH]; [reflexivity|].
  cbn [map concat]. rewrite names_size_cons, !length_app, !Nat2Z.inj_add, IH.
  unfold strlen. simpl length. lia.
Qed.

End PackFacts.

(* ===================================================================== *)
(** * Proofs: what [write_midx_file] writes *)
(* ===================================================================== *)

Module WriteFacts.
Import Midx MidxSpec OidOrder FanoutFacts ChunkFacts PackFacts.

Lemma shiftr_zero_iff x k : 0 <= x -> 0 <= k -> (Z.shiftr x k = 0 <-> x < 2 ^ k).
Proof.
  intros Hx Hk. rewrite Z.shiftr_div_pow2 by lia.
  assert (0 < 2 ^ k) by (apply Z.pow_pos_nonneg; lia).
  split; intros H1.
  - apply Z.div_small_iff in H1; lia.
  - apply Z.div_small. lia.
Qed.

Lemma is_large_iff e :
  0 <= offset e -> is_large e = (0x7fffffff <? offset e).
Proof.
  intros H. unfold is_large.
  destruct (Z.shiftr (offset e) 31 =? 0) eqn:E; cbn [negb]; symmetry.
  - apply Z.eqb_eq in E.
    pose proof (proj1 (shiftr_zero_iff (offset e) 31 H ltac:(lia)) E).
    apply Z.ltb_ge. lia.
  - apply Z.eqb_neq in E. apply Z.ltb_lt.
    destruct (Z_lt_ge_dec (offset e) (2 ^ 31)) as [L|G]; [|lia].
    exfalso. apply E. apply shiftr_zero_iff; lia.
Qed.

Lemma filter_large_eq objs :
  Forall (fun e => 0 <= offset e) objs ->
  List.filter (fun o => 0x7fffffff <? offset o) objs = List.filter is_large objs.
Proof.
  induction 1 as [|e l He _ IH]; [reflexivity|].
  cbn [List.filter]. rewrite (is_large_iff e He), IH. reflexivity.
Qed.

Lemma large_needed_false objs :
  large_needed objs = false ->
  Forall (fun e => 0 <= offset e) objs ->
  Forall (fun e => Z.shiftr (offset e) 32 = 0) objs.
Proof.
  unfold large_needed. intros H. induction 1 as [|e l He _ IH]; constructor.
  - cbn [existsb] in H. apply orb_false_iff in H as [H _].
    apply Z.ltb_ge in H. apply shiftr_zero_iff; lia.
  - apply IH. cbn [existsb] in H. apply orb_false_iff in H as [_ H]. exact H.
Qed.

Lemma length_header_bytes nc p : length (header_bytes nc p) = 16%nat.
Proof.
  unfold header_bytes. rewrite !length_app, !length_be32. reflexivity.
Qed.

Lemma length_chunk_table_bytes plan :
  length (chunk_table_bytes plan) = (12 * length plan)%nat.
Proof.
  unfold chunk_table_bytes. induction plan as [|[id off] plan IH]; [reflexivity|].
  cbn [flat_map]. rewrite !length_app, !length_be32, IH. cbn [length]. lia.
Qed.

Lemma length_oidl_image objs :
  wf_oids objs -> length (oidl_image objs) = (20 * length objs)%nat.
Proof.
  intros H. unfold oidl_image. rewrite (length_concat_fixed 20), length_map; [reflexivity|].
  apply Forall_forall. intros c Hc. apply in_map_iff in Hc as (e & <- & He).
  unfold wf_oids in H. rewrite Forall_forall in H. apply H, He.
Qed.

Lemma length_ooff_image perm objs :
  length (ooff_image perm objs) = (8 * length objs)%nat.
Proof.
  unfold ooff_image.
  rewrite (length_concat_fixed 8), length_ooff_records'; [reflexivity|].
  apply length_ooff_records.
Qed.

Lemma length_loff_record e : length (loff_record e) = 8%nat.
Proof. unfold loff_record. rewrite length_app, !length_be32. reflexivity. Qed.

Lemma length_loff_image objs :
  Z.of_nat (length (loff_image objs)) =
  if large_needed objs
  then 8 * Z.of_nat (length (List.filter is_large objs)) else 0.
Proof.
  unfold loff_image. destruct (large_needed objs); [|reflexivity].
  rewrite (length_concat_fixed 8), length_map; [lia|].
  apply Forall_forall. intros c Hc. apply in_map_iff in Hc as (e & <- & He).
  apply length_loff_record.
Qed.

Lemma length_oidf_image objs : length (oidf_image objs) = 1024%nat.
Proof. unfold oidf_image. cbn [write_midx_chunk_oidfanout fst]. apply length_fanout_loop. Qed.

Lemma length_ploo_image names :
  length (ploo_image names) = (4 * length names)%nat.
Proof. unfold ploo_image. rewrite length_table, length_name_starts. reflexivity. Qed.

Lemma chunk_plan_image names objs :
  sizes_ok names objs ->
  Forall (fun e => 0 <= offset e) objs ->
  chunk_plan (large_needed objs)
    (u32 (Z.of_nat (length (List.filter (fun o => 0x7fffffff <? offset o) objs))))
    (Z.of_nat (length names)) (Z.of_nat (length objs)) (names_size names) =
  image_plan names objs.
Proof.
  intros (Hp & Hn & Ho) Hoff.
  rewrite (filter_large_eq objs Hoff).
  pose proof (length_filter_le is_large objs) as HL.
  pose proof (names_size_nonneg names) as Hs.
  rewrite u32_small by lia.
  unfold chunk_plan, image_plan, off_end, off_pnam, off_loff, off_ooff,
    off_oidl, off_oidf, off_ploo, nr_chunks,
    MIDX_CHUNKLOOKUP_WIDTH, MIDX_CHUNK_FANOUT_SIZE, MIDX_OID_LEN,
    MIDX_OID_LEN_SHA1, MIDX_CHUNK_OFFSET_WIDTH, MIDX_CHUNK_LARGE_OFFSET_WIDTH.
  destruct (large_needed objs); cbv zeta;
    repeat match goal with
           | |- context [u32 ?x] => rewrite (u32_small x) by lia
           | |- context [u64 ?x] => rewrite (u64_small x) by lia
           end;
    repeat (f_equal; try lia).
Qed.

Lemma write_chunks_step L nr names objs perm id off rest w bs n :
  off = w ->
  write_chunk L nr names objs perm id = Ok (bs, n) ->
  0 <= w + n < 2 ^ 64 ->
  write_chunks L nr names objs perm ((id, off) :: rest) w =
  let* more := write_chunks L nr names objs perm rest (w + n) in
  Ok (bs ++ more).
Proof.
  intros -> Hw Hr. cbn [write_chunks]. rewrite Z.eqb_refl. cbn [negb].
  rewrite Hw. cbn [bind]. rewrite u64_small by lia. reflexivity.
Qed.

Section Image.
Variable hash_fn : list byte -> list byte.

Lemma writable_wf_oids names perm objs :
  writable names perm objs -> wf_oids objs.
Proof.
  intros (_ & _ & _ & _ & H). unfold wf_oids.
  eapply Forall_impl; [|exact H]. intros e (He & _). exact He.
Qed.

Lemma writable_offsets names perm objs :
  writable names perm objs -> Forall (fun e => 0 <= offset e < 2 ^ 63) objs.
Proof.
  intros (_ & _ & _ & _ & H).
  eapply Forall_impl; [|exact H]. intros e (_ & _ & He). exact He.
Qed.

Lemma writable_ids names perm objs :
  writable names perm objs ->
  Forall (fun e => 0 <= pack_int_id e < Z.of_nat (length perm)) objs.
Proof.
  intros (_ & _ & Hl & _ & H). rewrite Hl.
  eapply Forall_impl; [|exact H]. intros e (_ & He & _). exact He.
Qed.

(** The payload of the file for sorted names. *)
Lemma write_chunks_image names perm objs :
  writable names perm objs ->
  write_chunks (large_needed objs)
    (Z.of_nat (length (List.filter is_large objs))) names objs perm
    (image_plan names objs) (off_ploo objs) =
  Ok (ploo_image names ++ oidf_image objs ++ oidl_image objs ++
      ooff_image perm objs ++ loff_image objs ++ pnam_image names).
Proof.
  intros W. pose proof W as ((Hp & Hn & Ho) & Hna & Hperm & Hasc & Hwf).
  pose proof (writable_wf_oids _ _ _ W) as Hoids.
  pose proof (writable_offsets _ _ _ W) as Hoffs.
  pose proof (writable_ids _ _ _ W) as Hids.
  pose proof (length_filter_le is_large objs) as HL.
  pose proof (names_size_nonneg names) as Hs.
  assert (E1 : write_chunk (large_needed objs)
                 (Z.of_nat (length (List.filter is_large objs))) names objs perm
                 MIDX_CHUNKID_PACKLOOKUP =
               Ok (ploo_image names, 4 * Z.of_nat (length names))).
  { change (write_chunk _ _ names objs perm MIDX_CHUNKID_PACKLOOKUP)
      with (Ok (A := list byte * Z) (write_midx_chunk_packlookup names)).
    unfold write_midx_chunk_packlookup, ploo_image.
    rewrite packlookup_loop_image by lia. reflexivity. }
  assert (E2 : write_chunk (large_needed objs)
                 (Z.of_nat (length (List.filter is_large objs))) names objs perm
                 MIDX_CHUNKID_OIDFANOUT =
               Ok (oidf_image objs, 1024)).
  { reflexivity. }
  assert (E3 : write_chunk (large_needed objs)
                 (Z.of_nat (length (List.filter is_large objs))) names objs perm
                 MIDX_CHUNKID_OIDLOOKUP =
               Ok (oidl_image objs, 20 * Z.of_nat (length objs))).
  { change (write_chunk _ _ names objs perm MIDX_CHUNKID_OIDLOOKUP)
      with (write_midx_chunk_oidlookup 20 objs).
    unfold write_midx_chunk_oidlookup.
    rewrite oidlookup_loop_ok; auto. exact I. }
  assert (E4 : write_chunk (large_needed objs)
                 (Z.of_nat (length (List.filter is_large objs))) names objs perm
                 MIDX_CHUNKID_OBJECTOFFSETS =
               Ok (ooff_image perm objs, 8 * Z.of_nat (length objs))).
  { change (write_chunk _ _ names objs perm MIDX_CHUNKID_OBJECTOFFSETS)
      with (write_midx_chunk_objectoffsets (large_needed objs) objs perm).
    unfold write_midx_chunk_objectoffsets.
    rewrite objectoffsets_loop_ok; auto; try lia; try exact I.
    intros HL0. apply large_needed_false; auto.
    eapply Forall_impl; [|exact Hoffs]. intros e He. cbv beta in He. lia. }
  assert (E5 : write_chunk (large_needed objs)
                 (Z.of_nat (length (List.filter is_large objs))) names objs perm
                 MIDX_CHUNKID_PACKNAMES =
               Ok (pnam_image names, names_size names)).
  { change (write_chunk _ _ names objs perm MIDX_CHUNKID_PACKNAMES)
      with (write_midx_chunk_packnames names).
    unfold write_midx_chunk_packnames. rewrite packnames_loop_ok; auto. exact I. }
  assert (E6 : write_chunk (large_needed objs)
                 (Z.of_nat (length (List.filter is_large objs))) names objs perm 0 =
               Ok ([], 0)) by reflexivity.
  unfold image_plan, loff_image, off_end, off_pnam, off_loff, off_ooff,
    off_oidl, off_oidf, off_ploo, nr_chunks.
  destruct (large_needed objs) eqn:EL.
  - assert (E7 : write_chunk true
                   (Z.of_nat (length (List.filter is_large objs))) names objs perm
                   MIDX_CHUNKID_LARGEOFFSETS =
                 Ok (concat (map loff_record (List.filter is_large objs)),
                     8 * Z.of_nat (length (List.filter is_large objs)))).
    { change (write_chunk _ _ names objs perm MIDX_CHUNKID_LARGEOFFSETS)
        with (write_midx_chunk_largeoffsets
                (Z.of_nat (length (List.filter is_large objs))) objs).
      unfold write_midx_chunk_largeoffsets.
      rewrite largeoffsets_loop_ok; auto; try exact I.
      eapply Forall_impl; [|exact Hoffs]. intros e He. cbv beta in He. lia. }
    erewrite write_chunks_step; [|reflexivity|exact E1|lia].
    erewrite write_chunks_step; [|lia|exact E2|lia].
    erewrite write_chunks_step; [|lia|exact E3|lia].
    erewrite write_chunks_step; [|lia|exact E4|lia].
    erewrite write_chunks_step; [|lia|exact E7|lia].
    erewrite write_chunks_step; [|lia|exact E5|lia].
    erewrite write_chunks_step; [|lia|exact E6|lia].
    cbn [write_chunks bind]. rewrite !app_nil_r. reflexivity.
  - erewrite write_chunks_step; [|reflexivity|exact E1|lia].
    erewrite write_chunks_step; [|lia|exact E2|lia].
    erewrite write_chunks_step; [|lia|exact E3|lia].
    erewrite write_chunks_step; [|lia|exact E4|lia].
    erewrite write_chunks_step; [|lia|exact E5|lia].
    erewrite write_chunks_step; [|lia|exact E6|lia].
    cbn [write_chunks bind]. rewrite !app_nil_r. reflexivity.
Qed.
End Image.

End WriteFacts.

(* ===================================================================== *)
(** * Proofs: the sort, and the pack permutation *)
(* ===================================================================== *)

Section SortFacts.
Context {A : Type} (cmp : A -> A -> Z).

Lemma qsort_insert_perm x l : Permutation (qsort_insert cmp x l) (x :: l).
Proof.
  induction l as [|y l IH]; cbn [qsort_insert]; [reflexivity|].
  destruct (cmp x y <? 0); [reflexivity|].
  apply perm_trans with (y :: x :: l); [apply perm_skip, IH|apply perm_swap].
Qed.

Lemma fold_insert_perm l acc :
  Permutation (fold_left (fun acc x => qsort_insert cmp x acc) l acc) (acc ++ l).
Proof.
  revert acc. induction l as [|x l IH]; intros acc; cbn [fold_left].
  - rewrite app_nil_r. reflexivity.
  - eapply perm_trans; [apply IH|].
    eapply perm_trans; [apply Permutation_app_tail, qsort_insert_perm|].
    change (acc ++ x :: l) with (acc ++ [x] ++ l).
    rewrite app_assoc. apply Permutation_app_tail.
    change (x :: acc) with ([x] ++ acc). apply Permutation_app_comm.
Qed.

Lemma QSORT_perm l : Permutation (QSORT cmp l) l.
Proof. unfold QSORT. apply (fold_insert_perm l []). Qed.

Hypothesis cmp_antisym : forall a b, cmp b a = - cmp a b.

Lemma qsort_insert_in_order x l :
  in_order cmp l -> in_order cmp (qsort_insert cmp x l).
Proof.
  induction l as [|y l IH]; intros H; cbn [qsort_insert].
  - simpl. auto.
  - destruct (cmp x y <? 0) eqn:E.
    + apply Z.ltb_lt in E. simpl. split; [lia|exact H].
    + apply Z.ltb_ge in E. destruct H as [Hh Ht]. specialize (IH Ht).
      destruct l as [|z l].
      * cbn [qsort_insert]. simpl. rewrite (cmp_antisym x y). split; [lia|auto].
      * cbn [qsort_insert] in IH |- *.
        destruct (cmp x z <? 0) eqn:E2.
        -- simpl. rewrite (cmp_antisym x y). split; [lia|exact IH].
        -- simpl. split; [exact Hh|exact IH].
Qed.

Lemma fold_insert_in_order l acc :
  in_order cmp acc ->
  in_order cmp (fold_left (fun acc x => qsort_insert cmp x acc) l acc).
Proof.
  revert acc. induction l as [|x l IH]; intros acc H; cbn [fold_left]; [exact H|].
  apply IH, qsort_insert_in_order, H.
Qed.

Lemma QSORT_in_order l : in_order cmp (QSORT cmp l).
Proof. apply fold_insert_in_order. exact I. Qed.
End SortFacts.

Module SortPacks.
Import Midx MidxSpec PackFacts.

Lemma strcmp_eq a b : nul_free a -> nul_free b -> strcmp a b = 0 -> a = b.
Proof.
  unfold strcmp, nul_free. revert b.
  induction a as [|x a IH]; intros [|y b] Ha Hb H; cbn [app memcmp] in H.
  - reflexivity.
  - inversion Hb as [|? ? Hy _]; subst. exfalso.
    destruct (byte.unsigned Byte.x00 =? byte.unsigned y) eqn:E.
    + apply Z.eqb_eq, byte.unsigned_inj in E. congruence.
    + apply Z.eqb_neq in E. lia.
  - inversion Ha as [|? ? Hx _]; subst. exfalso.
    destruct (byte.unsigned x =? byte.unsigned Byte.x00) eqn:E.
    + apply Z.eqb_eq, byte.unsigned_inj in E. congruence.
    + apply Z.eqb_neq in E. lia.
  - inversion Ha; subst. inversion Hb; subst.
    destruct (byte.unsigned x =? byte.unsigned y) eqn:E.
    + apply Z.eqb_eq, byte.unsigned_inj in E. subst y. f_equal. apply IH; auto.
    + apply Z.eqb_neq in E. lia.
Qed.

Lemma pairs_of_ok_from (names all : list cstring) (k : nat) :
  (forall i n, names !! i = Some n -> all !! (k + i)%nat = Some n) ->
  Forall (pair_ok all)
    (imap (fun i n => {| pp_pack_int_id := Z.of_nat (k + i); pp_pack_name := n |}) names).
Proof.
  revert k. induction names as [|n names IH]; intros k H; [constructor|].
  cbn [imap]. constructor.
  - split; cbn; [lia|]. rewrite Nat2Z.id. apply (H 0%nat). reflexivity.
  - erewrite imap_ext; [apply (IH (S k))|].
    + intros i m Hi. replace (S k + i)%nat with (k + S i)%nat by lia.
      apply H. exact Hi.
    + intros i m _. cbn. f_equal. f_equal. lia.
Qed.

Lemma pairs_of_ok names : Forall (pair_ok names) (pairs_of names).
Proof. apply (pairs_of_ok_from names names 0). intros i n H. exact H. Qed.

Lemma pairs_of_ids_from (names : list cstring) (k : nat) :
  map pp_pack_int_id
    (imap (fun i n => {| pp_pack_int_id := Z.of_nat (k + i); pp_pack_name := n |}) names) =
  map Z.of_nat (seq k (length names)).
Proof.
  revert k. induction names as [|n names IH]; intros k; [reflexivity|].
  cbn [imap map length seq]. f_equal; [cbn; f_equal; lia|].
  rewrite <- (IH (S k)). f_equal. apply imap_ext. intros i m _. cbn.
  f_equal. f_equal. lia.
Qed.

Lemma pairs_of_ids names :
  map pp_pack_int_id (pairs_of names) = map Z.of_nat (seq 0 (length names)).
Proof. apply (pairs_of_ids_from names 0). Qed.

Lemma pairs_of_names_from (names : list cstring) (k : nat) :
  map pp_pack_name
    (imap (fun i n => {| pp_pack_int_id := Z.of_nat (k + i); pp_pack_name := n |}) names) =
  names.
Proof.
  revert k. induction names as [|n names IH]; intros k; [reflexivity|].
  cbn [imap map]. f_equal. rewrite <- (IH (S k)) at 2. f_equal.
  apply imap_ext. intros i m _. cbn. f_equal. f_equal. lia.
Qed.

Lemma pairs_of_names names : map pp_pack_name (pairs_of names) = names.
Proof. apply (pairs_of_names_from names 0). Qed.

(** [fill_perm] writes position [i + k] at the id of the [k]-th pair. *)
Lemma fill_perm_ok (pairs : list pack_pair) i perm :
  Forall (fun p => 0 <= pp_pack_int_id p < Z.of_nat (length perm)) pairs ->
  NoDup (map pp_pack_int_id pairs) ->
  exists perm',
    fill_perm i pairs perm = Ok perm' /\
    length perm' = length perm /\
    (forall k p, pairs !! k = Some p ->
       perm' !! Z.to_nat (pp_pack_int_id p) = Some (i + Z.of_nat k)) /\
    (forall j, ~ In (Z.of_nat j) (map pp_pack_int_id pairs) ->
       perm' !! j = perm !! j).
Proof.
  revert i perm. induction pairs as [|p pairs IH]; intros i perm Hr Hnd.
  - exists perm. repeat split; auto. intros k p H. discriminate.
  - inversion Hr as [|? ? Hp Hps]; subst.
    cbn [map] in Hnd. inversion Hnd as [|? ? Hnotin Hnd']; subst.
    clear Hnd. rename Hnd' into Hnd.
    cbn [fill_perm]. unfold array_set.
    replace ((0 <=? pp_pack_int_id p) && (pp_pack_int_id p <? Z.of_nat (length perm)))
      with true by (symmetry; apply andb_true_iff; split;
                    [apply Z.leb_le|apply Z.ltb_lt]; lia).
    cbn [bind].
    destruct (IH (i + 1) (<[Z.to_nat (pp_pack_int_id p) := i]> perm))
      as (perm' & E & Hlen & Hset & Hkeep).
    { rewrite length_insert. exact Hps. }
    { exact Hnd. }
    exists perm'. split; [exact E|]. split; [rewrite Hlen, length_insert; reflexivity|].
    split.
    + intros [|k] q Hq.
      * cbn in Hq. inversion Hq; subst q.
        rewrite Hkeep.
        -- rewrite list_lookup_insert_eq by lia. f_equal. lia.
        -- rewrite Z2Nat.id by lia. rewrite <- list_elem_of_In. exact Hnotin.
      * cbn in Hq. rewrite (Hset k q Hq). f_equal. lia.
    + intros j Hj. rewrite Hkeep.
      * rewrite list_lookup_insert_ne; [reflexivity|].
        intros Heq. apply Hj. left. lia.
      * intros Hin. apply Hj. right. exact Hin.
Qed.


Lemma in_order_names pairs :
  in_order pack_pair_compare pairs -> in_order strcmp (map pp_pack_name pairs).
Proof.
  induction pairs as [|p pairs IH]; [auto|].
  intros [Hh Ht]. cbn [map]. split; [|apply IH, Ht].
  destruct pairs as [|q pairs]; [exact I|exact Hh].
Qed.

Lemma names_ascending_of_in_order names :
  in_order strcmp names -> NoDup names -> Forall nul_free names ->
  names_ascending names.
Proof.
  induction names as [|a names IH]; [auto|].
  intros [Hh Ht] Hnd Hnf.
  inversion Hnd as [|? ? Hnotin Hnd']; subst.
  inversion Hnf as [|? ? Ha Hnf']; subst.
  split; [|apply IH; auto].
  destruct names as [|b names]; [exact I|].
  inversion Hnf' as [|? ? Hb _]; subst.
  destruct (Z.eq_dec (strcmp a b) 0) as [E|E]; [|lia].
  apply strcmp_eq in E; auto. subst b. exfalso. apply Hnotin. left.
Qed.

(** What [sort_packs_by_name] returns: the names in order, and a table
    sending every position before the sort to the position after it. *)
Lemma sort_packs_by_name_ok names0 :
  exists names perm,
    sort_packs_by_name names0 = Ok (names, perm) /\
    length names = length names0 /\
    length perm = length names0 /\
    Permutation names names0 /\
    in_order strcmp names /\
    (forall i n, names0 !! i = Some n ->
       exists j, perm !! i = Some (Z.of_nat j) /\ names !! j = Some n).
Proof.
  unfold sort_packs_by_name. fold (pairs_of names0).
  set (pairs := QSORT pack_pair_compare (pairs_of names0)).
  assert (Hperm : Permutation pairs (pairs_of names0)) by apply QSORT_perm.
  assert (Hids : Permutation (map pp_pack_int_id pairs)
                   (map Z.of_nat (seq 0 (length names0)))).
  { rewrite <- pairs_of_ids. apply Permutation_map, Hperm. }
  assert (Hok : Forall (pair_ok names0) pairs).
  { eapply Permutation_Forall; [symmetry; exact Hperm|apply pairs_of_ok]. }
  destruct (fill_perm_ok pairs 0 (repeat 0 (length names0)))
    as (perm & E & Hlen & Hset & _).
  { rewrite repeat_length. rewrite Forall_forall. intros p Hp.
    assert (Hin : In (pp_pack_int_id p) (map Z.of_nat (seq 0 (length names0)))).
    { eapply Permutation_in; [exact Hids|]. apply in_map, Hp. }
    apply in_map_iff in Hin as (k & <- & Hk). apply in_seq in Hk. lia. }
  { rewrite Hids.
    apply NoDup_fmap_2; [intros a b; lia|]. apply NoDup_seq. }
  exists (map pp_pack_name pairs), perm.
  rewrite E. cbn [bind]. split; [reflexivity|].
  assert (Hnames : Permutation (map pp_pack_name pairs) names0).
  { pose proof (Permutation_map pp_pack_name Hperm) as Hm.
    rewrite pairs_of_names in Hm. exact Hm. }
  split; [apply Permutation_length, Hnames|].
  split; [rewrite Hlen, repeat_length; reflexivity|].
  split; [exact Hnames|].
  split; [apply in_order_names, QSORT_in_order; intros; apply memcmp_antisym|].
  intros i n Hi.
  assert (Hlt : (i < length names0)%nat) by (eapply lookup_lt_Some; eauto).
  assert (Hin : In (Z.of_nat i) (map pp_pack_int_id pairs)).
  { eapply Permutation_in; [symmetry; exact Hids|].
    apply in_map, in_seq. lia. }
  apply in_map_iff in Hin as (q & Hq & Hqin).
  apply list_elem_of_In, list_elem_of_lookup in Hqin as (k & Hk).
  exists k. split.
  - specialize (Hset k q Hk). rewrite Hq, Nat2Z.id in Hset. rewrite Hset.
    f_equal.
  - rewrite list_lookup_fmap, Hk. cbn. f_equal.
    rewrite Forall_forall in Hok. specialize (Hok q).
    destruct Hok as [_ Hn].
    { apply list_elem_of_In, list_elem_of_lookup. exists k. exact Hk. }
    rewrite Hq, Nat2Z.id in Hn. congruence.
Qed.

End SortPacks.

(* ===================================================================== *)
(** * Proofs: the file as a whole *)
(* ===================================================================== *)

Module WrittenFacts.
Import Midx MidxSpec OidOrder FanoutFacts ChunkFacts PackFacts WriteFacts SortPacks.

Section Written.
Variable hash_fn : list byte -> list byte.

(** Under [writable], the writer produces the image and its hash. *)
Lemma write_midx_file_image names0 names perm objs :
  sort_packs_by_name names0 = Ok (names, perm) ->
  length names = length names0 ->
  writable names perm objs ->
  write_midx_file hash_fn true names0 objs =
  Ok (Some (midx_image names perm objs ++ hash_fn (midx_image names perm objs))).
Proof.
  intros Hsort Hlen W.
  pose proof W as ((Hp & Hn & Ho) & Hna & Hperm & Hasc & Hwf).
  pose proof (writable_offsets _ _ _ W) as Hoffs.
  assert (Hoffs0 : Forall (fun e => 0 <= offset e) objs).
  { eapply Forall_impl; [|exact Hoffs]. intros e He. cbv beta in He. lia. }
  pose proof (length_filter_le is_large objs) as HL.
  unfold write_midx_file. cbn [negb].
  assert (Hs : (if Z.of_nat (length names0) =? 0
                then Ok (names0, [])
                else sort_packs_by_name names0) = Ok (names, perm)).
  { destruct (Z.of_nat (length names0) =? 0) eqn:E; [|exact Hsort].
    apply Z.eqb_eq in E. destruct names0; [|cbn in E; lia].
    exact Hsort. }
  rewrite Hs. cbn [bind].
  rewrite (fold_total_name_len names 0) by lia. rewrite Z.add_0_l.
  rewrite <- Hlen.
  change (existsb (fun o => 0xffffffff <? offset o) objs) with (large_needed objs).
  rewrite (chunk_plan_image names objs) by (repeat split; auto).
  rewrite (filter_large_eq objs Hoffs0).
  rewrite (u32_small (Z.of_nat (length (List.filter is_large objs)))) by lia.
  change (16 + MIDX_CHUNKLOOKUP_WIDTH * ((if large_needed objs then 6 else 5) + 1))
    with (off_ploo objs).
  rewrite (write_chunks_image names perm objs W). cbn [bind].
  unfold midx_image, midx_body, nr_chunks. rewrite <- !app_assoc. reflexivity.
Qed.
End Written.

End WrittenFacts.

(* ===================================================================== *)
(** * Proofs: loading a file laid out as the image *)
(* ===================================================================== *)

Module LoadFacts.
Import Midx MidxSpec OidOrder FanoutFacts ChunkFacts PackFacts WriteFacts.

Lemma lor_hi_lo x :
  Z.lor (Z.shiftl (Z.shiftr x 32) 32) (Z.land x (Z.ones 32)) = x.
Proof.
  apply Z.bits_inj'. intros n Hn.
  rewrite Z.lor_spec, Z.land_spec.
  destruct (Z_lt_ge_dec n 32) as [L|G].
  - rewrite Z.shiftl_spec_low by lia. rewrite Z.ones_spec_low by lia.
    rewrite andb_true_r. reflexivity.
  - rewrite Z.shiftl_spec by lia. rewrite Z.shiftr_spec by lia.
    rewrite Z.ones_spec_high by lia. rewrite andb_false_r, orb_false_r.
    f_equal. lia.
Qed.

Lemma shiftr32_range x : 0 <= x < 2 ^ 64 -> 0 <= Z.shiftr x 32 < 2 ^ 32.
Proof.
  intros H. rewrite Z.shiftr_div_pow2 by lia. split.
  - apply Z.div_pos; lia.
  - apply Z.div_lt_upper_bound; lia.
Qed.

Lemma land32_range x : 0 <= Z.land x 0xffffffff < 2 ^ 32.
Proof.
  change 0xffffffff with (Z.ones 32). rewrite Z.land_ones by lia.
  apply Z.mod_pos_bound. lia.
Qed.

Lemma combine_hi_lo x :
  0 <= x < 2 ^ 64 ->
  Z.lor (u64 (Z.shiftl (u32 (Z.shiftr x 32)) 32)) (u32 (Z.land x 0xffffffff)) = x.
Proof.
  intros H. pose proof (shiftr32_range x H). pose proof (land32_range x).
  rewrite (u32_small (Z.shiftr x 32)) by lia.
  rewrite (u32_small (Z.land x 0xffffffff)) by lia.
  rewrite u64_small.
  - apply lor_hi_lo.
  - rewrite Z.shiftl_mul_pow2 by lia. lia.
Qed.

Lemma s64_small x : 0 <= x < 2 ^ 63 -> s64 x = x.
Proof. intros H. unfold s64. rewrite Z.mod_small; lia. Qed.

Lemma read_be32_at_off pre x rest off :
  off = Z.of_nat (length pre) ->
  read_be32 (pre ++ be32 x ++ rest) off = Ok (u32 x).
Proof. intros ->. apply read_be32_at. Qed.

Lemma read_u8_at_off pre b rest off :
  off = Z.of_nat (length pre) ->
  read_u8 (pre ++ b :: rest) off = Ok (byte.unsigned b).
Proof.
  intros ->. unfold read_u8.
  replace (Z.of_nat (length pre)) with (Z.of_nat (length pre) + 0) by lia.
  change (b :: rest) with ([b] ++ rest).
  rewrite slice_app_mid by (cbn [length]; lia).
  change (slice [b] 0 1) with (Ok (A := list byte) [b]). cbn [bind].
  unfold get_be32. cbn [rev app]. rewrite le_combine_1. reflexivity.
Qed.

(** ** The header *)

Section Header.
Variables (nc p : Z) (rest : list byte).

Let file := header_bytes nc p ++ rest.

Lemma header_signature : read_be32 file 0 = Ok MIDX_SIGNATURE.
Proof.
  unfold file, header_bytes. rewrite <- !app_assoc.
  rewrite read_be32_head. reflexivity.
Qed.

Lemma header_version : read_be32 file 4 = Ok MIDX_VERSION.
Proof.
  unfold file, header_bytes. rewrite <- !app_assoc.
  rewrite (read_be32_at_off (be32 MIDX_SIGNATURE) MIDX_VERSION)
    by (rewrite length_be32; reflexivity).
  reflexivity.
Qed.

Lemma header_hash_version : read_u8 file 8 = Ok 1.
Proof.
  unfold file, header_bytes. rewrite <- !app_assoc. rewrite app_assoc.
  cbn [app]. rewrite read_u8_at_off
    by (rewrite length_app, !length_be32; reflexivity).
  reflexivity.
Qed.

Lemma header_hash_len : read_u8 file 9 = Ok 20.
Proof.
  unfold file, header_bytes. rewrite <- !app_assoc. rewrite app_assoc.
  change ([byte.of_Z MIDX_OID_VERSION; byte.of_Z MIDX_OID_LEN; byte.of_Z 0;
           byte.of_Z nc] ++ be32 p ++ rest)
    with ([byte.of_Z MIDX_OID_VERSION] ++
          byte.of_Z MIDX_OID_LEN :: [byte.of_Z 0; byte.of_Z nc] ++ be32 p ++ rest).
  rewrite app_assoc.
  rewrite read_u8_at_off
    by (rewrite !length_app, !length_be32; reflexivity).
  reflexivity.
Qed.

Lemma header_num_chunks : read_u8 file 11 = Ok (nc mod 2 ^ 8).
Proof.
  unfold file, header_bytes. rewrite <- !app_assoc. rewrite app_assoc.
  change ([byte.of_Z MIDX_OID_VERSION; byte.of_Z MIDX_OID_LEN; byte.of_Z 0;
           byte.of_Z nc] ++ be32 p ++ rest)
    with ([byte.of_Z MIDX_OID_VERSION; byte.of_Z MIDX_OID_LEN; byte.of_Z 0] ++
          byte.of_Z nc :: be32 p ++ rest).
  rewrite app_assoc.
  rewrite read_u8_at_off
    by (rewrite !length_app, !length_be32; reflexivity).
  rewrite byte.unsigned_of_Z. reflexivity.
Qed.

Lemma header_num_packs : read_be32 file 12 = Ok (u32 p).
Proof.
  unfold file, header_bytes. rewrite <- !app_assoc.
  rewrite !app_assoc. rewrite <- (app_assoc _ (be32 p) rest).
  rewrite read_be32_at_off; [reflexivity|].
  rewrite !length_app, !length_be32. reflexivity.
Qed.
End Header.

(** ** The chunk table *)

Lemma chunk_table_bytes_app a b :
  chunk_table_bytes (a ++ b) = chunk_table_bytes a ++ chunk_table_bytes b.
Proof. unfold chunk_table_bytes. apply flat_map_app. Qed.

Lemma read_chunk_table_plan pre done todo rest c :
  length pre = 16%nat ->
  Forall plan_entry_ok todo ->
  read_chunk_table false
    (pre ++ chunk_table_bytes (done ++ todo) ++ rest)
    (length todo) (Z.of_nat (length done)) c =
  Ok (set_chunks c todo).
Proof.
  intros Hpre. revert done c.
  induction todo as [|[id off] todo IH]; intros done c Hok; [reflexivity|].
  inversion Hok as [|? ? [Hid Hoff] Hok']; subst. cbn [fst snd] in Hid, Hoff.
  cbn [length read_chunk_table].
  assert (Hfile : pre ++ chunk_table_bytes (done ++ (id, off) :: todo) ++ rest =
                  (pre ++ chunk_table_bytes done) ++
                  be32 id ++ be32 (Z.shiftr off 32) ++ be32 (Z.land off 0xffffffff) ++
                  chunk_table_bytes todo ++ rest).
  { rewrite chunk_table_bytes_app. cbn [chunk_table_bytes flat_map].
    rewrite <- !app_assoc. reflexivity. }
  assert (Hlen : Z.of_nat (length (pre ++ chunk_table_bytes done)) =
                 16 + 12 * Z.of_nat (length done)).
  { rewrite length_app, length_chunk_table_bytes, Hpre. lia. }
  assert (R1 : read_be32 (pre ++ chunk_table_bytes (done ++ (id, off) :: todo) ++ rest)
                 (16 + 12 * Z.of_nat (length done)) = Ok (u32 id)).
  { rewrite Hfile. apply read_be32_at_off. lia. }
  assert (R2 : read_be32 (pre ++ chunk_table_bytes (done ++ (id, off) :: todo) ++ rest)
                 (16 + 12 * Z.of_nat (length done) + 4) = Ok (u32 (Z.shiftr off 32))).
  { rewrite Hfile. rewrite (app_assoc (pre ++ chunk_table_bytes done) (be32 id)).
    apply read_be32_at_off. rewrite length_app, length_be32. lia. }
  assert (R3 : read_be32 (pre ++ chunk_table_bytes (done ++ (id, off) :: todo) ++ rest)
                 (16 + 12 * Z.of_nat (length done) + 8) =
               Ok (u32 (Z.land off 0xffffffff))).
  { rewrite Hfile. rewrite (app_assoc (pre ++ chunk_table_bytes done) (be32 id)).
    rewrite (app_assoc _ (be32 (Z.shiftr off 32))).
    apply read_be32_at_off.
    rewrite length_app, length_be32, length_app, length_be32. lia. }
  rewrite R1, R2, R3. cbn [bind andb].
  rewrite combine_hi_lo by lia. rewrite (u32_small id) by lia.
  replace (done ++ (id, off) :: todo) with ((done ++ [(id, off)]) ++ todo)
    by (rewrite <- app_assoc; reflexivity).
  replace (Z.of_nat (length done) + 1) with (Z.of_nat (length (done ++ [(id, off)])))
    by (rewrite length_app; cbn [length]; lia).
  rewrite IH by assumption. reflexivity.
Qed.

(** ** The pack names *)

Lemma read_pack_names_ok data len lookup pn (starts done : list Z) :
  Z.of_nat (length done + length starts) < 2 ^ 30 ->
  (forall k s, starts !! k = Some s ->
     read_be32 data (lookup + 4 * Z.of_nat (length done + k)) = Ok s /\
     pn + s < len) ->
  read_pack_names data len lookup pn (length starts) (Z.of_nat (length done)) =
  Ok (map (fun s => pn + s) starts).
Proof.
  revert done. induction starts as [|s starts IH]; intros done Hlt H; [reflexivity|].
  cbn [length read_pack_names].
  destruct (H 0%nat s eq_refl) as [Hr Hb].
  cbn [length] in Hlt.
  rewrite u32_small by lia.
  replace (length done + 0)%nat with (length done) in Hr by lia.
  rewrite Hr. cbn [bind].
  replace (pn + s >=? len) with false
    by (symmetry; rewrite Z.geb_leb; apply Z.leb_gt; lia).
  replace (Z.of_nat (length done) + 1) with (Z.of_nat (length (done ++ [s])))
    by (rewrite length_app; cbn [length]; lia).
  rewrite IH.
  - reflexivity.
  - rewrite length_app. cbn [length]. lia.
  - intros k s' Hk. rewrite length_app. cbn [length].
    replace (length done + 1 + k)%nat with (length done + S k)%nat by lia.
    apply H. exact Hk.
Qed.

End LoadFacts.

(* ===================================================================== *)
(** * Proofs: the reader of a laid-out file *)
(* ===================================================================== *)

Module LoadedFacts.
Import Midx MidxSpec OidOrder FanoutFacts ChunkFacts PackFacts WriteFacts LoadFacts.

Lemma read_be32_mid pre mid post off :
  0 <= off -> off + 4 <= Z.of_nat (length mid) ->
  read_be32 (pre ++ mid ++ post) (Z.of_nat (length pre) + off) = read_be32 mid off.
Proof. intros. unfold read_be32. rewrite slice_app_mid by lia. reflexivity. Qed.

Lemma read_be32_exists data off :
  0 <= off -> off + 4 <= Z.of_nat (length data) ->
  exists v, read_be32 data off = Ok v /\ 0 <= v < 2 ^ 32.
Proof.
  intros H1 H2. unfold read_be32. rewrite slice_ok by lia.
  eexists. split; [reflexivity|]. apply get_be32_range.
  rewrite length_take, length_drop. lia.
Qed.

Lemma image_plan_ok names objs :
  sizes_ok names objs -> Forall plan_entry_ok (image_plan names objs).
Proof.
  intros (Hp & Hn & Ho).
  pose proof (length_filter_le is_large objs) as HL.
  pose proof (names_size_nonneg names) as Hs.
  unfold image_plan, off_end, off_pnam, off_loff, off_ooff, off_oidl, off_oidf,
    off_ploo, nr_chunks.
  unfold MIDX_CHUNKID_PACKLOOKUP, MIDX_CHUNKID_OIDFANOUT, MIDX_CHUNKID_OIDLOOKUP,
    MIDX_CHUNKID_OBJECTOFFSETS, MIDX_CHUNKID_LARGEOFFSETS, MIDX_CHUNKID_PACKNAMES.
  destruct (large_needed objs);
    repeat (apply Forall_cons; [split; cbn [fst snd]; lia|]);
    apply Forall_nil.
Qed.

Lemma length_image_plan names objs :
  Z.of_nat (length (image_plan names objs)) = nr_chunks objs + 1.
Proof. unfold image_plan, nr_chunks. destruct (large_needed objs); reflexivity. Qed.

Lemma set_chunks_image_plan names objs :
  set_chunks no_chunks (image_plan names objs) =
  {| c_pack_lookup := Some (off_ploo objs);
     c_pack_names := Some (off_pnam names objs);
     c_oid_fanout := Some (off_oidf names objs);
     c_oid_lookup := Some (off_oidl names objs);
     c_object_offsets := Some (off_ooff names objs);
     c_large_offsets :=
       if large_needed objs then Some (off_loff names objs) else None |}.
Proof. unfold image_plan. destruct (large_needed objs); reflexivity. Qed.

(** A file that starts as the image does, up to the pack-name lookup, and
    goes on for at least the length of a fanout table, is loaded, with the
    chunk pointers of the image. *)
Lemma load_laid_out names objs rest :
  sizes_ok names objs ->
  1024 <= Z.of_nat (length rest) ->
  let file :=
    header_bytes (nr_chunks objs) (Z.of_nat (length names)) ++
    chunk_table_bytes (image_plan names objs) ++ ploo_image names ++ rest in
  (forall s, In s (name_starts 0 names) ->
     off_pnam names objs + s < Z.of_nat (length file)) ->
  exists nobj,
    read_be32 file (off_oidf names objs + 1020) = Ok nobj /\
    load_midxed_git_one false (Some file) =
    Ok (Some (image_reader file names objs nobj)).
Proof.
  intros Hsz Hrest file Hnames. pose proof Hsz as (Hp & Hn & Ho).
  assert (Hlen : Z.of_nat (length file) =
                 off_oidf names objs + Z.of_nat (length rest)).
  { unfold file. rewrite !length_app, length_header_bytes,
      length_chunk_table_bytes, length_ploo_image.
    pose proof (length_image_plan names objs).
    unfold off_oidf, off_ploo. lia. }
  assert (Hnc : 5 <= nr_chunks objs <= 6)
    by (unfold nr_chunks; destruct (large_needed objs); lia).
  assert (Hoidf : 0 <= off_oidf names objs) by (unfold off_oidf, off_ploo; lia).
  destruct (read_be32_exists file (off_oidf names objs + 1020))
    as (nobj & Hnobj & _); [lia|lia|].
  exists nobj. split; [exact Hnobj|].
  unfold load_midxed_git_one. cbn [andb].
  replace (Z.of_nat (length file) <? 16 + 8 * 5 + 4 * 256 + GIT_MAX_RAWSZ)
    with false
    by (symmetry; apply Z.ltb_ge; unfold GIT_MAX_RAWSZ, off_oidf, off_ploo in *; lia).
  unfold file at 1. rewrite header_signature. cbn [bind].
  rewrite Z.eqb_refl. cbn [negb].
  unfold file at 1. rewrite header_version. cbn [bind].
  rewrite Z.eqb_refl. cbn [negb].
  unfold file at 1. rewrite header_hash_version. cbn [bind].
  unfold file at 1. rewrite header_hash_len. cbn [bind].
  unfold file at 1. rewrite header_num_chunks. cbn [bind].
  rewrite (Z.mod_small (nr_chunks objs)) by lia.
  assert (Htable : read_chunk_table false file (S (Z.to_nat (nr_chunks objs))) 0
                     no_chunks =
                   Ok (set_chunks no_chunks (image_plan names objs))).
  { pose proof (length_image_plan names objs) as HL.
    replace (S (Z.to_nat (nr_chunks objs))) with (length (image_plan names objs))
      by lia.
    unfold file.
    apply (read_chunk_table_plan (header_bytes _ _) [] (image_plan names objs)).
    - apply length_header_bytes.
    - apply image_plan_ok, Hsz. }
  rewrite Htable. cbn [bind]. rewrite set_chunks_image_plan.
  cbn [c_oid_fanout c_pack_lookup c_pack_names c_oid_lookup c_object_offsets
       c_large_offsets].
  replace (off_oidf names objs + 255 * 4) with (off_oidf names objs + 1020) by lia.
  rewrite Hnobj. cbn [bind].
  unfold file at 1. rewrite header_num_packs. cbn [bind].
  rewrite (u32_small (Z.of_nat (length names))) by lia.
  assert (Hpn : read_pack_names file (Z.of_nat (length file)) (off_ploo objs)
                  (off_pnam names objs) (Z.to_nat (Z.of_nat (length names))) 0 =
                Ok (map (fun s => off_pnam names objs + s) (name_starts 0 names))).
  { rewrite Nat2Z.id. rewrite <- (length_name_starts 0 names).
    apply (read_pack_names_ok file _ _ _ (name_starts 0 names) []).
    - cbn [length]. rewrite length_name_starts. lia.
    - intros k s Hk. cbn [length]. rewrite Nat.add_0_l.
      assert (Hin : In s (name_starts 0 names)).
      { apply list_elem_of_In, list_elem_of_lookup. exists k. exact Hk. }
      split; [|apply Hnames, Hin].
      assert (Hklt : (k < length names)%nat).
      { apply lookup_lt_Some in Hk. rewrite length_name_starts in Hk. exact Hk. }
      unfold file. rewrite !app_assoc. rewrite <- (app_assoc _ (ploo_image names) rest).
      replace (off_ploo objs)
        with (Z.of_nat (length (header_bytes (nr_chunks objs) (Z.of_nat (length names)) ++
                                chunk_table_bytes (image_plan names objs)))).
      + rewrite read_be32_mid by (rewrite ?length_ploo_image; lia).
        unfold ploo_image. rewrite (read_be32_table _ k s Hk).
        f_equal. apply u32_small.
        pose proof (name_starts_range 0 names s Hin). lia.
      + rewrite length_app, length_header_bytes, length_chunk_table_bytes.
        pose proof (length_image_plan names objs). unfold off_ploo. lia. }
  rewrite Hpn. cbn [bind]. reflexivity.
Qed.

End LoadedFacts.

(* ===================================================================== *)
(** * Proofs: reading the chunks of the image *)
(* ===================================================================== *)

Module ReadFacts.
Import Midx MidxSpec OidOrder FanoutFacts ChunkFacts PackFacts WriteFacts
  LoadFacts LoadedFacts.

Lemma large_before_le objs k :
  large_before objs k <= Z.of_nat (length (List.filter is_large objs)).
Proof.
  unfold large_before. rewrite <- (take_drop k objs) at 2.
  rewrite List.filter_app, length_app. lia.
Qed.

(** An entry that needs the escape is found in the list of such entries
    at the number of escapes before it. *)
Lemma filter_large_lookup objs k e :
  objs !! k = Some e -> is_large e = true ->
  List.filter is_large objs !! Z.to_nat (large_before objs k) = Some e.
Proof.
  revert k. induction objs as [|a objs IH]; intros k Hk He; [discriminate|].
  destruct k as [|k].
  - cbn in Hk. inversion Hk; subst a. cbn [List.filter]. rewrite He. reflexivity.
  - cbn in Hk. rewrite large_before_S. cbn [List.filter].
    pose proof (large_before_nonneg objs k).
    destruct (is_large a).
    + replace (Z.to_nat (1 + large_before objs k))
        with (S (Z.to_nat (large_before objs k))) by lia.
      cbn [lookup list_lookup]. apply IH; auto.
    + rewrite Z.add_0_l. apply IH; auto.
Qed.

Lemma pow31_bits n : 0 <= n -> Z.testbit MIDX_LARGE_OFFSET_NEEDED n = (n =? 31).
Proof.
  intros. change MIDX_LARGE_OFFSET_NEEDED with (2 ^ 31).
  rewrite Z.pow2_bits_eqb by lia. apply Z.eqb_sym.
Qed.

Lemma small_bit31 c n : 0 <= c < 2 ^ 31 -> 31 <= n -> Z.testbit c n = false.
Proof.
  intros Hc Hn. destruct (Z.eq_dec c 0) as [->|Hne]; [apply Z.bits_0|].
  apply Z.bits_above_log2; [lia|].
  assert (Z.log2 c < 31) by (apply Z.log2_lt_pow2; lia). lia.
Qed.

Lemma escape_land c :
  0 <= c < 2 ^ 31 ->
  Z.land (Z.lor MIDX_LARGE_OFFSET_NEEDED c) MIDX_LARGE_OFFSET_NEEDED <> 0.
Proof.
  intros Hc E. apply (f_equal (fun z => Z.testbit z 31)) in E.
  rewrite Z.land_spec, Z.lor_spec, pow31_bits, Z.bits_0 in E by lia.
  discriminate.
Qed.

Lemma escape_lxor c :
  0 <= c < 2 ^ 31 ->
  Z.lxor (Z.lor MIDX_LARGE_OFFSET_NEEDED c) MIDX_LARGE_OFFSET_NEEDED = c.
Proof.
  intros Hc. apply Z.bits_inj'. intros n Hn.
  rewrite Z.lxor_spec, Z.lor_spec, pow31_bits by lia.
  destruct (n =? 31) eqn:E.
  - apply Z.eqb_eq in E. subst n. rewrite (small_bit31 c 31) by lia. reflexivity.
  - cbn [orb]. apply xorb_false_r.
Qed.

Lemma escape_range c :
  0 <= c < 2 ^ 31 -> 0 <= Z.lor MIDX_LARGE_OFFSET_NEEDED c < 2 ^ 32.
Proof.
  intros Hc.
  assert (E : Z.lor MIDX_LARGE_OFFSET_NEEDED c = 2 ^ 31 + c).
  { pose proof (Z.add_lor_land MIDX_LARGE_OFFSET_NEEDED c) as H.
    assert (L : Z.land MIDX_LARGE_OFFSET_NEEDED c = 0).
    { apply Z.bits_inj'. intros n Hn.
      rewrite Z.land_spec, pow31_bits, Z.bits_0 by lia.
      destruct (n =? 31) eqn:E; [|reflexivity].
      apply Z.eqb_eq in E. subst n. apply small_bit31; lia. }
    rewrite L in H. change MIDX_LARGE_OFFSET_NEEDED with (2 ^ 31) in H at 2. lia. }
  rewrite E. lia.
Qed.

Lemma small_land x :
  0 <= x < 2 ^ 31 -> Z.land x MIDX_LARGE_OFFSET_NEEDED = 0.
Proof.
  intros Hx. apply Z.bits_inj'. intros n Hn.
  rewrite Z.land_spec, pow31_bits, Z.bits_0 by lia.
  destruct (n =? 31) eqn:E; [|apply andb_false_r].
  apply Z.eqb_eq in E. subst n. rewrite (small_bit31 x 31) by lia. reflexivity.
Qed.

Section Reads.
Variables (names : list cstring) (perm : list Z) (objs : list pack_midx_entry).
Variable tail : list byte.
Hypothesis W : writable names perm objs.

Let file := midx_body names perm objs ++ tail.

Let pre_ploo :=
  header_bytes (nr_chunks objs) (Z.of_nat (length names)) ++
  chunk_table_bytes (image_plan names objs).
Let pre_oidf := pre_ploo ++ ploo_image names.
Let pre_oidl := pre_oidf ++ oidf_image objs.
Let pre_ooff := pre_oidl ++ oidl_image objs.
Let pre_loff := pre_ooff ++ ooff_image perm objs.
Let pre_pnam := pre_loff ++ loff_image objs.

Lemma length_pre_ploo : Z.of_nat (length pre_ploo) = off_ploo objs.
Proof.
  unfold pre_ploo.
  rewrite length_app, length_header_bytes, length_chunk_table_bytes.
  pose proof (length_image_plan names objs). unfold off_ploo. lia.
Qed.

Lemma length_pre_oidf : Z.of_nat (length pre_oidf) = off_oidf names objs.
Proof.
  unfold pre_oidf. rewrite length_app, length_ploo_image.
  pose proof length_pre_ploo. unfold off_oidf. lia.
Qed.

Lemma length_pre_oidl : Z.of_nat (length pre_oidl) = off_oidl names objs.
Proof.
  unfold pre_oidl. rewrite length_app, length_oidf_image.
  pose proof length_pre_oidf. unfold off_oidl. lia.
Qed.

Lemma length_pre_ooff : Z.of_nat (length pre_ooff) = off_ooff names objs.
Proof.
  unfold pre_ooff.
  rewrite length_app, length_oidl_image by (eapply writable_wf_oids; eauto).
  pose proof length_pre_oidl. unfold off_ooff. lia.
Qed.

Lemma length_pre_loff : Z.of_nat (length pre_loff) = off_loff names objs.
Proof.
  unfold pre_loff. rewrite length_app, length_ooff_image.
  pose proof length_pre_ooff. unfold off_loff. lia.
Qed.

Lemma length_pre_pnam : Z.of_nat (length pre_pnam) = off_pnam names objs.
Proof.
  unfold pre_pnam. rewrite length_app, Nat2Z.inj_add, length_loff_image.
  pose proof length_pre_loff. unfold off_pnam. lia.
Qed.

Lemma length_body :
  Z.of_nat (length (midx_body names perm objs)) = off_pnam names objs.
Proof.
  replace (midx_body names perm objs) with pre_pnam.
  - apply length_pre_pnam.
  - unfold pre_pnam, pre_loff, pre_ooff, pre_oidl, pre_oidf, pre_ploo, midx_body.
    rewrite <- !app_assoc. reflexivity.
Qed.

Lemma file_oidf :
  file = pre_oidf ++ oidf_image objs ++
         (oidl_image objs ++ ooff_image perm objs ++ loff_image objs ++ tail).
Proof.
  unfold file, pre_oidf, pre_ploo, midx_body. rewrite <- !app_assoc. reflexivity.
Qed.

Lemma file_oidl :
  file = pre_oidl ++ oidl_image objs ++
         (ooff_image perm objs ++ loff_image objs ++ tail).
Proof.
  unfold file, pre_oidl, pre_oidf, pre_ploo, midx_body.
  rewrite <- !app_assoc. reflexivity.
Qed.

Lemma file_ooff :
  file = pre_ooff ++ ooff_image perm objs ++ (loff_image objs ++ tail).
Proof.
  unfold file, pre_ooff, pre_oidl, pre_oidf, pre_ploo, midx_body.
  rewrite <- !app_assoc. reflexivity.
Qed.

Lemma file_loff :
  file = pre_loff ++ loff_image objs ++ tail.
Proof.
  unfold file, pre_loff, pre_ooff, pre_oidl, pre_oidf, pre_ploo, midx_body.
  rewrite <- !app_assoc. reflexivity.
Qed.

(** Fanout entry [j]. *)
Lemma read_fanout j :
  0 <= j < 256 ->
  read_be32 file (off_oidf names objs + 4 * j) =
  Ok (count_le (map oid objs) j).
Proof.
  intros Hj. pose proof W as ((Hp & Hn & Ho) & Hna & Hperm & Hasc & Hwf).
  rewrite file_oidf, <- length_pre_oidf.
  rewrite read_be32_mid by (rewrite ?length_oidf_image; lia).
  apply fanout_chunk_entry; auto. eapply writable_wf_oids; eauto.
Qed.

(** Object id [k] of the OID Lookup chunk. *)
Lemma read_oid k e :
  objs !! k = Some e ->
  slice file (off_oidl names objs + 20 * Z.of_nat k) 20 = Ok (oid e).
Proof.
  intros Hk. pose proof (writable_wf_oids _ _ _ W) as Hoids.
  assert (Hlt : (k < length objs)%nat) by (eapply lookup_lt_Some; eauto).
  rewrite file_oidl, <- length_pre_oidl.
  rewrite slice_app_mid by (rewrite ?length_oidl_image by assumption; lia).
  unfold oidl_image. change 20 with (Z.of_nat 20).
  apply slice_concat_fixed.
  - apply Forall_forall. intros c Hc. apply in_map_iff in Hc as (x & <- & Hx).
    unfold wf_oids in Hoids. rewrite Forall_forall in Hoids. apply Hoids, Hx.
  - rewrite list_lookup_fmap, Hk. reflexivity.
Qed.

(** Record [k] of the Object Offsets chunk. *)
Lemma read_ooff_pack k e :
  objs !! k = Some e ->
  read_be32 file (off_ooff names objs + 8 * Z.of_nat k) = Ok (u32 (perm_at perm e)).
Proof.
  intros Hk.
  assert (Hlt : (k < length objs)%nat) by (eapply lookup_lt_Some; eauto).
  rewrite file_ooff, <- length_pre_ooff.
  rewrite read_be32_mid by (rewrite ?length_ooff_image; lia).
  unfold read_be32, ooff_image.
  pose proof (slice_concat_fixed 8 _ k _ (length_ooff_records _ perm 0 objs)
                (ooff_records_lookup (large_needed objs) perm 0 objs k e Hk)) as Hrec.
  change (Z.of_nat 8) with 8 in Hrec.
  apply slice_inv in Hrec as (H1 & H2 & H3 & Hrec).
  rewrite slice_ok by lia.
  cbn [bind]. f_equal.
  replace (take (Z.to_nat 4) (drop (Z.to_nat (8 * Z.of_nat k))
             (concat (ooff_records (large_needed objs) perm 0 objs))))
    with (take 4 (take (Z.to_nat 8) (drop (Z.to_nat (8 * Z.of_nat k))
             (concat (ooff_records (large_needed objs) perm 0 objs))))).
  - rewrite <- Hrec. rewrite take_app_length' by (rewrite length_be32; reflexivity).
    apply get_be32_be32.
  - rewrite take_take. reflexivity.
Qed.

Lemma read_ooff_word k e :
  objs !! k = Some e ->
  read_be32 file (off_ooff names objs + 8 * Z.of_nat k + 4) =
  Ok (u32 (offset_word (large_needed objs)
             (if large_needed objs then large_before objs k else 0) e)).
Proof.
  intros Hk.
  assert (Hlt : (k < length objs)%nat) by (eapply lookup_lt_Some; eauto).
  rewrite file_ooff, <- length_pre_ooff, <- Z.add_assoc.
  rewrite read_be32_mid by (rewrite ?length_ooff_image; lia).
  unfold read_be32, ooff_image.
  pose proof (slice_concat_fixed 8 _ k _ (length_ooff_records _ perm 0 objs)
                (ooff_records_lookup (large_needed objs) perm 0 objs k e Hk)) as Hrec.
  change (Z.of_nat 8) with 8 in Hrec.
  apply slice_inv in Hrec as (H1 & H2 & H3 & Hrec).
  rewrite slice_ok by lia.
  cbn [bind]. f_equal.
  replace (take (Z.to_nat 4) (drop (Z.to_nat (8 * Z.of_nat k + 4))
             (concat (ooff_records (large_needed objs) perm 0 objs))))
    with (take 4 (drop 4 (take (Z.to_nat 8) (drop (Z.to_nat (8 * Z.of_nat k))
             (concat (ooff_records (large_needed objs) perm 0 objs)))))).
  - rewrite <- Hrec. rewrite drop_app_length' by (rewrite length_be32; reflexivity).
    rewrite take_ge by (rewrite length_be32; lia).
    rewrite Z.add_0_l. apply get_be32_be32.
  - rewrite skipn_firstn_comm. rewrite take_take, drop_drop.
    replace (4 `min` (Z.to_nat 8 - 4))%nat with (Z.to_nat 4) by lia.
    replace (Z.to_nat (8 * Z.of_nat k) + 4)%nat
      with (Z.to_nat (8 * Z.of_nat k + 4)) by lia.
    reflexivity.
Qed.

(** Record [j] of the Large Offsets chunk. *)
Lemma read_loff j e :
  large_needed objs = true ->
  List.filter is_large objs !! j = Some e ->
  read_be32 file (off_loff names objs + 8 * Z.of_nat j) =
    Ok (u32 (Z.shiftr (offset e) 32)) /\
  read_be32 file (off_loff names objs + 8 * Z.of_nat j + 4) =
    Ok (u32 (Z.land (offset e) 0xffffffff)).
Proof.
  intros HL Hj.
  assert (Hlt : (j < length (List.filter is_large objs))%nat)
    by (eapply lookup_lt_Some; eauto).
  pose proof (length_loff_image objs) as Hlen. rewrite HL in Hlen.
  assert (Hrec : slice (loff_image objs) (8 * Z.of_nat j) 8 = Ok (loff_record e)).
  { unfold loff_image. rewrite HL. change 8 with (Z.of_nat 8).
    apply slice_concat_fixed.
    - apply Forall_forall. intros c Hc. apply in_map_iff in Hc as (x & <- & _).
      apply length_loff_record.
    - rewrite list_lookup_fmap, Hj. reflexivity. }
  apply slice_inv in Hrec as (H1 & H2 & H3 & Hrec).
  rewrite file_loff, <- length_pre_loff. split.
  - rewrite read_be32_mid by lia. unfold read_be32. rewrite slice_ok by lia.
    cbn [bind]. f_equal.
    replace (take (Z.to_nat 4) (drop (Z.to_nat (8 * Z.of_nat j)) (loff_image objs)))
      with (take 4 (take (Z.to_nat 8) (drop (Z.to_nat (8 * Z.of_nat j))
              (loff_image objs))))
      by (rewrite take_take; reflexivity).
    rewrite <- Hrec. unfold loff_record.
    rewrite take_app_length' by (rewrite length_be32; reflexivity). apply get_be32_be32.
  - rewrite <- Z.add_assoc.
    rewrite read_be32_mid by lia. unfold read_be32. rewrite slice_ok by lia.
    cbn [bind]. f_equal.
    replace (take (Z.to_nat 4) (drop (Z.to_nat (8 * Z.of_nat j + 4)) (loff_image objs)))
      with (take 4 (drop 4 (take (Z.to_nat 8) (drop (Z.to_nat (8 * Z.of_nat j))
              (loff_image objs))))).
    + rewrite <- Hrec. unfold loff_record.
      rewrite drop_app_length' by (rewrite length_be32; reflexivity).
      rewrite take_ge by (rewrite length_be32; lia). apply get_be32_be32.
    + rewrite skipn_firstn_comm. rewrite take_take, drop_drop.
      replace (4 `min` (Z.to_nat 8 - 4))%nat with (Z.to_nat 4) by lia.
      replace (Z.to_nat (8 * Z.of_nat j) + 4)%nat
        with (Z.to_nat (8 * Z.of_nat j + 4)) by lia.
      reflexivity.
Qed.
End Reads.

End ReadFacts.

(* ===================================================================== *)
(** * Proofs: the lookup path on the reader of an image *)
(* ===================================================================== *)

Module LookupFacts.
Import Midx MidxSpec OidOrder FanoutFacts ChunkFacts PackFacts WriteFacts
  LoadFacts LoadedFacts ReadFacts.

(** Positions follow the order of the object ids. *)
Lemma ascending_lookup objs i j a b :
  ascending objs -> wf_oids objs ->
  objs !! i = Some a -> objs !! j = Some b -> (i < j)%nat -> oid_lt a b.
Proof.
  revert i j. induction objs as [|e objs IH]; intros i j Hasc Hwf Hi Hj Hlt;
    [discriminate|].
  destruct j as [|j]; [lia|]. cbn in Hj.
  destruct i as [|i].
  - cbn in Hi. inversion Hi; subst e.
    pose proof (ascending_all a objs Hasc Hwf) as Hall.
    rewrite Forall_forall in Hall. apply Hall.
    apply list_elem_of_In, list_elem_of_lookup. exists j. exact Hj.
  - cbn in Hi. inversion Hwf; subst.
    apply (IH i j); eauto using ascending_tail; lia.
Qed.

(** The entries with a first byte of at most [b] are the first
    [count_le b]. *)
Lemma count_le_prefix objs b k e :
  ascending objs -> wf_oids objs -> objs !! k = Some e ->
  (Z.of_nat k < count_le (map oid objs) b <-> hash0 (oid e) <= b).
Proof.
  rewrite count_le_map.
  revert k. induction objs as [|a objs IH]; intros k Hasc Hwf Hk; [discriminate|].
  pose proof (ascending_hash0 a objs Hasc Hwf) as Hmono.
  inversion Hwf as [|? ? _ Hwf']; subst.
  cbn [List.filter]. unfold bucket_le at 1.
  destruct (hash0 (oid a) <=? b) eqn:E.
  - apply Z.leb_le in E. cbn [length].
    destruct k as [|k]; cbn in Hk.
    + inversion Hk; subst a. split; intros; lia.
    + rewrite <- (IH k); eauto using ascending_tail. lia.
  - apply Z.leb_gt in E.
    rewrite filter_all_false.
    + cbn [length]. split; [lia|]. intros He. exfalso.
      destruct k as [|k]; cbn in Hk.
      * inversion Hk; subst a. lia.
      * rewrite Forall_forall in Hmono.
        assert (In e objs)
          by (apply list_elem_of_In, list_elem_of_lookup; eauto).
        specialize (Hmono e H). lia.
    + rewrite Forall_forall in Hmono |- *. intros x Hx.
      specialize (Hmono x Hx). unfold bucket_le. apply Z.leb_gt. lia.
Qed.

Lemma count_le_bounds oids b : 0 <= count_le oids b <= Z.of_nat (length oids).
Proof.
  unfold count_le. pose proof (length_filter_le (fun o => hash0 o <=? b) oids). lia.
Qed.

Lemma count_le_mono oids b c : b <= c -> count_le oids b <= count_le oids c.
Proof.
  intros H. unfold count_le.
  induction oids as [|o oids IH]; cbn [List.filter]; [lia|].
  destruct (hash0 o <=? b) eqn:E1; destruct (hash0 o <=? c) eqn:E2; cbn [length];
    lia.
Qed.

Lemma count_le_neg oids b : b < 0 -> count_le oids b = 0.
Proof.
  intros H. unfold count_le. rewrite filter_all_false; [reflexivity|].
  rewrite Forall_forall. intros o _. pose proof (hash0_range o).
  apply Z.leb_gt. lia.
Qed.

Section Lookup.
Variables (names : list cstring) (perm : list Z) (objs : list pack_midx_entry).
Variable tail : list byte.
Hypothesis W : writable names perm objs.
Hypothesis Hperm : Forall (fun v => 0 <= v < 2 ^ 32) perm.
Hypothesis H20 : 20 * Z.of_nat (length objs) < 2 ^ 32.

Let file := midx_body names perm objs ++ tail.
Let m := image_reader file names objs (Z.of_nat (length objs)).

Lemma perm_at_range e : 0 <= perm_at perm e < 2 ^ 32.
Proof.
  unfold perm_at. destruct (perm !! Z.to_nat (pack_int_id e)) as [v|] eqn:E.
  - cbn. rewrite Forall_forall in Hperm. apply Hperm.
    apply list_elem_of_In, list_elem_of_lookup. eauto.
  - cbn. lia.
Qed.

(** [nth_midxed_object_details] gives back the permuted pack id and the
    offset of entry [k]. *)
Lemma details_image k e :
  objs !! k = Some e ->
  nth_midxed_object_details m (Z.of_nat k) =
  Ok (Some {| d_pack_int_id := perm_at perm e; d_offset := offset e |}).
Proof.
  intros Hk.
  assert (Hlt : (k < length objs)%nat) by (eapply lookup_lt_Some; eauto).
  pose proof (writable_offsets _ _ _ W) as Hoffs.
  assert (Hoff : 0 <= offset e < 2 ^ 63).
  { rewrite Forall_forall in Hoffs. apply Hoffs.
    apply list_elem_of_In, list_elem_of_lookup. eauto. }
  unfold nth_midxed_object_details.
  cbn [m image_reader num_objects chunk_object_offsets data chunk_large_offsets].
  replace (Z.of_nat k >=? Z.of_nat (length objs)) with false
    by (symmetry; rewrite Z.geb_leb; apply Z.leb_gt; lia).
  cbn [chunk_at bind]. rewrite (u32_small (8 * Z.of_nat k)) by lia.
  cbn [bind].
  fold file.
  unfold file. rewrite (read_ooff_pack names perm objs tail W k e Hk).
  cbn [bind].
  rewrite (read_ooff_word names perm objs tail W k e Hk). cbn [bind].
  rewrite (u32_small (perm_at perm e)) by apply perm_at_range.
  pose proof (large_before_le objs k) as HLB.
  pose proof (large_before_nonneg objs k) as HLB0.
  pose proof (length_filter_le is_large objs) as HLF.
  unfold offset_word.
  destruct (large_needed objs) eqn:EL; cbn [andb].
  - destruct (is_large e) eqn:Ee.
    + rewrite (u32_small (Z.lor _ _)) by (apply escape_range; lia).
      replace (Z.land (Z.lor MIDX_LARGE_OFFSET_NEEDED (large_before objs k))
                 MIDX_LARGE_OFFSET_NEEDED =? 0) with false
        by (symmetry; apply Z.eqb_neq, escape_land; lia).
      cbn [negb]. rewrite escape_lxor by lia.
      rewrite (u32_small (large_before objs k)) by lia.
      rewrite (u32_small (8 * large_before objs k)) by lia.
      pose proof (filter_large_lookup objs k e Hk Ee) as Hj.
      destruct (read_loff names perm objs tail W _ e EL Hj) as [R1 R2].
      rewrite Z2Nat.id in R1, R2 by lia.
      rewrite R1. cbn [bind]. rewrite R2. cbn [bind].
      rewrite combine_hi_lo by lia. rewrite s64_small by lia. reflexivity.
    + assert (Hsmall : 0 <= offset e < 2 ^ 31).
      { unfold is_large in Ee. apply negb_false_iff, Z.eqb_eq in Ee.
        pose proof (proj1 (shiftr_zero_iff (offset e) 31 ltac:(lia) ltac:(lia)) Ee).
        lia. }
      rewrite (u32_small (u32 (offset e))), (u32_small (offset e)) by
        (rewrite ?u32_small; lia).
      rewrite small_land by lia. cbn [Z.eqb negb]. reflexivity.
  - rewrite (u32_small (u32 (offset e))) by apply u32_range.
    rewrite u32_small; [reflexivity|].
    pose proof (large_needed_false objs EL) as Hs.
    assert (Hoffs0 : Forall (fun e => 0 <= offset e) objs).
    { eapply Forall_impl; [|exact Hoffs]. intros x Hx. cbv beta in Hx. lia. }
    specialize (Hs Hoffs0). rewrite Forall_forall in Hs.
    assert (Hin : In e objs) by (apply list_elem_of_In, list_elem_of_lookup; eauto).
    specialize (Hs e Hin).
    pose proof (proj1 (shiftr_zero_iff (offset e) 32 ltac:(lia) ltac:(lia)) Hs).
    lia.
Qed.

Lemma details_past k :
  Z.of_nat (length objs) <= k -> nth_midxed_object_details m k = Ok None.
Proof.
  intros H. unfold nth_midxed_object_details. cbn [m image_reader num_objects].
  replace (k >=? Z.of_nat (length objs)) with true
    by (symmetry; rewrite Z.geb_leb; apply Z.leb_le; lia).
  reflexivity.
Qed.

(** [nth_midxed_object_oid] gives back the object id of entry [k]. *)
Lemma oid_image k e :
  objs !! k = Some e ->
  nth_midxed_object_oid m (Z.of_nat k) = Ok (Some (oid e)).
Proof.
  intros Hk.
  assert (Hlt : (k < length objs)%nat) by (eapply lookup_lt_Some; eauto).
  unfold nth_midxed_object_oid, nth_midxed_object_entry.
  rewrite (details_image k e Hk). cbn [bind].
  cbn [m image_reader chunk_oid_lookup hdr_hash_len data chunk_at bind].
  rewrite u32_small by lia.
  fold file. unfold file.
  rewrite (read_oid names perm objs tail W k e Hk). reflexivity.
Qed.

(** The binary search.  Below [first] everything is smaller than the
    object id looked for, from [last] on everything is greater. *)
Lemma bsearch_loop_image fuel target first last :
  wf_oid target ->
  0 <= first <= last -> last <= Z.of_nat (length objs) ->
  last - first <= Z.of_nat fuel ->
  (forall k e, objs !! k = Some e -> Z.of_nat k < first ->
     oidcmp (oid e) target < 0) ->
  (forall k e, objs !! k = Some e -> last <= Z.of_nat k ->
     oidcmp target (oid e) < 0) ->
  (forall k e, objs !! k = Some e -> oid e = target ->
     bsearch_loop fuel m target first last = Ok (true, Z.of_nat k)) /\
  ((forall e, In e objs -> oid e <> target) ->
     exists pos, bsearch_loop fuel m target first last = Ok (false, pos)).
Proof.
  intros Htarget.
  pose proof W as ((Hp & Hn & Ho) & Hna & Hpl & Hasc & Hwf).
  pose proof (writable_wf_oids _ _ _ W) as Hoids.
  revert first last.
  induction fuel as [|fuel IH]; intros first last Hfl Hlast Hfuel Hlow Hhigh.
  - assert (first = last) by lia. subst last. cbn [bsearch_loop].
    rewrite Z.ltb_irrefl. split.
    + intros k e Hk He. exfalso.
      destruct (Z_lt_ge_dec (Z.of_nat k) first) as [L|G].
      * specialize (Hlow k e Hk L). rewrite He, oidcmp_refl in Hlow. lia.
      * specialize (Hhigh k e Hk ltac:(lia)).
        rewrite He, oidcmp_refl in Hhigh. lia.
    + intros _. eexists. reflexivity.
  - cbn [bsearch_loop].
    destruct (first <? last) eqn:E.
    2:{ apply Z.ltb_ge in E. assert (first = last) by lia. subst last. split.
        - intros k e Hk He. exfalso.
          destruct (Z_lt_ge_dec (Z.of_nat k) first) as [L|G].
          + specialize (Hlow k e Hk L). rewrite He, oidcmp_refl in Hlow. lia.
          + specialize (Hhigh k e Hk ltac:(lia)).
            rewrite He, oidcmp_refl in Hhigh. lia.
        - intros _. eexists. reflexivity. }
    apply Z.ltb_lt in E.
    set (mid := first + (last - first) / 2).
    assert (Hmid : first <= mid < last).
    { unfold mid. pose proof (Z.div_pos (last - first) 2 ltac:(lia) ltac:(lia)).
      assert ((last - first) / 2 < last - first)
        by (apply Z.div_lt_upper_bound; lia).
      lia. }
    rewrite (u32_small mid) by lia.
    destruct (objs !! Z.to_nat mid) as [em|] eqn:Em.
    2:{ apply lookup_ge_None in Em. lia. }
    cbn [m image_reader chunk_oid_lookup hdr_hash_len data chunk_at bind].
    rewrite (u32_small (20 * mid)) by lia.
    fold file. unfold file.
    pose proof (read_oid names perm objs tail W (Z.to_nat mid) em Em) as Hread.
    rewrite Z2Nat.id in Hread by lia.
    change GIT_MAX_RAWSZ with 20. rewrite Hread. cbn [bind].
    fold file. fold m.
    assert (Hwem : wf_oid (oid em)).
    { unfold wf_oids in Hoids. rewrite Forall_forall in Hoids. apply Hoids.
      apply list_elem_of_In, list_elem_of_lookup. eauto. }
    change (hashcmp target (oid em)) with (oidcmp target (oid em)).
    destruct (oidcmp target (oid em) =? 0) eqn:Ez.
    + (* found *)
      apply Z.eqb_eq in Ez. apply oidcmp_eq in Ez; auto.
      split.
      * intros k e Hk He.
        assert (k = Z.to_nat mid).
        { destruct (lt_eq_lt_dec k (Z.to_nat mid)) as [[L|Eq]|G]; [|exact Eq|].
          - pose proof (ascending_lookup objs k (Z.to_nat mid) e em Hasc Hoids Hk Em L) as C.
            unfold oid_lt in C. rewrite He, Ez, oidcmp_refl in C. lia.
          - pose proof (ascending_lookup objs (Z.to_nat mid) k em e Hasc Hoids Em Hk G) as C.
            unfold oid_lt in C. rewrite He, Ez, oidcmp_refl in C. lia. }
        subst k. rewrite Z2Nat.id by lia. reflexivity.
      * intros Hnone. exfalso. apply (Hnone em); [|congruence].
        apply list_elem_of_In, list_elem_of_lookup. eauto.
    + apply Z.eqb_neq in Ez.
      destruct (oidcmp target (oid em) >? 0) eqn:Eg.
      * (* the object id looked for is greater: continue to the right *)
        apply Z.gtb_lt in Eg.
        rewrite (u32_small (mid + 1)) by lia.
        apply IH; try lia.
        -- intros k e Hk Hkm.
           assert (Hwe : wf_oid (oid e)).
           { unfold wf_oids in Hoids. rewrite Forall_forall in Hoids. apply Hoids.
             apply list_elem_of_In, list_elem_of_lookup. eauto. }
           destruct (Z.eq_dec (Z.of_nat k) mid) as [Eq|Ne].
           ++ assert (k = Z.to_nat mid) by lia. subst k.
              rewrite Em in Hk. inversion Hk; subst e.
              rewrite (oidcmp_antisym target (oid em)). lia.
           ++ assert (L : (k < Z.to_nat mid)%nat) by lia.
              pose proof (ascending_lookup objs k (Z.to_nat mid) e em Hasc Hoids Hk Em L) as C.
              unfold oid_lt in C.
              apply (oidcmp_trans_lt _ (oid em)); auto.
              rewrite (oidcmp_antisym target (oid em)). lia.
        -- exact Hhigh.
      * (* it is smaller: continue to the left *)
        assert (Hlt : oidcmp target (oid em) < 0).
        { destruct (Z_lt_ge_dec (oidcmp target (oid em)) 0) as [L|G]; [exact L|].
          assert ((0 <? oidcmp target (oid em)) = true) by (apply Z.ltb_lt; lia).
          rewrite Z.gtb_ltb in Eg. congruence. }
        apply IH; try lia.
        -- exact Hlow.
        -- intros k e Hk Hkm.
           assert (Hwe : wf_oid (oid e)).
           { unfold wf_oids in Hoids. rewrite Forall_forall in Hoids. apply Hoids.
             apply list_elem_of_In, list_elem_of_lookup. eauto. }
           destruct (Z.eq_dec (Z.of_nat k) mid) as [Eq|Ne].
           ++ assert (k = Z.to_nat mid) by lia. subst k.
              rewrite Em in Hk. inversion Hk; subst e. exact Hlt.
           ++ assert (L : (Z.to_nat mid < k)%nat) by lia.
              pose proof (ascending_lookup objs (Z.to_nat mid) k em e Hasc Hoids Em Hk L) as C.
              unfold oid_lt in C.
              apply (oidcmp_trans_lt _ (oid em)); auto. lia.
Qed.

(** [bsearch_midx] on the reader of the image. *)
Lemma bsearch_midx_image target :
  wf_oid target ->
  (forall k e, objs !! k = Some e -> oid e = target ->
     bsearch_midx m target = Ok (true, Z.of_nat k)) /\
  ((forall e, In e objs -> oid e <> target) ->
     exists pos, bsearch_midx m target = Ok (false, pos)).
Proof.
  intros Htarget.
  pose proof W as ((Hp & Hn & Ho) & Hna & Hpl & Hasc & Hwf).
  pose proof (writable_wf_oids _ _ _ W) as Hoids.
  pose proof (hash0_range target) as Hb.
  set (b := hash0 target) in *.
  set (first := count_le (map oid objs) (b - 1)).
  set (last := count_le (map oid objs) b).
  assert (Hfirst : b <> 0 ->
    read_be32 file (off_oidf names objs + 4 * (b - 1)) = Ok first).
  { intros. unfold file. apply (read_fanout names perm objs tail W). lia. }
  assert (Hfirst0 : b = 0 -> first = 0).
  { intros E. unfold first. rewrite E. apply count_le_neg. lia. }
  assert (Hlast :
    read_be32 file (off_oidf names objs + 4 * b) = Ok last).
  { unfold file. apply (read_fanout names perm objs tail W). lia. }
  pose proof (count_le_bounds (map oid objs) (b - 1)) as B1.
  pose proof (count_le_bounds (map oid objs) b) as B2.
  pose proof (count_le_mono (map oid objs) (b - 1) b ltac:(lia)) as B3.
  rewrite length_map in B1, B2.
  fold first in B1, B3. fold last in B2, B3.
  assert (Hspec := bsearch_loop_image (Z.to_nat (last - first)) target first last
                     Htarget ltac:(lia) ltac:(lia) ltac:(lia)).
  assert (Hlow : forall k e, objs !! k = Some e -> Z.of_nat k < first ->
                   oidcmp (oid e) target < 0).
  { intros k e Hk Hlt.
    assert (Hwe : wf_oid (oid e)).
    { unfold wf_oids in Hoids. rewrite Forall_forall in Hoids. apply Hoids.
      apply list_elem_of_In, list_elem_of_lookup. eauto. }
    apply (count_le_prefix objs (b - 1) k e Hasc Hoids Hk) in Hlt.
    apply oidcmp_hash0_lt; auto. fold b. lia. }
  assert (Hhigh : forall k e, objs !! k = Some e -> last <= Z.of_nat k ->
                    oidcmp target (oid e) < 0).
  { intros k e Hk Hge.
    assert (Hwe : wf_oid (oid e)).
    { unfold wf_oids in Hoids. rewrite Forall_forall in Hoids. apply Hoids.
      apply list_elem_of_In, list_elem_of_lookup. eauto. }
    pose proof (count_le_prefix objs b k e Hasc Hoids Hk) as P.
    apply oidcmp_hash0_lt; auto. fold b.
    destruct (Z_le_gt_dec (hash0 (oid e)) b) as [L|G]; [|lia].
    apply P in L. fold last in L. lia. }
  specialize (Hspec Hlow Hhigh). destruct Hspec as [Hfound Hmiss].
  assert (Hrun : bsearch_midx m target =
                 bsearch_loop (Z.to_nat (last - first)) m target first last).
  { unfold bsearch_midx. fold b.
    cbn [m image_reader chunk_oid_fanout chunk_at bind data]. fold file.
    destruct (b =? 0) eqn:E; cbn [negb bind].
    - apply Z.eqb_eq in E. rewrite Hlast. cbn [bind].
      rewrite (Hfirst0 E). reflexivity.
    - apply Z.eqb_neq in E. rewrite (Hfirst E). cbn [bind].
      rewrite Hlast. reflexivity. }
  rewrite Hrun. split.
  - intros k e Hk He. eapply Hfound; eauto.
  - intros Hnone. apply Hmiss, Hnone.
Qed.

(** The lookup path on the reader of the image. *)
Lemma lookup_details_hit k e :
  objs !! k = Some e ->
  lookup_details m (oid e) =
  Ok (Some {| d_pack_int_id := perm_at perm e; d_offset := offset e |}).
Proof.
  intros Hk.
  pose proof (writable_wf_oids _ _ _ W) as Hoids.
  assert (Hwe : wf_oid (oid e)).
  { unfold wf_oids in Hoids. rewrite Forall_forall in Hoids. apply Hoids.
    apply list_elem_of_In, list_elem_of_lookup. eauto. }
  unfold lookup_details.
  rewrite (proj1 (bsearch_midx_image (oid e) Hwe) k e Hk eq_refl).
  cbn [bind negb]. apply details_image, Hk.
Qed.

Lemma lookup_details_miss target :
  wf_oid target -> (forall e, In e objs -> oid e <> target) ->
  lookup_details m target = Ok None.
Proof.
  intros Hw Hnone. unfold lookup_details.
  destruct (proj2 (bsearch_midx_image target Hw) Hnone) as (pos & ->).
  reflexivity.
Qed.
End Lookup.

End LookupFacts.

(* ===================================================================== *)
(** * From the inputs of the writer to the loaded reader *)
(* ===================================================================== *)

Module GlueFacts.
Import Midx MidxSpec OidOrder FanoutFacts ChunkFacts PackFacts WriteFacts
       SortPacks WrittenFacts LoadFacts LoadedFacts ReadFacts LookupFacts.

Lemma names_size_perm a b : Permutation a b -> names_size a = names_size b.
Proof.
  induction 1 as [|x l l' _ IH|x y l|l l' l'' _ IH1 _ IH2].
  - reflexivity.
  - rewrite !names_size_cons, IH. reflexivity.
  - rewrite !names_size_cons. lia.
  - congruence.
Qed.

(** The sorted names and the permutation make valid inputs writable. *)
Lemma inputs_writable names0 objs :
  NoDup names0 -> Forall nul_free names0 -> sizes_ok names0 objs ->
  ascending objs -> Forall (wf_entry (Z.of_nat (length names0))) objs ->
  exists names perm,
    sort_packs_by_name names0 = Ok (names, perm) /\
    length names = length names0 /\
    Permutation names names0 /\
    in_order strcmp names /\
    writable names perm objs /\
    Forall (fun v => 0 <= v < 2 ^ 32) perm /\
    (forall i n, names0 !! i = Some n ->
       exists j, perm !! i = Some (Z.of_nat j) /\ names !! j = Some n).
Proof.
  intros Hnd Hnf (Hp & Hn & Ho) Hasc Hwf.
  destruct (sort_packs_by_name_ok names0)
    as (names & perm & Hsort & Hln & Hlp & Hperm & Hord & Hmap).
  exists names, perm. split; [exact Hsort|]. split; [exact Hln|].
  split; [exact Hperm|]. split; [exact Hord|]. split; [|split; [|exact Hmap]].
  - split; [|split; [|split; [|split]]].
    + split; [rewrite Hln; exact Hp|]. split; [|exact Ho].
      rewrite (names_size_perm _ _ Hperm). exact Hn.
    + apply names_ascending_of_in_order; [exact Hord| |].
      * rewrite Hperm. exact Hnd.
      * rewrite Hperm. exact Hnf.
    + congruence.
    + exact Hasc.
    + rewrite Hln. exact Hwf.
  - rewrite Forall_forall. intros v Hv.
    apply list_elem_of_In, list_elem_of_lookup in Hv. destruct Hv as (i & Hi).
    assert (Hlt : (i < length names0)%nat).
    { rewrite <- Hlp. eapply lookup_lt_Some; eauto. }
    destruct (lookup_lt_is_Some_2 names0 i Hlt) as (n & Hn0).
    destruct (Hmap i n Hn0) as (j & Hj & Hnj).
    rewrite Hi in Hj. injection Hj as ->.
    apply lookup_lt_Some in Hnj. lia.
Qed.

(** A file that starts with the body of the image and goes on far enough
    for the pack names is loaded, with as many objects as were written. *)
Lemma load_body names perm objs tail :
  writable names perm objs ->
  (forall s, In s (name_starts 0 names) -> s < Z.of_nat (length tail)) ->
  load_midxed_git_one false (Some (midx_body names perm objs ++ tail)) =
  Ok (Some (image_reader (midx_body names perm objs ++ tail) names objs
              (Z.of_nat (length objs)))).
Proof.
  intros W Htail. pose proof W as (Hsz & _).
  pose proof (length_body names perm objs W) as Hbody.
  set (file := midx_body names perm objs ++ tail).
  set (rest := oidf_image objs ++ oidl_image objs ++ ooff_image perm objs ++
               loff_image objs ++ tail).
  assert (Hfile : file =
            header_bytes (nr_chunks objs) (Z.of_nat (length names)) ++
            chunk_table_bytes (image_plan names objs) ++ ploo_image names ++ rest).
  { unfold file, rest, midx_body. rewrite <- !app_assoc. reflexivity. }
  destruct (load_laid_out names objs rest Hsz) as (nobj & Hread & Hload).
  - unfold rest. rewrite length_app, length_oidf_image. lia.
  - rewrite <- Hfile. intros s Hs. apply Htail in Hs.
    unfold file. rewrite length_app, Nat2Z.inj_add, Hbody. lia.
  - rewrite <- Hfile in Hread, Hload.
    pose proof (read_fanout names perm objs tail W 255 ltac:(lia)) as Hf.
    fold file in Hf. replace (4 * 255) with 1020 in Hf by reflexivity.
    rewrite Hread in Hf. injection Hf as ->.
    rewrite count_le_255, length_map in Hload. exact Hload.
Qed.

(** The names of the image fit in the Pack Names chunk. *)
Lemma names_fit names trailer s :
  In s (name_starts 0 names) ->
  s < Z.of_nat (length (pnam_image names ++ trailer)).
Proof.
  intros Hs. apply name_starts_range in Hs.
  rewrite length_app, Nat2Z.inj_add, length_pnam_image. lia.
Qed.

End GlueFacts.

(** Closed goals: comparisons and equalities of numerals and literals. *)
Ltac by_computation := vm_compute; repeat split; try discriminate.
Ltac all_of := repeat (apply Forall_cons; [by_computation|]); apply Forall_nil.
Ltac nul_free_names :=
  repeat (apply Forall_cons;
          [repeat (apply Forall_cons; [discriminate|]); apply Forall_nil|]);
  apply Forall_nil.
Ltac distinct_names :=
  repeat (constructor;
          [let H := fresh in
           intros H; repeat (inversion H as [|? ? ? H']; subst;
                             clear H; rename H' into H); inversion H|]);
  constructor.

(* ===================================================================== *)
(** * What a successful run of the writer went through *)
(* ===================================================================== *)

Lemma bind_Ok_inv {A B : Type} (c : outcome A) (k : A -> outcome B) (r : B) :
  bind c k = Ok r -> exists x, c = Ok x /\ k x = Ok r.
Proof.
  destruct c as [x| | | |]; cbn [bind]; intros H; try discriminate H.
  exists x. split; [reflexivity|exact H].
Qed.

Module InversionFacts.
Import Midx MidxSpec MidxClaims SortPacks WriteFacts.

(** With no pack there is nothing to sort. *)
Lemma sorted_or_empty names0 :
  (if Z.of_nat (length names0) =? 0 then Ok (names0, [])
   else sort_packs_by_name names0) = sort_packs_by_name names0.
Proof.
  destruct names0 as [|n names0]; [reflexivity|].
  replace (Z.of_nat (length (n :: names0)) =? 0) with false; [reflexivity|].
  symmetry. apply Z.eqb_neq. cbn [length]. lia.
Qed.

(** The chunks are written one after the other, in the order of the
    plan. *)
Lemma write_chunks_inv L nr names objs perm plan w payload :
  write_chunks L nr names objs perm plan w = Ok payload ->
  exists pieces,
    Forall2 (fun c bs => exists n, write_chunk L nr names objs perm (fst c) = Ok (bs, n))
            plan pieces /\
    payload = concat pieces.
Proof.
  revert w payload. induction plan as [|[id off] plan IH]; intros w payload H.
  - cbn [write_chunks] in H. injection H as <-. exists []. split; [constructor|reflexivity].
  - cbn [write_chunks] in H.
    destruct (negb (off =? w)); [discriminate H|].
    apply bind_Ok_inv in H. destruct H as ([bs n] & Hc & H).
    apply bind_Ok_inv in H. destruct H as (more & Hm & H).
    injection H as <-.
    destruct (IH _ _ Hm) as (pieces & HF & ->).
    exists (bs :: pieces). split; [|reflexivity].
    constructor; [|exact HF]. exists n. exact Hc.
Qed.

Section Inversion.
Variable hash_fn : list byte -> list byte.

(** A written file is the header, the chunk table and the chunks of the
    plan, followed by the hash of all of it. *)
Lemma write_midx_file_inv names0 objs file :
  write_midx_file hash_fn true names0 objs = Ok (Some file) ->
  exists names perm payload,
    sort_packs_by_name names0 = Ok (names, perm) /\
    let L := large_needed objs in
    let nr := u32 (Z.of_nat (length (List.filter (fun o => 0x7fffffff <? offset o) objs))) in
    let plan := chunk_plan L nr (Z.of_nat (length names0)) (Z.of_nat (length objs))
                  (fold_left (fun acc n => s32 (acc + (strlen n + 1))) names 0) in
    let front := header_bytes (if L then 6 else 5) (Z.of_nat (length names0)) ++
                 chunk_table_bytes plan in
    write_chunks L nr names objs perm plan
      (16 + MIDX_CHUNKLOOKUP_WIDTH * ((if L then 6 else 5) + 1)) = Ok payload /\
    file = (front ++ payload) ++ hash_fn (front ++ payload).
Proof.
  unfold write_midx_file. cbn [negb]. rewrite sorted_or_empty.
  intros H. apply bind_Ok_inv in H. destruct H as ([names perm] & Hs & H).
  apply bind_Ok_inv in H. destruct H as (payload & Hp & H).
  injection H as <-.
  exists names, perm, payload. split; [exact Hs|].
  cbv zeta. unfold large_needed. split; [exact Hp|].
  rewrite <- !app_assoc. reflexivity.
Qed.
End Inversion.

Ltac next_piece HF p Hp :=
  let rest := fresh "pieces" in
  inversion HF as [|? p ? rest Hp HF']; subst; clear HF; rename HF' into HF;
  cbn [fst] in Hp.

(** A written file holds the chunks with the Pack Names last. *)
Lemma write_midx_file_pieces (hash_fn : list byte -> list byte)
    (names0 : list cstring) (objs : list pack_midx_entry) (file : list byte) :
  write_midx_file hash_fn true names0 objs = Ok (Some file) ->
  chunks_written_as names_last hash_fn names0 objs file.
Proof.
  intros H. apply write_midx_file_inv in H.
  destruct H as (names & perm & payload & Hs & Hw & ->).
  apply write_chunks_inv in Hw. destruct Hw as (pieces & HF & ->).
  fold (nr_large objs) in HF |- *.
  set (total := fold_left (fun acc n => s32 (acc + (strlen n + 1))) names 0) in *.
  set (plan := chunk_plan (large_needed objs) (nr_large objs)
                 (Z.of_nat (length names0)) (Z.of_nat (length objs)) total) in *.
  set (front := header_bytes (if large_needed objs then 6 else 5)
                  (Z.of_nat (length names0)) ++ chunk_table_bytes plan).
  assert (Hfront : Z.of_nat (length front) = 16 + 12 * Z.of_nat (length plan)).
  { unfold front. rewrite length_app, length_header_bytes,
      length_chunk_table_bytes. lia. }
  assert (Hnone : forall bs n,
            write_chunk (large_needed objs) (nr_large objs) names objs perm 0 =
            Ok (bs, n) -> bs = []).
  { intros bs n Hz. unfold write_chunk in Hz.
    change (0 =? MIDX_CHUNKID_PACKLOOKUP) with false in Hz.
    change (0 =? MIDX_CHUNKID_PACKNAMES) with false in Hz.
    change (0 =? MIDX_CHUNKID_OIDFANOUT) with false in Hz.
    change (0 =? MIDX_CHUNKID_OIDLOOKUP) with false in Hz.
    change (0 =? MIDX_CHUNKID_OBJECTOFFSETS) with false in Hz.
    change (0 =? MIDX_CHUNKID_LARGEOFFSETS) with false in Hz.
    change (0 =? 0) with true in Hz. cbv iota in Hz. congruence. }
  unfold chunks_written_as.
  unfold plan, chunk_plan in HF, Hfront. cbv zeta in HF, Hfront.
  destruct (large_needed objs) eqn:HL.
  - next_piece HF p0 H0. next_piece HF p1 H1. next_piece HF p2 H2.
    next_piece HF p3 H3. next_piece HF p4 H4. next_piece HF p5 H5.
    next_piece HF p6 H6. inversion HF; subst.
    destruct H6 as (n6 & H6). apply Hnone in H6. subst p6.
    exists names, perm, [p0; p1; p2; p3; p4; p5], front.
    split; [exact Hs|]. split.
    + unfold names_last. cbn [app]. repeat (constructor; [assumption|]). constructor.
    + split.
      * rewrite Hfront. unfold names_last. cbn [app length]. lia.
      * cbn [concat]. rewrite !app_nil_r. reflexivity.
  - next_piece HF p0 H0. next_piece HF p1 H1. next_piece HF p2 H2.
    next_piece HF p3 H3. next_piece HF p5 H5.
    next_piece HF p6 H6. inversion HF; subst.
    destruct H6 as (n6 & H6). apply Hnone in H6. subst p6.
    exists names, perm, [p0; p1; p2; p3; p5], front.
    split; [exact Hs|]. split.
    + unfold names_last. cbn [app]. repeat (constructor; [assumption|]). constructor.
    + split.
      * rewrite Hfront. unfold names_last. cbn [app length]. lia.
      * cbn [concat]. rewrite !app_nil_r. reflexivity.
Qed.

End InversionFacts.

(* ===================================================================== *)
(** * What the success of the writer says about its input *)
(* ===================================================================== *)

Module SuccessFacts.
Import Midx MidxSpec MidxClaims OidOrder FanoutFacts ChunkFacts PackFacts
       WriteFacts SortPacks WrittenFacts InversionFacts GlueFacts.

Lemma sorted_facts names0 names perm :
  sort_packs_by_name names0 = Ok (names, perm) ->
  length names = length names0 /\
  length perm = length names0 /\
  Permutation names names0 /\
  in_order strcmp names /\
  (forall i n, names0 !! i = Some n ->
     exists j, perm !! i = Some (Z.of_nat j) /\ names !! j = Some n).
Proof.
  intros Hs.
  destruct (sort_packs_by_name_ok names0) as (names' & perm' & Hs' & H).
  rewrite Hs in Hs'. injection Hs' as <- <-. exact H.
Qed.

Lemma perm_in_range names0 names perm :
  sort_packs_by_name names0 = Ok (names, perm) ->
  Z.of_nat (length names0) < 2 ^ 30 ->
  Forall (fun v => 0 <= v < 2 ^ 32) perm.
Proof.
  intros Hs Hp.
  destruct (sorted_facts _ _ _ Hs) as (Hln & Hlp & _ & _ & Hmap).
  rewrite Forall_forall. intros v Hv.
  apply list_elem_of_In, list_elem_of_lookup in Hv. destruct Hv as (i & Hi).
  assert (Hlt : (i < length names0)%nat).
  { rewrite <- Hlp. eapply lookup_lt_Some; eauto. }
  destruct (lookup_lt_is_Some_2 names0 i Hlt) as (n & Hn0).
  destruct (Hmap i n Hn0) as (j & Hj & Hnj).
  rewrite Hi in Hj. injection Hj as ->.
  apply lookup_lt_Some in Hnj. lia.
Qed.

Lemma write_chunk_oidlookup L nr names objs perm :
  write_chunk L nr names objs perm MIDX_CHUNKID_OIDLOOKUP =
  write_midx_chunk_oidlookup MIDX_OID_LEN objs.
Proof. reflexivity. Qed.

Lemma write_chunk_packnames L nr names objs perm :
  write_chunk L nr names objs perm MIDX_CHUNKID_PACKNAMES =
  write_midx_chunk_packnames names.
Proof. reflexivity. Qed.

(** Strictly ascending entries have distinct object ids. *)
Lemma ascending_oids_nodup objs :
  ascending objs -> wf_oids objs -> NoDup (map oid objs).
Proof.
  induction objs as [|a objs IH]; intros Hasc Hwf; [constructor|].
  cbn [map]. constructor.
  - intros Hin. apply list_elem_of_In, in_map_iff in Hin.
    destruct Hin as (e & Heq & He).
    pose proof (ascending_all a objs Hasc Hwf) as Hall.
    rewrite Forall_forall in Hall. specialize (Hall e He).
    unfold oid_lt in Hall. rewrite Heq, oidcmp_refl in Hall. lia.
  - apply IH; [eapply ascending_tail; eauto|].
    inversion Hwf; assumption.
Qed.

Lemma remove_dups_nodup {A : Type} `{EqDecision A} (l : list A) :
  NoDup l -> remove_dups l = l.
Proof.
  induction 1 as [|x l Hx _ IH]; [reflexivity|].
  cbn [remove_dups]. destruct (decide_rel elem_of x l) as [Hin|_].
  - exfalso. apply Hx. exact Hin.
  - rewrite IH. reflexivity.
Qed.

Section Success.
Variable hash_fn : list byte -> list byte.

(** When [write_midx_file] goes through, the entries were in strictly
    ascending order, and the file is the image. *)
Lemma success_writable names0 objs file :
  write_midx_file hash_fn true names0 objs = Ok (Some file) ->
  sizes_ok names0 objs ->
  Forall (wf_entry (Z.of_nat (length names0))) objs ->
  exists names perm,
    sort_packs_by_name names0 = Ok (names, perm) /\
    writable names perm objs /\
    Forall (fun v => 0 <= v < 2 ^ 32) perm /\
    file = midx_image names perm objs ++ hash_fn (midx_image names perm objs).
Proof.
  intros Hw (Hp & Hn & Ho) Hwf.
  pose proof (write_midx_file_pieces _ _ _ _ Hw)
    as (names & perm & pieces & front & Hs & HF & _ & _).
  destruct (sorted_facts _ _ _ Hs) as (Hln & Hlp & Hperm & _ & _).
  assert (Hasc : ascending objs).
  { unfold names_last in HF. cbn [app] in HF.
    inversion HF as [|? ? ? ? _ HF1]; subst.
    inversion HF1 as [|? ? ? ? _ HF2]; subst.
    inversion HF2 as [|? ? ? ? (n & H2) _]; subst.
    rewrite write_chunk_oidlookup in H2.
    eapply oidlookup_loop_ascending. exact H2. }
  assert (Hna : names_ascending names).
  { assert (Hlast : exists bs n,
              write_chunk (large_needed objs) (nr_large objs) names objs perm
                MIDX_CHUNKID_PACKNAMES = Ok (bs, n)).
    { unfold names_last in HF.
      destruct (large_needed objs); cbn [app] in HF.
      - inversion HF as [|? ? ? ? _ HF1]; subst.
        inversion HF1 as [|? ? ? ? _ HF2]; subst.
        inversion HF2 as [|? ? ? ? _ HF3]; subst.
        inversion HF3 as [|? ? ? ? _ HF4]; subst.
        inversion HF4 as [|? ? ? ? _ HF5]; subst.
        inversion HF5 as [|? ? ? ? (n & H5) _]; subst. eauto.
      - inversion HF as [|? ? ? ? _ HF1]; subst.
        inversion HF1 as [|? ? ? ? _ HF2]; subst.
        inversion HF2 as [|? ? ? ? _ HF3]; subst.
        inversion HF3 as [|? ? ? ? _ HF4]; subst.
        inversion HF4 as [|? ? ? ? (n & H4) _]; subst. eauto. }
    destruct Hlast as (bs & n & Hl). rewrite write_chunk_packnames in Hl.
    apply packnames_loop_ascending in Hl. apply Hl. }
  assert (W : writable names perm objs).
  { split; [|split; [exact Hna|split; [congruence|split; [exact Hasc|]]]].
    - split; [rewrite Hln; exact Hp|]. split; [|exact Ho].
      rewrite (names_size_perm _ _ Hperm). exact Hn.
    - rewrite Hln. exact Hwf. }
  exists names, perm. split; [exact Hs|]. split; [exact W|].
  split; [eapply perm_in_range; eauto|].
  pose proof (write_midx_file_image hash_fn names0 names perm objs Hs Hln W) as Hi.
  rewrite Hw in Hi. injection Hi as ->. reflexivity.
Qed.
End Success.

End SuccessFacts.

(* ===================================================================== *)
(** * What a file that is loaded went through *)
(* ===================================================================== *)

Module RejectFacts.
Import Midx MidxSpec MidxClaims.

Lemma get_be32_nonneg bs : 0 <= get_be32 bs.
Proof. unfold get_be32. pose proof (le_combine_bound (rev bs)). lia. Qed.

Lemma read_be32_nonneg data off v : read_be32 data off = Ok v -> 0 <= v.
Proof.
  unfold read_be32. intros H. apply bind_Ok_inv in H.
  destruct H as (bs & _ & H). injection H as <-. apply get_be32_nonneg.
Qed.

Lemma read_u8_nonneg data off v : read_u8 data off = Ok v -> 0 <= v.
Proof.
  unfold read_u8. intros H. apply bind_Ok_inv in H.
  destruct H as (bs & _ & H). injection H as <-. apply get_be32_nonneg.
Qed.

(** A chunk pointer is set by the entry that carries its id. *)
Lemma set_chunk_fanout c id off :
  c_oid_fanout (set_chunk c id off) <> None ->
  c_oid_fanout c <> None \/ id = MIDX_CHUNKID_OIDFANOUT.
Proof.
  unfold set_chunk.
  destruct (id =? MIDX_CHUNKID_PACKLOOKUP); [cbn; auto|].
  destruct (id =? MIDX_CHUNKID_PACKNAMES); [cbn; auto|].
  destruct (id =? MIDX_CHUNKID_OIDFANOUT) eqn:E;
    [right; apply Z.eqb_eq, E|].
  destruct (id =? MIDX_CHUNKID_OIDLOOKUP); [cbn; auto|].
  destruct (id =? MIDX_CHUNKID_OBJECTOFFSETS); [cbn; auto|].
  destruct (id =? MIDX_CHUNKID_LARGEOFFSETS); cbn; auto.
Qed.

Lemma set_chunk_lookup c id off :
  c_pack_lookup (set_chunk c id off) <> None ->
  c_pack_lookup c <> None \/ id = MIDX_CHUNKID_PACKLOOKUP.
Proof.
  unfold set_chunk.
  destruct (id =? MIDX_CHUNKID_PACKLOOKUP) eqn:E;
    [right; apply Z.eqb_eq, E|].
  destruct (id =? MIDX_CHUNKID_PACKNAMES); [cbn; auto|].
  destruct (id =? MIDX_CHUNKID_OIDFANOUT); [cbn; auto|].
  destruct (id =? MIDX_CHUNKID_OIDLOOKUP); [cbn; auto|].
  destruct (id =? MIDX_CHUNKID_OBJECTOFFSETS); [cbn; auto|].
  destruct (id =? MIDX_CHUNKID_LARGEOFFSETS); cbn; auto.
Qed.

Lemma set_chunk_names c id off :
  c_pack_names (set_chunk c id off) <> None ->
  c_pack_names c <> None \/ id = MIDX_CHUNKID_PACKNAMES.
Proof.
  unfold set_chunk.
  destruct (id =? MIDX_CHUNKID_PACKLOOKUP); [cbn; auto|].
  destruct (id =? MIDX_CHUNKID_PACKNAMES) eqn:E;
    [right; apply Z.eqb_eq, E|].
  destruct (id =? MIDX_CHUNKID_OIDFANOUT); [cbn; auto|].
  destruct (id =? MIDX_CHUNKID_OIDLOOKUP); [cbn; auto|].
  destruct (id =? MIDX_CHUNKID_OBJECTOFFSETS); [cbn; auto|].
  destruct (id =? MIDX_CHUNKID_LARGEOFFSETS); cbn; auto.
Qed.

(** One step of the loop over the chunk table. *)
Lemma read_chunk_table_step host32 data n i c c' :
  read_chunk_table host32 data (S n) i c = Ok c' ->
  exists id off,
    table_id data i = Ok id /\ table_offset data i = Ok off /\
    (host32 = true -> off < 2 ^ 32) /\
    read_chunk_table host32 data n (i + 1) (set_chunk c id off) = Ok c'.
Proof.
  cbn [read_chunk_table]. intros H.
  apply bind_Ok_inv in H. destruct H as (id & Hid & H).
  apply bind_Ok_inv in H. destruct H as (hi & Hhi & H).
  apply bind_Ok_inv in H. destruct H as (lo & Hlo & H).
  set (off := Z.lor (u64 (Z.shiftl hi 32)) lo) in *.
  exists id, off. split; [exact Hid|]. split.
  { unfold table_offset. rewrite Hhi. cbn [bind]. rewrite Hlo. reflexivity. }
  destruct (host32 && negb (Z.shiftr off 32 =? 0)) eqn:E; [discriminate H|].
  split; [|exact H].
  intros ->. cbn [andb] in E. apply negb_false_iff, Z.eqb_eq in E.
  assert (H0 : 0 <= off).
  { unfold off. apply Z.lor_nonneg. split.
    - unfold u64. apply Z.mod_pos_bound. lia.
    - eapply read_be32_nonneg; eauto. }
  apply (WriteFacts.shiftr_zero_iff off 32); [exact H0|lia|exact E].
Qed.

(** The pointers that the loop sets come from entries of the table, and
    on a 32-bit host every entry it passes has an offset of 32 bits. *)
Lemma read_chunk_table_sets host32 data n i c c' :
  read_chunk_table host32 data n i c = Ok c' ->
  (c_oid_fanout c' <> None ->
   c_oid_fanout c <> None \/
   exists j, i <= j < i + Z.of_nat n /\ table_id data j = Ok MIDX_CHUNKID_OIDFANOUT) /\
  (c_pack_lookup c' <> None ->
   c_pack_lookup c <> None \/
   exists j, i <= j < i + Z.of_nat n /\ table_id data j = Ok MIDX_CHUNKID_PACKLOOKUP) /\
  (c_pack_names c' <> None ->
   c_pack_names c <> None \/
   exists j, i <= j < i + Z.of_nat n /\ table_id data j = Ok MIDX_CHUNKID_PACKNAMES) /\
  (host32 = true ->
   forall j off, i <= j < i + Z.of_nat n -> table_offset data j = Ok off ->
                 off < 2 ^ 32).
Proof.
  revert i c. induction n as [|n IH]; intros i c H.
  - cbn [read_chunk_table] in H. injection H as <-.
    repeat split; auto. intros _ j off Hj. lia.
  - apply read_chunk_table_step in H.
    destruct H as (id & off & Hid & Hoff & H32 & H).
    destruct (IH _ _ H) as (Hf & Hl & Hn & Ho).
    assert (Hshift : forall id',
              (exists j, i + 1 <= j < i + 1 + Z.of_nat n /\ table_id data j = Ok id') ->
              exists j, i <= j < i + Z.of_nat (S n) /\ table_id data j = Ok id').
    { intros id' (j & Hj & Ht). exists j. split; [lia|exact Ht]. }
    assert (Hhere : forall id', id = id' ->
              exists j, i <= j < i + Z.of_nat (S n) /\ table_id data j = Ok id').
    { intros id' <-. exists i. split; [lia|exact Hid]. }
    split; [|split; [|split]].
    + intros Hc. destruct (Hf Hc) as [Hs|Hj]; [|right; apply Hshift, Hj].
      destruct (set_chunk_fanout _ _ _ Hs) as [Hp|Heq]; [left; exact Hp|].
      right. apply Hhere, Heq.
    + intros Hc. destruct (Hl Hc) as [Hs|Hj]; [|right; apply Hshift, Hj].
      destruct (set_chunk_lookup _ _ _ Hs) as [Hp|Heq]; [left; exact Hp|].
      right. apply Hhere, Heq.
    + intros Hc. destruct (Hn Hc) as [Hs|Hj]; [|right; apply Hshift, Hj].
      destruct (set_chunk_names _ _ _ Hs) as [Hp|Heq]; [left; exact Hp|].
      right. apply Hhere, Heq.
    + intros Hh j off' Hj Ht.
      destruct (Z.eq_dec j i) as [->|Hne].
      * rewrite Hoff in Ht. injection Ht as <-. apply H32, Hh.
      * apply (Ho Hh j off'); [lia|exact Ht].
Qed.

(** What [load_midxed_git_one] has checked when it gives a reader. *)
Lemma load_checked host32 data m :
  load_midxed_git_one host32 (Some data) = Ok (Some m) ->
  ~ too_short data /\
  read_be32 data 0 = Ok MIDX_SIGNATURE /\
  read_be32 data 4 = Ok MIDX_VERSION /\
  exists nc c,
    read_u8 data 11 = Ok nc /\
    read_chunk_table host32 data (S (Z.to_nat nc)) 0 no_chunks = Ok c /\
    c_oid_fanout c <> None /\ c_pack_lookup c <> None /\ c_pack_names c <> None.
Proof.
  unfold load_midxed_git_one. intros H.
  destruct (host32 && (2 ^ 32 <=? Z.of_nat (length data))); [discriminate H|].
  destruct (Z.of_nat (length data) <? 16 + 8 * 5 + 4 * 256 + GIT_MAX_RAWSZ) eqn:Es;
    [discriminate H|].
  apply Z.ltb_ge in Es.
  apply bind_Ok_inv in H. destruct H as (sig & Hsig & H).
  destruct (sig =? MIDX_SIGNATURE) eqn:E1; cbn [negb] in H; [|discriminate H].
  apply Z.eqb_eq in E1. subst sig.
  apply bind_Ok_inv in H. destruct H as (ver & Hver & H).
  destruct (ver =? MIDX_VERSION) eqn:E2; cbn [negb] in H; [|discriminate H].
  apply Z.eqb_eq in E2. subst ver.
  apply bind_Ok_inv in H. destruct H as (hv & _ & H).
  apply bind_Ok_inv in H. destruct H as (hl & _ & H).
  apply bind_Ok_inv in H. destruct H as (nc & Hnc & H).
  apply bind_Ok_inv in H. destruct H as (c & Hc & H).
  split; [unfold too_short; lia|]. split; [exact Hsig|]. split; [exact Hver|].
  exists nc, c. split; [exact Hnc|]. split; [exact Hc|].
  destruct (c_oid_fanout c); [|discriminate H].
  destruct (c_pack_lookup c); [|discriminate H].
  destruct (c_pack_names c); [|discriminate H].
  repeat split; discriminate.
Qed.

End RejectFacts.

(* ===================================================================== *)
(** * The verifier on a file whose chunks are in place *)
(* ===================================================================== *)

Module VerifyFacts.
Import Midx MidxSpec MidxClaims OidOrder WriteFacts ReadFacts LookupFacts
       GlueFacts PackFacts.

Lemma lor_one_nonzero x : Z.lor x 1 <> 0.
Proof.
  intros H. apply (f_equal (fun z => Z.testbit z 0)) in H.
  rewrite Z.lor_spec, Z.bits_0 in H.
  change (Z.testbit 1 0) with true in H. rewrite orb_true_r in H. discriminate H.
Qed.

Lemma find_pos_range sha1 entries pos r :
  find_pack_entry_pos_from sha1 entries pos = Some r ->
  pos <= r < pos + Z.of_nat (length entries).
Proof.
  revert pos. induction entries as [|[o x] entries IH]; intros pos H;
    [discriminate H|].
  cbn [find_pack_entry_pos_from] in H. cbn [length].
  destruct (hashcmp sha1 o =? 0).
  - injection H as <-. lia.
  - apply IH in H. lia.
Qed.

Lemma array_get_ok {A : Type} (a : list A) (i : Z) :
  0 <= i < Z.of_nat (length a) -> exists x, array_get a i = Ok x /\ a !! Z.to_nat i = Some x.
Proof.
  intros H. unfold array_get.
  replace (0 <=? i) with true by (symmetry; apply Z.leb_le; lia).
  destruct (lookup_lt_is_Some_2 a (Z.to_nat i) ltac:(lia)) as (x & Hx).
  rewrite Hx. eauto.
Qed.

Lemma nth_packed_ok p sha1 r :
  find_pack_entry_pos sha1 p = Some r ->
  exists off, nth_packed_object_offset p r = Ok off.
Proof.
  intros H. apply find_pos_range in H. unfold nth_packed_object_offset.
  destruct (array_get_ok (idx_entries p) r ltac:(lia)) as (x & -> & _).
  cbn [bind]. eauto.
Qed.

Lemma after_refl st : after st st.
Proof. repeat split; auto. Qed.

Lemma after_trans a b c : after a b -> after b c -> after a c.
Proof.
  intros (P1 & R1 & E1) (P2 & R2 & E2). repeat split; auto; congruence.
Qed.

Lemma after_report st msg : after st (midx_report st msg).
Proof.
  split; [reflexivity|]. split.
  - intros m Hm. cbn. apply in_or_app. left. exact Hm.
  - intros _. cbn. discriminate.
Qed.

Lemma after_maybe_report st (b : bool) msg :
  after st (if b then midx_report st msg else st).
Proof. destruct b; [apply after_report|apply after_refl]. Qed.

(** A string without NUL is not ended by [c_str]. *)
Lemma c_str_none bs : c_str bs = None -> ~ In Byte.x00 bs.
Proof.
  induction bs as [|b bs IH]; intros H Hin; [destruct Hin|].
  cbn [c_str] in H.
  destruct (byte.unsigned b =? 0) eqn:E; [discriminate H|].
  destruct (c_str bs) eqn:Ec; [discriminate H|].
  destruct Hin as [->|Hin]; [discriminate E|].
  exact (IH eq_refl Hin).
Qed.

(** A string can be read when a NUL follows in the file, or when the
    file does not fill its last page. *)
Lemma cstring_at_ok page data off :
  In Byte.x00 (drop (Z.to_nat off) data) \/
  (0 < page /\ Z.of_nat (length data) mod page <> 0) ->
  exists s, cstring_at page data off = Ok s.
Proof.
  intros H. unfold cstring_at.
  destruct (c_str (drop (Z.to_nat off) data)) eqn:E; [eauto|].
  destruct H as [H|(Hp & H)]; [exfalso; exact (c_str_none _ E H)|].
  apply Z.eqb_neq in H. rewrite H.
  replace (page <=? 0) with false by (symmetry; apply Z.leb_gt; exact Hp).
  eauto.
Qed.

Section Verify.
Variables (names : list cstring) (perm : list Z) (objs : list pack_midx_entry).
Variables (t0 h : list byte) (env : verify_env).
Hypothesis W : writable names perm objs.
Hypothesis Hrange : Forall (fun v => 0 <= v < 2 ^ 32) perm.
Hypothesis H20 : 20 * Z.of_nat (length objs) < 2 ^ 32.

Let tail := t0 ++ h.
Let file := midx_body names perm objs ++ tail.
Let m := image_reader file names objs (Z.of_nat (length objs)).
Let p := Z.of_nat (length names).

(** Every pack name can be read without leaving the mapping. *)
Hypothesis Hread : forall j ptr, pack_names m !! j = Some ptr ->
  exists s, cstring_at (page_size env) file ptr = Ok s.

Lemma report_pack_ok i st msg :
  0 <= i < p -> report_pack env m i st msg = Ok (midx_report st msg).
Proof.
  intros Hi. unfold report_pack.
  assert (Hpn : 0 <= i < Z.of_nat (length (pack_names m))).
  { cbn [m image_reader pack_names]. rewrite length_map, length_name_starts.
    exact Hi. }
  destruct (array_get_ok (pack_names m) i Hpn) as (ptr & -> & Hptr).
  cbn [bind]. destruct (Hread _ ptr Hptr) as (x & Hx).
  cbn [m image_reader data]. rewrite Hx. reflexivity.
Qed.

Lemma hdr_num_packs_ok : exists raw, hdr_num_packs env m = Ok raw.
Proof.
  unfold hdr_num_packs. cbn [m image_reader data].
  rewrite slice_ok; [cbn [bind]; eauto|lia|lia|].
  unfold file, midx_body. rewrite !length_app, length_header_bytes. lia.
Qed.

Lemma prepare_ok ps i :
  length ps = length names -> 0 <= i < p ->
  exists failed ps',
    prepare_midx_pack env m ps i = Ok (failed, ps') /\
    length ps' = length ps /\
    (forall j, j <> Z.to_nat i -> ps' !! j = ps !! j) /\
    (failed = 0 -> exists q, ps' !! Z.to_nat i = Some (Some q)).
Proof.
  intros Hlen Hi. unfold prepare_midx_pack.
  destruct hdr_num_packs_ok as (raw & ->). cbn [bind].
  destruct (i >=? raw).
  { exists 1, ps. repeat split; auto. discriminate. }
  destruct (array_get_ok ps i ltac:(unfold p in Hi; lia)) as (slot & -> & Hslot).
  cbn [bind]. destruct slot as [q|].
  { exists 0, ps. repeat split; eauto. }
  assert (Hpn : 0 <= i < Z.of_nat (length (pack_names m))).
  { cbn [m image_reader pack_names]. rewrite length_map, length_name_starts.
    exact Hi. }
  destruct (array_get_ok (pack_names m) i Hpn) as (ptr & -> & Hptr).
  cbn [bind]. destruct (Hread _ ptr Hptr) as (x & Hx).
  cbn [m image_reader data]. rewrite Hx. cbn [bind]. unfold array_set.
  replace ((0 <=? i) && (i <? Z.of_nat (length ps))) with true.
  2:{ symmetry. apply andb_true_iff. split; [apply Z.leb_le|apply Z.ltb_lt];
      unfold p in Hi; lia. }
  cbn [bind]. eexists. eexists. split; [reflexivity|].
  split; [apply length_insert|]. split.
  - intros j Hj. apply list_lookup_insert_ne. congruence.
  - intros Hf. rewrite list_lookup_insert_eq by (unfold p in Hi; lia).
    destruct (add_packed_git env _) as [q|]; [eauto|discriminate Hf].
Qed.

(** The loop over the packs ends, and leaves every pack open unless it
    has reported a failure. *)
Lemma verify_packs_total n i st :
  i + Z.of_nat n = p -> 0 <= i ->
  length (packs st) = length names ->
  (verify_midx_error st = 0 -> opened (packs st) i) ->
  exists st',
    verify_packs env m n i st = Ok st' /\
    length (packs st') = length names /\
    (forall msg, In msg (reports st) -> In msg (reports st')) /\
    (verify_midx_error st' = 0 -> opened (packs st') p).
Proof.
  revert i st. induction n as [|n IH]; intros i st Hin Hi Hlen Hop.
  - exists st. cbn [verify_packs]. repeat split; auto.
    replace p with i by lia. exact Hop.
  - cbn [verify_packs].
    destruct (prepare_ok (packs st) i Hlen ltac:(lia))
      as (failed & ps' & -> & Hlen' & Hother & Hfail).
    cbn [bind].
    destruct (failed =? 0) eqn:E; cbn [negb].
    + apply Z.eqb_eq in E. destruct (Hfail E) as (q & Hq).
      cbn [set_packs packs]. unfold array_get.
      replace (0 <=? i) with true by (symmetry; apply Z.leb_le; lia).
      rewrite Hq. cbn [bind].
      set (st1 := set_packs st ps').
      set (st2 := if negb (index_data q) && negb (open_pack_index q =? 0)
                  then midx_report st1 "failed to open index for pack"
                  else st1).
      assert (Hst2 : (if negb (index_data q) && negb (open_pack_index q =? 0)
                      then report_pack env m i st1 "failed to open index for pack"
                      else Ok st1) = Ok st2).
      { unfold st2. destruct (negb (index_data q) && negb (open_pack_index q =? 0));
          [apply report_pack_ok; lia|reflexivity]. }
      rewrite Hst2. cbn [bind].
      assert (Haft : after st1 st2) by apply after_maybe_report.
      destruct Haft as (Hp2 & Hr2 & He2).
      destruct (IH (i + 1) st2) as (st' & Hrun & Hl' & Hr' & Ho'); try lia.
      * rewrite Hp2. cbn [st1 set_packs packs]. congruence.
      * intros Herr j Hj. rewrite Hp2. cbn [st1 set_packs packs].
        destruct (Nat.eq_dec j (Z.to_nat i)) as [->|Hne]; [eauto|].
        rewrite Hother by exact Hne. apply Hop; [|lia].
        destruct (Z.eq_dec (verify_midx_error st) 0) as [Hz|Hnz]; [exact Hz|].
        exfalso. apply He2; [exact Hnz|exact Herr].
      * exists st'. split; [exact Hrun|]. split; [exact Hl'|].
        split; [|exact Ho']. intros msg Hm. apply Hr', Hr2. exact Hm.
    + rewrite report_pack_ok by lia. cbn [bind].
      set (st1 := midx_report (set_packs st ps') "failed to prepare pack").
      destruct (IH (i + 1) st1) as (st' & Hrun & Hl' & Hr' & Ho'); try lia.
      * cbn. congruence.
      * cbn. discriminate.
      * exists st'. split; [exact Hrun|]. split; [exact Hl'|].
        split; [|exact Ho']. intros msg Hm. apply Hr'. cbn.
        apply in_or_app. left. exact Hm.
Qed.

Lemma verify_fanout_total fuel fb i pos st :
  0 <= pos -> fb <= 255 -> fb - pos < Z.of_nat fuel ->
  exists pos' st',
    verify_fanout m (off_oidf names objs) fuel fb i pos st = Ok (pos', st') /\
    after st st' /\ 0 <= pos' /\ (pos <= 255 -> pos' <= 255).
Proof.
  revert pos st. induction fuel as [|fuel IH]; intros pos st Hpos Hfb Hfuel.
  - cbn [verify_fanout].
    destruct (fb >? pos) eqn:E; [apply Z.gtb_lt in E; lia|].
    exists pos, st. split; [reflexivity|]. split; [apply after_refl|]. lia.
  - cbn [verify_fanout]. destruct (fb >? pos) eqn:E.
    + apply Z.gtb_lt in E.
      cbn [m image_reader data]. rewrite (Z.mul_comm pos 4).
      fold file. unfold file, tail.
      rewrite (read_fanout names perm objs (t0 ++ h) W pos) by lia.
      cbn [bind]. rewrite (u32_small (pos + 1)) by lia.
      set (st1 := if negb (i =? count_le (map oid objs) pos)
                  then midx_report st "midx has incorrect fanout value"
                  else st).
      destruct (IH (pos + 1) st1) as (pos' & st' & Hrun & Haft & H0 & H255);
        try lia.
      exists pos', st'. split; [exact Hrun|].
      split; [|lia].
      eapply after_trans; [apply after_maybe_report|exact Haft].
    + exists pos, st. split; [reflexivity|]. split; [apply after_refl|]. lia.
Qed.

(** The check of one object ends when the packs are open. *)
Lemma verify_object_total k e cur st :
  objs !! k = Some e ->
  length (packs st) = length names -> opened (packs st) p ->
  exists st', verify_object m (Z.of_nat k) cur st = Ok st' /\ after st st'.
Proof.
  intros Hk Hlen Hop. unfold verify_object.
  unfold m, file, tail.
  rewrite (details_image names perm objs (t0 ++ h) W Hrange H20 k e Hk).
  cbn [bind d_pack_int_id d_offset image_reader num_packs].
  destruct (perm_at perm e >=? Z.of_nat (length names)) eqn:E.
  { eexists. split; [reflexivity|apply after_report]. }
  rewrite Z.geb_leb in E. apply Z.leb_gt in E.
  pose proof (perm_at_range perm objs Hrange e) as Hpr.
  destruct (Hop (Z.to_nat (perm_at perm e)) ltac:(unfold p; lia)) as (q & Hq).
  unfold array_get.
  replace (0 <=? perm_at perm e) with true by (symmetry; apply Z.leb_le; lia).
  rewrite Hq. cbn [bind].
  destruct (find_pack_entry_pos cur q) as [r|] eqn:Ef.
  - destruct (nth_packed_ok q cur r Ef) as (off & ->). cbn [bind].
    destruct (negb (offset e =? off)).
    + eexists. split; [reflexivity|apply after_report].
    + eexists. split; [reflexivity|apply after_refl].
  - eexists. split; [reflexivity|apply after_report].
Qed.

(** The loop over the objects ends. *)
Lemma verify_objects_total n k pos prev st :
  (k + n = length objs)%nat -> 0 <= pos <= 255 ->
  length (packs st) = length names -> opened (packs st) p ->
  exists st',
    verify_objects m (off_oidf names objs) (off_oidl names objs) n
      (Z.of_nat k) pos prev st = Ok st' /\
    after st st'.
Proof.
  revert k pos prev st. induction n as [|n IH]; intros k pos prev st Hk Hpos Hlen Hop.
  - exists st. split; [reflexivity|apply after_refl].
  - cbn [verify_objects].
    destruct (lookup_lt_is_Some_2 objs k ltac:(lia)) as (e & He).
    cbn [m image_reader hdr_hash_len data]. fold file.
    rewrite (u32_small (20 * Z.of_nat k)) by lia.
    unfold file, tail. change GIT_MAX_RAWSZ with 20.
    rewrite (read_oid names perm objs (t0 ++ h) W k e He). cbn [bind].
    pose proof (hash0_range (oid e)) as Hh.
    fold tail. fold file. fold m.
    destruct (verify_fanout_total 256 (hash0 (oid e)) (Z.of_nat k) pos st)
      as (pos' & st1 & -> & Haft1 & Hp0 & Hp255); try lia.
    cbn [bind].
    set (st2 := if negb (Z.of_nat k =? 0) && (oidcmp prev (oid e) >=? 0)
                then midx_report st1 "midx has incorrect OID order"
                else st1).
    assert (Haft2 : after st st2).
    { eapply after_trans; [exact Haft1|apply after_maybe_report]. }
    destruct (verify_object_total k e (oid e) st2 He) as (st3 & -> & Haft3).
    { destruct Haft2 as (Hp2 & _). rewrite Hp2. exact Hlen. }
    { destruct Haft2 as (Hp2 & _). rewrite Hp2. exact Hop. }
    cbn [bind].
    assert (Haft : after st st3) by (eapply after_trans; eauto).
    replace (Z.of_nat k + 1) with (Z.of_nat (S k)) by lia.
    destruct (IH (S k) pos' (oid e) st3) as (st' & Hrun & Haft'); try lia.
    { destruct Haft as (Hp3 & _). rewrite Hp3. exact Hlen. }
    { destruct Haft as (Hp3 & _). rewrite Hp3. exact Hop. }
    exists st'. split; [exact Hrun|]. eapply after_trans; eauto.
Qed.

Variable hash_fn : list byte -> list byte.
Hypothesis Hh : length h = 20%nat.
Hypothesis Hhl : forall x, length (hash_fn x) = 20%nat.
Hypothesis Hdiff : hash_fn (midx_body names perm objs ++ t0) <> h.

(** When the hash of the content is not the stored one, the verifier
    reports it, goes on through the packs and the objects, and returns a
    status that is not zero. *)
Lemma verify_image error0 :
  exists r st,
    midx_verify_loaded hash_fn env error0 m = Ok (r, st) /\
    r <> 0 /\ In checksum_message (reports st).
Proof.
  assert (Hfile : file = (midx_body names perm objs ++ t0) ++ h).
  { unfold file, tail. rewrite app_assoc. reflexivity. }
  assert (Hlenf : Z.of_nat (length file) - 20 =
                  Z.of_nat (length (midx_body names perm objs ++ t0))).
  { rewrite Hfile, (length_app _ h), Hh. lia. }
  assert (Htake : take (Z.to_nat (Z.of_nat (length file) - 20)) file =
                  midx_body names perm objs ++ t0).
  { rewrite Hlenf, Nat2Z.id, Hfile. apply take_app_length. }
  assert (Hstored : slice file (Z.of_nat (length file) - 20) GIT_MAX_RAWSZ = Ok h).
  { rewrite Hlenf. rewrite Hfile at 1.
    replace (Z.of_nat (length (midx_body names perm objs ++ t0)))
      with (Z.of_nat (length (midx_body names perm objs ++ t0)) + 0) by lia.
    rewrite slice_app_r by lia.
    change GIT_MAX_RAWSZ with (Z.of_nat 20). rewrite <- Hh. apply slice_all. }
  assert (Hcmp : negb (hashcmp (hash_fn (midx_body names perm objs ++ t0)) h =? 0)
                 = true).
  { apply negb_true_iff, Z.eqb_neq. intros Hz. apply Hdiff.
    apply oidcmp_eq; [apply Hhl|exact Hh|exact Hz]. }
  unfold midx_verify_loaded.
  cbn [m image_reader data data_len hdr_hash_len hdr_hash_version num_packs
       num_objects chunk_oid_lookup chunk_object_offsets chunk_oid_fanout].
  fold file. rewrite Htake, Hstored. cbn [bind]. rewrite Hcmp.
  cbv beta iota zeta.
  change (1 =? MIDX_OID_VERSION) with true.
  change (20 =? MIDX_OID_LEN) with true.
  cbn [negb midx_report verify_midx_error reports packs app Z.eqb chunk_at bind].
  set (st0 := {| verify_midx_error := 0; reports := [checksum_message];
                 packs := repeat None (Z.to_nat (Z.of_nat (length names))) |}).
  fold m.
  destruct (verify_packs_total (Z.to_nat (Z.of_nat (length names))) 0 st0)
    as (st1 & Hrun1 & Hl1 & Hr1 & Ho1).
  { unfold p. lia. }
  { lia. }
  { cbn [st0 packs]. rewrite repeat_length. lia. }
  { intros _ j Hj. lia. }
  rewrite Hrun1. cbn [bind].
  assert (Hin1 : In checksum_message (reports st1)).
  { apply Hr1. cbn [st0 reports]. left. reflexivity. }
  destruct (verify_midx_error st1 =? 0) eqn:E1; cbn [negb].
  - apply Z.eqb_eq in E1.
    rewrite Nat2Z.id.
    replace (off_oidf names objs + 0) with (off_oidf names objs) by lia.
    replace (off_oidl names objs + 0) with (off_oidl names objs) by lia.
    destruct (verify_objects_total (length objs) 0 0 [] st1)
      as (st2 & Hrun2 & Haft2); try lia; auto.
    change (Z.of_nat 0) with 0 in Hrun2. rewrite Hrun2. cbn [bind].
    eexists. eexists. split; [reflexivity|]. split; [apply lor_one_nonzero|].
    destruct Haft2 as (_ & Hr2 & _). apply Hr2, Hin1.
  - eexists. eexists. split; [reflexivity|]. split; [apply lor_one_nonzero|].
    exact Hin1.
Qed.

End Verify.

End VerifyFacts.

(* ===================================================================== *)
(** * The writer of the first revision: entries that share an object id *)
(* ===================================================================== *)

Module Rev1Facts.
Import Midx MidxSpec OidOrder FanoutFacts ChunkFacts PackFacts WriteFacts.

Lemma fanout_bucket_prev i p q l c :
  oid p = oid q ->
  fanout_bucket i (Some p) l c = fanout_bucket i (Some q) l c.
Proof.
  intros H. destruct l as [|e l]; [reflexivity|].
  cbn [fanout_bucket]. rewrite H. reflexivity.
Qed.

(** A bucket of the fanout loop counts the entries that are kept. *)
Lemma fanout_bucket_survivors i prev l c :
  wf_oids l ->
  match prev with Some p => wf_oid (oid p) /\ hash0 (oid p) = i | None => True end ->
  fanout_bucket i prev (survivors (option_map oid prev) l) c =
  (survivors None (fst (fanout_bucket i prev l c)),
   snd (fanout_bucket i prev l c)).
Proof.
  revert prev c. induction l as [|e l IH]; intros prev c Hwf Hprev; [reflexivity|].
  inversion Hwf as [|? ? Hwe Hwl]; subst.
  cbn [survivors].
  destruct (match option_map oid prev with
            | Some o => oidcmp o (oid e) =? 0
            | None => false
            end) eqn:Edup.
  - destruct prev as [p|]; [|discriminate Edup]. cbn [option_map] in Edup |- *.
    destruct Hprev as (Hwp & Hp). apply Z.eqb_eq in Edup.
    pose proof (oidcmp_eq _ _ Hwp Hwe Edup) as Heq.
    cbn [fanout_bucket]. rewrite <- Heq, Hp, Z.eqb_refl. cbn [negb].
    rewrite oidcmp_refl. cbn [Z.eqb].
    rewrite (fanout_bucket_prev i e p l c) by (symmetry; exact Heq).
    apply (IH (Some p) c Hwl). split; assumption.
  - cbn [fanout_bucket].
    destruct (hash0 (oid e) =? i) eqn:Ei; cbn [negb].
    + apply Z.eqb_eq in Ei.
      assert (Hc : match prev with
                   | Some p => if oidcmp (oid p) (oid e) =? 0 then c
                               else u32 (c + 1)
                   | None => u32 (c + 1)
                   end = u32 (c + 1)).
      { destruct prev as [p|]; [|reflexivity]. cbn [option_map] in Edup.
        rewrite Edup. reflexivity. }
      rewrite Hc.
      apply (IH (Some e) (u32 (c + 1)) Hwl). split; assumption.
    + cbn [fst snd survivors]. reflexivity.
Qed.

Lemma fanout_loop_survivors n i l c :
  wf_oids l ->
  fanout_loop n i (survivors None l) c = fanout_loop n i l c.
Proof.
  revert i l c. induction n as [|n IH]; intros i l c Hwf; [reflexivity|].
  cbn [fanout_loop].
  pose proof (fanout_bucket_survivors i None l c Hwf I) as Hb.
  cbn [option_map] in Hb. rewrite Hb.
  destruct (fanout_bucket i None l c) as [next c'] eqn:E. cbn [fst snd].
  f_equal. apply IH.
  clear -Hwf E. revert c E.
  generalize (@None pack_midx_entry) as prev.
  induction l as [|e l IHl]; intros prev c E.
  - cbn in E. injection E as <- _. constructor.
  - cbn [fanout_bucket] in E. inversion Hwf; subst.
    destruct (negb (hash0 (oid e) =? i)).
    + injection E as <- _. assumption.
    + eapply IHl; eauto.
Qed.

(** The OID Lookup chunk of the first revision holds the entries that
    are kept. *)
Lemma rev1_oidlookup last l :
  wf_oids l ->
  MidxRev1.oidlookup_loop MIDX_OID_LEN last l = concat (map oid (survivors last l)).
Proof.
  revert last. induction l as [|e l IH]; intros last Hwf; [reflexivity|].
  inversion Hwf as [|? ? Hwe Hwl]; subst.
  cbn [MidxRev1.oidlookup_loop survivors].
  destruct (match last with
            | Some o => oidcmp o (oid e) =? 0
            | None => false
            end).
  - apply IH, Hwl.
  - cbn [map concat]. rewrite IH by exact Hwl. f_equal.
    apply take_ge. unfold wf_oid in Hwe. rewrite Hwe. reflexivity.
Qed.

(** The Object Offsets chunk of the first revision, without large
    offsets. *)
Lemma rev1_objectoffsets perm last l :
  Forall (fun e => 0 <= pack_int_id e < Z.of_nat (length perm)) l ->
  MidxRev1.objectoffsets_loop false perm last 0 l =
  Ok (concat (ooff_records false perm 0 (survivors last l))).
Proof.
  revert last. induction l as [|e l IH]; intros last Hid; [reflexivity|].
  inversion Hid as [|? ? Hide Hidl]; subst.
  cbn [MidxRev1.objectoffsets_loop survivors].
  destruct (match last with
            | Some o => oidcmp o (oid e) =? 0
            | None => false
            end).
  - apply IH, Hidl.
  - assert (Hget : array_get perm (pack_int_id e) = Ok (perm_at perm e)).
    { unfold array_get, perm_at.
      replace (0 <=? pack_int_id e) with true by (symmetry; apply Z.leb_le; lia).
      destruct (perm !! Z.to_nat (pack_int_id e)) eqn:E; [reflexivity|].
      apply lookup_ge_None in E. lia. }
    rewrite Hget. cbn [bind andb]. rewrite IH by exact Hidl. cbn [bind].
    cbn [ooff_records concat andb]. unfold offset_word. cbn [andb].
    rewrite <- app_assoc. reflexivity.
Qed.

(** The count of distinct object ids, for offsets below [2^31]. *)
Lemma rev1_count_loop p l c :
  wf_oid (oid p) -> wf_oids l ->
  Forall (fun e => 0 <= offset e < 2 ^ 31) l ->
  0 <= c -> c + Z.of_nat (length l) < 2 ^ 32 ->
  MidxRev1.count_loop (Some p) l (c, 0, false) =
  (c + Z.of_nat (length (survivors (Some (oid p)) l)), 0, false).
Proof.
  revert p c. induction l as [|e l IH]; intros p c Hwp Hwf Hoff Hc Hlen.
  - cbn. f_equal. f_equal. lia.
  - inversion Hoff as [|? ? He Hl]; subst. cbn [length] in Hlen.
    inversion Hwf as [|? ? Hwe Hwl]; subst.
    cbn [MidxRev1.count_loop survivors].
    destruct (oidcmp (oid p) (oid e) =? 0) eqn:E.
    + apply Z.eqb_eq in E. pose proof (oidcmp_eq _ _ Hwp Hwe E) as Heq.
      rewrite (IH e c Hwe Hwl Hl Hc) by lia. rewrite Heq. reflexivity.
    + assert (H31 : Z.shiftr (offset e) 31 = 0).
      { apply shiftr_zero_iff; lia. }
      assert (H32 : Z.shiftr (offset e) 32 = 0).
      { apply shiftr_zero_iff; lia. }
      rewrite H31, H32. cbn [Z.eqb negb].
      rewrite (u32_small (c + 1)) by lia.
      rewrite (IH e (c + 1) Hwe Hwl Hl) by lia. cbn [length].
      f_equal. f_equal. lia.
Qed.

(** ** Sorted entries *)


Lemma survivors_Forall (P : pack_midx_entry -> Prop) last l :
  Forall P l -> Forall P (survivors last l).
Proof.
  revert last. induction l as [|e l IH]; intros last H; [constructor|].
  inversion H; subst. cbn [survivors].
  destruct (match last with
            | Some o => oidcmp o (oid e) =? 0
            | None => false
            end); [apply IH; assumption|].
  constructor; [assumption|apply IH; assumption].
Qed.


Lemma length_survivors last l : (length (survivors last l) <= length l)%nat.
Proof.
  revert last. induction l as [|x l IH]; intros last; [reflexivity|].
  cbn [survivors].
  destruct (match last with
            | Some o => oidcmp o (oid x) =? 0
            | None => false
            end); cbn [length].
  - specialize (IH last). lia.
  - specialize (IH (Some (oid x))). lia.
Qed.





(** ** The sort keeps entries with the same object id in input order *)







End Rev1Facts.

(* ===================================================================== *)
(** * The file that the writer of the first revision produces *)
(* ===================================================================== *)

Module Rev1Image.
Import Midx MidxSpec OidOrder FanoutFacts ChunkFacts PackFacts WriteFacts
       SortPacks InversionFacts Rev1Facts.

Lemma small_not_large l :
  Forall (fun e => 0 <= offset e < 2 ^ 31) l ->
  large_needed l = false /\ List.filter (fun o => 0x7fffffff <? offset o) l = [].
Proof.
  induction 1 as [|e l He _ [IH1 IH2]]; [split; reflexivity|].
  unfold large_needed in *. cbn [existsb List.filter]. rewrite IH1, IH2.
  replace (0xffffffff <? offset e) with false by (symmetry; apply Z.ltb_ge; lia).
  replace (0x7fffffff <? offset e) with false by (symmetry; apply Z.ltb_ge; lia).
  split; reflexivity.
Qed.

Lemma rev1_plan sw nr p n total :
  MidxRev1.chunk_plan sw false nr p n total = chunk_plan false nr p n total.
Proof. reflexivity. Qed.

Lemma rev1_chunk_ploo L nr names objs perm :
  MidxRev1.write_chunk L nr names objs perm MIDX_CHUNKID_PACKLOOKUP =
  Ok (fst (write_midx_chunk_packlookup names)).
Proof. reflexivity. Qed.

Lemma rev1_chunk_pnam L nr names objs perm :
  MidxRev1.write_chunk L nr names objs perm MIDX_CHUNKID_PACKNAMES =
  Ok (MidxRev1.write_midx_chunk_packnames names).
Proof. reflexivity. Qed.

Lemma rev1_chunk_oidf L nr names objs perm :
  MidxRev1.write_chunk L nr names objs perm MIDX_CHUNKID_OIDFANOUT =
  Ok (MidxRev1.write_midx_chunk_oidfanout objs).
Proof. reflexivity. Qed.

Lemma rev1_chunk_oidl L nr names objs perm :
  MidxRev1.write_chunk L nr names objs perm MIDX_CHUNKID_OIDLOOKUP =
  Ok (MidxRev1.write_midx_chunk_oidlookup MIDX_OID_LEN objs).
Proof. reflexivity. Qed.

Lemma rev1_chunk_ooff L nr names objs perm :
  MidxRev1.write_chunk L nr names objs perm MIDX_CHUNKID_OBJECTOFFSETS =
  MidxRev1.write_midx_chunk_objectoffsets L objs perm.
Proof. reflexivity. Qed.

Lemma rev1_count l :
  wf_oids l -> Forall (fun e => 0 <= offset e < 2 ^ 31) l ->
  Z.of_nat (length l) < 2 ^ 32 ->
  match l with
  | [] => (0, 0, false)
  | _ :: _ => MidxRev1.count_loop None l (1, 0, false)
  end = (Z.of_nat (length (survivors None l)), 0, false).
Proof.
  intros Hwf Hoff Hlen. destruct l as [|e l]; [reflexivity|].
  inversion Hwf; subst. inversion Hoff; subst. cbn [length] in Hlen.
  cbn [MidxRev1.count_loop survivors].
  rewrite rev1_count_loop by (auto; lia).
  cbn [length]. f_equal. f_equal. lia.
Qed.

Section Rev1.
Variable hash_fn : list byte -> list byte.

(** For offsets below [2^31], the file is the image of the entries that
    are kept from the sorted list. *)
Lemma rev1_write_image sw names0 names perm objs :
  sort_packs_by_name names0 = Ok (names, perm) ->
  length names = length names0 ->
  length perm = length names ->
  sizes_ok names objs ->
  Forall (wf_entry (Z.of_nat (length names))) objs ->
  Forall (fun e => 0 <= offset e < 2 ^ 31) objs ->
  let kept := survivors None (QSORT MidxRev1.midx_oid_compare objs) in
  MidxRev1.write_midx_file hash_fn sw true names0 objs =
  Ok (Some (midx_image names perm kept ++ hash_fn (midx_image names perm kept))).
Proof.
  intros Hsort Hlen Hlp (Hp & Hn & Ho) Hwf Hoff kept.
  set (sorted := QSORT MidxRev1.midx_oid_compare objs) in *.
  assert (Hperm : Permutation sorted objs) by apply QSORT_perm.
  assert (Hwfs : Forall (wf_entry (Z.of_nat (length names))) sorted).
  { eapply Permutation_Forall; [symmetry; exact Hperm|exact Hwf]. }
  assert (Hoffs : Forall (fun e => 0 <= offset e < 2 ^ 31) sorted).
  { eapply Permutation_Forall; [symmetry; exact Hperm|exact Hoff]. }
  assert (Hlens : length sorted = length objs) by (apply Permutation_length, Hperm).
  assert (Hoids : wf_oids sorted).
  { eapply Forall_impl; [|exact Hwfs]. intros e He. apply He. }
  assert (Hids : Forall (fun e => 0 <= pack_int_id e < Z.of_nat (length perm)) sorted).
  { eapply Forall_impl; [|exact Hwfs]. intros e He. cbv beta.
    rewrite Hlp. apply He. }
  pose proof (length_survivors None sorted) as Hlk. fold kept in Hlk.
  assert (Hoffk : Forall (fun e => 0 <= offset e < 2 ^ 31) kept).
  { apply survivors_Forall, Hoffs. }
  destruct (small_not_large kept Hoffk) as (HL & Hnone).
  assert (Hoffk0 : Forall (fun e => 0 <= offset e) kept).
  { eapply Forall_impl; [|exact Hoffk]. intros e He. cbv beta in He. lia. }
  pose proof (names_size_nonneg names) as Hn0.
  unfold MidxRev1.write_midx_file. cbn [negb].
  rewrite sorted_or_empty, Hsort. cbn [bind]. fold sorted.
  rewrite (rev1_count sorted Hoids Hoffs) by lia. fold kept.
  rewrite (fold_total_name_len names 0) by lia. rewrite Z.add_0_l.
  rewrite <- Hlen. rewrite rev1_plan.
  pose proof (chunk_plan_image names kept) as Hplan.
  rewrite HL, Hnone in Hplan. cbn [length] in Hplan.
  change (u32 (Z.of_nat 0)) with 0 in Hplan.
  rewrite Hplan by (repeat split; auto; lia).
  unfold image_plan. rewrite HL. cbn [map fst].
  change (Z.to_nat 5) with 5%nat. cbn [take].
  cbn [MidxRev1.write_chunks].
  rewrite rev1_chunk_ploo, rev1_chunk_oidf, rev1_chunk_oidl, rev1_chunk_ooff,
    rev1_chunk_pnam.
  cbn [bind].
  unfold MidxRev1.write_midx_chunk_objectoffsets.
  rewrite (rev1_objectoffsets perm None sorted Hids). fold kept. cbn [bind].
  unfold write_midx_chunk_packlookup. cbn [fst].
  rewrite (packlookup_loop_image 0 names) by lia.
  unfold MidxRev1.write_midx_chunk_oidfanout.
  rewrite <- (fanout_loop_survivors 256 0 sorted 0 Hoids). fold kept.
  unfold MidxRev1.write_midx_chunk_oidlookup.
  rewrite (rev1_oidlookup None sorted Hoids). fold kept.
  unfold MidxRev1.write_midx_chunk_packnames. rewrite flat_map_concat_map.
  unfold midx_image, midx_body, nr_chunks, image_plan, ploo_image, oidf_image,
    oidl_image, ooff_image, loff_image, pnam_image, write_midx_chunk_oidfanout.
  rewrite HL. cbn [fst]. rewrite !app_nil_r, <- !app_assoc. reflexivity.
Qed.
End Rev1.

End Rev1Image.

(* ===================================================================== *)
(** * The contractor: reading and writing the array in place *)
(* ===================================================================== *)

Module SparseArray.
Import SparseIndex SparseSpec.

Lemma array_get_at {A : Type} (pre : list A) (x : A) (post : list A) (i : Z) :
  i = Z.of_nat (length pre) -> array_get (pre ++ x :: post) i = Ok x.
Proof.
  intros ->. unfold array_get.
  replace (0 <=? Z.of_nat (length pre)) with true by (symmetry; apply Z.leb_le; lia).
  rewrite Nat2Z.id, list_lookup_middle by reflexivity. reflexivity.
Qed.

Lemma array_set_at {A : Type} (pre : list A) (x y : A) (post : list A) (i : Z) :
  i = Z.of_nat (length pre) ->
  array_set (pre ++ x :: post) i y = Ok (pre ++ y :: post).
Proof.
  intros ->. unfold array_set.
  replace ((0 <=? Z.of_nat (length pre)) &&
           (Z.of_nat (length pre) <? Z.of_nat (length (pre ++ x :: post))))
    with true.
  2:{ symmetry. apply andb_true_iff. split; [apply Z.leb_le; lia|].
      apply Z.ltb_lt. rewrite length_app. cbn [length]. lia. }
  rewrite Nat2Z.id. f_equal.
  rewrite insert_app_r_alt by lia. rewrite Nat.sub_diag. reflexivity.
Qed.

(** The first loop says whether the span has no dirty entry. *)
Lemma scan_span_ok pre span post i b :
  i = Z.of_nat (length pre) ->
  scan_span (pre ++ span ++ post) (length span) i b =
  Ok (b && negb (existsb dirty span)).
Proof.
  revert pre i b. induction span as [|ce span IH]; intros pre i b Hi.
  - cbn. rewrite andb_true_r. reflexivity.
  - cbn [length scan_span]. destruct b; cbn [negb andb]; [|reflexivity].
    cbn [app]. rewrite (array_get_at pre ce (span ++ post) i Hi). cbn [bind].
    replace (pre ++ ce :: span ++ post) with ((pre ++ [ce]) ++ span ++ post)
      by (rewrite <- app_assoc; reflexivity).
    rewrite (IH (pre ++ [ce]) (i + 1))
      by (rewrite length_app; cbn [length]; lia).
    cbn [existsb]. fold (dirty ce). destruct (dirty ce); reflexivity.
Qed.

(** [cache_tree_subtree_pos] answers with a position of the array. *)
Lemma subtree_pos_from_range children path pos r :
  subtree_pos_from children path pos = r -> 0 <= pos ->
  r = -1 \/ (pos <= r < pos + Z.of_nat (length children)).
Proof.
  revert pos. induction children as [|[n c] children IH]; intros pos H Hp.
  - left. cbn in H. congruence.
  - cbn [subtree_pos_from] in H. cbn [length].
    destruct (bool_decide (n = path)).
    + right. lia.
    + destruct (IH (pos + 1) H ltac:(lia)) as [->|Hr]; [left; reflexivity|right; lia].
Qed.

Lemma subtree_pos_found ct path :
  0 <= cache_tree_subtree_pos ct path ->
  exists sub, down ct !! Z.to_nat (cache_tree_subtree_pos ct path) = Some sub /\
              array_get (down ct) (cache_tree_subtree_pos ct path) = Ok sub.
Proof.
  intros H. unfold cache_tree_subtree_pos in *.
  destruct (subtree_pos_from_range (down ct) path 0 _ eq_refl ltac:(lia))
    as [E|E]; [lia|].
  destruct (lookup_lt_is_Some_2 (down ct)
              (Z.to_nat (subtree_pos_from (down ct) path 0)) ltac:(lia))
    as (sub & Hsub).
  exists sub. split; [exact Hsub|]. unfold array_get.
  replace (0 <=? subtree_pos_from (down ct) path 0) with true
    by (symmetry; apply Z.leb_le; lia).
  rewrite Hsub. reflexivity.
Qed.

(** ** The equations of the two loops *)

Lemma rec_unfold fuel pl cache nc start end_ path ct :
  convert_to_sparse_rec (S fuel) pl cache nc start end_ path ct =
  let* can_convert :=
    scan_span cache (Z.to_nat (end_ - start)) start (outside pl path) in
  if can_convert then
    let* cache := array_set cache nc (construct_sparse_dir_entry path ct) in
    Ok (cache, 1)
  else convert_loop fuel pl cache nc start end_ path ct nc.
Proof. reflexivity. Qed.

Lemma loop_done fuel pl cache nc i end_ path ct sc :
  end_ <= i ->
  convert_loop fuel pl cache nc i end_ path ct sc = Ok (cache, nc - sc).
Proof.
  intros H. destruct fuel; cbn [convert_loop];
    replace (i <? end_) with false by (symmetry; apply Z.ltb_ge; lia);
    reflexivity.
Qed.

(** An entry without a subtree is copied. *)
Lemma loop_file fuel pl cache nc i end_ path ct sc ce :
  i < end_ -> array_get cache i = Ok ce ->
  strlen path <= strlen (name ce) ->
  subtree_for path ct ce = None ->
  convert_loop (S fuel) pl cache nc i end_ path ct sc =
  let* cache := array_set cache nc ce in
  convert_loop fuel pl cache (nc + 1) (i + 1) end_ path ct sc.
Proof.
  intros Hi Hget Hlen Hsub. cbn [convert_loop].
  replace (i <? end_) with true by (symmetry; apply Z.ltb_lt; lia).
  rewrite Hget. cbn [bind].
  replace (strlen (name ce) <? strlen path) with false
    by (symmetry; apply Z.ltb_ge; lia).
  unfold subtree_for in Hsub.
  destruct (strchr_slash (drop (Z.to_nat (strlen path)) (name ce))) as [len|];
    [|reflexivity].
  destruct (cache_tree_subtree_pos ct
              (take (Z.to_nat len) (drop (Z.to_nat (strlen path)) (name ce))) <? 0)
    eqn:E; [reflexivity|].
  apply Z.ltb_ge in E. destruct (subtree_pos_found ct _ E) as (sub & Hs & _).
  rewrite Hs in Hsub. discriminate Hsub.
Qed.

(** An entry with a subtree starts a span that is converted on its own. *)
Lemma loop_sub fuel pl cache nc i end_ path ct sc ce child_path child :
  i < end_ -> array_get cache i = Ok ce ->
  strlen path <= strlen (name ce) ->
  subtree_for path ct ce = Some (child_path, child) ->
  convert_loop (S fuel) pl cache nc i end_ path ct sc =
  let* (cache, count) :=
    convert_to_sparse_rec fuel pl cache nc i (i + entry_count child)
      child_path child in
  convert_loop fuel pl cache (nc + count) (i + entry_count child) end_
    path ct sc.
Proof.
  intros Hi Hget Hlen Hsub. cbn [convert_loop].
  replace (i <? end_) with true by (symmetry; apply Z.ltb_lt; lia).
  rewrite Hget. cbn [bind].
  replace (strlen (name ce) <? strlen path) with false
    by (symmetry; apply Z.ltb_ge; lia).
  unfold subtree_for in Hsub.
  destruct (strchr_slash (drop (Z.to_nat (strlen path)) (name ce))) as [len|];
    [|discriminate Hsub].
  destruct (cache_tree_subtree_pos ct
              (take (Z.to_nat len) (drop (Z.to_nat (strlen path)) (name ce))) <? 0)
    eqn:E; [discriminate Hsub|].
  apply Z.ltb_ge in E. destruct (subtree_pos_found ct _ E) as (sub & Hs & Hg).
  rewrite Hs in Hsub. injection Hsub as <- <-.
  rewrite Hg. cbn [bind]. reflexivity.
Qed.

End SparseArray.

(* ===================================================================== *)
(** * The contractor on a cache tree that fits the entries *)
(* ===================================================================== *)

Module SparseInPlace.
Import SparseIndex SparseSpec SparseArray.

Section InPlace.
Variable P : cstring -> cache_tree -> list cache_entry -> Prop.
Variable pl : pattern_list.

(** Writing at [num_converted] takes the place of the first slot that is
    free or being read. *)
Lemma write_first (done junk rest : list cache_entry) (x y : cache_entry) post :
  exists junk',
    length junk' = length junk /\
    array_set (done ++ junk ++ (x :: rest) ++ post) (Z.of_nat (length done)) y =
    Ok ((done ++ [y]) ++ junk' ++ rest ++ post) /\
    (junk = [] -> junk' = []).
Proof.
  destruct junk as [|j junk].
  - exists []. split; [reflexivity|]. split; [|reflexivity].
    cbn [app]. rewrite (array_set_at done x y) by reflexivity.
    rewrite <- app_assoc. reflexivity.
  - exists (junk ++ [x]). split; [rewrite length_app; cbn [length]; lia|].
    split; [|discriminate].
    cbn [app]. rewrite (array_set_at done j y) by reflexivity.
    rewrite <- !app_assoc. reflexivity.
Qed.

(** From the second loop to [convert_to_sparse_rec] on a span. *)
Lemma rec_from_loop path ct span fuel0 out :
  span <> [] ->
  contracts pl path ct span out ->
  (forall fuel, (fuel0 <= fuel)%nat -> forall done junk post sc,
     exists junk',
       length (out ++ junk') = length (junk ++ span) /\
       convert_loop fuel pl (done ++ junk ++ span ++ post)
         (Z.of_nat (length done))
         (Z.of_nat (length done) + Z.of_nat (length junk))
         (Z.of_nat (length done) + Z.of_nat (length junk) + Z.of_nat (length span))
         path ct sc =
       Ok (done ++ out ++ junk' ++ post,
           Z.of_nat (length done) + Z.of_nat (length out) - sc)) ->
  exists out',
    contracted pl path ct span out' /\
    forall fuel, (S fuel0 <= fuel)%nat -> forall done junk post,
      exists junk',
        length (out' ++ junk') = length (junk ++ span) /\
        convert_to_sparse_rec fuel pl (done ++ junk ++ span ++ post)
          (Z.of_nat (length done))
          (Z.of_nat (length done) + Z.of_nat (length junk))
          (Z.of_nat (length done) + Z.of_nat (length junk) + Z.of_nat (length span))
          path ct =
        Ok (done ++ out' ++ junk' ++ post, Z.of_nat (length out')).
Proof.
  intros Hne Hc Hloop.
  assert (Hscan : forall done junk post,
            scan_span (done ++ junk ++ span ++ post)
              (Z.to_nat (Z.of_nat (length done) + Z.of_nat (length junk) +
                         Z.of_nat (length span) -
                         (Z.of_nat (length done) + Z.of_nat (length junk))))
              (Z.of_nat (length done) + Z.of_nat (length junk))
              (outside pl path) = Ok (collapses pl path span)).
  { intros done junk post.
    replace (Z.to_nat _) with (length span) by lia.
    rewrite (app_assoc done junk).
    rewrite (scan_span_ok (done ++ junk) span post)
      by (rewrite length_app; lia).
    reflexivity. }
  destruct (collapses pl path span) eqn:Ecol.
  - exists [construct_sparse_dir_entry path ct].
    split; [unfold contracted; rewrite Ecol; reflexivity|].
    intros fuel Hf done junk post.
    destruct fuel as [|fuel]; [lia|].
    rewrite rec_unfold, Hscan. cbn [bind].
    destruct span as [|x rest]; [congruence|].
    destruct (write_first done junk rest x (construct_sparse_dir_entry path ct) post)
      as (junk' & Hl & -> & _).
    cbn [bind]. exists (junk' ++ rest). split.
    + cbn [app length]. rewrite !length_app. cbn [length]. lia.
    + rewrite <- !app_assoc. reflexivity.
  - exists out. split; [unfold contracted; rewrite Ecol; exact Hc|].
    intros fuel Hf done junk post.
    destruct fuel as [|fuel]; [lia|].
    rewrite rec_unfold, Hscan. cbn [bind].
    destruct (Hloop fuel ltac:(lia) done junk post (Z.of_nat (length done)))
      as (junk' & Hl & ->).
    exists junk'. split; [exact Hl|]. f_equal. f_equal. lia.
Qed.

(** The second loop on entries that the cache tree fits. *)
Lemma loop_laid_out path ct items :
  laid_out P path ct items ->
  exists fuel0 out,
    contracts pl path ct items out /\
    forall fuel, (fuel0 <= fuel)%nat -> forall done junk post sc,
      exists junk',
        length (out ++ junk') = length (junk ++ items) /\
        convert_loop fuel pl (done ++ junk ++ items ++ post)
          (Z.of_nat (length done))
          (Z.of_nat (length done) + Z.of_nat (length junk))
          (Z.of_nat (length done) + Z.of_nat (length junk) + Z.of_nat (length items))
          path ct sc =
        Ok (done ++ out ++ junk' ++ post,
            Z.of_nat (length done) + Z.of_nat (length out) - sc).
Proof.
  induction 1 as [path ct
                 |path ct ce rest Hlen Hsub _ (f_r & out_r & Hc_r & IHr)
                 |path ct ce span rest child_path child Hlen Hsub Hcount _
                    _ (f_c & out_c & Hc_c & IHc) _ (f_r & out_r & Hc_r & IHr)].
  - exists 0%nat, []. split; [constructor|].
    intros fuel _ done junk post sc. exists junk.
    split; [rewrite app_nil_r; reflexivity|].
    rewrite loop_done by (cbn [length]; lia).
    cbn [app length]. f_equal. f_equal. lia.
  - exists (S f_r), (ce :: out_r). split; [constructor; assumption|].
    intros fuel Hf done junk post sc. destruct fuel as [|fuel]; [lia|].
    rewrite (loop_file fuel pl _ _ _ _ path ct sc ce); auto.
    2:{ cbn [length]. lia. }
    2:{ rewrite (app_assoc done junk). cbn [app].
        apply array_get_at. rewrite length_app. lia. }
    destruct (write_first done junk rest ce ce post) as (junk1 & Hl1 & -> & _).
    cbn [bind].
    destruct (IHr fuel ltac:(lia) (done ++ [ce]) junk1 post sc)
      as (junk' & Hl & Hrun).
    exists junk'. split.
    + cbn [app length]. rewrite !length_app in *. cbn [length]. lia.
    + rewrite length_app in Hrun. cbn [length] in Hrun.
      replace (Z.of_nat (length done) + 1)
        with (Z.of_nat (length done + 1)) by lia.
      replace (Z.of_nat (length done) + Z.of_nat (length junk) + 1)
        with (Z.of_nat (length done + 1) + Z.of_nat (length junk1)) by lia.
      replace (Z.of_nat (length done) + Z.of_nat (length junk) +
               Z.of_nat (length (ce :: rest)))
        with (Z.of_nat (length done + 1) + Z.of_nat (length junk1) +
              Z.of_nat (length rest)) by (cbn [length]; lia).
      rewrite Hrun. rewrite <- !app_assoc. cbn [app length].
      f_equal. f_equal. lia.
  - destruct (rec_from_loop child_path child (ce :: span) f_c out_c
                ltac:(discriminate) Hc_c IHc) as (out1 & Hcon & Hrec).
    assert (Hout : exists out,
              contracts pl path ct ((ce :: span) ++ rest) out /\
              out = out1 ++ out_r).
    { unfold contracted in Hcon.
      destruct (collapses pl child_path (ce :: span)) eqn:Ecol.
      - subst out1. eexists. split; [|reflexivity].
        cbn [app].
        apply (contracts_collapse pl path ct ce span rest out_r child_path child);
          assumption.
      - eexists. split; [|reflexivity].
        apply (contracts_descend pl path ct ce span rest out1 out_r
                 child_path child); assumption. }
    destruct Hout as (out & Hc & ->).
    exists (S (Nat.max (S f_c) f_r)), (out1 ++ out_r). split; [exact Hc|].
    intros fuel Hf done junk post sc. destruct fuel as [|fuel]; [lia|].
    rewrite (loop_sub fuel pl _ _ _ _ path ct sc ce child_path child); auto.
    2:{ rewrite length_app. cbn [length]. lia. }
    2:{ rewrite (app_assoc done junk). cbn [app].
        apply array_get_at. rewrite length_app. lia. }
    rewrite Hcount.
    rewrite <- (app_assoc (ce :: span) rest post).
    destruct (Hrec fuel ltac:(lia) done junk (rest ++ post)) as (junk1 & Hl1 & ->).
    cbn [bind].
    rewrite (app_assoc done out1).
    destruct (IHr fuel ltac:(lia) (done ++ out1) junk1 post sc)
      as (junk' & Hl & Hrun).
    exists junk'. rewrite !length_app in *. split; [lia|].
    replace (Z.of_nat (length done) + Z.of_nat (length out1))
      with (Z.of_nat (length done + length out1)) by lia.
    replace (Z.of_nat (length done) + Z.of_nat (length junk) +
             Z.of_nat (length (ce :: span)))
      with (Z.of_nat (length done + length out1) + Z.of_nat (length junk1)) by lia.
    replace (Z.of_nat (length done) + Z.of_nat (length junk) +
             Z.of_nat (length (ce :: span) + length rest))
      with (Z.of_nat (length done + length out1) + Z.of_nat (length junk1) +
            Z.of_nat (length rest)) by lia.
    rewrite Hrun. rewrite <- !app_assoc. f_equal. f_equal. lia.
Qed.

(** [convert_to_sparse_rec] on a span that the cache tree fits, with
    enough fuel. *)
Lemma rec_laid_out path ct span :
  laid_out P path ct span -> span <> [] ->
  exists fuel0 out,
    contracted pl path ct span out /\
    forall fuel, (fuel0 <= fuel)%nat -> forall done junk post,
      exists junk',
        length (out ++ junk') = length (junk ++ span) /\
        convert_to_sparse_rec fuel pl (done ++ junk ++ span ++ post)
          (Z.of_nat (length done))
          (Z.of_nat (length done) + Z.of_nat (length junk))
          (Z.of_nat (length done) + Z.of_nat (length junk) + Z.of_nat (length span))
          path ct =
        Ok (done ++ out ++ junk' ++ post, Z.of_nat (length out)).
Proof.
  intros Hl Hne.
  destruct (loop_laid_out path ct span Hl) as (f & out & Hc & Hloop).
  destruct (rec_from_loop path ct span f out Hne Hc Hloop) as (out' & Hcon & Hrec).
  exists (S f), out'. split; [exact Hcon|exact Hrec].
Qed.
End InPlace.

End SparseInPlace.

(* ===================================================================== *)
(** * What the contractor keeps, and what the expander gives back *)
(* ===================================================================== *)

Module SparseContracts.
Import SparseIndex SparseSpec SparseArray.

Lemma sparse_dir_clean path ct : dirty (construct_sparse_dir_entry path ct) = false.
Proof. reflexivity. Qed.

Lemma sparse_dir_is_dir path ct :
  S_ISSPARSEDIR (construct_sparse_dir_entry path ct) = true.
Proof. reflexivity. Qed.

Lemma filter_clean span :
  existsb dirty span = false -> List.filter dirty span = [].
Proof.
  induction span as [|ce span IH]; [reflexivity|].
  cbn [existsb List.filter]. intros H. apply orb_false_iff in H as [H1 H2].
  rewrite H1. apply IH, H2.
Qed.

Lemma collapses_clean pl path span :
  collapses pl path span = true -> existsb dirty span = false.
Proof.
  unfold collapses. intros H. apply andb_true_iff in H as [_ H].
  apply negb_true_iff in H. exact H.
Qed.

(** The dirty entries are written as they are, and nothing else that is
    written is dirty. *)
Lemma contracts_dirty pl path ct items out :
  contracts pl path ct items out ->
  List.filter dirty out = List.filter dirty items.
Proof.
  induction 1 as [path ct
                 |path ct ce rest out Hsub _ IH
                 |path ct ce span rest out cp child Hsub Hcount Hcol _ IH
                 |path ct ce span rest out1 out2 cp child Hsub Hcount Hcol _ IH1 _ IH2].
  - reflexivity.
  - cbn [List.filter]. rewrite IH. reflexivity.
  - rewrite List.filter_app.
    rewrite (filter_clean (ce :: span)) by (eapply collapses_clean; eauto).
    cbn [List.filter app]. rewrite sparse_dir_clean. exact IH.
  - rewrite !List.filter_app, IH1, IH2. reflexivity.
Qed.

Lemma contracted_dirty pl path ct span out :
  contracted pl path ct span out ->
  List.filter dirty out = List.filter dirty span.
Proof.
  unfold contracted. destruct (collapses pl path span) eqn:E.
  - intros ->. cbn [List.filter]. rewrite sparse_dir_clean.
    symmetry. apply filter_clean. eapply collapses_clean; eauto.
  - apply contracts_dirty.
Qed.

(** ** The expander *)

Lemma expand_app env a b :
  expand_entries env (a ++ b) = expand_entries env a ++ expand_entries env b.
Proof.
  induction a as [|ce a IH]; [reflexivity|].
  cbn [app expand_entries]. destruct (negb (S_ISSPARSEDIR ce)).
  - cbn [app]. rewrite IH. reflexivity.
  - destruct (lookup_tree env (oid ce)); [|exact IH].
    rewrite IH, app_assoc. reflexivity.
Qed.

(** Entries that are not sparse-directory entries are left as they are. *)
Lemma expand_full env l :
  Forall (fun ce => S_ISSPARSEDIR ce = false) l -> expand_entries env l = l.
Proof.
  induction 1 as [|ce l Hce _ IH]; [reflexivity|].
  cbn [expand_entries]. rewrite Hce. cbn [negb]. rewrite IH. reflexivity.
Qed.

(** What [read_tree_recursive] adds is merged and skip-worktree. *)
Lemma read_tree_plain : forall t base, Forall plain (read_tree_recursive t base).
Proof.
  fix IH 1. intros [items] base. cbn [read_tree_recursive].
  induction items as [|[mode n o sub] rest IHr]; [constructor|].
  unfold add_path_to_index. destruct (S_ISDIR mode).
  - destruct sub as [t'|]; [|exact IHr].
    apply Forall_app. split; [apply IH|exact IHr].
  - constructor; [split; reflexivity|exact IHr].
Qed.

Lemma clean_plain ce : dirty ce = false -> plain ce.
Proof.
  unfold dirty, plain. intros H.
  apply orb_false_iff in H as [H Hs]. apply orb_false_iff in H as [H _].
  apply negb_false_iff in H, Hs. apply Z.eqb_eq in H. split; assumption.
Qed.

Lemma clean_all_plain span : existsb dirty span = false -> Forall plain span.
Proof.
  induction span as [|ce span IH]; [constructor|].
  cbn [existsb]. intros H. apply orb_false_iff in H as [H1 H2].
  constructor; [apply clean_plain, H1|apply IH, H2].
Qed.

(** Plain entries are told apart by path, mode and object id. *)
Lemma plain_keys l1 l2 :
  map key l1 = map key l2 -> Forall plain l1 -> Forall plain l2 -> l1 = l2.
Proof.
  revert l2. induction l1 as [|a l1 IH]; intros [|b l2] Hk H1 H2;
    try discriminate Hk; [reflexivity|].
  cbn [map] in Hk.
  assert (Hab : key a = key b) by congruence.
  assert (Hk' : map key l1 = map key l2) by congruence.
  inversion H1 as [|? ? (Ha1 & Ha2) H1']; subst.
  inversion H2 as [|? ? (Hb1 & Hb2) H2']; subst.
  f_equal; [|apply IH; assumption].
  unfold key in Hab. destruct a, b. cbn in *. congruence.
Qed.

(** The sparse-directory entry of a span without dirty entries expands to
    the span, when the object store holds its tree. *)
Lemma expand_collapsed env path ct span :
  stored env path ct span -> existsb dirty span = false ->
  expand_entries env [construct_sparse_dir_entry path ct] = span.
Proof.
  intros (t & Ht & Hk) Hclean. cbn [expand_entries].
  rewrite sparse_dir_is_dir. cbn [negb].
  change (oid (construct_sparse_dir_entry path ct)) with (ct_oid ct).
  change (name (construct_sparse_dir_entry path ct)) with path.
  rewrite Ht, app_nil_r.
  apply plain_keys; [exact Hk|apply read_tree_plain|apply clean_all_plain, Hclean].
Qed.

(** Two runs that start a list and are as long as each other. *)
Lemma same_run {A : Type} (a b c d : list A) :
  a ++ b = c ++ d -> length a = length c -> a = c /\ b = d.
Proof. intros H Hl. apply app_inj_1; assumption. Qed.

(** What is written for a full index expands to the entries, when the
    cache tree fits them and the object store holds its subtrees. *)
Lemma contracts_expand env pl path ct items :
  laid_out (stored env) path ct items ->
  Forall (fun ce => S_ISSPARSEDIR ce = false) items ->
  forall out, contracts pl path ct items out -> expand_entries env out = items.
Proof.
  induction 1 as [path ct
                 |path ct ce rest Hlen Hsub _ IHr
                 |path ct ce span rest cp child Hlen Hsub Hcount Hst _ IHc _ IHr];
    intros Hfull out Hc.
  - inversion Hc; subst. reflexivity.
  - inversion Hfull as [|? ? Hce Hfull']; subst.
    inversion Hc; subst; try congruence.
    cbn [expand_entries]. rewrite Hce. cbn [negb].
    match goal with
    | Hc0 : contracts pl path ct rest ?out0 |- _ => rewrite (IHr Hfull' out0 Hc0)
    end.
    reflexivity.
  - apply Forall_app in Hfull as [Hfull1 Hfull2].
    inversion Hc; subst; try congruence.
    + match goal with
      | Hsub0 : subtree_for path ct ce = Some (?cp0, ?child0),
        Hcount0 : entry_count ?child0 = Z.of_nat (length (ce :: ?span0)),
        E : ?span0 ++ ?rest0 = span ++ rest,
        Hcol0 : collapses pl ?cp0 (ce :: ?span0) = true,
        Hc0 : contracts pl path ct ?rest0 ?out0 |- _ =>
          rewrite Hsub in Hsub0; injection Hsub0 as <- <-;
          destruct (same_run span0 rest0 span rest E) as [-> ->];
          [cbn [length] in Hcount, Hcount0; lia|];
          change (construct_sparse_dir_entry cp child :: out0)
            with ([construct_sparse_dir_entry cp child] ++ out0);
          rewrite expand_app, (IHr Hfull2 out0 Hc0);
          rewrite (expand_collapsed env cp child (ce :: span) Hst)
            by (eapply collapses_clean; eauto)
      end.
      reflexivity.
    + match goal with
      | Hsub0 : subtree_for path ct ce = Some (?cp0, ?child0),
        Hcount0 : entry_count ?child0 = Z.of_nat (length (ce :: ?span0)),
        E : ?span0 ++ ?rest0 = span ++ rest,
        Hc1 : contracts pl ?cp0 ?child0 (ce :: ?span0) ?out1,
        Hc2 : contracts pl path ct ?rest0 ?out2 |- _ =>
          rewrite Hsub in Hsub0; injection Hsub0 as <- <-;
          destruct (same_run span0 rest0 span rest E) as [-> ->];
          [cbn [length] in Hcount, Hcount0; lia|];
          rewrite expand_app, (IHc Hfull1 out1 Hc1), (IHr Hfull2 out2 Hc2)
      end.
      reflexivity.
Qed.

Lemma contracted_expand env pl path ct span out :
  laid_out (stored env) path ct span -> stored env path ct span ->
  Forall (fun ce => S_ISSPARSEDIR ce = false) span ->
  contracted pl path ct span out -> expand_entries env out = span.
Proof.
  intros Hl Hst Hfull. unfold contracted.
  destruct (collapses pl path span) eqn:E.
  - intros ->. apply expand_collapsed; [exact Hst|].
    eapply collapses_clean; eauto.
  - apply contracts_expand; assumption.
Qed.

End SparseContracts.

(* ===================================================================== *)
(** * More fuel does not change what the contractor returns *)
(* ===================================================================== *)

Module SparseFuel.
Import SparseIndex SparseSpec SparseArray.

Lemma fuel_mono (f : nat) :
  (forall pl cache nc s e path ct r,
     convert_to_sparse_rec f pl cache nc s e path ct = Ok r ->
     forall f', (f <= f')%nat ->
       convert_to_sparse_rec f' pl cache nc s e path ct = Ok r) /\
  (forall pl cache nc i e path ct sc r,
     convert_loop f pl cache nc i e path ct sc = Ok r ->
     forall f', (f <= f')%nat ->
       convert_loop f' pl cache nc i e path ct sc = Ok r).
Proof.
  induction f as [|f [IHrec IHloop]].
  - split.
    + intros pl cache nc s e path ct r H. discriminate H.
    + intros pl cache nc i e path ct sc r H f' _.
      cbn [convert_loop] in H. destruct (i <? e) eqn:E; [discriminate H|].
      apply Z.ltb_ge in E. rewrite loop_done by lia. exact H.
  - split.
    + intros pl cache nc s e path ct r H f' Hf.
      destruct f' as [|f']; [lia|].
      rewrite rec_unfold in H |- *.
      destruct (scan_span cache (Z.to_nat (e - s)) s (outside pl path))
        as [can| | | |]; cbn [bind] in H |- *; try discriminate H.
      destruct can; [exact H|]. apply IHloop; [exact H|lia].
    + intros pl cache nc i e path ct sc r H f' Hf.
      destruct f' as [|f']; [lia|].
      cbn [convert_loop] in H |- *.
      destruct (i <? e); [|exact H].
      destruct (array_get cache i) as [ce| | | |];
        cbn [bind] in H |- *; try discriminate H.
      destruct (strlen (name ce) <? strlen path); [discriminate H|].
      destruct (strchr_slash (drop (Z.to_nat (strlen path)) (name ce)))
        as [len|].
      * destruct (cache_tree_subtree_pos ct
                    (take (Z.to_nat len)
                       (drop (Z.to_nat (strlen path)) (name ce))) <? 0).
        -- destruct (array_set cache nc ce) as [cache1| | | |];
             cbn [bind] in H |- *; try discriminate H.
           apply IHloop; [exact H|lia].
        -- destruct (array_get (down ct) _) as [sub| | | |];
             cbn [bind] in H |- *; try discriminate H.
           destruct (convert_to_sparse_rec f pl cache nc i
                       (i + entry_count (snd sub)) _ (snd sub))
             as [[cache1 count]| | | |] eqn:Er;
             cbn [bind] in H; try discriminate H.
           rewrite (IHrec _ _ _ _ _ _ _ _ Er f') by lia. cbn [bind].
           apply IHloop; [exact H|lia].
      * destruct (array_set cache nc ce) as [cache1| | | |];
          cbn [bind] in H |- *; try discriminate H.
        apply IHloop; [exact H|lia].
Qed.

(** A result that [convert_to_sparse_rec] reaches with some fuel is the
    one it reaches with any greater fuel. *)
Lemma rec_result f1 f2 pl cache nc s e path ct r1 r2 :
  convert_to_sparse_rec f1 pl cache nc s e path ct = Ok r1 ->
  convert_to_sparse_rec f2 pl cache nc s e path ct = Ok r2 ->
  r1 = r2.
Proof.
  intros H1 H2.
  pose proof (proj1 (fuel_mono f1) _ _ _ _ _ _ _ _ H1 (Nat.max f1 f2)
                ltac:(lia)) as E1.
  pose proof (proj1 (fuel_mono f2) _ _ _ _ _ _ _ _ H2 (Nat.max f1 f2)
                ltac:(lia)) as E2.
  congruence.
Qed.

End SparseFuel.

(* ===================================================================== *)
(** * The cache tree of the example fits its entries *)
(* ===================================================================== *)

Module SparseExampleFacts.
Import SparseIndex SparseSpec SparseExamples SparseClaims SparseFuel
       SparseInPlace SparseContracts.

Ltac file_step :=
  apply laid_file; [vm_compute; discriminate|vm_compute; reflexivity|].

Lemma four_laid_out (P : cstring -> cache_tree -> list cache_entry -> Prop) :
  P (list_byte_of_string "b/") ct_b
    [file_entry "b/c" Byte.x0c 0 true; file_entry "b/d" Byte.x0d 0 false;
     file_entry "b/e/f" Byte.x0f 0 true] ->
  P (list_byte_of_string "b/e/") ct_e [file_entry "b/e/f" Byte.x0f 0 true] ->
  laid_out P [] ct_root four_entries.
Proof.
  intros Pb Pe. unfold four_entries. file_step.
  apply (laid_sub P [] ct_root (file_entry "b/c" Byte.x0c 0 true)
           [file_entry "b/d" Byte.x0d 0 false; file_entry "b/e/f" Byte.x0f 0 true]
           [] (list_byte_of_string "b/") ct_b).
  - vm_compute. discriminate.
  - vm_compute. reflexivity.
  - reflexivity.
  - exact Pb.
  - file_step. file_step.
    apply (laid_sub P (list_byte_of_string "b/") ct_b
             (file_entry "b/e/f" Byte.x0f 0 true) [] []
             (list_byte_of_string "b/e/") ct_e).
    + vm_compute. discriminate.
    + vm_compute. reflexivity.
    + reflexivity.
    + exact Pe.
    + file_step. apply laid_nil.
    + apply laid_nil.
  - apply laid_nil.
Qed.

Lemma four_valid : env_valid four_env (entries_of four_index).
Proof.
  intros ct H. cbn in H. injection H as <-.
  change (entries_of four_index) with four_entries.
  split; [discriminate|]. split.
  - apply four_laid_out.
    + exists tree_b. split; vm_compute; reflexivity.
    + exists tree_e. split; vm_compute; reflexivity.
  - exists tree_root. split; vm_compute; reflexivity.
Qed.

Lemma existsb_filter {A : Type} (f : A -> bool) l :
  existsb f l = true -> List.filter f l <> [].
Proof.
  induction l as [|x l IH]; [discriminate|].
  cbn [existsb List.filter]. destruct (f x); [discriminate|exact IH].
Qed.

(** Whatever the fuel, a result of [convert_to_sparse_rec] on a span
    that the cache tree fits is the one that the second loop
    describes. *)
Lemma rec_any_fuel P pl fuel path ct span post cache' count :
  laid_out P path ct span -> span <> [] ->
  convert_to_sparse_rec fuel pl (span ++ post) 0 0 (Z.of_nat (length span))
    path ct = Ok (cache', count) ->
  exists out rest',
    cache' = out ++ rest' /\ count = Z.of_nat (length out) /\
    contracted pl path ct span out.
Proof.
  intros Hl Hne Hrun.
  destruct (rec_laid_out P pl path ct span Hl Hne) as (fuel0 & out & Hcon & Hrec).
  destruct (Hrec fuel0 ltac:(lia) [] [] post) as (junk' & _ & Hrec0).
  cbn [app length] in Hrec0.
  change (Z.of_nat 0 + Z.of_nat 0) with 0 in Hrec0.
  change (Z.of_nat 0) with 0 in Hrec0.
  pose proof (rec_result _ _ _ _ _ _ _ _ _ _ _ Hrun Hrec0) as E.
  injection E as -> ->.
  exists out, (junk' ++ post). repeat split. exact Hcon.
Qed.

(** With a cache tree that fits the entries, [convert_to_sparse_rec]
    returns when it has fuel enough, and what holds of every array that
    ends in what is written for the span holds of what it returns. *)
Lemma rec_returns (P : cstring -> cache_tree -> list cache_entry -> Prop)
    pl path ct span post (Q : list cache_entry -> Z -> Prop) :
  laid_out P path ct span -> span <> [] ->
  (forall out junk',
     contracted pl path ct span out ->
     length (out ++ junk') = length span ->
     Q (out ++ junk' ++ post) (Z.of_nat (length out))) ->
  contraction_returns pl path ct span post Q.
Proof.
  intros Hl Hne HQ.
  destruct (rec_laid_out P pl path ct span Hl Hne) as (fuel0 & out & Hcon & Hrec).
  assert (Hrun : forall fuel, (fuel0 <= fuel)%nat ->
            exists junk',
              length (out ++ junk') = length span /\
              convert_to_sparse_rec fuel pl (span ++ post) 0 0
                (Z.of_nat (length span)) path ct =
              Ok (out ++ junk' ++ post, Z.of_nat (length out))).
  { intros fuel Hf.
    destruct (Hrec fuel Hf [] [] post) as (junk' & Hlen & Hrec0).
    cbn [app length] in Hrec0, Hlen.
    change (Z.of_nat 0 + Z.of_nat 0) with 0 in Hrec0.
    change (Z.of_nat 0) with 0 in Hrec0.
    exists junk'. split; assumption. }
  split.
  - exists fuel0. intros fuel Hf.
    destruct (Hrun fuel Hf) as (junk' & Hlen & Hrec0).
    eexists. eexists. split; [exact Hrec0|]. apply HQ; assumption.
  - intros fuel cache' count Hany.
    destruct (Hrun fuel0 ltac:(lia)) as (junk' & Hlen & Hrec0).
    pose proof (rec_result _ _ _ _ _ _ _ _ _ _ _ Hany Hrec0) as E.
    injection E as -> ->. apply HQ; assumption.
Qed.

End SparseExampleFacts.

(* ===================================================================== *)
(** * The sparse flag and the sparse-directory entries *)
(* ===================================================================== *)

Module SparseFlag.
Import SparseIndex SparseSpec SparseClaims SparseContracts.

(** What [read_tree_recursive] adds is no sparse-directory entry. *)
Lemma read_tree_no_dir :
  forall t base,
    Forall (fun ce => S_ISSPARSEDIR ce = false) (read_tree_recursive t base).
Proof.
  fix IH 1. intros [items] base. cbn [read_tree_recursive].
  induction items as [|[mode n o sub] rest IHr]; [constructor|].
  unfold add_path_to_index. destruct (S_ISDIR mode) eqn:E.
  - destruct sub as [t'|]; [|exact IHr].
    apply Forall_app. split; [apply IH|exact IHr].
  - constructor; [exact E|exact IHr].
Qed.

(** The expander leaves no sparse-directory entry. *)
Lemma expand_no_dir env l :
  Forall (fun ce => S_ISSPARSEDIR ce = false) (expand_entries env l).
Proof.
  induction l as [|ce l IH]; [constructor|].
  cbn [expand_entries]. destruct (S_ISSPARSEDIR ce) eqn:E; cbn [negb].
  - destruct (lookup_tree env (oid ce)); [|exact IH].
    apply Forall_app. split; [apply read_tree_no_dir|exact IH].
  - constructor; [exact E|exact IH].
Qed.

Lemma no_dir_existsb l :
  Forall (fun ce => S_ISSPARSEDIR ce = false) l -> existsb S_ISSPARSEDIR l = false.
Proof.
  induction 1 as [|ce l H _ IH]; [reflexivity|].
  cbn [existsb]. rewrite H, IH. reflexivity.
Qed.

(** After [ensure_full_index] the flag is clear and no sparse-directory
    entry is left, when the flag was set wherever there was one. *)
Lemma ensure_full_index_full env st :
  flag_covers_sparse_dir st ->
  sparse_index (ensure_full_index env st) = false /\
  has_sparse_dir (ensure_full_index env st) = false.
Proof.
  intros Hcov. unfold ensure_full_index.
  destruct (sparse_index st) eqn:E; cbn [negb].
  - split; [reflexivity|]. unfold has_sparse_dir, entries_of.
    cbn [cache cache_nr]. rewrite Nat2Z.id, firstn_all.
    apply no_dir_existsb, expand_no_dir.
  - split; [exact E|].
    destruct (has_sparse_dir st) eqn:Eh; [|reflexivity].
    specialize (Hcov Eh). congruence.
Qed.

(** [convert_to_sparse] sets the flag when it rewrites the entries, and
    leaves flag and entries as they are otherwise. *)
Lemma convert_to_sparse_flag fuel env st r st' :
  convert_to_sparse fuel env st = Ok (r, st') ->
  sparse_index st' = true \/
  (sparse_index st' = sparse_index st /\ entries_of st' = entries_of st).
Proof.
  unfold convert_to_sparse.
  destruct (split_index st || sparse_index st
            || negb (core_apply_sparse_checkout env)
            || negb (core_sparse_checkout_cone env)).
  { intros H. injection H as _ <-. right. split; reflexivity. }
  cbv zeta.
  destruct (negb _).
  { intros H. injection H as _ <-. right. split; reflexivity. }
  cbn [with_patterns sparse_checkout_patterns cache cache_nr split_index].
  destruct (match sparse_checkout_patterns st with
            | Some pl => Some pl
            | None => get_sparse_checkout_patterns env
            end) as [pl|].
  2:{ intros H. injection H as _ <-. right. split; reflexivity. }
  destruct (negb (use_cone_patterns pl)).
  { intros H. injection H as _ <-. right. split; reflexivity. }
  destruct (cache_tree_update env _) as [ct|].
  2:{ intros H. injection H as _ <-. right. split; reflexivity. }
  intros H. apply bind_Ok_inv in H. destruct H as ([cache' n] & _ & H).
  injection H as _ <-. left. reflexivity.
Qed.

Lemma apply_op_covers env op st st' :
  apply_op env op st = Ok st' ->
  flag_covers_sparse_dir st -> flag_covers_sparse_dir st'.
Proof.
  destruct op as [fuel|]; cbn [apply_op]; intros H Hcov.
  - apply bind_Ok_inv in H. destruct H as ([r st1] & Hc & H).
    injection H as <-.
    destruct (convert_to_sparse_flag fuel env st r st1 Hc) as [Hset|[Hf He]].
    + intros _. exact Hset.
    + unfold flag_covers_sparse_dir, has_sparse_dir in *.
      rewrite Hf, He. exact Hcov.
  - injection H as <-.
    destruct (ensure_full_index_full env st Hcov) as (_ & Hno).
    intros Hh. congruence.
Qed.

End SparseFlag.
(* ===================================================================== *)
(** * Proofs: entries that are not in order *)
(* ===================================================================== *)

Module UnsortedFacts.
Import Midx MidxSpec WriteFacts SortPacks InversionFacts.

(** The order check of the OID Lookup chunk stops at the first entry that
    is not below its successor. *)
Lemma oidlookup_loop_unsorted h last l :
  ~ ascending l -> oidlookup_loop h last l = Bug "OIDs not in order".
Proof.
  revert last. induction l as [|a l IH]; intros last Hnot.
  - exfalso. apply Hnot. exact I.
  - destruct l as [|b l].
    + exfalso. apply Hnot. split; exact I.
    + assert (Hrest : oidcmp (oid a) (oid b) < 0 -> ~ ascending (b :: l)).
      { intros E Hasc. apply Hnot. split; [exact E|exact Hasc]. }
      remember (b :: l) as rest eqn:Hr.
      cbn [oidlookup_loop].
      assert (Hm : match rest with
                   | next :: _ => oidcmp (oid a) (oid next) >=? 0
                   | [] => false
                   end = (oidcmp (oid a) (oid b) >=? 0)) by (subst rest; reflexivity).
      rewrite Hm.
      destruct (oidcmp (oid a) (oid b) >=? 0) eqn:E; [reflexivity|].
      rewrite Z.geb_leb in E. apply Z.leb_gt in E. specialize (Hrest E).
      destruct (match last with
                | Some l0 => oidcmp l0 (oid a) =? 0
                | None => false
                end).
      * apply IH, Hrest.
      * rewrite (IH _ Hrest). reflexivity.
Qed.

(** [write_midx_file] reaches that check: the two chunks before the OID
    Lookup chunk are written without a check that could fail. *)
Lemma write_midx_file_unsorted (hash_fn : list byte -> list byte)
    (names0 : list cstring) (objs : list pack_midx_entry) :
  Z.of_nat (length names0) < 2 ^ 30 -> ~ ascending objs ->
  write_midx_file hash_fn true names0 objs = Bug "OIDs not in order".
Proof.
  intros Hp Hnot. unfold write_midx_file. cbn [negb].
  rewrite sorted_or_empty.
  destruct (sort_packs_by_name_ok names0) as (names & perm & -> & Hln & _).
  cbn [bind].
  set (L := existsb (fun o => 0xffffffff <? offset o) objs).
  set (nr := u32 (Z.of_nat (length (List.filter (fun o => 0x7fffffff <? offset o) objs)))).
  set (total := fold_left (fun acc n => s32 (acc + (strlen n + 1))) names 0).
  set (w0 := 16 + MIDX_CHUNKLOOKUP_WIDTH * ((if L then 6 else 5) + 1)).
  assert (Hw0 : 0 <= w0 < 200) by (unfold w0, MIDX_CHUNKLOOKUP_WIDTH; destruct L; lia).
  assert (Hplan : exists rest,
            chunk_plan L nr (Z.of_nat (length names0)) (Z.of_nat (length objs)) total =
            (MIDX_CHUNKID_PACKLOOKUP, w0) ::
            (MIDX_CHUNKID_OIDFANOUT, w0 + 4 * Z.of_nat (length names0)) ::
            (MIDX_CHUNKID_OIDLOOKUP, w0 + 4 * Z.of_nat (length names0) + 1024) :: rest).
  { unfold chunk_plan. fold w0.
    rewrite (u32_small (Z.of_nat (length names0) * 4)) by lia.
    rewrite (u64_small (w0 + Z.of_nat (length names0) * 4))
      by (change (2 ^ 64) with 18446744073709551616; lia).
    unfold MIDX_CHUNK_FANOUT_SIZE.
    rewrite (u64_small (w0 + Z.of_nat (length names0) * 4 + 4 * 256))
      by (change (2 ^ 64) with 18446744073709551616; lia).
    replace (w0 + Z.of_nat (length names0) * 4)
      with (w0 + 4 * Z.of_nat (length names0)) by lia.
    change (4 * 256) with 1024.
    destruct L; eexists; reflexivity. }
  destruct Hplan as (rest & ->).
  rewrite (write_chunks_step L nr names objs perm MIDX_CHUNKID_PACKLOOKUP w0 _ w0
             (fst (write_midx_chunk_packlookup names))
             (4 * Z.of_nat (length names0))); [|reflexivity| |lia].
  2:{ unfold write_chunk. rewrite Z.eqb_refl.
      unfold write_midx_chunk_packlookup. cbn [fst]. rewrite Hln.
      reflexivity. }
  rewrite (write_chunks_step L nr names objs perm MIDX_CHUNKID_OIDFANOUT _ _
             (w0 + 4 * Z.of_nat (length names0))
             (fst (write_midx_chunk_oidfanout objs)) 1024);
    [|reflexivity|reflexivity|lia].
  cbn [write_chunks]. rewrite Z.eqb_refl. cbn [negb].
  unfold write_chunk.
  change (MIDX_CHUNKID_OIDLOOKUP =? MIDX_CHUNKID_PACKLOOKUP) with false.
  change (MIDX_CHUNKID_OIDLOOKUP =? MIDX_CHUNKID_PACKNAMES) with false.
  change (MIDX_CHUNKID_OIDLOOKUP =? MIDX_CHUNKID_OIDFANOUT) with false.
  change (MIDX_CHUNKID_OIDLOOKUP =? MIDX_CHUNKID_OIDLOOKUP) with true.
  cbv iota. unfold write_midx_chunk_oidlookup.
  rewrite (oidlookup_loop_unsorted _ None objs Hnot). reflexivity.
Qed.

End UnsortedFacts.

(* ===================================================================== *)
(** * Building a MIDX and reading it back *)
(* ===================================================================== *)

Module RoundTrip.
Import Midx MidxSpec MidxExamples MidxClaims GlueFacts LookupFacts WrittenFacts
       UnsortedFacts.

(** C1 (amended): for distinct NUL-free pack names and entries with full
    object ids, pack ids that name a pack, offsets of an [off_t] and
    sizes that fit the 32-bit arithmetic: when the entries are given in
    strictly ascending order of object id, [write_midx_file] writes a
    file, [load_midxed_git_one] loads it, the object ids read back are
    exactly those given, the lookup path returns for every given entry
    the pack id after the sort of the pack names together with the
    offset, and every other object id is a miss; when the entries are not
    in strictly ascending order of object id, [write_midx_file] stops
    with [BUG("OIDs not in order")]. *)
Theorem midx_round_trip (hash_fn : list byte -> list byte)
    (names0 : list cstring) (objs : list pack_midx_entry) :
  NoDup names0 -> Forall nul_free names0 ->
  Z.of_nat (length names0) < 2 ^ 30 -> names_size names0 < 2 ^ 31 ->
  20 * Z.of_nat (length objs) < 2 ^ 32 ->
  Forall (wf_entry (Z.of_nat (length names0))) objs ->
  round_trip_or_refused hash_fn names0 objs.
Proof.
  intros Hnd Hnf Hp Hn H20 Hwf. split.
  2:{ intros Hnot. apply write_midx_file_unsorted; assumption. }
  intros Hasc.
  destruct (inputs_writable names0 objs Hnd Hnf) as
    (names & perm & Hsort & Hln & Hperm & Hord & W & Hrange & Hmap); auto.
  { split; [exact Hp|]. split; [exact Hn|]. lia. }
  set (tail := pnam_image names ++ hash_fn (midx_image names perm objs)).
  set (file := midx_body names perm objs ++ tail).
  exists names, perm, file, (image_reader file names objs (Z.of_nat (length objs))).
  assert (Hfile : midx_image names perm objs ++ hash_fn (midx_image names perm objs)
                  = file).
  { unfold file, tail, midx_image. rewrite <- app_assoc. reflexivity. }
  split; [exact Hsort|]. split; [exact Hperm|]. split; [exact Hord|].
  split; [exact Hmap|]. split; [|split; [|split; [|split]]].
  - rewrite <- Hfile. apply write_midx_file_image; assumption.
  - apply load_body; [exact W|]. intros s Hs. apply names_fit, Hs.
  - intros o. cbn [num_objects image_reader]. split.
    + intros Ho. apply in_map_iff in Ho. destruct Ho as (e & <- & He).
      apply list_elem_of_In, list_elem_of_lookup in He. destruct He as (k & Hk).
      exists (Z.of_nat k). split.
      * apply lookup_lt_Some in Hk. lia.
      * apply (oid_image names perm objs tail W Hrange H20 k e Hk).
    + intros (k & Hk & Hread).
      destruct (lookup_lt_is_Some_2 objs (Z.to_nat k) ltac:(lia)) as (e & He).
      pose proof (oid_image names perm objs tail W Hrange H20 _ e He) as Hoid.
      rewrite Z2Nat.id in Hoid by lia. fold file in Hoid.
      rewrite Hread in Hoid. injection Hoid as ->.
      apply in_map. apply list_elem_of_In, list_elem_of_lookup. eauto.
  - intros e He. apply list_elem_of_In, list_elem_of_lookup in He.
    destruct He as (k & Hk).
    apply (lookup_details_hit names perm objs tail W Hrange H20 k e Hk).
  - intros o Hw Hnot.
    apply (lookup_details_miss names perm objs tail W H20 o Hw).
    intros e He <-. apply Hnot. apply in_map, He.
Qed.

(** The round trip on two packs given in descending order and two
    objects, and the same two objects given in descending order. *)
Lemma midx_round_trip_witness :
  round_trip toy_hash two_packs two_objects /\
  unsorted_refused toy_hash two_packs swapped_objects.
Proof.
  assert (Hnd : NoDup two_packs) by (unfold two_packs; distinct_names).
  assert (Hnf : Forall nul_free two_packs) by nul_free_names.
  split.
  - apply (midx_round_trip toy_hash two_packs two_objects); auto.
    + vm_compute. reflexivity.
    + vm_compute. reflexivity.
    + vm_compute. reflexivity.
    + all_of.
    + vm_compute. repeat split.
  - apply (midx_round_trip toy_hash two_packs swapped_objects); auto.
    + vm_compute. reflexivity.
    + vm_compute. reflexivity.
    + vm_compute. reflexivity.
    + all_of.
    + intros (H & _). vm_compute in H. discriminate H.
Defined.

(** C1 (counterexample): the same two objects given in descending order of
    object id are refused by [write_midx_file], so nothing is written and
    nothing can be read back. *)
Lemma midx_round_trip_unsorted :
  write_midx_file toy_hash true two_packs swapped_objects =
    Bug "OIDs not in order" /\
  ~ round_trip toy_hash two_packs swapped_objects.
Proof.
  assert (H : write_midx_file toy_hash true two_packs swapped_objects =
              Bug "OIDs not in order") by (vm_compute; reflexivity).
  split; [exact H|].
  intros (names & perm & file & m & _ & _ & _ & _ & Hw & _).
  rewrite H in Hw. discriminate Hw.
Qed.

End RoundTrip.

(* ===================================================================== *)
(** * From a full index to a sparse one and back *)
(* ===================================================================== *)

Module SparseRoundTrip.
Import SparseIndex SparseSpec SparseExamples SparseClaims SparseArray
       SparseInPlace SparseContracts SparseExampleFacts.

Lemma unchanged_round_trip env st st1 :
  sparse_index st1 = false -> entries_of st1 = entries_of st ->
  entries_of (ensure_full_index env st1) = entries_of st.
Proof.
  intros Hflag He. unfold ensure_full_index. rewrite Hflag. exact He.
Qed.

(** C2: for every full index whose cache tree fits its entries, with the
    trees of the cache tree in the object store, [convert_to_sparse] with
    enough fuel returns, and [ensure_full_index] on its result gives the
    entries of the original index, in the same order. *)
Theorem full_sparse_full (env : sparse_env) (st : index_state) :
  is_full st -> env_valid env (entries_of st) ->
  exists fuel0, forall fuel, (fuel0 <= fuel)%nat -> round_trips fuel env st.
Proof.
  intros (Hflag & Hfull & Hnr) Hvalid.
  unfold round_trips, convert_to_sparse. rewrite Hflag.
  destruct (split_index st || false || negb (core_apply_sparse_checkout env)
            || negb (core_sparse_checkout_cone env)).
  { exists 0%nat. intros fuel _. eexists. eexists. split; [reflexivity|].
    apply unchanged_round_trip; [exact Hflag|reflexivity]. }
  cbv zeta.
  set (repo := match GIT_TEST_SPARSE_INDEX env with
               | Some test_env =>
                   set_sparse_index_config env (repo_sparse_index st) test_env
               | None => repo_sparse_index st
               end).
  destruct (negb repo).
  { exists 0%nat. intros fuel _. eexists. eexists. split; [reflexivity|].
    apply unchanged_round_trip; [exact Hflag|reflexivity]. }
  cbn [with_patterns sparse_checkout_patterns cache cache_nr split_index].
  destruct (match sparse_checkout_patterns st with
            | Some pl => Some pl
            | None => get_sparse_checkout_patterns env
            end) as [pl|].
  2:{ exists 0%nat. intros fuel _. eexists. eexists. split; [reflexivity|].
      apply unchanged_round_trip; [exact Hflag|reflexivity]. }
  destruct (negb (use_cone_patterns pl)).
  { exists 0%nat. intros fuel _. eexists. eexists. split; [reflexivity|].
    apply unchanged_round_trip; [exact Hflag|reflexivity]. }
  fold (entries_of st).
  destruct (cache_tree_update env (entries_of st)) as [ct|] eqn:Ect.
  2:{ exists 0%nat. intros fuel _. eexists. eexists. split; [reflexivity|].
      apply unchanged_round_trip; [exact Hflag|reflexivity]. }
  destruct (Hvalid ct Ect) as (Hne & Hlaid & Hst).
  destruct (rec_laid_out (stored env) pl [] ct (entries_of st) Hlaid Hne)
    as (fuel0 & out & Hcon & Hrun).
  exists fuel0. intros fuel Hf.
  destruct (Hrun fuel Hf [] [] (drop (Z.to_nat (cache_nr st)) (cache st)))
    as (junk' & Hlen & Hrec).
  cbn [app length] in Hrec.
  assert (Hcache : entries_of st ++ drop (Z.to_nat (cache_nr st)) (cache st)
                   = cache st) by apply take_drop.
  assert (Hn : Z.of_nat 0 + Z.of_nat 0 + Z.of_nat (length (entries_of st))
               = cache_nr st).
  { unfold entries_of. rewrite length_take. lia. }
  rewrite Hcache, Hn in Hrec. change (Z.of_nat 0 + Z.of_nat 0) with 0 in Hrec.
  change (Z.of_nat 0) with 0 in Hrec.
  rewrite Hrec. cbn [bind].
  eexists. eexists. split; [reflexivity|].
  unfold ensure_full_index. cbn [sparse_index negb].
  unfold entries_of at 1 2. cbn [cache cache_nr].
  rewrite !Nat2Z.id, take_app_length.
  rewrite (contracted_expand env pl [] ct (entries_of st) out Hlaid Hst Hfull Hcon).
  apply firstn_all.
Qed.

(** The four entries of the example are contracted to [a], [b/c], [b/d]
    and the sparse-directory entry [b/e/], and expanded back. *)
Lemma full_sparse_full_witness :
  exists fuel0, forall fuel, (fuel0 <= fuel)%nat ->
    round_trips fuel four_env four_index.
Proof.
  apply full_sparse_full.
  - split; [reflexivity|]. split.
    + change (entries_of four_index) with four_entries.
      repeat (apply Forall_cons; [reflexivity|]). apply Forall_nil.
    + vm_compute. split; discriminate.
  - exact four_valid.
Defined.

End SparseRoundTrip.

(* ===================================================================== *)
(** * Spans that hold a dirty entry *)
(* ===================================================================== *)

Module SparseDirty.
Import SparseIndex SparseSpec SparseExamples SparseClaims SparseContracts
       SparseExampleFacts.

(** C3 (amended): with a cache tree that fits the entries,
    [convert_to_sparse_rec] on a span that is not empty returns when it
    has fuel enough, and whenever it returns, what it has written for the
    span keeps every entry of the span that has a conflict stage, is a
    gitlink or lacks the skip-worktree bit, as it is and in the order of
    the span; a span with such an entry is not replaced by a
    sparse-directory entry, and the other entries are what the second
    loop writes, where a subtree is collapsed on its own terms. *)
Theorem dirty_entries_are_kept
    (P : cstring -> cache_tree -> list cache_entry -> Prop)
    (pl : pattern_list) (path : cstring) (ct : cache_tree)
    (span post : list cache_entry) :
  laid_out P path ct span -> span <> [] ->
  dirty_entries_emitted pl path ct span post.
Proof.
  intros Hl Hne. apply (rec_returns P); [exact Hl|exact Hne|].
  intros out junk' Hcon _.
  pose proof (contracted_dirty pl path ct span out Hcon) as Hd.
  exists out, (junk' ++ post). split; [reflexivity|]. split; [reflexivity|].
  split; [exact Hcon|]. split; [exact Hd|].
  intros Hdirty ->. cbn [List.filter] in Hd. rewrite sparse_dir_clean in Hd.
  apply (existsb_filter dirty span Hdirty). symmetry. exact Hd.
Qed.

(** The four entries of the example, of which [b/d] lacks the
    skip-worktree bit. *)
Lemma dirty_entries_are_kept_witness :
  dirty_entries_emitted top_only [] ct_root four_entries [].
Proof.
  apply (dirty_entries_are_kept (fun _ _ _ => True)).
  - apply four_laid_out; exact I.
  - discriminate.
Defined.

(** C3 (counterexample): the span of the four entries holds [b/d], which
    lacks the skip-worktree bit, and is not written as it is: the entry
    [b/e/f] of the subtree [b/e/] is replaced by a sparse-directory
    entry. *)
Lemma clean_subtree_is_collapsed :
  (exists cache',
     convert_to_sparse_rec 10 top_only (four_entries ++ []) 0 0
       (Z.of_nat (length four_entries)) [] ct_root = Ok (cache', 4) /\
     map name (take 4 cache') =
       map list_byte_of_string ["a"; "b/c"; "b/d"; "b/e/"]%string) /\
  ~ dirty_span_unchanged 10 top_only [] ct_root four_entries [].
Proof.
  split.
  - eexists. split; [vm_compute; reflexivity|]. vm_compute. reflexivity.
  - intros H.
    assert (E : exists r,
              convert_to_sparse_rec 10 top_only (four_entries ++ []) 0 0
                (Z.of_nat (length four_entries)) [] ct_root = Ok r)
      by (eexists; vm_compute; reflexivity).
    destruct E as ([cache' count] & E).
    pose proof (H cache' count E ltac:(vm_compute; reflexivity)) as Hbad.
    vm_compute in E. injection E as <- <-.
    vm_compute in Hbad. discriminate Hbad.
Qed.

End SparseDirty.

(* ===================================================================== *)
(** * Entries that share an object id *)
(* ===================================================================== *)

Module Duplicates.
Import Midx MidxSpec MidxExamples MidxClaims OidOrder GlueFacts SuccessFacts
       LookupFacts Rev1Facts Rev1Image.




End Duplicates.

(* ===================================================================== *)
(** * The order of the chunks in the file *)
(* ===================================================================== *)

Module ChunkOrder.
Import Midx MidxSpec MidxExamples MidxClaims InversionFacts WriteFacts.

(** C5 (amended): a file that [write_midx_file] writes holds the chunk
    payloads in the order Pack-Name Lookup, OID Fanout, OID Lookup,
    Object Offsets, Large Offsets when an offset needs more than 32 bits,
    and Pack Names last. *)
Theorem chunks_in_written_order (hash_fn : list byte -> list byte)
    (names0 : list cstring) (objs : list pack_midx_entry) (file : list byte) :
  write_midx_file hash_fn true names0 objs = Ok (Some file) ->
  chunks_written_as names_last hash_fn names0 objs file.
Proof. apply write_midx_file_pieces. Qed.

(** The order of the chunks in the file written for two packs and two
    objects. *)
Lemma chunks_in_written_order_witness :
  exists file,
    write_midx_file toy_hash true two_packs two_objects = Ok (Some file) /\
    chunks_written_as names_last toy_hash two_packs two_objects file.
Proof.
  eexists. split.
  - vm_compute. reflexivity.
  - apply chunks_in_written_order. vm_compute. reflexivity.
Defined.

(** C5 (counterexample): in the file written for two packs and two
    objects the Pack-Name Lookup chunk is followed by the OID Fanout
    chunk, whose first byte is zero, and not by the Pack Names chunk,
    whose first byte is the first letter of a pack name. *)
Lemma chunks_not_names_second :
  exists file,
    write_midx_file toy_hash true two_packs two_objects = Ok (Some file) /\
    ~ chunks_written_as names_second toy_hash two_packs two_objects file.
Proof.
  eexists. split; [vm_compute; reflexivity|].
  intros (names & perm & pieces & front & Hs & HF & Hlen & Hfile).
  vm_compute in Hs. injection Hs as <- <-.
  change (large_needed two_objects) with false in HF, Hlen.
  unfold names_second in HF. cbn [app] in HF.
  inversion HF as [|? p0 ? pieces0 H0 HF0]; subst; clear HF.
  inversion HF0 as [|? p1 ? pieces1 H1 HF1]; subst; clear HF0 HF1.
  destruct H0 as (n0 & H0). vm_compute in H0. injection H0 as <- <-.
  destruct H1 as (n1 & H1). vm_compute in H1. injection H1 as <- <-.
  unfold names_second in Hlen. cbn [app length] in Hlen.
  assert (Hfront : length front = 88%nat) by lia.
  apply (f_equal (fun l => l !! 96%nat)) in Hfile.
  match type of Hfile with
  | ?l = _ => assert (Hl : l = Some Byte.x00) by (vm_compute; reflexivity);
              rewrite Hl in Hfile
  end.
  cbn [concat] in Hfile.
  rewrite <- !app_assoc in Hfile.
  rewrite lookup_app_r in Hfile by lia.
  rewrite Hfront in Hfile.
  change (96 - 88)%nat with 8%nat in Hfile.
  cbn in Hfile. discriminate Hfile.
Qed.

End ChunkOrder.

(* ===================================================================== *)
(** * Offsets that do not fit 31 bits *)
(* ===================================================================== *)

Module LargeOffsets.
Import Midx MidxSpec MidxExamples MidxClaims GlueFacts WriteFacts ReadFacts
       LookupFacts WrittenFacts ChunkFacts FanoutFacts.

Lemma escape_sum c :
  0 <= c < 2 ^ 31 -> Z.lor MIDX_LARGE_OFFSET_NEEDED c = 2 ^ 31 + c.
Proof.
  intros Hc. pose proof (Z.add_lor_land MIDX_LARGE_OFFSET_NEEDED c) as H.
  rewrite (Z.land_comm _ c), small_land in H by lia.
  change MIDX_LARGE_OFFSET_NEEDED with (2 ^ 31) in H at 2. lia.
Qed.

Lemma escape_low c :
  0 <= c < 2 ^ 31 -> Z.land (Z.lor MIDX_LARGE_OFFSET_NEEDED c) 0x7fffffff = c.
Proof.
  intros Hc. rewrite escape_sum by lia.
  change 0x7fffffff with (Z.ones 31). rewrite Z.land_ones by lia.
  rewrite <- (Z.mul_1_l (2 ^ 31)) at 1.
  rewrite Z.add_comm, Z.mod_add by lia. apply Z.mod_small. lia.
Qed.

Lemma large_needed_iff objs :
  large_needed objs = true <-> exists e, In e objs /\ 2 ^ 32 <= offset e.
Proof.
  unfold large_needed. rewrite existsb_exists. split.
  - intros (e & He & Hlt). exists e. split; [exact He|].
    apply Z.ltb_lt in Hlt. lia.
  - intros (e & He & Hle). exists e. split; [exact He|].
    apply Z.ltb_lt. lia.
Qed.

Section Escapes.
Variables (names : list cstring) (perm : list Z) (objs : list pack_midx_entry).
Variable tail : list byte.
Hypothesis W : writable names perm objs.
Hypothesis H20 : 20 * Z.of_nat (length objs) < 2 ^ 32.

Let file := midx_body names perm objs ++ tail.
Let m := image_reader file names objs (Z.of_nat (length objs)).

(** With a Large Offsets chunk, an offset of at least [2^31] is
    escaped. *)
Lemma escaped_image k e :
  large_needed objs = true -> objs !! k = Some e -> 2 ^ 31 <= offset e ->
  escaped m (Z.of_nat k) (offset e).
Proof.
  intros EL Hk Hbig.
  pose proof (writable_offsets _ _ _ W) as Hoffs.
  assert (Hoff : 0 <= offset e < 2 ^ 63).
  { rewrite Forall_forall in Hoffs. apply Hoffs.
    apply list_elem_of_In, list_elem_of_lookup. eauto. }
  assert (Ee : is_large e = true).
  { rewrite is_large_iff by lia. apply Z.ltb_lt. lia. }
  pose proof W as ((Hp & Hn & Ho) & _).
  pose proof (large_before_le objs k) as HLB.
  pose proof (large_before_nonneg objs k) as HLB0.
  pose proof (length_filter_le is_large objs) as HLF.
  exists (Z.lor MIDX_LARGE_OFFSET_NEEDED (large_before objs k)).
  split; [|split].
  - unfold offset_word_at.
    cbn [m image_reader chunk_object_offsets chunk_at bind data]. fold file.
    unfold file. rewrite (read_ooff_word names perm objs tail W k e Hk).
    unfold offset_word. rewrite EL, Ee. cbn [andb].
    rewrite u32_small by (apply escape_range; lia). reflexivity.
  - rewrite Z.lor_spec, pow31_bits by lia. reflexivity.
  - rewrite escape_low by lia. unfold large_offset_at.
    cbn [m image_reader chunk_large_offsets data]. rewrite EL.
    cbn [chunk_at bind].
    pose proof (filter_large_lookup objs k e Hk Ee) as Hj.
    destruct (read_loff names perm objs tail W _ e EL Hj) as [R1 R2].
    rewrite Z2Nat.id in R1, R2 by lia. fold file in R1, R2.
    rewrite R1. cbn [bind]. rewrite R2. cbn [bind].
    f_equal.
    rewrite (u32_small (Z.shiftr _ _)) by (apply LoadFacts.shiftr32_range; lia).
    rewrite (u32_small (Z.land _ _)) by apply LoadFacts.land32_range.
    rewrite Z.shiftr_div_pow2 by lia.
    change 0xffffffff with (Z.ones 32). rewrite Z.land_ones by lia.
    pose proof (Z.div_mod (offset e) (2 ^ 32) ltac:(lia)). lia.
Qed.

(** Without a Large Offsets chunk, the offset is the word itself. *)
Lemma literal_image k e :
  large_needed objs = false -> objs !! k = Some e ->
  offset_word_at m (Z.of_nat k) = Ok (offset e).
Proof.
  intros EL Hk.
  pose proof (writable_offsets _ _ _ W) as Hoffs.
  assert (Hin : In e objs) by (apply list_elem_of_In, list_elem_of_lookup; eauto).
  assert (Hoff : 0 <= offset e < 2 ^ 63).
  { rewrite Forall_forall in Hoffs. apply Hoffs, Hin. }
  assert (Hoffs0 : Forall (fun e => 0 <= offset e) objs).
  { eapply Forall_impl; [|exact Hoffs]. intros x Hx. cbv beta in Hx. lia. }
  pose proof (large_needed_false objs EL Hoffs0) as Hs.
  rewrite Forall_forall in Hs. specialize (Hs e Hin).
  pose proof (proj1 (shiftr_zero_iff (offset e) 32 ltac:(lia) ltac:(lia)) Hs).
  unfold offset_word_at.
  cbn [m image_reader chunk_object_offsets chunk_at bind data]. fold file.
  unfold file. rewrite (read_ooff_word names perm objs tail W k e Hk).
  unfold offset_word. rewrite EL. cbn [andb].
  rewrite (u32_small (u32 (offset e))) by apply u32_range.
  rewrite u32_small by lia. reflexivity.
Qed.
End Escapes.

(** C6 (amended): for valid inputs, the written file has a Large Offsets
    chunk exactly when some offset is [2^32] or more; then every offset of
    at least [2^31] is written as a word with the high bit set whose low
    31 bits index the entry of the Large Offsets chunk that holds it;
    without that chunk such an offset (below [2^32]) is the word itself;
    in both cases [nth_midxed_object_details] gives the offset back. *)
Theorem large_offsets_round_trip (hash_fn : list byte -> list byte)
    (names0 : list cstring) (objs : list pack_midx_entry) :
  NoDup names0 -> Forall nul_free names0 ->
  Z.of_nat (length names0) < 2 ^ 30 -> names_size names0 < 2 ^ 31 ->
  20 * Z.of_nat (length objs) < 2 ^ 32 ->
  ascending objs -> Forall (wf_entry (Z.of_nat (length names0))) objs ->
  large_offsets_kept hash_fn names0 objs.
Proof.
  intros Hnd Hnf Hp Hn H20 Hasc Hwf.
  destruct (inputs_writable names0 objs Hnd Hnf) as
    (names & perm & Hsort & Hln & Hperm & Hord & W & Hrange & Hmap); auto.
  { split; [exact Hp|]. split; [exact Hn|]. lia. }
  set (tail := pnam_image names ++ hash_fn (midx_image names perm objs)).
  set (file := midx_body names perm objs ++ tail).
  exists file, (image_reader file names objs (Z.of_nat (length objs))).
  assert (Hfile : midx_image names perm objs ++ hash_fn (midx_image names perm objs)
                  = file).
  { unfold file, tail, midx_image. rewrite <- app_assoc. reflexivity. }
  split; [|split; [|split]].
  - rewrite <- Hfile. apply write_midx_file_image; assumption.
  - apply load_body; [exact W|]. intros s Hs. apply names_fit, Hs.
  - cbn [image_reader chunk_large_offsets]. rewrite <- large_needed_iff.
    destruct (large_needed objs); split; congruence.
  - intros k e Hk Hbig. split.
    + eexists. split; [apply (details_image names perm objs tail W Hrange H20 k e Hk)|].
      reflexivity.
    + cbn [image_reader chunk_large_offsets].
      destruct (large_needed objs) eqn:EL.
      * apply (escaped_image names perm objs tail W H20 k e EL Hk Hbig).
      * apply (literal_image names perm objs tail W k e EL Hk).
Qed.

(** One pack with offsets 100, [2^32 + 7] and [2^31]. *)
Lemma large_offsets_round_trip_witness :
  large_offsets_kept toy_hash one_pack object_past_4G.
Proof.
  apply large_offsets_round_trip.
  - unfold one_pack. constructor; [intros H; inversion H|constructor].
  - nul_free_names.
  - by_computation.
  - by_computation.
  - by_computation.
  - by_computation.
  - all_of.
Defined.

(** C6 (counterexample): for a single object at offset [2^31] the file
    has no Large Offsets chunk, and the offset word is [0x80000000]
    itself. *)
Lemma offset_2G_not_escaped :
  (exists file m,
     write_midx_file toy_hash true one_pack object_at_2G = Ok (Some file) /\
     load_midxed_git_one false (Some file) = Ok (Some m) /\
     chunk_large_offsets m = None /\
     offset_word_at m 0 = Ok (2 ^ 31)) /\
  ~ large_offsets_escaped toy_hash one_pack object_at_2G.
Proof.
  split.
  - eexists. eexists. split; [vm_compute; reflexivity|].
    split; [vm_compute; reflexivity|]. split; vm_compute; reflexivity.
  - intros (file & m & Hw & Hl & H).
    vm_compute in Hw. injection Hw as <-.
    vm_compute in Hl. injection Hl as <-.
    destruct (H 0%nat (entry 1 0 (2 ^ 31) 0) eq_refl ltac:(by_computation))
      as [(word & _ & _ & Hlarge) _].
    unfold large_offset_at in Hlarge. simpl chunk_large_offsets in Hlarge.
    cbn [chunk_at bind] in Hlarge. discriminate Hlarge.
Qed.

End LargeOffsets.

(* ===================================================================== *)
(** * The OID Fanout chunk *)
(* ===================================================================== *)

Module Fanout.
Import Midx MidxSpec MidxExamples MidxClaims GlueFacts SuccessFacts
       FanoutFacts ReadFacts WriteFacts.

(** C7: in every file that [write_midx_file] produces, for entries with
    full object ids and sizes that fit, entry [i] of the OID Fanout chunk
    is the number of distinct input object ids whose first byte is at most
    [i], for every [i] from 0 to 255, and entry 255 is the number of
    distinct object ids, which is also the object count of the reader. *)
Theorem fanout_counts (hash_fn : list byte -> list byte)
    (names0 : list cstring) (objs : list pack_midx_entry) (file : list byte) :
  write_midx_file hash_fn true names0 objs = Ok (Some file) ->
  sizes_ok names0 objs ->
  Forall (wf_entry (Z.of_nat (length names0))) objs ->
  exists m,
    load_midxed_git_one false (Some file) = Ok (Some m) /\
    (forall i, 0 <= i <= 255 ->
       fanout_entry m i = Ok (count_le (distinct_oids objs) i)) /\
    fanout_entry m 255 = Ok (Z.of_nat (length (distinct_oids objs))) /\
    num_objects m = Z.of_nat (length (distinct_oids objs)).
Proof.
  intros Hw Hsz Hwf.
  destruct (success_writable hash_fn names0 objs file Hw Hsz Hwf)
    as (names & perm & Hs & W & Hrange & ->).
  set (tail := pnam_image names ++ hash_fn (midx_image names perm objs)).
  assert (Hfile : midx_image names perm objs ++ hash_fn (midx_image names perm objs)
                  = midx_body names perm objs ++ tail).
  { unfold tail, midx_image. rewrite <- app_assoc. reflexivity. }
  rewrite Hfile.
  pose proof W as (_ & _ & _ & Hasc & _).
  assert (Hd : distinct_oids objs = map oid objs).
  { apply remove_dups_nodup, ascending_oids_nodup; [exact Hasc|].
    eapply writable_wf_oids; eauto. }
  rewrite Hd, length_map.
  assert (Hent : forall i, 0 <= i <= 255 ->
            fanout_entry
              (image_reader (midx_body names perm objs ++ tail) names objs
                 (Z.of_nat (length objs))) i = Ok (count_le (map oid objs) i)).
  { intros i Hi. unfold fanout_entry.
    cbn [image_reader chunk_oid_fanout chunk_at bind data].
    apply (read_fanout names perm objs tail W i). lia. }
  eexists. split; [|split; [exact Hent|split]].
  - apply load_body; [exact W|]. intros s Hin. apply names_fit, Hin.
  - rewrite Hent by lia. rewrite count_le_255, length_map. reflexivity.
  - reflexivity.
Qed.

(** The fanout of the file written for two packs and two objects. *)
Lemma fanout_counts_witness :
  exists file m,
    write_midx_file toy_hash true two_packs two_objects = Ok (Some file) /\
    load_midxed_git_one false (Some file) = Ok (Some m) /\
    (forall i, 0 <= i <= 255 ->
       fanout_entry m i = Ok (count_le (distinct_oids two_objects) i)) /\
    fanout_entry m 255 = Ok (Z.of_nat (length (distinct_oids two_objects))) /\
    num_objects m = Z.of_nat (length (distinct_oids two_objects)).
Proof.
  eexists.
  assert (Hw : write_midx_file toy_hash true two_packs two_objects =
               Ok (Some _)) by (vm_compute; reflexivity).
  destruct (fanout_counts toy_hash two_packs two_objects _ Hw) as (m & H).
  - by_computation.
  - all_of.
  - exists m. split; [exact Hw|exact H].
Defined.

End Fanout.

(* ===================================================================== *)
(** * The files that the loader turns down *)
(* ===================================================================== *)

Module LoaderRejects.
Import Midx MidxSpec MidxExamples MidxClaims RejectFacts.

(** C8 (amended): [load_midxed_git_one] gives no reader when the file is
    shorter than the minimum size, the magic is wrong, the version is
    wrong, one of the Pack-Name Lookup, Pack Names and OID Fanout chunks
    is absent from the chunk table, or, on a 32-bit host, an entry of the
    chunk table has an offset that does not fit 32 bits. *)
Theorem loader_rejects (host32 : bool) (data : list byte) :
  too_short data \/ wrong_magic data \/ wrong_version data \/
  missing_one_of checked_chunks data \/
  (host32 = true /\ offset_overflows data) ->
  ~ usable host32 data.
Proof.
  intros H (m & Hm).
  destruct (load_checked _ _ _ Hm)
    as (Hs & Hsig & Hver & nc & c & Hnc & Hc & Hf & Hl & Hn).
  pose proof (read_u8_nonneg _ _ _ Hnc) as Hnc0.
  destruct (read_chunk_table_sets _ _ _ _ _ _ Hc) as (Sf & Sl & Sn & So).
  assert (Hin : forall id,
            (exists j, 0 <= j < 0 + Z.of_nat (S (Z.to_nat nc)) /\
                       table_id data j = Ok id) -> in_table data id).
  { intros id (j & Hj & Ht). exists nc, j. split; [exact Hnc|].
    split; [lia|exact Ht]. }
  destruct H as [H|[H|[H|[H|H]]]].
  - exact (Hs H).
  - exact (H Hsig).
  - exact (H Hver).
  - destruct H as (id & Hid & Hnot). apply Hnot.
    destruct Hid as [<-|[<-|[<-|[]]]].
    + destruct (Sl Hl) as [Hnone|Hj]; [exfalso; apply Hnone; reflexivity|].
      apply Hin, Hj.
    + destruct (Sn Hn) as [Hnone|Hj]; [exfalso; apply Hnone; reflexivity|].
      apply Hin, Hj.
    + destruct (Sf Hf) as [Hnone|Hj]; [exfalso; apply Hnone; reflexivity|].
      apply Hin, Hj.
  - destruct H as (Hh & nc' & i & off & Hnc' & Hi & Hoff & Hbig).
    rewrite Hnc in Hnc'. injection Hnc' as <-.
    assert (off < 2 ^ 32); [|lia].
    apply (So Hh i off); [lia|exact Hoff].
Qed.

(** A written file whose first byte is overwritten is turned down. *)
Lemma loader_rejects_witness :
  ~ usable true (<[0%nat := Byte.x00]> two_objects_file).
Proof.
  apply loader_rejects. right. left.
  unfold wrong_magic. vm_compute. discriminate.
Defined.

(** C8 (counterexample): a written file with the hash length in the
    header set to zero is loaded, and so is one whose chunk table names
    neither the OID Lookup nor the Object Offsets chunk. *)
Lemma loader_accepts_defects :
  (wrong_hash_len bad_hash_len_file /\ usable false bad_hash_len_file) /\
  (missing_one_of required_chunks no_lookup_file /\ usable false no_lookup_file) /\
  ~ rejects_all_defects.
Proof.
  assert (H1 : wrong_hash_len bad_hash_len_file /\ usable false bad_hash_len_file).
  { split.
    - unfold wrong_hash_len. vm_compute. discriminate.
    - eexists. vm_compute. reflexivity. }
  split; [exact H1|]. split.
  - split.
    + exists MIDX_CHUNKID_OIDLOOKUP. split; [right; right; right; left; reflexivity|].
      intros (nc & i & Hnc & Hi & Ht).
      vm_compute in Hnc. injection Hnc as <-.
      assert (Hcases : i = 0 \/ i = 1 \/ i = 2 \/ i = 3 \/ i = 4 \/ i = 5) by lia.
      destruct Hcases as [->|[->|[->|[->|[->| ->]]]]];
        vm_compute in Ht; discriminate Ht.
    + eexists. vm_compute. reflexivity.
  - intros Hall. destruct H1 as (Hw & Hu).
    apply (Hall false bad_hash_len_file); [|exact Hu].
    right. right. right. left. exact Hw.
Qed.

End LoaderRejects.

(* ===================================================================== *)
(** * A file that lost the byte before its trailing hash *)
(* ===================================================================== *)

Module Truncated.
Import Midx MidxSpec MidxExamples MidxClaims GlueFacts SuccessFacts
       VerifyFacts PackFacts WriteFacts ReadFacts.

Lemma names_size_ge names : Z.of_nat (length names) <= names_size names.
Proof.
  induction names as [|n names IH]; [reflexivity|].
  rewrite names_size_cons. cbn [length]. unfold strlen. lia.
Qed.

(** Removing the byte before the hash removes the last byte of the Pack
    Names chunk. *)
Lemma truncated_image body pnam h :
  (0 < length pnam)%nat -> length h = 20%nat ->
  without_byte_before_hash ((body ++ pnam) ++ h) =
  body ++ take (length pnam - 1) pnam ++ h.
Proof.
  intros Hp Hh. unfold without_byte_before_hash.
  rewrite !length_app, Hh.
  rewrite drop_app_length' by (rewrite length_app; lia).
  rewrite take_app_le by (rewrite length_app; lia).
  rewrite take_app, take_ge by lia.
  replace (length body + length pnam + 20 - 21 - length body)%nat
    with (length pnam - 1)%nat by lia.
  rewrite <- app_assoc. reflexivity.
Qed.

(** C9 (amended): take a file that [write_midx_file] has written for at
    least one pack, and remove the byte before its trailing hash, which
    is the NUL of the last pack name.  [load_midxed_git_one] still opens
    the altered file: it does not look at the trailing hash.  When the
    hash recomputed over all bytes except the trailing hash differs from
    the stored trailing hash, and the last pack name still ends inside
    the mapping of the file (the trailing hash holds a NUL, or the file
    does not fill its last page), [midx_verify] reports the checksum
    mismatch and returns a nonzero status. *)
Theorem truncation_is_reported (hash_fn : list byte -> list byte)
    (env : verify_env) (error0 : Z)
    (names0 : list cstring) (objs : list pack_midx_entry) (file : list byte) :
  (forall x, length (hash_fn x) = 20%nat) ->
  names0 <> [] ->
  Z.of_nat (length names0) < 2 ^ 30 -> names_size names0 < 2 ^ 31 ->
  20 * Z.of_nat (length objs) < 2 ^ 32 ->
  Forall (wf_entry (Z.of_nat (length names0))) objs ->
  write_midx_file hash_fn true names0 objs = Ok (Some file) ->
  hash_differs hash_fn (without_byte_before_hash file) ->
  names_end_in_mapping env (without_byte_before_hash file) ->
  truncation_reported hash_fn env error0 (without_byte_before_hash file).
Proof.
  intros Hhl Hne Hp Hn H20 Hwf Hw Hdiff Hend.
  destruct (success_writable hash_fn names0 objs file Hw) as
    (names & perm & Hs & W & Hrange & ->); auto.
  { split; [exact Hp|]. split; [exact Hn|]. lia. }
  destruct (sorted_facts _ _ _ Hs) as (Hln & _).
  set (h := hash_fn (midx_image names perm objs)) in *.
  set (t0 := take (length (pnam_image names) - 1) (pnam_image names)).
  assert (Hpn : (0 < length (pnam_image names))%nat).
  { pose proof (length_pnam_image names). pose proof (names_size_ge names).
    destruct names0; [congruence|]. cbn [length] in Hln. lia. }
  assert (Hh : length h = 20%nat) by apply Hhl.
  assert (Hfile : without_byte_before_hash (midx_image names perm objs ++ h) =
                  midx_body names perm objs ++ t0 ++ h).
  { unfold midx_image. apply truncated_image; assumption. }
  rewrite Hfile in *.
  assert (Hd : hash_fn (midx_body names perm objs ++ t0) <> h).
  { unfold hash_differs in Hdiff.
    replace (midx_body names perm objs ++ t0 ++ h)
      with ((midx_body names perm objs ++ t0) ++ h) in Hdiff
      by (rewrite <- app_assoc; reflexivity).
    rewrite (length_app _ h), Hh in Hdiff.
    rewrite take_app_length', drop_app_length' in Hdiff by lia.
    exact Hdiff. }
  assert (Hload : load_midxed_git_one false
                    (Some (midx_body names perm objs ++ t0 ++ h)) =
                  Ok (Some (image_reader (midx_body names perm objs ++ t0 ++ h)
                              names objs (Z.of_nat (length objs))))).
  { apply load_body; [exact W|]. intros s Hin.
    apply name_starts_range in Hin.
    pose proof (length_pnam_image names).
    rewrite length_app, Hh. unfold t0. rewrite length_take. lia. }
  assert (Hread : forall j ptr,
            pack_names (image_reader (midx_body names perm objs ++ t0 ++ h)
                          names objs (Z.of_nat (length objs))) !! j = Some ptr ->
            exists s, cstring_at (page_size env)
                        (midx_body names perm objs ++ t0 ++ h) ptr = Ok s).
  { intros j ptr Hptr. cbn [image_reader pack_names] in Hptr.
    rewrite list_lookup_fmap in Hptr.
    destruct (name_starts 0 names !! j) as [s|] eqn:Es; [|discriminate Hptr].
    cbn in Hptr. injection Hptr as <-.
    assert (Hs' : In s (name_starts 0 names))
      by (apply list_elem_of_In, list_elem_of_lookup; eauto).
    apply name_starts_range in Hs'.
    pose proof (length_pnam_image names) as Hlp.
    pose proof (length_body names perm objs W) as Hlb.
    apply cstring_at_ok.
    destruct Hend as [Hnul|Hpage]; [left|right; exact Hpage].
    replace (midx_body names perm objs ++ t0 ++ h)
      with ((midx_body names perm objs ++ t0) ++ h) in Hnul |- *
      by (rewrite <- app_assoc; reflexivity).
    rewrite (length_app _ h), Hh in Hnul.
    rewrite drop_app_length' in Hnul by lia.
    rewrite drop_app_le.
    2:{ rewrite length_app. unfold t0. rewrite length_take. lia. }
    apply in_or_app. right. exact Hnul. }
  split.
  - unfold checksum_reported, midx_verify. rewrite Hload. cbn [bind].
    apply verify_image; assumption.
  - eexists. exact Hload.
Qed.

(** The file written for two packs and two objects, without the byte
    before its hash; the hash of the example holds a NUL. *)
Lemma truncation_is_reported_witness :
  truncation_reported toy_hash example_env 0 truncated_file.
Proof.
  apply (truncation_is_reported toy_hash example_env 0 two_packs two_objects).
  - intros x. unfold toy_hash. rewrite !length_app, !length_be32. reflexivity.
  - discriminate.
  - by_computation.
  - by_computation.
  - by_computation.
  - all_of.
  - vm_compute. reflexivity.
  - unfold hash_differs. vm_compute. discriminate.
  - left. vm_compute. left. reflexivity.
Defined.

(** C9 (counterexample): the file written for two packs and two objects,
    without the byte before its hash, is opened by the loader. *)
Lemma truncated_file_is_opened :
  usable false truncated_file /\
  ~ truncation_refused toy_hash example_env 0 truncated_file.
Proof.
  assert (H : usable false truncated_file).
  { eexists. vm_compute. reflexivity. }
  split; [exact H|]. intros (_ & Hnot). exact (Hnot H).
Qed.

End Truncated.

(* ===================================================================== *)
(** * The sparse flag after a sequence of operations *)
(* ===================================================================== *)

Module SparseFlagInvariant.
Import SparseIndex SparseSpec SparseExamples SparseClaims SparseFlag.

(** C10 (amended): after any sequence of [convert_to_sparse] and
    [ensure_full_index] operations that starts from an index whose flag
    is set if it holds a sparse-directory entry, the flag is set if the
    entries hold a sparse-directory entry; and [ensure_full_index] then
    leaves the flag clear and no sparse-directory entry.  The flag can be
    set without any sparse-directory entry. *)
Theorem flag_covers_after_ops (env : sparse_env) (ops : list index_op)
    (st0 st : index_state) :
  flag_covers_sparse_dir st0 ->
  run_ops env ops st0 = Ok st ->
  flag_covers_sparse_dir st /\
  sparse_index (ensure_full_index env st) = false /\
  has_sparse_dir (ensure_full_index env st) = false.
Proof.
  revert st0. induction ops as [|op ops IH]; intros st0 Hcov Hrun.
  - cbn [run_ops] in Hrun. injection Hrun as <-.
    split; [exact Hcov|]. apply ensure_full_index_full, Hcov.
  - cbn [run_ops] in Hrun. apply bind_Ok_inv in Hrun.
    destruct Hrun as (st1 & Hop & Hrun).
    apply (IH st1); [|exact Hrun].
    eapply apply_op_covers; eauto.
Qed.

(** The four entries of the example: contracted, expanded, and
    contracted again. *)
Lemma flag_covers_after_ops_witness :
  exists st,
    run_ops four_env [ConvertToSparse 10; EnsureFullIndex; ConvertToSparse 10]
      four_index = Ok st /\
    flag_covers_sparse_dir st /\
    sparse_index (ensure_full_index four_env st) = false /\
    has_sparse_dir (ensure_full_index four_env st) = false.
Proof.
  eexists. split; [vm_compute; reflexivity|].
  eapply (flag_covers_after_ops four_env
            [ConvertToSparse 10; EnsureFullIndex; ConvertToSparse 10] four_index).
  - intros H. vm_compute in H. discriminate H.
  - vm_compute. reflexivity.
Defined.

(** C10 (counterexample): an index of one file inside the cone is
    converted without any entry being replaced, and its flag is set
    all the same. *)
Lemma flag_without_sparse_dir :
  exists st,
    run_ops one_env [ConvertToSparse 10] one_index = Ok st /\
    flag_iff_sparse_dir one_index /\
    sparse_index st = true /\ has_sparse_dir st = false /\
    ~ flag_iff_sparse_dir st.
Proof.
  eexists. split; [vm_compute; reflexivity|].
  split; [split; intros H; vm_compute in H; discriminate H|].
  split; [reflexivity|]. split; [vm_compute; reflexivity|].
  intros [H _]. specialize (H eq_refl). vm_compute in H. discriminate H.
Qed.

End SparseFlagInvariant.
(* ===================================================================== *)
(** * Proofs: the pack names of a written file *)
(* ===================================================================== *)

Module NameFacts.
Import Midx MidxSpec MidxLookup PackFacts ReadFacts SortPacks VerifyFacts.

Lemma strcmp_refl a : strcmp a a = 0.
Proof. unfold strcmp. apply memcmp_refl. Qed.

Lemma unsigned_pos b : b <> Byte.x00 -> 0 < byte.unsigned b.
Proof.
  intros Hb. pose proof (byte.unsigned_range b) as Hr.
  destruct (Z.eq_dec (byte.unsigned b) 0) as [E|E]; [|lia].
  exfalso. apply Hb. apply byte.unsigned_inj. rewrite E. reflexivity.
Qed.

(** On C strings [strcmp] is a strict order. *)
Lemma strcmp_trans_lt a b c :
  nul_free a -> nul_free b -> nul_free c ->
  strcmp a b < 0 -> strcmp b c < 0 -> strcmp a c < 0.
Proof.
  unfold strcmp, nul_free. revert b c.
  induction a as [|x a IH]; intros [|y b] [|z c] Ha Hb Hc Hab Hbc;
    cbn [app memcmp] in *;
    change (byte.unsigned Byte.x00) with 0 in *;
    repeat match goal with
           | H : Forall _ (_ :: _) |- _ => inversion H; subst; clear H
           end;
    repeat match goal with
           | H : ?b <> Byte.x00 |- _ => apply unsigned_pos in H
           end;
    repeat match goal with
           | H : context [?u =? ?v] |- _ => destruct (Z.eqb_spec u v)
           | |- context [?u =? ?v] => destruct (Z.eqb_spec u v)
           end;
    try lia.
  apply (IH b c); assumption.
Qed.

Lemma names_ascending_head a l :
  names_ascending (a :: l) -> Forall nul_free (a :: l) ->
  Forall (fun n => strcmp a n < 0) l.
Proof.
  revert a. induction l as [|b l IH]; intros a Hasc Hnf; [constructor|].
  destruct Hasc as (Hab & Hrest).
  inversion Hnf as [|? ? Ha Hnf']; subst.
  inversion Hnf' as [|? ? Hb Hnf'']; subst.
  constructor; [exact Hab|].
  specialize (IH b Hrest Hnf').
  rewrite Forall_forall in IH, Hnf'' |- *.
  intros n Hn. apply (strcmp_trans_lt a b n); auto.
Qed.

(** Names in strictly ascending order are in order at any two places. *)
Lemma names_ascending_lookup names i j a b :
  names_ascending names -> Forall nul_free names ->
  names !! i = Some a -> names !! j = Some b -> (i < j)%nat -> strcmp a b < 0.
Proof.
  revert i j. induction names as [|n names IH]; intros i j Hasc Hnf Hi Hj Hlt.
  - discriminate.
  - destruct j as [|j]; [lia|]. cbn in Hj.
    destruct i as [|i].
    + cbn in Hi. injection Hi as ->.
      pose proof (names_ascending_head a names Hasc Hnf) as Hall.
      rewrite Forall_forall in Hall. apply Hall.
      apply list_elem_of_In, list_elem_of_lookup. eauto.
    + cbn in Hi. apply (IH i j); auto; [|inversion Hnf; auto|lia].
      destruct names; [exact I|]. destruct Hasc as (_ & H). exact H.
Qed.

(** Reading a C string that is followed by its terminator. *)
Lemma c_str_terminated n rest :
  nul_free n -> c_str (n ++ Byte.x00 :: rest) = Some n.
Proof.
  induction n as [|b n IH]; intros Hnf.
  - reflexivity.
  - inversion Hnf as [|? ? Hb Hnf']; subst. cbn [app c_str].
    destruct (byte.unsigned b =? 0) eqn:E.
    + apply Z.eqb_eq in E. apply unsigned_pos in Hb. lia.
    + rewrite IH by exact Hnf'. reflexivity.
Qed.

Lemma name_starts_lookup c names j n :
  names !! j = Some n ->
  name_starts c names !! j = Some (c + names_size (take j names)).
Proof.
  revert c j. induction names as [|a names IH]; intros c j Hj; [discriminate|].
  destruct j as [|j].
  - cbn. f_equal. lia.
  - cbn in Hj. specialize (IH (c + (strlen a + 1)) j Hj).
    cbn [name_starts take]. rewrite names_size_cons.
    change (name_starts (c + (strlen a + 1)) names !! j =
            Some (c + (strlen a + 1 + names_size (take j names)))).
    rewrite IH. f_equal. lia.
Qed.

(** The Pack Names chunk from the start of name [j] on. *)
Lemma drop_pnam_image names j n rest :
  names !! j = Some n ->
  drop (Z.to_nat (names_size (take j names))) (pnam_image names ++ rest) =
  n ++ Byte.x00 :: (pnam_image (drop (S j) names) ++ rest).
Proof.
  revert j. induction names as [|a names IH]; intros j Hj; [discriminate|].
  destruct j as [|j].
  - cbn in Hj. injection Hj as ->. cbn [take names_size fold_right].
    change (Z.to_nat 0) with 0%nat. rewrite drop_0.
    unfold pnam_image. cbn [map concat drop]. rewrite <- !app_assoc. reflexivity.
  - cbn in Hj. cbn [take]. rewrite names_size_cons.
    pose proof (names_size_nonneg (take j names)) as Hnn.
    unfold strlen.
    replace (Z.to_nat (Z.of_nat (length a) + 1 + names_size (take j names)))
      with (length (a ++ [Byte.x00]) + Z.to_nat (names_size (take j names)))%nat
      by (rewrite length_app; cbn [length]; lia).
    unfold pnam_image at 1. cbn [map concat]. rewrite <- app_assoc.
    rewrite drop_app_add. fold (pnam_image names).
    rewrite (IH j Hj). reflexivity.
Qed.

Section Names.
Variables (names : list cstring) (perm : list Z) (objs : list pack_midx_entry).
Variable trailer : list byte.
Variable page : Z.
Hypothesis W : writable names perm objs.
Hypothesis Hnf : Forall nul_free names.

Let tail := pnam_image names ++ trailer.
Let file := midx_body names perm objs ++ tail.
Let m := image_reader file names objs (Z.of_nat (length objs)).

(** Where the reader points for pack [j]. *)
Lemma pack_name_ptr j n :
  names !! j = Some n ->
  pack_names m !! j = Some (off_pnam names objs + names_size (take j names)).
Proof.
  intros Hj. cbn [m image_reader pack_names].
  rewrite list_lookup_fmap, (name_starts_lookup 0 names j n Hj).
  cbn [fmap option_fmap option_map]. f_equal.
Qed.

(** The C string found there is the name, whatever the page size. *)
Lemma cstring_at_name j n :
  names !! j = Some n ->
  cstring_at page file (off_pnam names objs + names_size (take j names)) = Ok n.
Proof.
  intros Hj. unfold cstring_at, file.
  pose proof (length_body names perm objs W) as Hlen.
  pose proof (names_size_nonneg (take j names)) as Hnn.
  replace (Z.to_nat (off_pnam names objs + names_size (take j names)))
    with (length (midx_body names perm objs) +
          Z.to_nat (names_size (take j names)))%nat by lia.
  rewrite drop_app_add. unfold tail.
  rewrite (drop_pnam_image names j n trailer Hj).
  rewrite c_str_terminated; [reflexivity|].
  rewrite Forall_forall in Hnf. apply Hnf.
  apply list_elem_of_In, list_elem_of_lookup. eauto.
Qed.

Lemma length_pack_names : length (pack_names m) = length names.
Proof.
  cbn [m image_reader pack_names]. rewrite length_map. apply length_name_starts.
Qed.

(** The binary search of [contains_pack] between two places of the
    names, when the names before the first are below the target and the
    names from the last on are above it. *)
Lemma contains_pack_loop_image fuel target first last :
  nul_free target ->
  0 <= first <= last -> last <= Z.of_nat (length names) ->
  last - first <= Z.of_nat fuel ->
  (forall k n, names !! k = Some n -> Z.of_nat k < first -> strcmp n target < 0) ->
  (forall k n, names !! k = Some n -> last <= Z.of_nat k -> strcmp target n < 0) ->
  (In target names -> contains_pack_loop fuel page m target first last = Ok 1) /\
  (~ In target names -> contains_pack_loop fuel page m target first last = Ok 0).
Proof.
  intros Ht. revert first last.
  assert (Hp : Z.of_nat (length names) < 2 ^ 30) by (destruct W as ((? & _) & _); assumption).
  induction fuel as [|fuel IH]; intros first last Hfl Hlast Hfuel Hlo Hhi.
  - assert (first = last) by lia. subst last.
    cbn [contains_pack_loop]. rewrite Z.ltb_irrefl. split; [|reflexivity].
    intros Hin. exfalso.
    apply list_elem_of_In, list_elem_of_lookup in Hin. destruct Hin as (k & Hk).
    pose proof (strcmp_refl target) as Hr.
    destruct (Z_lt_ge_dec (Z.of_nat k) first) as [Hlt|Hge].
    + specialize (Hlo k target Hk Hlt). lia.
    + specialize (Hhi k target Hk ltac:(lia)). lia.
  - cbn [contains_pack_loop].
    destruct (first <? last) eqn:E.
    2:{ apply Z.ltb_ge in E. assert (first = last) by lia. subst last.
        split; [|reflexivity].
        intros Hin. exfalso.
        apply list_elem_of_In, list_elem_of_lookup in Hin. destruct Hin as (k & Hk).
        pose proof (strcmp_refl target) as Hr.
        destruct (Z_lt_ge_dec (Z.of_nat k) first) as [Hlt|Hge].
        + specialize (Hlo k target Hk Hlt). lia.
        + specialize (Hhi k target Hk ltac:(lia)). lia. }
    apply Z.ltb_lt in E.
    set (mid := first + (last - first) / 2).
    assert (Hmid : first <= mid < last).
    { unfold mid. pose proof (Z.div_pos (last - first) 2 ltac:(lia) ltac:(lia)).
      assert ((last - first) / 2 < last - first)
        by (apply Z.div_lt_upper_bound; lia).
      lia. }
    rewrite (u32_small mid) by lia.
    rewrite (u32_small (mid + 1)) by lia.
    destruct (lookup_lt_is_Some_2 names (Z.to_nat mid) ltac:(lia)) as (n & Hn).
    destruct (array_get_ok (pack_names m) mid) as (ptr & Hget & Hptr).
    { rewrite length_pack_names. lia. }
    rewrite Hget. cbn [bind].
    rewrite (pack_name_ptr _ n Hn) in Hptr. injection Hptr as <-.
    cbn [m image_reader data]. fold file. rewrite (cstring_at_name _ n Hn).
    cbn [bind]. fold m.
    assert (Hnn : nul_free n).
    { rewrite Forall_forall in Hnf. apply Hnf.
      apply list_elem_of_In, list_elem_of_lookup. eauto. }
    destruct (strcmp target n =? 0) eqn:E0.
    + apply Z.eqb_eq in E0. apply strcmp_eq in E0; auto. subst n.
      split; [reflexivity|].
      intros Hnot. exfalso. apply Hnot.
      apply list_elem_of_In, list_elem_of_lookup. eauto.
    + apply Z.eqb_neq in E0.
      destruct (strcmp target n >? 0) eqn:E1.
      * assert (Hgt : strcmp n target < 0).
        { rewrite (strcmp_antisym target n).
          destruct (Z.gtb_spec (strcmp target n) 0); [lia|discriminate]. }
        apply IH; try lia.
        -- intros k x Hk Hlt.
           destruct (Z.eq_dec (Z.of_nat k) mid) as [Heq|Hne].
           ++ rewrite <- Heq, Nat2Z.id in Hn. congruence.
           ++ apply (strcmp_trans_lt x n target); auto.
              ** rewrite Forall_forall in Hnf. apply Hnf.
                 apply list_elem_of_In, list_elem_of_lookup. eauto.
              ** apply (names_ascending_lookup names k (Z.to_nat mid) x n); auto;
                   [destruct W as (_ & ? & _); assumption|lia].
        -- exact Hhi.
      * assert (Hlt : strcmp target n < 0).
        { destruct (Z.gtb_spec (strcmp target n) 0); [discriminate|lia]. }
        apply IH; try lia.
        -- exact Hlo.
        -- intros k x Hk Hge.
           destruct (Z.eq_dec (Z.of_nat k) mid) as [Heq|Hne].
           ++ rewrite <- Heq, Nat2Z.id in Hn. congruence.
           ++ apply (strcmp_trans_lt target n x); auto.
              ** rewrite Forall_forall in Hnf. apply Hnf.
                 apply list_elem_of_In, list_elem_of_lookup. eauto.
              ** apply (names_ascending_lookup names (Z.to_nat mid) k n x); auto;
                   [destruct W as (_ & ? & _); assumption|lia].
Qed.

(** [contains_pack] on the reader of a written file answers whether the
    name is one of the pack names. *)
Lemma contains_pack_image target :
  nul_free target ->
  (In target names -> contains_pack page m target = Ok 1) /\
  (~ In target names -> contains_pack page m target = Ok 0).
Proof.
  intros Ht. unfold contains_pack. cbn [m image_reader num_packs]. fold file. fold m.
  apply contains_pack_loop_image; [exact Ht|lia|lia|lia| |].
  - intros k n _ Hk. lia.
  - intros k n Hk Hge. apply lookup_lt_Some in Hk. lia.
Qed.

End Names.

End NameFacts.
(* ===================================================================== *)
(** * Proofs: the reader of a file that the writer produced *)
(* ===================================================================== *)

Module WrittenReader.
Import Midx MidxSpec GlueFacts SuccessFacts.

(** A file that [write_midx_file] produced is the image of its sorted pack
    names and its entries, and the reader of the image loads it. *)
Lemma written_reader (hash_fn : list byte -> list byte)
    (names0 : list cstring) (objs : list pack_midx_entry) (file : list byte) :
  write_midx_file hash_fn true names0 objs = Ok (Some file) ->
  sizes_ok names0 objs ->
  Forall (wf_entry (Z.of_nat (length names0))) objs ->
  exists names perm,
    sort_packs_by_name names0 = Ok (names, perm) /\
    length names = length names0 /\
    Permutation names names0 /\
    (forall i n, names0 !! i = Some n ->
       exists j, perm !! i = Some (Z.of_nat j) /\ names !! j = Some n) /\
    writable names perm objs /\
    Forall (fun v => 0 <= v < 2 ^ 32) perm /\
    file = midx_body names perm objs ++
           (pnam_image names ++ hash_fn (midx_image names perm objs)) /\
    load_midxed_git_one false (Some file) =
    Ok (Some (image_reader file names objs (Z.of_nat (length objs)))).
Proof.
  intros Hw Hsz Hwf.
  destruct (success_writable hash_fn names0 objs file Hw Hsz Hwf)
    as (names & perm & Hs & W & Hrange & Hfile).
  destruct (sorted_facts names0 names perm Hs) as (Hln & _ & Hperm & _ & Hmap).
  exists names, perm.
  assert (Hfile' : file = midx_body names perm objs ++
                     (pnam_image names ++ hash_fn (midx_image names perm objs))).
  { rewrite Hfile. unfold midx_image. rewrite <- app_assoc. reflexivity. }
  repeat (split; [assumption|]).
  rewrite Hfile'. apply load_body; [exact W|].
  intros s Hin. apply names_fit, Hin.
Qed.

(** Entries that can be written name their pack among the sorted names. *)
Lemma perm_at_name (names0 names : list cstring) (perm : list Z)
    (objs : list pack_midx_entry) (e : pack_midx_entry) :
  (forall i n, names0 !! i = Some n ->
     exists j, perm !! i = Some (Z.of_nat j) /\ names !! j = Some n) ->
  Forall (wf_entry (Z.of_nat (length names0))) objs ->
  In e objs ->
  exists n j,
    names0 !! Z.to_nat (pack_int_id e) = Some n /\
    perm_at perm e = Z.of_nat j /\ names !! j = Some n.
Proof.
  intros Hmap Hwf Hin. rewrite Forall_forall in Hwf.
  destruct (Hwf e Hin) as (_ & Hid & _).
  destruct (lookup_lt_is_Some_2 names0 (Z.to_nat (pack_int_id e)) ltac:(lia))
    as (n & Hn).
  destruct (Hmap _ n Hn) as (j & Hp & Hj).
  exists n, j. split; [exact Hn|]. split; [|exact Hj].
  unfold perm_at. rewrite Hp. reflexivity.
Qed.

End WrittenReader.
(* ===================================================================== *)
(** * Proofs: opening the packs of a written file *)
(* ===================================================================== *)

Module OpenFacts.
Import Midx MidxSpec MidxLookup MidxProps PackFacts ReadFacts WriteFacts
       VerifyFacts NameFacts LookupFacts.

Lemma lookup_repeat {A : Type} (x : A) (n i : nat) :
  (i < n)%nat -> repeat x n !! i = Some x.
Proof.
  revert i. induction n as [|n IH]; intros i Hi; [lia|].
  destruct i as [|i]; [reflexivity|]. cbn. apply IH. lia.
Qed.

Lemma slice_header_num_packs nc p rest :
  slice (header_bytes nc p ++ rest) 12 4 = Ok (be32 p).
Proof.
  unfold header_bytes. rewrite <- !app_assoc.
  rewrite !app_assoc. rewrite <- (app_assoc _ (be32 p) rest).
  match goal with
  | |- slice (?pre ++ _ ++ _) _ _ = _ =>
      replace 12 with (Z.of_nat (length pre) + 0)
        by (rewrite !length_app, !length_be32; reflexivity)
  end.
  rewrite slice_app_mid by (rewrite ?length_be32; lia).
  replace 4 with (Z.of_nat (length (be32 p))) at 1
    by (rewrite length_be32; reflexivity).
  apply slice_all.
Qed.

Section Open.
Variables (names : list cstring) (perm : list Z) (objs : list pack_midx_entry).
Variable trailer : list byte.
Variable env : verify_env.
Hypothesis W : writable names perm objs.
Hypothesis Hnf : Forall nul_free names.
Hypothesis Hrange : Forall (fun v => 0 <= v < 2 ^ 32) perm.
Hypothesis H20 : 20 * Z.of_nat (length objs) < 2 ^ 32.

Let tail := pnam_image names ++ trailer.
Let file := midx_body names perm objs ++ tail.
Let m := image_reader file names objs (Z.of_nat (length objs)).
Let p := Z.of_nat (length names).
Let raw := host_num_packs env p.

(** The count of the packs as [prepare_midx_pack] reads it. *)
Lemma hdr_num_packs_image : hdr_num_packs env m = Ok raw.
Proof.
  unfold hdr_num_packs. cbn [m image_reader data].
  unfold file, midx_body. rewrite <- app_assoc.
  rewrite slice_header_num_packs. reflexivity.
Qed.

(** A pack id that is not below that count is refused. *)
Lemma prepare_refused ps i :
  raw <= i -> prepare_midx_pack env m ps i = Ok (1, ps).
Proof.
  intros Hi. unfold prepare_midx_pack. rewrite hdr_num_packs_image. cbn [bind].
  replace (i >=? raw) with true
    by (symmetry; rewrite Z.geb_leb; apply Z.leb_le; lia).
  reflexivity.
Qed.

(** Preparing a pack that is not open asks [add_packed_git] for it by the
    name the MIDX lists, and stores the answer. *)
Lemma prepare_closed ps j n :
  Z.of_nat j < raw ->
  names !! j = Some n -> ps !! j = Some None ->
  prepare_midx_pack env m ps (Z.of_nat j) =
  Ok (match add_packed_git env (idx_name env n) with Some _ => 0 | None => 1 end,
      <[j := add_packed_git env (idx_name env n)]> ps).
Proof.
  intros Hraw Hn Hps.
  pose proof (lookup_lt_Some _ _ _ Hn) as Hj.
  pose proof (lookup_lt_Some _ _ _ Hps) as Hjp.
  unfold prepare_midx_pack. rewrite hdr_num_packs_image. cbn [bind].
  replace (Z.of_nat j >=? raw) with false
    by (symmetry; rewrite Z.geb_leb; apply Z.leb_gt; lia).
  destruct (array_get_ok ps (Z.of_nat j) ltac:(lia)) as (slot & -> & Hslot).
  rewrite Nat2Z.id, Hps in Hslot. injection Hslot as <-.
  cbn [bind].
  destruct (array_get_ok (pack_names m) (Z.of_nat j)) as (ptr & -> & Hptr).
  { unfold m, file, tail. rewrite length_pack_names. lia. }
  rewrite Nat2Z.id in Hptr.
  unfold m, file, tail in Hptr.
  rewrite (pack_name_ptr names perm objs trailer j n Hn) in Hptr.
  injection Hptr as <-.
  cbn [bind]. cbn [m image_reader data]. unfold file, tail.
  rewrite (cstring_at_name names perm objs trailer (page_size env) W Hnf j n Hn).
  cbn [bind]. fold (idx_name env n).
  unfold array_set.
  replace ((0 <=? Z.of_nat j) && (Z.of_nat j <? Z.of_nat (length ps))) with true
    by (symmetry; apply andb_true_iff; split;
        [apply Z.leb_le|apply Z.ltb_lt]; lia).
  cbn [bind]. rewrite Nat2Z.id. reflexivity.
Qed.

(** The name of a pack of the file can be read for a report. *)
Lemma report_pack_image j n st msg :
  names !! j = Some n ->
  report_pack env m (Z.of_nat j) st msg = Ok (midx_report st msg).
Proof.
  intros Hn. pose proof (lookup_lt_Some _ _ _ Hn) as Hj.
  unfold report_pack.
  destruct (array_get_ok (pack_names m) (Z.of_nat j)) as (ptr & -> & Hptr).
  { unfold m, file, tail. rewrite length_pack_names. lia. }
  rewrite Nat2Z.id in Hptr.
  unfold m, file, tail in Hptr.
  rewrite (pack_name_ptr names perm objs trailer j n Hn) in Hptr.
  injection Hptr as <-.
  cbn [bind]. cbn [m image_reader data]. unfold file, tail.
  rewrite (cstring_at_name names perm objs trailer (page_size env) W Hnf j n Hn).
  reflexivity.
Qed.

(** Preparing a pack that is open leaves everything as it is. *)
Lemma prepare_open ps j n q :
  Z.of_nat j < raw ->
  names !! j = Some n -> ps !! j = Some (Some q) ->
  prepare_midx_pack env m ps (Z.of_nat j) = Ok (0, ps).
Proof.
  intros Hraw Hn Hps.
  pose proof (lookup_lt_Some _ _ _ Hn) as Hj.
  pose proof (lookup_lt_Some _ _ _ Hps) as Hjp.
  unfold prepare_midx_pack. rewrite hdr_num_packs_image. cbn [bind].
  replace (Z.of_nat j >=? raw) with false
    by (symmetry; rewrite Z.geb_leb; apply Z.leb_gt; lia).
  destruct (array_get_ok ps (Z.of_nat j) ltac:(lia)) as (slot & -> & Hslot).
  rewrite Nat2Z.id, Hps in Hslot. injection Hslot as <-.
  reflexivity.
Qed.

(** [find_pack_entry_midx] for an entry of the file whose pack is not
    open yet. *)
Lemma find_entry_closed ps k e j n :
  Z.of_nat j < raw ->
  objs !! k = Some e -> perm_at perm e = Z.of_nat j ->
  names !! j = Some n -> ps !! j = Some None ->
  find_pack_entry_midx env (oid e) m ps =
  Ok (option_map (fun q => (Some q, offset e))
        (add_packed_git env (idx_name env n)),
      <[j := add_packed_git env (idx_name env n)]> ps).
Proof.
  intros Hraw Hk Hp Hn Hps.
  pose proof (lookup_lt_Some _ _ _ Hn) as Hj.
  pose proof (lookup_lt_Some _ _ _ Hps) as Hjp.
  unfold find_pack_entry_midx. unfold m, file.
  rewrite (lookup_details_hit names perm objs tail W Hrange H20 k e Hk).
  cbn [bind d_pack_int_id d_offset image_reader num_packs].
  rewrite Hp.
  replace (Z.of_nat j >=? Z.of_nat (length names)) with false
    by (symmetry; rewrite Z.geb_leb; apply Z.leb_gt; lia).
  fold file. fold m. rewrite (prepare_closed ps j n Hraw Hn Hps). cbn [bind].
  destruct (add_packed_git env (idx_name env n)) as [q|] eqn:Eq;
    cbn [Z.eqb negb option_map]; [|reflexivity].
  destruct (array_get_ok (<[j := Some q]> ps) (Z.of_nat j)) as (slot & -> & Hslot).
  { rewrite length_insert. lia. }
  rewrite Nat2Z.id, list_lookup_insert_eq in Hslot by lia.
  injection Hslot as <-. reflexivity.
Qed.

(** [find_pack_entry_midx] for an object id that the file does not hold. *)
Lemma find_entry_miss ps target :
  wf_oid target -> (forall e, In e objs -> oid e <> target) ->
  find_pack_entry_midx env target m ps = Ok (None, ps).
Proof.
  intros Hw Hnone. unfold find_pack_entry_midx, m, file.
  rewrite (lookup_details_miss names perm objs tail W H20 target Hw Hnone).
  reflexivity.
Qed.

End Open.

End OpenFacts.
(* ===================================================================== *)
(** * Proofs: what the verifier reports on a written file *)
(* ===================================================================== *)

Module VerifyExact.
Import Midx MidxSpec MidxLookup MidxProps OidOrder FanoutFacts PackFacts
       ReadFacts WriteFacts LookupFacts VerifyFacts NameFacts OpenFacts.

Lemma report_error st msg : verify_midx_error (midx_report st msg) <> 0.
Proof. cbn. discriminate. Qed.

Section Exact.
Variables (names : list cstring) (perm : list Z) (objs : list pack_midx_entry).
Variable h : list byte.
Variable env : verify_env.
Hypothesis W : writable names perm objs.
Hypothesis Hnf : Forall nul_free names.
Hypothesis Hrange : Forall (fun v => 0 <= v < 2 ^ 32) perm.
Hypothesis H20 : 20 * Z.of_nat (length objs) < 2 ^ 32.
Hypothesis Hpn : forall e, In e objs ->
  exists j n, perm_at perm e = Z.of_nat j /\ names !! j = Some n.

Let tail := pnam_image names ++ h.
Let file := midx_body names perm objs ++ tail.
Let m := image_reader file names objs (Z.of_nat (length objs)).
Let p := Z.of_nat (length names).
Let raw := host_num_packs env p.

(** The first loop of [midx_verify]: every pack that is not refused is
    asked for, and nothing is reported exactly when no pack is refused
    and every pack opens with a usable index. *)
Lemma verify_packs_exact n i st :
  i + Z.of_nat n = p -> 0 <= i ->
  asked env names raw (packs st) i ->
  exists st',
    verify_packs env m n i st = Ok st' /\
    asked env names raw (packs st') p /\
    (verify_midx_error st <> 0 -> verify_midx_error st' <> 0) /\
    ((forall j n, i <= Z.of_nat j -> names !! j = Some n ->
        Z.of_nat j < raw /\
        exists q, add_packed_git env (idx_name env n) = Some q /\ usable_index q) ->
     verify_midx_error st' = verify_midx_error st /\ reports st' = reports st) /\
    (verify_midx_error st' = 0 ->
     forall j n, i <= Z.of_nat j -> names !! j = Some n ->
       Z.of_nat j < raw /\
       exists q, add_packed_git env (idx_name env n) = Some q /\ usable_index q).
Proof.
  revert i st. induction n as [|n IH]; intros i st Hin Hi Hasked.
  - exists st. cbn [verify_packs]. replace p with i by lia.
    split; [reflexivity|]. split; [exact Hasked|]. split; [auto|].
    split; [auto|].
    intros _ j x Hj Hx. apply lookup_lt_Some in Hx. unfold p in Hin. lia.
  - cbn [verify_packs].
    destruct Hasked as (Hlen & Hslots).
    destruct (lookup_lt_is_Some_2 names (Z.to_nat i) ltac:(unfold p in Hin; lia))
      as (x & Hx).
    pose proof (Hslots _ x Hx) as Hslot.
    rewrite Z2Nat.id in Hslot by lia. rewrite Z.ltb_irrefl in Hslot.
    cbn [andb] in Hslot.
    destruct (Z_lt_ge_dec i raw) as [Hraw|Hraw].
    + pose proof (prepare_closed names perm objs h env W Hnf
                    (packs st) (Z.to_nat i) x ltac:(fold p; fold raw; lia)
                    Hx Hslot) as Hprep.
      rewrite Z2Nat.id in Hprep by lia.
      fold tail in Hprep. fold file in Hprep. fold m in Hprep.
      rewrite Hprep. cbn [bind].
      set (ps' := <[Z.to_nat i := add_packed_git env (idx_name env x)]> (packs st)).
      assert (Hasked' : asked env names raw ps' (i + 1)).
      { split; [unfold ps'; rewrite length_insert; exact Hlen|].
        intros j y Hy. unfold ps'.
        destruct (Nat.eq_dec j (Z.to_nat i)) as [->|Hne].
        - rewrite list_lookup_insert_eq by (apply lookup_lt_Some in Hx; lia).
          rewrite Hx in Hy. injection Hy as <-.
          replace (Z.of_nat (Z.to_nat i) <? i + 1) with true
            by (symmetry; apply Z.ltb_lt; lia).
          replace (Z.of_nat (Z.to_nat i) <? raw) with true
            by (symmetry; apply Z.ltb_lt; lia).
          reflexivity.
        - rewrite list_lookup_insert_ne by congruence.
          rewrite (Hslots j y Hy).
          replace (Z.of_nat j <? i + 1) with (Z.of_nat j <? i); [reflexivity|].
          destruct (Z.ltb_spec (Z.of_nat j) i), (Z.ltb_spec (Z.of_nat j) (i + 1));
            try reflexivity; lia. }
      destruct (add_packed_git env (idx_name env x)) as [q|] eqn:Eq;
        cbn [Z.eqb negb].
      * cbn [set_packs packs]. unfold array_get.
        replace (0 <=? i) with true by (symmetry; apply Z.leb_le; lia).
        unfold ps' at 1.
        rewrite list_lookup_insert_eq by (apply lookup_lt_Some in Hslot; lia).
        cbn [bind].
        set (st1 := set_packs st ps').
        set (st2 := if negb (index_data q) && negb (open_pack_index q =? 0)
                    then midx_report st1 "failed to open index for pack"
                    else st1).
        assert (Hst2 : (if negb (index_data q) && negb (open_pack_index q =? 0)
                        then report_pack env m i st1 "failed to open index for pack"
                        else Ok st1) = Ok st2).
        { unfold st2.
          destruct (negb (index_data q) && negb (open_pack_index q =? 0));
            [|reflexivity].
          pose proof (report_pack_image names perm objs h env W Hnf
                        (Z.to_nat i) x st1 "failed to open index for pack" Hx) as Hr.
          rewrite Z2Nat.id in Hr by lia. exact Hr. }
        rewrite Hst2. cbn [bind].
        assert (Hp2 : packs st2 = ps').
        { unfold st2.
          destruct (negb (index_data q) && negb (open_pack_index q =? 0));
            reflexivity. }
        destruct (IH (i + 1) st2) as (st' & Hrun & Ha' & Hmono & Hclean & Hsound);
          try lia.
        { rewrite Hp2. exact Hasked'. }
        exists st'. split; [exact Hrun|]. split; [exact Ha'|].
        assert (He2 : verify_midx_error st <> 0 -> verify_midx_error st2 <> 0).
        { unfold st2.
          destruct (negb (index_data q) && negb (open_pack_index q =? 0));
            [intros _; apply report_error|auto]. }
        split; [auto|]. split.
        -- intros Hall.
           destruct (Hall (Z.to_nat i) x ltac:(lia) Hx) as (_ & q' & Hq' & Hu).
           assert (q' = q) by congruence. subst q'.
           assert (Hst21 : st2 = st1).
           { unfold st2. destruct Hu as [-> | ->]; cbn [negb andb]; [reflexivity|].
             rewrite andb_false_r. reflexivity. }
           destruct Hclean as (He & Hr).
           { intros j y Hj Hy. apply (Hall j y); [lia|exact Hy]. }
           rewrite He, Hr, Hst21. split; reflexivity.
        -- intros Hz j y Hj Hy.
           destruct (Z.eq_dec (Z.of_nat j) i) as [Heq|Hne].
           ++ assert (j = Z.to_nat i) by lia. subst j.
              rewrite Hx in Hy. injection Hy as <-.
              split; [lia|].
              exists q. split; [exact Eq|].
              destruct (negb (index_data q) && negb (open_pack_index q =? 0)) eqn:Eb.
              ** exfalso. apply Hmono; [|exact Hz]. unfold st2. rewrite ?Eb.
                 apply report_error.
              ** apply andb_false_iff in Eb. destruct Eb as [Eb|Eb].
                 --- left. apply negb_false_iff in Eb. exact Eb.
                 --- right. apply negb_false_iff, Z.eqb_eq in Eb. exact Eb.
           ++ apply (Hsound Hz j y); [lia|exact Hy].
      * pose proof (report_pack_image names perm objs h env W Hnf
                      (Z.to_nat i) x (set_packs st ps') "failed to prepare pack" Hx)
          as Hr.
        rewrite Z2Nat.id in Hr by lia.
        fold tail in Hr. fold file in Hr. fold m in Hr. rewrite Hr. cbn [bind].
        set (st1 := midx_report (set_packs st ps') "failed to prepare pack").
        destruct (IH (i + 1) st1) as (st' & Hrun & Ha' & Hmono & Hclean & Hsound);
          try lia.
        { exact Hasked'. }
        exists st'. split; [exact Hrun|]. split; [exact Ha'|].
        assert (Hbad : verify_midx_error st' <> 0).
        { apply Hmono. apply report_error. }
        split; [auto|]. split.
        -- intros Hall.
           destruct (Hall (Z.to_nat i) x ltac:(lia) Hx) as (_ & q' & Hq' & _).
           congruence.
        -- intros Hz. contradiction.
    + pose proof (prepare_refused names perm objs h env (packs st) i
                    ltac:(fold p; fold raw; lia)) as Hprep.
      fold tail in Hprep. fold file in Hprep. fold m in Hprep.
      rewrite Hprep. cbn [bind Z.eqb negb].
      pose proof (report_pack_image names perm objs h env W Hnf
                    (Z.to_nat i) x (set_packs st (packs st))
                    "failed to prepare pack" Hx) as Hr.
      rewrite Z2Nat.id in Hr by lia.
      fold tail in Hr. fold file in Hr. fold m in Hr. rewrite Hr. cbn [bind].
      set (st1 := midx_report (set_packs st (packs st)) "failed to prepare pack").
      assert (Hasked' : asked env names raw (packs st) (i + 1)).
      { split; [exact Hlen|]. intros j y Hy. rewrite (Hslots j y Hy).
        destruct (Z.ltb_spec (Z.of_nat j) i), (Z.ltb_spec (Z.of_nat j) (i + 1)),
                 (Z.ltb_spec (Z.of_nat j) raw); try reflexivity; lia. }
      destruct (IH (i + 1) st1) as (st' & Hrun & Ha' & Hmono & Hclean & Hsound);
        try lia.
      { exact Hasked'. }
      exists st'. split; [exact Hrun|]. split; [exact Ha'|].
      assert (Hbad : verify_midx_error st' <> 0).
      { apply Hmono. apply report_error. }
      split; [auto|]. split.
      * intros Hall.
        destruct (Hall (Z.to_nat i) x ltac:(lia) Hx) as (Hlt & _). lia.
      * intros Hz. contradiction.
Qed.

(** The fanout check of the object loop reports nothing. *)
Lemma verify_fanout_exact fuel fb k pos st :
  0 <= pos -> fb <= 255 -> fb - pos < Z.of_nat fuel ->
  (forall b, pos <= b < fb -> count_le (map oid objs) b = Z.of_nat k) ->
  verify_fanout m (off_oidf names objs) fuel fb (Z.of_nat k) pos st =
  Ok (Z.max pos fb, st).
Proof.
  revert pos. induction fuel as [|fuel IH]; intros pos Hpos Hfb Hfuel Hcount.
  - cbn [verify_fanout].
    destruct (fb >? pos) eqn:E; [apply Z.gtb_lt in E; lia|].
    rewrite Z.max_l; [reflexivity|].
    destruct (Z.gtb_spec fb pos); [discriminate|lia].
  - cbn [verify_fanout]. destruct (fb >? pos) eqn:E.
    + apply Z.gtb_lt in E.
      cbn [m image_reader data]. rewrite (Z.mul_comm pos 4).
      unfold file.
      rewrite (read_fanout names perm objs tail W pos) by lia.
      cbn [bind]. rewrite (u32_small (pos + 1)) by lia.
      rewrite (Hcount pos) by lia. rewrite Z.eqb_refl. cbn [negb].
      fold file. fold m.
      rewrite IH; try lia.
      * f_equal. f_equal. lia.
      * intros b Hb. apply Hcount. lia.
    + rewrite Z.max_l; [reflexivity|].
      destruct (Z.gtb_spec fb pos); [discriminate|lia].
Qed.

(** The body of the object loop reports nothing exactly when the pack of
    the entry holds its object at its offset. *)
Lemma verify_object_exact k e st :
  objs !! k = Some e ->
  asked env names raw (packs st) p -> opened (packs st) p ->
  exists st',
    verify_object m (Z.of_nat k) (oid e) st = Ok st' /\
    after st st' /\
    (entry_checks env names perm e -> st' = st) /\
    (verify_midx_error st' = 0 -> entry_checks env names perm e).
Proof.
  intros Hk (Hlen & Hslots) Hop.
  assert (Hin : In e objs) by (apply list_elem_of_In, list_elem_of_lookup; eauto).
  destruct (Hpn e Hin) as (j & n & Hp & Hn).
  pose proof (lookup_lt_Some _ _ _ Hn) as Hj.
  unfold verify_object. unfold m, file.
  rewrite (details_image names perm objs tail W Hrange H20 k e Hk).
  cbn [bind d_pack_int_id d_offset image_reader num_packs].
  rewrite Hp.
  replace (Z.of_nat j >=? Z.of_nat (length names)) with false
    by (symmetry; rewrite Z.geb_leb; apply Z.leb_gt; lia).
  pose proof (Hslots j n Hn) as Hslot.
  destruct (Hop j ltac:(unfold p; lia)) as (q & Hq).
  rewrite Hslot in Hq. injection Hq as Hq.
  assert (Hapg : add_packed_git env (idx_name env n) = Some q).
  { destruct ((Z.of_nat j <? p) && (Z.of_nat j <? raw));
      [exact Hq|discriminate Hq]. }
  rewrite Hq in Hslot. clear Hq. rename Hapg into Hq.
  unfold array_get.
  replace (0 <=? Z.of_nat j) with true by (symmetry; apply Z.leb_le; lia).
  rewrite Nat2Z.id, Hslot. cbn [bind].
  assert (Huniq : forall j' n' q',
            perm_at perm e = Z.of_nat j' -> names !! j' = Some n' ->
            add_packed_git env (idx_name env n') = Some q' -> q' = q).
  { intros j' n' q' Hp' Hn' Hq'. assert (j' = j) by lia. subst j'.
    congruence. }
  destruct (find_pack_entry_pos (oid e) q) as [r|] eqn:Ef.
  - destruct (nth_packed_ok q (oid e) r Ef) as (off & Hoff). rewrite Hoff.
    cbn [bind].
    destruct (offset e =? off) eqn:Eo; cbn [negb].
    + apply Z.eqb_eq in Eo. subst off.
      eexists. split; [reflexivity|]. split; [apply after_refl|].
      split; [reflexivity|]. intros _.
      exists j, n, q. repeat split; auto. exists r. split; assumption.
    + apply Z.eqb_neq in Eo.
      eexists. split; [reflexivity|]. split; [apply after_report|]. split.
      * intros (j' & n' & q' & Hp' & Hn' & Hq' & (r' & Hf' & Ho')).
        rewrite (Huniq j' n' q' Hp' Hn' Hq') in *.
        rewrite Ef in Hf'. injection Hf' as <-. congruence.
      * intros Hz. exfalso. revert Hz. apply report_error.
  - eexists. split; [reflexivity|]. split; [apply after_report|]. split.
    + intros (j' & n' & q' & Hp' & Hn' & Hq' & (r' & Hf' & Ho')).
      rewrite (Huniq j' n' q' Hp' Hn' Hq') in *. congruence.
    + intros Hz. exfalso. revert Hz. apply report_error.
Qed.

(** The object loop reports nothing exactly when every entry is held by
    its pack. *)
Lemma verify_objects_exact n k pos prev st :
  (k + n = length objs)%nat ->
  match k with
  | O => pos = 0
  | S k' => exists e', objs !! k' = Some e' /\ prev = oid e' /\
                       pos = hash0 (oid e')
  end ->
  asked env names raw (packs st) p -> opened (packs st) p ->
  exists st',
    verify_objects m (off_oidf names objs) (off_oidl names objs) n
      (Z.of_nat k) pos prev st = Ok st' /\
    after st st' /\
    ((forall k' e, (k <= k')%nat -> objs !! k' = Some e ->
        entry_checks env names perm e) -> st' = st) /\
    (verify_midx_error st' = 0 ->
     forall k' e, (k <= k')%nat -> objs !! k' = Some e ->
       entry_checks env names perm e).
Proof.
  revert k pos prev st.
  induction n as [|n IH]; intros k pos prev st Hk Hinv Hasked Hop.
  - exists st. split; [reflexivity|]. split; [apply after_refl|].
    split; [reflexivity|].
    intros _ k' e Hle He. apply lookup_lt_Some in He. lia.
  - cbn [verify_objects].
    destruct (lookup_lt_is_Some_2 objs k ltac:(lia)) as (e & He).
    pose proof W as (_ & _ & _ & Hasc & _).
    pose proof (writable_wf_oids _ _ _ W) as Hwfo.
    assert (Hwe : wf_oid (oid e)).
    { unfold wf_oids in Hwfo. rewrite Forall_forall in Hwfo. apply Hwfo.
      apply list_elem_of_In, list_elem_of_lookup. eauto. }
    cbn [m image_reader hdr_hash_len data]. fold file.
    rewrite (u32_small (20 * Z.of_nat k)) by lia.
    unfold file. change GIT_MAX_RAWSZ with 20.
    rewrite (read_oid names perm objs tail W k e He). cbn [bind].
    pose proof (hash0_range (oid e)) as Hh.
    fold file. fold m.
    assert (Hpos : 0 <= pos <= hash0 (oid e) /\
                   (negb (Z.of_nat k =? 0) && (oidcmp prev (oid e) >=? 0) = false) /\
                   forall b, pos <= b < hash0 (oid e) ->
                     count_le (map oid objs) b = Z.of_nat k).
    { destruct k as [|k'].
      - subst pos. split; [lia|]. split; [reflexivity|].
        intros b Hb.
        pose proof (count_le_prefix objs b 0 e Hasc Hwfo He) as Hiff.
        pose proof (count_le_bounds (map oid objs) b) as Hbd.
        destruct (Z_lt_ge_dec 0 (count_le (map oid objs) b)) as [Hlt|Hge]; [|lia].
        apply Hiff in Hlt. lia.
      - destruct Hinv as (e' & He' & -> & ->).
        assert (Hlt : oid_lt e' e).
        { apply (ascending_lookup objs k' (S k') e' e); auto. }
        assert (Hwe' : wf_oid (oid e')).
        { unfold wf_oids in Hwfo. rewrite Forall_forall in Hwfo. apply Hwfo.
          apply list_elem_of_In, list_elem_of_lookup. eauto. }
        pose proof (hash0_range (oid e')) as Hh'.
        assert (Hle : hash0 (oid e') <= hash0 (oid e)).
        { apply oidcmp_le_hash0; auto. unfold oid_lt in Hlt. lia. }
        split; [lia|]. split.
        + unfold oid_lt in Hlt.
          replace (oidcmp (oid e') (oid e) >=? 0) with false
            by (symmetry; rewrite Z.geb_leb; apply Z.leb_gt; lia).
          apply andb_false_r.
        + intros b Hb.
          pose proof (count_le_prefix objs b (S k') e Hasc Hwfo He) as Hiff.
          pose proof (count_le_prefix objs b k' e' Hasc Hwfo He') as Hiff'.
          assert (Z.of_nat k' < count_le (map oid objs) b) by (apply Hiff'; lia).
          destruct (Z_lt_ge_dec (Z.of_nat (S k')) (count_le (map oid objs) b))
            as [Hlt'|Hge]; [|lia].
          apply Hiff in Hlt'. lia. }
    destruct Hpos as (Hpos & Horder & Hcount).
    rewrite (verify_fanout_exact 256 (hash0 (oid e)) k pos st) by (auto; lia).
    cbn [bind]. rewrite Horder. rewrite Z.max_r by lia.
    destruct (verify_object_exact k e st He Hasked Hop)
      as (st3 & Hrun3 & Haft3 & Hclean3 & Hsound3).
    rewrite Hrun3. cbn [bind].
    replace (Z.of_nat k + 1) with (Z.of_nat (S k)) by lia.
    destruct (IH (S k) (hash0 (oid e)) (oid e) st3)
      as (st' & Hrun & Haft & Hclean & Hsound); try lia.
    { exists e. auto. }
    { destruct Haft3 as (Hp3 & _). rewrite Hp3. exact Hasked. }
    { destruct Haft3 as (Hp3 & _). rewrite Hp3. exact Hop. }
    exists st'. split; [exact Hrun|].
    split; [eapply after_trans; eauto|]. split.
    + intros Hall. rewrite Hclean.
      * apply Hclean3. apply (Hall k e); [lia|exact He].
      * intros k' x Hle Hx. apply (Hall k' x); [lia|exact Hx].
    + intros Hz k' x Hle Hx.
      destruct (Nat.eq_dec k' k) as [->|Hne].
      * rewrite He in Hx. injection Hx as <-. apply Hsound3.
        destruct (Z.eq_dec (verify_midx_error st3) 0) as [E|E]; [exact E|].
        exfalso. destruct Haft as (_ & _ & Hm). apply Hm; assumption.
      * apply (Hsound Hz k' x); [lia|exact Hx].
Qed.

End Exact.

End VerifyExact.
(* ===================================================================== *)
(** * Proofs: [midx_verify] on a written file *)
(* ===================================================================== *)

Module VerifyWritten.
Import Midx MidxSpec MidxLookup MidxProps OidOrder GlueFacts PackFacts
       ReadFacts WriteFacts LookupFacts VerifyFacts NameFacts OpenFacts
       VerifyExact WrittenReader.

Section Written.
Variables (names : list cstring) (perm : list Z) (objs : list pack_midx_entry).
Variable env : verify_env.
Variable hash_fn : list byte -> list byte.
Hypothesis W : writable names perm objs.
Hypothesis Hnf : Forall nul_free names.
Hypothesis Hrange : Forall (fun v => 0 <= v < 2 ^ 32) perm.
Hypothesis H20 : 20 * Z.of_nat (length objs) < 2 ^ 32.
Hypothesis Hpn : forall e, In e objs ->
  exists j n, perm_at perm e = Z.of_nat j /\ names !! j = Some n.
Hypothesis Hhl : forall x, length (hash_fn x) = 20%nat.

Let h := hash_fn (midx_image names perm objs).
Let file := midx_body names perm objs ++ (pnam_image names ++ h).

(** [midx_verify] goes through on a written file; it returns 0 with
    nothing reported when no pack id is refused, every pack opens with a
    usable index and holds the objects of its entries, and only then does
    it return 0. *)
Lemma midx_verify_written :
  exists r st,
    midx_verify hash_fn env false 0 (Some file) = Ok (r, st) /\
    (count_fits_host env (Z.of_nat (length names)) ->
     (forall j n, names !! j = Some n ->
        exists q, add_packed_git env (idx_name env n) = Some q /\ usable_index q) ->
     (forall e, In e objs -> entry_checks env names perm e) ->
     r = 0 /\ reports st = []) /\
    (r = 0 ->
     count_fits_host env (Z.of_nat (length names)) /\
     (forall j n, names !! j = Some n ->
        exists q, add_packed_git env (idx_name env n) = Some q /\ usable_index q) /\
     (forall e, In e objs -> entry_checks env names perm e)).
Proof.
  unfold midx_verify.
  assert (Hload : load_midxed_git_one false (Some file) =
                  Ok (Some (image_reader file names objs (Z.of_nat (length objs))))).
  { unfold file. apply load_body; [exact W|]. intros s Hin. apply names_fit, Hin. }
  rewrite Hload. cbn [bind].
  set (m := image_reader file names objs (Z.of_nat (length objs))).
  assert (Hfile : file = midx_image names perm objs ++ h).
  { unfold file, midx_image. rewrite <- app_assoc. reflexivity. }
  assert (Hh : length h = 20%nat) by apply Hhl.
  assert (Hlenf : Z.of_nat (length file) - 20 =
                  Z.of_nat (length (midx_image names perm objs))).
  { rewrite Hfile, (length_app _ h), Hh. lia. }
  assert (Htake : take (Z.to_nat (Z.of_nat (length file) - 20)) file =
                  midx_image names perm objs).
  { rewrite Hlenf, Nat2Z.id, Hfile. apply take_app_length. }
  assert (Hstored : slice file (Z.of_nat (length file) - 20) GIT_MAX_RAWSZ = Ok h).
  { rewrite Hlenf. rewrite Hfile at 1.
    replace (Z.of_nat (length (midx_image names perm objs)))
      with (Z.of_nat (length (midx_image names perm objs)) + 0) by lia.
    rewrite slice_app_r by lia.
    change GIT_MAX_RAWSZ with (Z.of_nat 20). rewrite <- Hh. apply slice_all. }
  assert (Hcmp : negb (hashcmp (hash_fn (midx_image names perm objs)) h =? 0)
                 = false).
  { apply negb_false_iff, Z.eqb_eq. apply oidcmp_refl. }
  unfold midx_verify_loaded.
  cbn [m image_reader data data_len hdr_hash_len hdr_hash_version num_packs
       num_objects chunk_oid_lookup chunk_object_offsets chunk_oid_fanout].
  rewrite Htake, Hstored. cbn [bind]. rewrite Hcmp.
  cbv beta iota zeta.
  change (1 =? MIDX_OID_VERSION) with true.
  change (20 =? MIDX_OID_LEN) with true.
  cbn [negb midx_report verify_midx_error reports packs app Z.eqb chunk_at bind].
  set (st0 := {| verify_midx_error := 0; reports := [];
                 packs := repeat None (Z.to_nat (Z.of_nat (length names))) |}).
  fold m.
  destruct (verify_packs_exact names perm objs h env W Hnf
              (Z.to_nat (Z.of_nat (length names))) 0 st0)
    as (st1 & Hrun1 & Ha1 & _ & Hclean1 & Hsound1).
  { lia. }
  { lia. }
  { split.
    - cbn [st0 packs]. rewrite repeat_length. lia.
    - intros j n Hn. cbn [st0 packs]. rewrite Nat2Z.id.
      replace (Z.of_nat j <? 0) with false by (symmetry; apply Z.ltb_ge; lia).
      apply lookup_repeat. eapply lookup_lt_Some; eauto. }
  fold file in Hrun1. fold m in Hrun1. rewrite Hrun1. cbn [bind].
  destruct (verify_midx_error st1 =? 0) eqn:E1; cbn [negb].
  - apply Z.eqb_eq in E1.
    rewrite Nat2Z.id.
    replace (off_oidf names objs + 0) with (off_oidf names objs) by lia.
    replace (off_oidl names objs + 0) with (off_oidl names objs) by lia.
    pose proof (Hsound1 E1) as Hpacks.
    assert (Hop : opened (packs st1) (Z.of_nat (length names))).
    { intros j Hj.
      destruct (lookup_lt_is_Some_2 names j ltac:(lia)) as (n & Hn).
      destruct (Hpacks j n ltac:(lia) Hn) as (Hraw & q & Hq & _).
      destruct Ha1 as (_ & Hslots). rewrite (Hslots j n Hn).
      replace (Z.of_nat j <? Z.of_nat (length names)) with true
        by (symmetry; apply Z.ltb_lt; lia).
      replace (Z.of_nat j <? host_num_packs env (Z.of_nat (length names)))
        with true by (symmetry; apply Z.ltb_lt; exact Hraw).
      cbn [andb]. rewrite Hq. eauto. }
    destruct (verify_objects_exact names perm objs h env W Hrange H20 Hpn
                (length objs) 0 0 [] st1)
      as (st2 & Hrun2 & Haft2 & Hclean2 & Hsound2); try lia; auto.
    change (Z.of_nat 0) with 0 in Hrun2.
    fold file in Hrun2. fold m in Hrun2. rewrite Hrun2. cbn [bind].
    rewrite Z.lor_0_r.
    eexists. eexists. split; [reflexivity|]. split.
    + intros Hfit Hall Hents.
      destruct Hclean1 as (He1 & Hr1).
      { intros j n _ Hn. split; [|apply (Hall j n Hn)].
        apply lookup_lt_Some in Hn. unfold count_fits_host in Hfit. lia. }
      rewrite Hclean2.
      * split; [exact E1|]. rewrite Hr1. reflexivity.
      * intros k' e _ He. apply Hents.
        apply list_elem_of_In, list_elem_of_lookup. eauto.
    + intros Hz. split; [|split].
      * unfold count_fits_host.
        destruct (length names) as [|c] eqn:El.
        { unfold host_num_packs.
          destruct (little_endian_host env); vm_compute; discriminate. }
        destruct (lookup_lt_is_Some_2 names c ltac:(lia)) as (n & Hn).
        destruct (Hpacks c n ltac:(lia) Hn) as (Hraw & _).
        lia.
      * intros j n Hn. apply (Hpacks j n); [lia|exact Hn].
      * intros e He. apply list_elem_of_In, list_elem_of_lookup in He.
        destruct He as (k & Hk). apply (Hsound2 Hz k e); [lia|exact Hk].
  - apply Z.eqb_neq in E1. rewrite Z.lor_0_r.
    eexists. eexists. split; [reflexivity|]. split.
    + intros Hfit Hall _. exfalso. apply E1.
      destruct Hclean1 as (He1 & _).
      { intros j n _ Hn. split; [|apply (Hall j n Hn)].
        apply lookup_lt_Some in Hn. unfold count_fits_host in Hfit. lia. }
      rewrite He1. reflexivity.
    + intros Hz. contradiction.
Qed.

End Written.

(** The agreement of the packs with the entries, by the names as given
    and by the sorted names. *)
Lemma packs_agree_sorted (env : verify_env) (names0 names : list cstring)
    (perm : list Z) (objs : list pack_midx_entry) :
  Permutation names names0 ->
  (forall i n, names0 !! i = Some n ->
     exists j, perm !! i = Some (Z.of_nat j) /\ names !! j = Some n) ->
  Forall (wf_entry (Z.of_nat (length names0))) objs ->
  packs_agree env names0 objs <->
  (forall j n, names !! j = Some n ->
     exists q, add_packed_git env (idx_name env n) = Some q /\ usable_index q) /\
  (forall e, In e objs -> entry_checks env names perm e).
Proof.
  intros Hperm Hmap Hwf. split.
  - intros Hagree. split.
    + intros j n Hn.
      assert (Hin : In n names0).
      { eapply Permutation_in; [exact Hperm|].
        apply list_elem_of_In, list_elem_of_lookup. eauto. }
      apply list_elem_of_In, list_elem_of_lookup in Hin. destruct Hin as (i & Hi).
      destruct (Hagree i n Hi) as (q & Hq & Hu & _). eauto.
    + intros e He.
      destruct (perm_at_name names0 names perm objs e Hmap Hwf He)
        as (n & j & Hn & Hp & Hj).
      destruct (Hagree _ n Hn) as (q & Hq & _ & Hholds).
      exists j, n, q. repeat split; auto. apply Hholds; [exact He|].
      rewrite Forall_forall in Hwf. destruct (Hwf e He) as (_ & Hid & _). lia.
  - intros (Hopen & Hents) i n Hi.
    destruct (Hmap i n Hi) as (j & Hp & Hj).
    destruct (Hopen j n Hj) as (q & Hq & Hu).
    exists q. split; [exact Hq|]. split; [exact Hu|].
    intros e He Hid.
    destruct (Hents e He) as (j' & n' & q' & Hp' & Hn' & Hq' & Hholds).
    unfold perm_at in Hp'. rewrite Hid, Nat2Z.id, Hp in Hp'. cbn in Hp'.
    assert (j' = j) by lia. subst j'.
    rewrite Hj in Hn'. injection Hn' as <-.
    rewrite Hq in Hq'. injection Hq' as <-. exact Hholds.
Qed.

End VerifyWritten.
(* ===================================================================== *)
(** * Proofs: the fields of a loaded reader *)
(* ===================================================================== *)

Module LoadFields.
Import Midx MidxSpec RejectFacts.

(** What [load_midxed_git_one] has put in the reader it returns. *)
Lemma load_fields host32 file m :
  load_midxed_git_one host32 (Some file) = Ok (Some m) ->
  data m = file /\
  data_len m = Z.of_nat (length file) /\
  1100 <= Z.of_nat (length file) /\
  read_u8 file 8 = Ok (hdr_hash_version m) /\
  read_u8 file 9 = Ok (hdr_hash_len m).
Proof.
  unfold load_midxed_git_one. intros H.
  destruct (host32 && (2 ^ 32 <=? Z.of_nat (length file))); [discriminate H|].
  destruct (Z.of_nat (length file) <? 16 + 8 * 5 + 4 * 256 + GIT_MAX_RAWSZ) eqn:Es;
    [discriminate H|].
  apply Z.ltb_ge in Es. change (16 + 8 * 5 + 4 * 256 + GIT_MAX_RAWSZ) with 1100 in Es.
  apply bind_Ok_inv in H. destruct H as (sig & Hsig & H).
  destruct (sig =? MIDX_SIGNATURE) eqn:E1; cbn [negb] in H; [|discriminate H].
  apply bind_Ok_inv in H. destruct H as (ver & Hver & H).
  destruct (ver =? MIDX_VERSION) eqn:E2; cbn [negb] in H; [|discriminate H].
  apply bind_Ok_inv in H. destruct H as (hv & Hhv & H).
  apply bind_Ok_inv in H. destruct H as (hl & Hhl & H).
  apply bind_Ok_inv in H. destruct H as (nc & Hnc & H).
  apply bind_Ok_inv in H. destruct H as (c & Hc & H).
  destruct (c_oid_fanout c) as [fo|]; [|discriminate H].
  destruct (c_pack_lookup c) as [lo|]; [|discriminate H].
  destruct (c_pack_names c) as [pn|]; [|discriminate H].
  apply bind_Ok_inv in H. destruct H as (nobj & Hnobj & H).
  apply bind_Ok_inv in H. destruct H as (np & Hnp & H).
  destruct (host32 && (2 ^ 32 <=? 4 * np)); [discriminate H|].
  apply bind_Ok_inv in H. destruct H as (names & Hnames & H).
  injection H as <-. cbn. repeat split; auto.
Qed.

End LoadFields.
(* ===================================================================== *)
(** * Proofs: entries that are already in order *)
(* ===================================================================== *)

Module SortedInput.
Import Midx MidxSpec OidOrder FanoutFacts LookupFacts Rev1Facts NameFacts.

(** An element that no element of the list is above goes to the end. *)
Lemma qsort_insert_last {A : Type} (cmp : A -> A -> Z) (x : A) (l : list A) :
  Forall (fun y => 0 <= cmp x y) l -> qsort_insert cmp x l = l ++ [x].
Proof.
  induction l as [|y l IH]; intros H; [reflexivity|].
  inversion H as [|? ? Hy Hl]; subst. cbn [qsort_insert app].
  replace (cmp x y <? 0) with false by (symmetry; apply Z.ltb_ge; lia).
  rewrite IH by exact Hl. reflexivity.
Qed.

(** Sorting entries that are in strictly ascending order changes
    nothing. *)
Lemma fold_insert_ascending (l acc : list pack_midx_entry) :
  ascending (acc ++ l) -> wf_oids (acc ++ l) ->
  fold_left (fun acc x => qsort_insert MidxRev1.midx_oid_compare x acc) l acc =
  acc ++ l.
Proof.
  revert acc. induction l as [|x l IH]; intros acc Hasc Hwf.
  - rewrite app_nil_r. reflexivity.
  - cbn [fold_left].
    assert (Hx : Forall (fun y => 0 <= MidxRev1.midx_oid_compare x y) acc).
    { rewrite Forall_forall. intros y Hy.
      apply list_elem_of_In, list_elem_of_lookup in Hy. destruct Hy as (i & Hi).
      pose proof (lookup_lt_Some _ _ _ Hi) as Hlt.
      assert (Hlt' : oid_lt y x).
      { apply (ascending_lookup (acc ++ x :: l) i (length acc) y x); auto.
        - rewrite lookup_app_l by exact Hlt. exact Hi.
        - rewrite lookup_app_r by lia. rewrite Nat.sub_diag. reflexivity. }
      unfold oid_lt in Hlt'. unfold MidxRev1.midx_oid_compare.
      rewrite (oidcmp_antisym (oid y) (oid x)). lia. }
    rewrite (qsort_insert_last _ x acc Hx).
    rewrite IH; rewrite <- app_assoc; [reflexivity|exact Hasc|exact Hwf].
Qed.

Lemma QSORT_ascending (l : list pack_midx_entry) :
  ascending l -> wf_oids l -> QSORT MidxRev1.midx_oid_compare l = l.
Proof.
  intros Hasc Hwf. unfold QSORT. apply (fold_insert_ascending l []); assumption.
Qed.

(** Among entries in strictly ascending order none is passed over. *)
Lemma survivors_ascending_all last l :
  ascending l -> last_differs last l -> survivors last l = l.
Proof.
  revert last. induction l as [|e l IH]; intros last Hasc Hlast; [reflexivity|].
  cbn [survivors].
  replace (match last with
           | Some o => oidcmp o (oid e) =? 0
           | None => false
           end) with false.
  2:{ destruct last as [o|]; [|reflexivity]. cbn in Hlast.
      symmetry. apply Z.eqb_neq. exact Hlast. }
  f_equal. apply IH.
  - apply (ascending_tail e l Hasc).
  - destruct l as [|b l]; [exact I|]. cbn. destruct Hasc as (Hab & _).
    unfold oid_lt in Hab. lia.
Qed.

(** Names in strictly ascending order are distinct. *)
Lemma names_ascending_nodup names :
  names_ascending names -> Forall nul_free names -> NoDup names.
Proof.
  intros Hasc Hnf. apply NoDup_alt. intros i j x Hi Hj.
  pose proof (strcmp_refl x) as Hr.
  destruct (Nat.lt_trichotomy i j) as [Hlt|[Heq|Hgt]]; [|exact Heq|].
  - pose proof (names_ascending_lookup names i j x x Hasc Hnf Hi Hj Hlt). lia.
  - pose proof (names_ascending_lookup names j i x x Hasc Hnf Hj Hi Hgt). lia.
Qed.

End SortedInput.
(* ===================================================================== *)
(** * Proofs: more on contracting and expanding an index *)
(* ===================================================================== *)

Module SparseMore.
Import SparseIndex SparseSpec SparseClaims SparseProps SparseArray
       SparseInPlace SparseContracts SparseFuel.

(** The second loop writes at least one entry for a span that is not
    empty. *)
Lemma contracts_nonempty pl path ct items out :
  contracts pl path ct items out -> items <> [] -> out <> [].
Proof.
  induction 1 as [| | |path ct ce span rest out1 out2 cp child Hs Hc Hcol H1 IH1 H2 IH2];
    intros Hne; try discriminate; [congruence|].
  intros Happ. apply app_eq_nil in Happ. destruct Happ as (H & _).
  apply IH1 in H; [exact H|discriminate].
Qed.

Lemma contracted_nonempty pl path ct span out :
  contracted pl path ct span out -> span <> [] -> out <> [].
Proof.
  unfold contracted. destruct (collapses pl path span).
  - intros -> _. discriminate.
  - apply contracts_nonempty.
Qed.

(** The names of the entries read from a tree start with the base. *)
Lemma read_tree_prefix :
  forall t base, Forall (fun ce => base `prefix_of` name ce) (read_tree_recursive t base).
Proof.
  fix IH 1. intros [items] base. cbn [read_tree_recursive].
  induction items as [|[mode n o sub] rest IHr]; [constructor|].
  unfold add_path_to_index. destruct (S_ISDIR mode).
  - destruct sub as [t'|]; [|exact IHr].
    apply Forall_app. split; [|exact IHr].
    eapply Forall_impl; [|apply (IH t' (base ++ n ++ [slash]))].
    intros ce Hce. cbv beta in Hce.
    etransitivity; [|exact Hce]. apply prefix_app_r. reflexivity.
  - constructor; [|exact IHr].
    cbn. apply prefix_app_r. reflexivity.
Qed.

(** An entry of the expansion is an entry that was there, or was read
    from the tree of a sparse-directory entry. *)
Lemma expand_entries_origin env l ce :
  In ce (expand_entries env l) ->
  (In ce l /\ S_ISSPARSEDIR ce = false) \/
  (exists d, In d l /\ S_ISSPARSEDIR d = true /\
             name d `prefix_of` name ce /\ plain ce /\
             S_ISSPARSEDIR ce = false).
Proof.
  induction l as [|x l IH]; intros Hin; [destruct Hin|].
  cbn [expand_entries] in Hin.
  destruct (S_ISSPARSEDIR x) eqn:Ex; cbn [negb] in Hin.
  - assert (Hrest : In ce (expand_entries env l) ->
              (In ce (x :: l) /\ S_ISSPARSEDIR ce = false) \/
              (exists d, In d (x :: l) /\ S_ISSPARSEDIR d = true /\
                         name d `prefix_of` name ce /\ plain ce /\
                         S_ISSPARSEDIR ce = false)).
    { intros H. destruct (IH H) as [(H1 & H2)|(d & H1 & H2)].
      - left. split; [right; exact H1|exact H2].
      - right. exists d. split; [right; exact H1|exact H2]. }
    destruct (lookup_tree env (oid x)) as [t|]; [|auto].
    apply in_app_or in Hin. destruct Hin as [Hin|Hin]; [|auto].
    right. exists x. split; [left; reflexivity|]. split; [exact Ex|].
    pose proof (read_tree_prefix t (name x)) as Hp.
    pose proof (read_tree_plain t (name x)) as Hpl.
    pose proof (SparseFlag.read_tree_no_dir t (name x)) as Hnd.
    rewrite Forall_forall in Hp, Hpl, Hnd.
    repeat split; auto; apply Hpl; exact Hin.
  - destruct Hin as [<-|Hin].
    + left. split; [left; reflexivity|exact Ex].
    + destruct (IH Hin) as [(H1 & H2)|(d & H1 & H2)].
      * left. split; [right; exact H1|exact H2].
      * right. exists d. split; [right; exact H1|exact H2].
Qed.

(** The expansion keeps the entries that are not sparse-directory
    entries, in their order. *)
Lemma expand_entries_keeps env l :
  List.filter not_sparse_dir l `sublist_of` expand_entries env l.
Proof.
  induction l as [|x l IH]; [constructor|].
  cbn [List.filter expand_entries]. unfold not_sparse_dir at 1.
  destruct (S_ISSPARSEDIR x); cbn [negb].
  - destruct (lookup_tree env (oid x)) as [t|]; [|exact IH].
    apply sublist_inserts_l. exact IH.
  - apply sublist_skip. exact IH.
Qed.

(** When nothing can be collapsed, no span collapses. *)
Lemma nothing_collapses pl span path :
  nothing_to_collapse pl span -> span <> [] -> collapses pl path span = false.
Proof.
  intros [Hcone|Hdirty] Hne; unfold collapses.
  - rewrite Hcone. reflexivity.
  - destruct span as [|ce span]; [congruence|].
    inversion Hdirty as [|? ? Hce _]; subst.
    cbn [existsb]. rewrite Hce. cbn. apply andb_false_r.
Qed.

Lemma nothing_to_collapse_app pl a b :
  nothing_to_collapse pl (a ++ b) ->
  nothing_to_collapse pl a /\ nothing_to_collapse pl b.
Proof.
  intros [Hcone|Hdirty].
  - split; left; exact Hcone.
  - apply Forall_app in Hdirty. destruct Hdirty as (Ha & Hb).
    split; right; assumption.
Qed.

(** When nothing can be collapsed, the second loop writes the entries as
    they are. *)
Lemma contracts_nothing pl path ct items out :
  contracts pl path ct items out -> nothing_to_collapse pl items -> out = items.
Proof.
  induction 1 as [|path ct ce rest out Hs Hc IH
                  |path ct ce span rest out cp child Hs Hn Hcol Hc IH
                  |path ct ce span rest out1 out2 cp child Hs Hn Hcol H1 IH1 H2 IH2];
    intros Hnone.
  - reflexivity.
  - f_equal. apply IH.
    apply (nothing_to_collapse_app pl [ce] rest), Hnone.
  - apply nothing_to_collapse_app in Hnone. destruct Hnone as (Hn1 & _).
    rewrite (nothing_collapses pl (ce :: span) cp Hn1) in Hcol by discriminate.
    discriminate Hcol.
  - apply nothing_to_collapse_app in Hnone. destruct Hnone as (Hn1 & Hn2).
    rewrite (IH1 Hn1), (IH2 Hn2). reflexivity.
Qed.

End SparseMore.
(* ===================================================================== *)
(** * Asking a MIDX whether it covers a pack *)
(* ===================================================================== *)

Module ContainsPack.
Import Midx MidxSpec MidxLookup MidxExamples GlueFacts WrittenReader NameFacts.

(** X1: on the reader of a file that [write_midx_file] produced from
    NUL-free pack names, [contains_pack] returns 1 for a C string that is
    one of the pack names given to the writer and 0 for any other C
    string, whatever the order in which the names were given and whatever
    the page size of the mapping. *)
Theorem contains_pack_written (hash_fn : list byte -> list byte)
    (names0 : list cstring) (objs : list pack_midx_entry) (file : list byte) :
  write_midx_file hash_fn true names0 objs = Ok (Some file) ->
  sizes_ok names0 objs ->
  Forall (wf_entry (Z.of_nat (length names0))) objs ->
  Forall nul_free names0 ->
  exists m,
    load_midxed_git_one false (Some file) = Ok (Some m) /\
    forall page_size pack_name, nul_free pack_name ->
      (In pack_name names0 -> contains_pack page_size m pack_name = Ok 1) /\
      (~ In pack_name names0 -> contains_pack page_size m pack_name = Ok 0).
Proof.
  intros Hw Hsz Hwf Hnf0.
  destruct (written_reader hash_fn names0 objs file Hw Hsz Hwf)
    as (names & perm & _ & _ & Hperm & _ & W & _ & Hfile & Hload).
  assert (Hnf : Forall nul_free names).
  { eapply Permutation_Forall; [symmetry; exact Hperm|exact Hnf0]. }
  eexists. split; [exact Hload|].
  intros page pack_name Hpn. rewrite Hfile.
  destruct (contains_pack_image names perm objs
              (hash_fn (midx_image names perm objs)) page W Hnf pack_name Hpn)
    as (Hyes & Hno).
  split.
  - intros Hin. apply Hyes. eapply Permutation_in; [symmetry; exact Hperm|exact Hin].
  - intros Hnot. apply Hno. intros Hin. apply Hnot.
    eapply Permutation_in; [exact Hperm|exact Hin].
Qed.

(** The MIDX written for two packs given in descending order of name. *)
Lemma contains_pack_written_witness :
  exists file m,
    write_midx_file toy_hash true two_packs two_objects = Ok (Some file) /\
    load_midxed_git_one false (Some file) = Ok (Some m) /\
    forall page_size pack_name, nul_free pack_name ->
      (In pack_name two_packs -> contains_pack page_size m pack_name = Ok 1) /\
      (~ In pack_name two_packs -> contains_pack page_size m pack_name = Ok 0).
Proof.
  eexists.
  assert (Hw : write_midx_file toy_hash true two_packs two_objects =
               Ok (Some _)) by (vm_compute; reflexivity).
  destruct (contains_pack_written toy_hash two_packs two_objects _ Hw) as (m & H).
  - by_computation.
  - all_of.
  - nul_free_names.
  - exists m. split; [exact Hw|exact H].
Defined.

End ContainsPack.
(* ===================================================================== *)
(** * Finding the pack and the offset of an object through a MIDX *)
(* ===================================================================== *)

Module FindPackEntry.
Import Midx MidxSpec MidxLookup MidxProps MidxExamples GlueFacts WrittenReader
       OpenFacts.

(** X2: [prepare_midx_pack] compares the pack id with the pack count of
    the header as the host reads it, without converting it from network
    byte order.  When that count is not below the number of packs, then on
    the reader of a file that [write_midx_file] produced, with no pack
    open yet, [find_pack_entry_midx] for the object id of a given entry
    asks [add_packed_git] for the pack whose name was given at the entry's
    pack id (with [.pack] replaced by [.idx], in the pack directory); when
    the pack opens it returns that pack with the entry's offset, and when
    it does not open it returns 0.  It does not die with
    "Bad pack-int-id". *)
Theorem find_pack_entry_written (hash_fn : list byte -> list byte)
    (env : verify_env)
    (names0 : list cstring) (objs : list pack_midx_entry) (file : list byte) :
  write_midx_file hash_fn true names0 objs = Ok (Some file) ->
  sizes_ok names0 objs ->
  20 * Z.of_nat (length objs) < 2 ^ 32 ->
  Forall (wf_entry (Z.of_nat (length names0))) objs ->
  Forall nul_free names0 ->
  count_fits_host env (Z.of_nat (length names0)) ->
  exists m,
    load_midxed_git_one false (Some file) = Ok (Some m) /\
    forall e n, In e objs ->
      names0 !! Z.to_nat (pack_int_id e) = Some n ->
      exists packs',
        find_pack_entry_midx env (oid e) m (repeat None (length names0)) =
        Ok (option_map (fun q => (Some q, offset e))
              (add_packed_git env (idx_name env n)), packs').
Proof.
  intros Hw Hsz H20 Hwf Hnf0 Hhost.
  destruct (written_reader hash_fn names0 objs file Hw Hsz Hwf)
    as (names & perm & _ & Hln & Hperm & Hmap & W & Hrange & Hfile & Hload).
  assert (Hnf : Forall nul_free names).
  { eapply Permutation_Forall; [symmetry; exact Hperm|exact Hnf0]. }
  eexists. split; [exact Hload|].
  intros e n Hin Hn.
  destruct (perm_at_name names0 names perm objs e Hmap Hwf Hin)
    as (n' & j & Hn' & Hp & Hj).
  rewrite Hn in Hn'. injection Hn' as <-.
  apply list_elem_of_In, list_elem_of_lookup in Hin. destruct Hin as (k & Hk).
  eexists. rewrite Hfile.
  assert (Hraw : Z.of_nat j < host_num_packs env (Z.of_nat (length names))).
  { apply lookup_lt_Some in Hj. unfold count_fits_host in Hhost.
    rewrite Hln. lia. }
  apply (find_entry_closed names perm objs _ env W Hnf Hrange H20
           _ k e j n Hraw Hk Hp Hj).
  apply lookup_lt_Some in Hj. apply lookup_repeat. lia.
Qed.

(** The two objects of the example, each found in the pack that opens. *)
Lemma find_pack_entry_written_witness :
  exists file m,
    write_midx_file toy_hash true two_packs two_objects = Ok (Some file) /\
    load_midxed_git_one false (Some file) = Ok (Some m) /\
    forall e n, In e two_objects ->
      two_packs !! Z.to_nat (pack_int_id e) = Some n ->
      exists packs',
        find_pack_entry_midx example_env (oid e) m (repeat None (length two_packs)) =
        Ok (option_map (fun q => (Some q, offset e))
              (add_packed_git example_env (idx_name example_env n)), packs').
Proof.
  eexists.
  assert (Hw : write_midx_file toy_hash true two_packs two_objects =
               Ok (Some _)) by (vm_compute; reflexivity).
  destruct (find_pack_entry_written toy_hash example_env two_packs two_objects _ Hw)
    as (m & H).
  - by_computation.
  - vm_compute. reflexivity.
  - all_of.
  - nul_free_names.
  - unfold count_fits_host. vm_compute. discriminate.
  - exists m. split; [exact Hw|exact H].
Defined.

(** X3: on the reader of a file that [write_midx_file] produced,
    [find_pack_entry_midx] for a full object id that is not among the
    given entries returns 0 and opens no pack. *)
Theorem find_pack_entry_absent (hash_fn : list byte -> list byte)
    (env : verify_env)
    (names0 : list cstring) (objs : list pack_midx_entry) (file : list byte) :
  write_midx_file hash_fn true names0 objs = Ok (Some file) ->
  sizes_ok names0 objs ->
  20 * Z.of_nat (length objs) < 2 ^ 32 ->
  Forall (wf_entry (Z.of_nat (length names0))) objs ->
  exists m,
    load_midxed_git_one false (Some file) = Ok (Some m) /\
    forall o packs, wf_oid o -> ~ In o (map oid objs) ->
      find_pack_entry_midx env o m packs = Ok (None, packs).
Proof.
  intros Hw Hsz H20 Hwf.
  destruct (written_reader hash_fn names0 objs file Hw Hsz Hwf)
    as (names & perm & _ & Hln & Hperm & Hmap & W & Hrange & Hfile & Hload).
  eexists. split; [exact Hload|].
  intros o packs Ho Hnot. rewrite Hfile.
  apply (find_entry_miss names perm objs _ env W H20 packs o Ho).
  intros e He <-. apply Hnot. apply in_map, He.
Qed.

Lemma find_pack_entry_absent_witness :
  exists file m,
    write_midx_file toy_hash true two_packs two_objects = Ok (Some file) /\
    load_midxed_git_one false (Some file) = Ok (Some m) /\
    forall o packs, wf_oid o -> ~ In o (map oid two_objects) ->
      find_pack_entry_midx example_env o m packs = Ok (None, packs).
Proof.
  eexists.
  assert (Hw : write_midx_file toy_hash true two_packs two_objects =
               Ok (Some _)) by (vm_compute; reflexivity).
  destruct (find_pack_entry_absent toy_hash example_env two_packs two_objects _ Hw)
    as (m & H).
  - by_computation.
  - vm_compute. reflexivity.
  - all_of.
  - exists m. split; [exact Hw|exact H].
Defined.

End FindPackEntry.
(* ===================================================================== *)
(** * Reading the entries of a MIDX back *)
(* ===================================================================== *)

Module EntriesBack.
Import Midx MidxSpec MidxExamples GlueFacts WrittenReader ReadFacts LookupFacts.

(** X4: on the reader of a file that [write_midx_file] produced,
    [nth_midxed_object_entry] at the position of a given entry returns
    that entry's object id and offset, its pack id after the sort of the
    pack names, and a modification time of zero whatever time was given;
    at any position from the number of entries on it returns no entry. *)
Theorem entries_read_back (hash_fn : list byte -> list byte)
    (names0 : list cstring) (objs : list pack_midx_entry) (file : list byte) :
  write_midx_file hash_fn true names0 objs = Ok (Some file) ->
  sizes_ok names0 objs ->
  20 * Z.of_nat (length objs) < 2 ^ 32 ->
  Forall (wf_entry (Z.of_nat (length names0))) objs ->
  exists names perm m,
    sort_packs_by_name names0 = Ok (names, perm) /\
    load_midxed_git_one false (Some file) = Ok (Some m) /\
    (forall k e, objs !! k = Some e ->
       nth_midxed_object_entry m (Z.of_nat k) =
       Ok (Some {| oid := oid e; pack_int_id := perm_at perm e;
                   offset := offset e; pack_mtime := 0 |})) /\
    (forall k, Z.of_nat (length objs) <= k ->
       nth_midxed_object_entry m k = Ok None).
Proof.
  intros Hw Hsz H20 Hwf.
  destruct (written_reader hash_fn names0 objs file Hw Hsz Hwf)
    as (names & perm & Hsort & _ & _ & _ & W & Hrange & Hfile & Hload).
  exists names, perm. eexists. split; [exact Hsort|]. split; [exact Hload|].
  rewrite Hfile.
  set (tail := pnam_image names ++ hash_fn (midx_image names perm objs)).
  split.
  - intros k e Hk.
    assert (Hlt : (k < length objs)%nat) by (eapply lookup_lt_Some; eauto).
    unfold nth_midxed_object_entry.
    rewrite (details_image names perm objs tail W Hrange H20 k e Hk).
    cbn [bind image_reader chunk_oid_lookup hdr_hash_len data chunk_at
         d_pack_int_id d_offset].
    rewrite u32_small by lia.
    rewrite (read_oid names perm objs tail W k e Hk). reflexivity.
  - intros k Hk. unfold nth_midxed_object_entry.
    rewrite (details_past names perm objs tail k Hk). reflexivity.
Qed.

(** The entries of the MIDX written for two packs and two objects. *)
Lemma entries_read_back_witness :
  exists file names perm m,
    write_midx_file toy_hash true two_packs two_objects = Ok (Some file) /\
    sort_packs_by_name two_packs = Ok (names, perm) /\
    load_midxed_git_one false (Some file) = Ok (Some m) /\
    (forall k e, two_objects !! k = Some e ->
       nth_midxed_object_entry m (Z.of_nat k) =
       Ok (Some {| oid := oid e; pack_int_id := perm_at perm e;
                   offset := offset e; pack_mtime := 0 |})) /\
    (forall k, Z.of_nat (length two_objects) <= k ->
       nth_midxed_object_entry m k = Ok None).
Proof.
  eexists.
  assert (Hw : write_midx_file toy_hash true two_packs two_objects =
               Ok (Some _)) by (vm_compute; reflexivity).
  destruct (entries_read_back toy_hash two_packs two_objects _ Hw)
    as (names & perm & m & H).
  - by_computation.
  - vm_compute. reflexivity.
  - all_of.
  - exists names, perm, m. split; [exact Hw|exact H].
Defined.

End EntriesBack.
(* ===================================================================== *)
(** * Verifying a MIDX that was just written *)
(* ===================================================================== *)

Module VerifyRoundTrip.
Import Midx MidxSpec MidxLookup MidxProps MidxExamples GlueFacts WrittenReader
       VerifyWritten.

(** X5: [midx_verify] accepts what [write_midx_file] writes.  When the
    trailing hash is 20 bytes long, the pack count of the header as the
    host reads it without conversion from network byte order (the count
    that [prepare_midx_pack] compares the pack id with) is not below the
    number of packs, every pack opens under the name given for it with a
    usable index, and every pack holds the objects of the entries that
    name it at their offsets, [midx_verify] on the written file returns 0
    and reports nothing. *)
Theorem midx_verify_accepts_written (hash_fn : list byte -> list byte)
    (env : verify_env)
    (names0 : list cstring) (objs : list pack_midx_entry) (file : list byte) :
  write_midx_file hash_fn true names0 objs = Ok (Some file) ->
  sizes_ok names0 objs ->
  20 * Z.of_nat (length objs) < 2 ^ 32 ->
  Forall (wf_entry (Z.of_nat (length names0))) objs ->
  Forall nul_free names0 ->
  count_fits_host env (Z.of_nat (length names0)) ->
  (forall x, length (hash_fn x) = 20%nat) ->
  packs_agree env names0 objs ->
  exists st,
    midx_verify hash_fn env false 0 (Some file) = Ok (0, st) /\
    reports st = [].
Proof.
  intros Hw Hsz H20 Hwf Hnf0 Hhost Hhl Hagree.
  destruct (written_reader hash_fn names0 objs file Hw Hsz Hwf)
    as (names & perm & _ & Hln & Hperm & Hmap & W & Hrange & Hfile & _).
  assert (Hnf : Forall nul_free names).
  { eapply Permutation_Forall; [symmetry; exact Hperm|exact Hnf0]. }
  assert (Hpn : forall e, In e objs ->
            exists j n, perm_at perm e = Z.of_nat j /\ names !! j = Some n).
  { intros e He.
    destruct (perm_at_name names0 names perm objs e Hmap Hwf He)
      as (n & j & _ & Hp & Hj). eauto. }
  destruct (midx_verify_written names perm objs env hash_fn W Hnf Hrange H20
              Hpn Hhl)
    as (r & st & Hrun & Hclean & _).
  apply (packs_agree_sorted env names0 names perm objs Hperm Hmap Hwf) in Hagree.
  destruct Hagree as (Hopen & Hents).
  destruct (Hclean ltac:(rewrite Hln; exact Hhost) Hopen Hents) as (-> & Hrep).
  exists st. rewrite Hfile. split; [exact Hrun|exact Hrep].
Qed.

Lemma example_packs_agree : packs_agree example_env two_packs two_objects.
Proof.
  intros i n _. exists example_pack.
  split; [reflexivity|]. split; [left; reflexivity|].
  intros e [<-|[<-|[]]] _.
  - exists 0. split; vm_compute; reflexivity.
  - exists 1. split; vm_compute; reflexivity.
Qed.

(** The file written for two packs and two objects, verified against the
    pack index that holds the two objects. *)
Lemma midx_verify_accepts_written_witness :
  exists file st,
    write_midx_file toy_hash true two_packs two_objects = Ok (Some file) /\
    midx_verify toy_hash example_env false 0 (Some file) = Ok (0, st) /\
    reports st = [].
Proof.
  eexists.
  assert (Hw : write_midx_file toy_hash true two_packs two_objects =
               Ok (Some _)) by (vm_compute; reflexivity).
  destruct (midx_verify_accepts_written toy_hash example_env two_packs
              two_objects _ Hw) as (st & H).
  - by_computation.
  - vm_compute. reflexivity.
  - all_of.
  - nul_free_names.
  - unfold count_fits_host. vm_compute. discriminate.
  - intros x. unfold toy_hash. rewrite !length_app, !length_be32. reflexivity.
  - exact example_packs_agree.
  - exists st. split; [exact Hw|exact H].
Defined.

(** X6: on a file that [write_midx_file] wrote, with a trailing hash of
    20 bytes, [midx_verify] runs to its end, and it returns 0 only when
    no pack id is refused (the pack count of the header as the host reads
    it is not below the number of packs) and every pack opens under the
    name given for it with a usable index and holds the objects of the
    entries that name it at their offsets. *)
Theorem midx_verify_zero_agrees (hash_fn : list byte -> list byte)
    (env : verify_env)
    (names0 : list cstring) (objs : list pack_midx_entry) (file : list byte) :
  write_midx_file hash_fn true names0 objs = Ok (Some file) ->
  sizes_ok names0 objs ->
  20 * Z.of_nat (length objs) < 2 ^ 32 ->
  Forall (wf_entry (Z.of_nat (length names0))) objs ->
  Forall nul_free names0 ->
  (forall x, length (hash_fn x) = 20%nat) ->
  exists r st,
    midx_verify hash_fn env false 0 (Some file) = Ok (r, st) /\
    (r = 0 ->
     count_fits_host env (Z.of_nat (length names0)) /\
     packs_agree env names0 objs).
Proof.
  intros Hw Hsz H20 Hwf Hnf0 Hhl.
  destruct (written_reader hash_fn names0 objs file Hw Hsz Hwf)
    as (names & perm & _ & Hln & Hperm & Hmap & W & Hrange & Hfile & _).
  assert (Hnf : Forall nul_free names).
  { eapply Permutation_Forall; [symmetry; exact Hperm|exact Hnf0]. }
  assert (Hpn : forall e, In e objs ->
            exists j n, perm_at perm e = Z.of_nat j /\ names !! j = Some n).
  { intros e He.
    destruct (perm_at_name names0 names perm objs e Hmap Hwf He)
      as (n & j & _ & Hp & Hj). eauto. }
  destruct (midx_verify_written names perm objs env hash_fn W Hnf Hrange H20
              Hpn Hhl)
    as (r & st & Hrun & _ & Hsound).
  exists r, st. rewrite Hfile. split; [exact Hrun|].
  intros Hz. destruct (Hsound Hz) as (Hfit & Hrest).
  split; [rewrite <- Hln; exact Hfit|].
  apply (packs_agree_sorted env names0 names perm objs Hperm Hmap Hwf).
  exact Hrest.
Qed.

Lemma midx_verify_zero_agrees_witness :
  exists file r st,
    write_midx_file toy_hash true two_packs two_objects = Ok (Some file) /\
    midx_verify toy_hash example_env false 0 (Some file) = Ok (r, st) /\
    (r = 0 ->
     count_fits_host example_env (Z.of_nat (length two_packs)) /\
     packs_agree example_env two_packs two_objects).
Proof.
  eexists.
  assert (Hw : write_midx_file toy_hash true two_packs two_objects =
               Ok (Some _)) by (vm_compute; reflexivity).
  destruct (midx_verify_zero_agrees toy_hash example_env two_packs
              two_objects _ Hw) as (r & st & H).
  - by_computation.
  - vm_compute. reflexivity.
  - all_of.
  - nul_free_names.
  - intros x. unfold toy_hash. rewrite !length_app, !length_be32. reflexivity.
  - exists r, st. split; [exact Hw|exact H].
Defined.

End VerifyRoundTrip.
(* ===================================================================== *)
(** * Defects that the loader lets through and the verifier reports *)
(* ===================================================================== *)

Module VerifyDefects.
Import Midx MidxSpec MidxExamples RejectFacts LoadFields VerifyFacts.

(** X7: when [load_midxed_git_one] has loaded a file whose header gives a
    hash length of at least 20, and the hash version is not 1, or the hash
    length is not 20, or the chunk table names no OID Lookup chunk, or it
    names no Object Offsets chunk, then [midx_verify] returns a value
    other than 0, and it does so before it asks for any pack. *)
Theorem midx_verify_reports_defects (hash_fn : list byte -> list byte)
    (env : verify_env) (host32 : bool) (file : list byte) (m : midxed_git) :
  load_midxed_git_one host32 (Some file) = Ok (Some m) ->
  20 <= hdr_hash_len m ->
  hdr_hash_version m <> MIDX_OID_VERSION \/ hdr_hash_len m <> MIDX_OID_LEN \/
  chunk_oid_lookup m = None \/ chunk_object_offsets m = None ->
  exists r st,
    midx_verify hash_fn env host32 0 (Some file) = Ok (r, st) /\
    r <> 0 /\
    packs st = repeat None (Z.to_nat (num_packs m)).
Proof.
  intros Hload Hhl Hdefect.
  destruct (load_fields host32 file m Hload) as (Hd & Hlen & Hsz & _ & Hlen9).
  pose proof (read_u8_nonneg _ _ _ Hlen9) as Hnn.
  unfold midx_verify. rewrite Hload. cbn [bind].
  unfold midx_verify_loaded.
  assert (Hslice : exists stored,
            slice (data m) (data_len m - hdr_hash_len m) GIT_MAX_RAWSZ = Ok stored).
  { assert (Hu8 : hdr_hash_len m < 256).
    { unfold read_u8 in Hlen9. apply bind_Ok_inv in Hlen9.
      destruct Hlen9 as (bs & Hbs & Hv). injection Hv as <-.
      apply length_slice in Hbs.
      destruct bs as [|b [|? ?]]; cbn [length] in Hbs; try lia.
      unfold get_be32. cbn [rev app]. cbv [le_combine].
      pose proof (byte.unsigned_range b). rewrite Z.shiftl_0_l, Z.lor_0_r. lia. }
    rewrite slice_ok; [eauto| | |]; rewrite ?Hd, ?Hlen;
      change GIT_MAX_RAWSZ with 20; lia. }
  destruct Hslice as (stored & ->). cbn [bind].
  set (st0 := {| verify_midx_error := 0; reports := [];
                 packs := repeat None (Z.to_nat (num_packs m)) |}).
  set (start :=
         if negb (hashcmp (hash_fn (take (Z.to_nat (data_len m - hdr_hash_len m))
                                      (data m))) stored =? 0)
         then
           ({| verify_midx_error := 0;
               reports := reports (midx_report st0 checksum_message);
               packs := packs (midx_report st0 checksum_message) |}, 1)
         else (st0, 0)).
  assert (Hstart : verify_midx_error (fst start) = 0 /\
                   packs (fst start) = repeat None (Z.to_nat (num_packs m))).
  { unfold start. destruct (negb _); split; reflexivity. }
  destruct start as (st1, checksum_fail). cbn [fst] in Hstart.
  destruct Hstart as (He1 & Hp1).
  set (st2 := if negb (hdr_hash_version m =? MIDX_OID_VERSION)
              then midx_report st1 "invalid hash version" else st1).
  set (st3 := if negb (hdr_hash_len m =? MIDX_OID_LEN)
              then midx_report st2 "invalid hash length" else st2).
  assert (H12 : after st1 st2) by apply after_maybe_report.
  assert (H23 : after st2 st3) by apply after_maybe_report.
  assert (Hp3 : packs st3 = repeat None (Z.to_nat (num_packs m))).
  { destruct H23 as (-> & _). destruct H12 as (-> & _). exact Hp1. }
  assert (Hnz : forall x c, x <> 0 -> Z.lor x c <> 0).
  { intros x c Hx Hz. apply Z.lor_eq_0_iff in Hz. lia. }
  destruct (verify_midx_error st3 =? 0) eqn:E3; cbn [negb].
  2:{ apply Z.eqb_neq in E3. eexists. eexists. split; [reflexivity|].
      split; [apply Hnz, E3|exact Hp3]. }
  apply Z.eqb_eq in E3.
  assert (Hver : hdr_hash_version m = MIDX_OID_VERSION).
  { destruct (Z.eq_dec (hdr_hash_version m) MIDX_OID_VERSION) as [E|E]; [exact E|].
    exfalso. destruct H23 as (_ & _ & Hm). apply Hm; [|exact E3].
    unfold st2. apply Z.eqb_neq in E. rewrite E. apply VerifyExact.report_error. }
  assert (Hlen20 : hdr_hash_len m = MIDX_OID_LEN).
  { destruct (Z.eq_dec (hdr_hash_len m) MIDX_OID_LEN) as [E|E]; [exact E|].
    exfalso. revert E3. unfold st3. apply Z.eqb_neq in E. rewrite E.
    apply VerifyExact.report_error. }
  set (st4 := match chunk_oid_lookup m with
              | None => midx_report st3 "missing OID Lookup chunk"
              | Some _ => st3
              end).
  set (st5 := match chunk_object_offsets m with
              | None => midx_report st4 "missing Object Offset chunk"
              | Some _ => st4
              end).
  assert (Hp5 : packs st5 = repeat None (Z.to_nat (num_packs m))).
  { unfold st5, st4.
    destruct (chunk_object_offsets m), (chunk_oid_lookup m); exact Hp3. }
  assert (He5 : verify_midx_error st5 <> 0).
  { destruct Hdefect as [H|[H|[H|H]]]; try contradiction.
    - unfold st5, st4. rewrite H.
      destruct (chunk_object_offsets m); cbn; discriminate.
    - unfold st5. rewrite H. cbn. discriminate. }
  apply Z.eqb_neq in He5. rewrite He5. cbn [negb].
  apply Z.eqb_neq in He5.
  eexists. eexists. split; [reflexivity|]. split; [apply Hnz, He5|exact Hp5].
Qed.

(** The file of the example whose chunk table names neither an OID Lookup
    nor an Object Offsets chunk: it is loaded, and the verifier reports
    it. *)
Lemma midx_verify_reports_defects_witness :
  exists m r st,
    load_midxed_git_one false (Some no_lookup_file) = Ok (Some m) /\
    midx_verify toy_hash example_env false 0 (Some no_lookup_file) = Ok (r, st) /\
    r <> 0 /\
    packs st = repeat None (Z.to_nat (num_packs m)).
Proof.
  eexists.
  assert (Hl : load_midxed_git_one false (Some no_lookup_file) = Ok (Some _))
    by (vm_compute; reflexivity).
  destruct (midx_verify_reports_defects toy_hash example_env false _ _ Hl)
    as (r & st & H).
  - vm_compute. discriminate.
  - right. right. left. vm_compute. reflexivity.
  - exists r, st. split; [exact Hl|exact H].
Defined.

End VerifyDefects.
(* ===================================================================== *)
(** * What the writer asks of its input *)
(* ===================================================================== *)

Module WriterOrder.
Import Midx MidxSpec MidxClaims MidxExamples GlueFacts PackFacts ChunkFacts
       InversionFacts SuccessFacts SortPacks SortedInput.

(** X8: [write_midx_file] writes a file only for entries in strictly
    ascending order of object id, hence without two entries for one
    object id, and only for pack names (C strings, so without NUL) that
    are pairwise distinct. *)
Theorem write_needs_sorted_input (hash_fn : list byte -> list byte)
    (names0 : list cstring) (objs : list pack_midx_entry) (file : list byte) :
  write_midx_file hash_fn true names0 objs = Ok (Some file) ->
  Forall nul_free names0 ->
  ascending objs /\ NoDup names0.
Proof.
  intros Hw Hnf0.
  pose proof (write_midx_file_pieces _ _ _ _ Hw)
    as (names & perm & pieces & front & Hs & HF & _ & _).
  destruct (sorted_facts _ _ _ Hs) as (_ & _ & Hperm & _ & _).
  split.
  - unfold names_last in HF. cbn [app] in HF.
    inversion HF as [|? ? ? ? _ HF1]; subst.
    inversion HF1 as [|? ? ? ? _ HF2]; subst.
    inversion HF2 as [|? ? ? ? (n & H2) _]; subst.
    rewrite write_chunk_oidlookup in H2.
    eapply oidlookup_loop_ascending. exact H2.
  - assert (Hlast : exists bs n,
              write_chunk (large_needed objs) (nr_large objs) names objs perm
                MIDX_CHUNKID_PACKNAMES = Ok (bs, n)).
    { unfold names_last in HF.
      destruct (large_needed objs); cbn [app] in HF.
      - inversion HF as [|? ? ? ? _ HF1]; subst.
        inversion HF1 as [|? ? ? ? _ HF2]; subst.
        inversion HF2 as [|? ? ? ? _ HF3]; subst.
        inversion HF3 as [|? ? ? ? _ HF4]; subst.
        inversion HF4 as [|? ? ? ? _ HF5]; subst.
        inversion HF5 as [|? ? ? ? (n & H5) _]; subst. eauto.
      - inversion HF as [|? ? ? ? _ HF1]; subst.
        inversion HF1 as [|? ? ? ? _ HF2]; subst.
        inversion HF2 as [|? ? ? ? _ HF3]; subst.
        inversion HF3 as [|? ? ? ? _ HF4]; subst.
        inversion HF4 as [|? ? ? ? (n & H4) _]; subst. eauto. }
    destruct Hlast as (bs & n & Hl). rewrite write_chunk_packnames in Hl.
    apply packnames_loop_ascending in Hl. destruct Hl as (Hna & _).
    rewrite <- Hperm.
    apply names_ascending_nodup; [exact Hna|].
    eapply Permutation_Forall; [symmetry; exact Hperm|exact Hnf0].
Qed.

(** The file written for two packs and two objects, and the order of
    what was given. *)
Lemma write_needs_sorted_input_witness :
  exists file,
    write_midx_file toy_hash true two_packs two_objects = Ok (Some file) /\
    ascending two_objects /\ NoDup two_packs.
Proof.
  eexists.
  assert (Hw : write_midx_file toy_hash true two_packs two_objects =
               Ok (Some _)) by (vm_compute; reflexivity).
  split; [exact Hw|].
  apply (write_needs_sorted_input toy_hash two_packs two_objects _ Hw).
  nul_free_names.
Defined.

(** X9: [sort_packs_by_name] always goes through; it returns the given
    names in the order of [strcmp], and a table that sends the place of
    each given name to its place after the sort. *)
Theorem sort_packs_by_name_sorts (names0 : list cstring) :
  exists names perm,
    sort_packs_by_name names0 = Ok (names, perm) /\
    Permutation names names0 /\
    in_order strcmp names /\
    length perm = length names0 /\
    (forall i n, names0 !! i = Some n ->
       exists j, perm !! i = Some (Z.of_nat j) /\ names !! j = Some n).
Proof.
  destruct (sort_packs_by_name_ok names0)
    as (names & perm & Hs & _ & Hlp & Hperm & Hord & Hmap).
  exists names, perm. repeat (split; [assumption|]). exact Hmap.
Qed.

End WriterOrder.
(* ===================================================================== *)
(** * The two revisions of the writer on input that is in order *)
(* ===================================================================== *)

Module Revisions.
Import Midx MidxSpec MidxExamples GlueFacts WriteFacts WrittenFacts Rev1Image
       SortedInput.

(** X10: for distinct NUL-free pack names and entries in strictly
    ascending order of object id, with offsets below [2^31] and sizes that
    fit, the first revision of [write_midx_file], which sorts the entries
    and passes over repeated object ids, writes a file, and it is byte for
    byte the file that the later revision writes. *)
Theorem revisions_write_same_file (hash_fn : list byte -> list byte)
    (stack_word : Z)
    (names0 : list cstring) (objs : list pack_midx_entry) :
  NoDup names0 -> Forall nul_free names0 -> sizes_ok names0 objs ->
  ascending objs -> Forall (wf_entry (Z.of_nat (length names0))) objs ->
  Forall (fun e => offset e < 2 ^ 31) objs ->
  exists file,
    MidxRev1.write_midx_file hash_fn stack_word true names0 objs = Ok (Some file) /\
    write_midx_file hash_fn true names0 objs = Ok (Some file).
Proof.
  intros Hnd Hnf Hsz Hasc Hwf Hsmall.
  destruct (inputs_writable names0 objs Hnd Hnf Hsz Hasc Hwf)
    as (names & perm & Hsort & Hln & _ & _ & W & _ & _).
  pose proof W as (Hsz' & _ & Hlp & _ & Hwf').
  pose proof (writable_wf_oids _ _ _ W) as Hwfo.
  assert (Hoff : Forall (fun e => 0 <= offset e < 2 ^ 31) objs).
  { rewrite Forall_forall in Hwf, Hsmall |- *. intros e He.
    destruct (Hwf e He) as (_ & _ & Ho). specialize (Hsmall e He).
    cbv beta in Hsmall. lia. }
  pose proof (rev1_write_image hash_fn stack_word names0 names perm objs
                Hsort Hln Hlp Hsz' Hwf' Hoff) as H1.
  cbv zeta in H1.
  rewrite (QSORT_ascending objs Hasc Hwfo) in H1.
  rewrite (survivors_ascending_all None objs Hasc I) in H1.
  eexists. split; [exact H1|].
  apply write_midx_file_image; assumption.
Qed.

(** Both revisions on two packs and two objects. *)
Lemma revisions_write_same_file_witness :
  exists file,
    MidxRev1.write_midx_file toy_hash 0 true two_packs two_objects = Ok (Some file) /\
    write_midx_file toy_hash true two_packs two_objects = Ok (Some file).
Proof.
  apply revisions_write_same_file.
  - unfold two_packs. distinct_names.
  - nul_free_names.
  - by_computation.
  - vm_compute. repeat split.
  - all_of.
  - all_of.
Defined.

End Revisions.
(* ===================================================================== *)
(** * Contracting an index: what is written, and where *)
(* ===================================================================== *)

Module SparseContract.
Import SparseIndex SparseSpec SparseClaims SparseExamples SparseProps
       SparseArray SparseInPlace SparseContracts SparseFuel SparseExampleFacts
       SparseMore.

(** X11: a span that lies outside the cone and has no entry with a
    conflict stage, no gitlink and no entry without the skip-worktree bit
    is replaced by [convert_to_sparse_rec] with one sparse-directory
    entry, made of the path and the object id of the cache tree, whatever
    the cache tree says below; the rest of the array stays as it is. *)
Theorem clean_span_collapses (fuel : nat) (pl : pattern_list)
    (path : cstring) (ct : cache_tree) (span post : list cache_entry) :
  span <> [] -> collapses pl path span = true ->
  convert_to_sparse_rec (S fuel) pl (span ++ post) 0 0
    (Z.of_nat (length span)) path ct =
  Ok (construct_sparse_dir_entry path ct :: drop 1 (span ++ post), 1).
Proof.
  intros Hne Hcol. rewrite rec_unfold.
  rewrite Z.sub_0_r, Nat2Z.id.
  pose proof (scan_span_ok [] span post 0 (outside pl path) eq_refl) as Hscan.
  cbn [app] in Hscan. rewrite Hscan.
  unfold collapses in Hcol. rewrite Hcol. cbn [bind].
  destruct span as [|x span]; [congruence|].
  pose proof (array_set_at [] x (construct_sparse_dir_entry path ct)
                (span ++ post) 0 eq_refl) as Hset.
  cbn [app] in Hset |- *. rewrite Hset. reflexivity.
Qed.

(** The directory [b/e/] of the example, whose only file is clean. *)
Lemma clean_span_collapses_witness :
  convert_to_sparse_rec 1 top_only
    ([file_entry "b/e/f" Byte.x0f 0 true] ++ []) 0 0
    (Z.of_nat (length [file_entry "b/e/f" Byte.x0f 0 true]))
    (list_byte_of_string "b/e/") ct_e =
  Ok (construct_sparse_dir_entry (list_byte_of_string "b/e/") ct_e ::
      drop 1 ([file_entry "b/e/f" Byte.x0f 0 true] ++ []), 1).
Proof.
  apply clean_span_collapses.
  - discriminate.
  - vm_compute. reflexivity.
Defined.

(** X12: with a cache tree that fits the entries, [convert_to_sparse_rec]
    on a span that is not empty returns when it has fuel enough, and it
    works within the span: the array keeps its length, the entries after
    the span are not touched, and the number of entries written is at
    least one and at most the number of entries of the span. *)
Theorem conversion_stays_in_span
    (P : cstring -> cache_tree -> list cache_entry -> Prop)
    (pl : pattern_list) (path : cstring) (ct : cache_tree)
    (span post : list cache_entry) :
  laid_out P path ct span -> span <> [] ->
  contraction_returns pl path ct span post
    (fun cache' count =>
       length cache' = length (span ++ post) /\
       drop (length span) cache' = post /\
       1 <= count <= Z.of_nat (length span)).
Proof.
  intros Hl Hne. apply (rec_returns P); [exact Hl|exact Hne|].
  intros out junk' Hcon Hlen.
  pose proof (contracted_nonempty pl path ct span out Hcon Hne) as Hout.
  rewrite length_app in Hlen.
  split; [|split].
  - rewrite !length_app. lia.
  - rewrite app_assoc.
    rewrite drop_app_length'; [reflexivity|]. rewrite length_app. lia.
  - destruct out; [congruence|]. cbn [length] in *. lia.
Qed.

(** The four entries of the example, of which the directory [b/e/] is
    collapsed, in front of one more entry. *)
Lemma conversion_stays_in_span_witness :
  contraction_returns top_only [] ct_root four_entries
    [file_entry "z" Byte.x0f 0 true]
    (fun cache' count =>
       length cache' =
       length (four_entries ++ [file_entry "z" Byte.x0f 0 true]) /\
       drop (length four_entries) cache' = [file_entry "z" Byte.x0f 0 true] /\
       1 <= count <= Z.of_nat (length four_entries)).
Proof.
  apply (conversion_stays_in_span (fun _ _ _ => True) top_only [] ct_root
           four_entries [file_entry "z" Byte.x0f 0 true]); [|discriminate].
  apply four_laid_out; exact I.
Defined.

(** X13: when [convert_to_sparse] returns a value other than 0, that
    value is -1 and the index is as full as it was: the entries, their
    number and the sparse flag are unchanged. *)
Theorem failed_conversion_keeps_index (fuel : nat) (env : sparse_env)
    (st st' : index_state) (r : Z) :
  convert_to_sparse fuel env st = Ok (r, st') -> r <> 0 ->
  r = -1 /\ sparse_index st' = false /\
  cache st' = cache st /\ cache_nr st' = cache_nr st.
Proof.
  unfold convert_to_sparse.
  destruct (split_index st) eqn:Esp; cbn [orb].
  { intros H. injection H as <- <-. congruence. }
  destruct (sparse_index st) eqn:Esi; cbn [orb].
  { intros H. injection H as <- <-. congruence. }
  destruct (negb (core_apply_sparse_checkout env) ||
            negb (core_sparse_checkout_cone env)).
  { intros H. injection H as <- <-. congruence. }
  cbv zeta.
  destruct (negb _).
  { intros H. injection H as <- <-. congruence. }
  cbn [with_patterns sparse_checkout_patterns cache cache_nr split_index].
  destruct (match sparse_checkout_patterns st with
            | Some pl => Some pl
            | None => get_sparse_checkout_patterns env
            end) as [pl|].
  2:{ intros H. injection H as <- <-. congruence. }
  destruct (negb (use_cone_patterns pl)).
  { intros H. injection H as <- <-. intros _. cbn. auto. }
  destruct (cache_tree_update env _) as [ct|].
  2:{ intros H. injection H as <- <-. intros _. cbn. auto. }
  intros H. apply bind_Ok_inv in H. destruct H as ([cache' n] & _ & H).
  injection H as <- <-. congruence.
Qed.

(** The four entries of the example with patterns that are not in cone
    mode. *)
Lemma failed_conversion_keeps_index_witness :
  exists r st',
    convert_to_sparse 10 not_cone_env four_index = Ok (r, st') /\
    r <> 0 /\ r = -1 /\ sparse_index st' = false /\
    cache st' = cache four_index /\ cache_nr st' = cache_nr four_index.
Proof.
  eexists. eexists.
  assert (Hrun : convert_to_sparse 10 not_cone_env four_index = Ok (_, _))
    by (vm_compute; reflexivity).
  split; [exact Hrun|].
  assert (Hr : -1 <> 0) by discriminate.
  split; [exact Hr|].
  apply (failed_conversion_keeps_index 10 not_cone_env four_index _ _ Hrun Hr).
Defined.

(** X16: with a cache tree that fits the entries, when the cone takes in
    every path, or when every entry of the span has a conflict stage, is
    a gitlink or lacks the skip-worktree bit, [convert_to_sparse_rec] on a
    span that is not empty returns when it has fuel enough, leaves the
    whole array as it is and returns the number of entries of the
    span. *)
Theorem nothing_collapsed_nothing_changed
    (P : cstring -> cache_tree -> list cache_entry -> Prop)
    (pl : pattern_list) (path : cstring) (ct : cache_tree)
    (span post : list cache_entry) :
  nothing_to_collapse pl span ->
  laid_out P path ct span -> span <> [] ->
  contraction_returns pl path ct span post
    (fun cache' count =>
       cache' = span ++ post /\ count = Z.of_nat (length span)).
Proof.
  intros Hnone Hl Hne. apply (rec_returns P); [exact Hl|exact Hne|].
  intros out junk' Hcon Hlen.
  unfold contracted in Hcon.
  rewrite (nothing_collapses pl span path Hnone Hne) in Hcon.
  apply contracts_nothing in Hcon; [|exact Hnone]. subst out.
  rewrite length_app in Hlen.
  assert (junk' = []) by (destruct junk'; [reflexivity|cbn [length] in Hlen; lia]).
  subst junk'. split; reflexivity.
Qed.

(** The index of one file that lacks the skip-worktree bit. *)
Lemma nothing_collapsed_nothing_changed_witness :
  contraction_returns top_only [] (CacheTree 1 [Byte.x00] []) one_entry []
    (fun cache' count =>
       cache' = one_entry ++ [] /\ count = Z.of_nat (length one_entry)).
Proof.
  apply (nothing_collapsed_nothing_changed (fun _ _ _ => True) top_only []
           (CacheTree 1 [Byte.x00] []) one_entry []); [| |discriminate].
  - right. repeat constructor.
  - unfold one_entry. apply laid_file; [vm_compute; discriminate|reflexivity|].
    apply laid_nil.
Defined.

End SparseContract.
(* ===================================================================== *)
(** * Expanding an index: what is kept, and what is created *)
(* ===================================================================== *)

Module SparseExpand.
Import SparseIndex SparseSpec SparseClaims SparseExamples SparseProps
       SparseContracts SparseMore.

(** X14: [ensure_full_index] keeps every entry that is not a
    sparse-directory entry, and keeps these entries in their order: they
    form a sublist of the entries afterwards. *)
Theorem ensure_full_index_keeps_entries (env : sparse_env) (st : index_state) :
  List.filter not_sparse_dir (entries_of st) `sublist_of`
  entries_of (ensure_full_index env st).
Proof.
  unfold ensure_full_index.
  destruct (sparse_index st); cbn [negb].
  - unfold entries_of at 2. cbn [cache cache_nr].
    rewrite Nat2Z.id, firstn_all.
    apply expand_entries_keeps.
  - induction (entries_of st) as [|x l IH]; [constructor|].
    cbn [List.filter]. destruct (not_sparse_dir x).
    + apply sublist_skip, IH.
    + apply sublist_cons, IH.
Qed.

(** X15: an entry of a sparse index after [ensure_full_index] is either
    an entry that was there and is no sparse-directory entry, or it was
    made for a sparse-directory entry that was there: then its path
    starts with the path of that directory, it has stage 0 and the
    skip-worktree bit, and it is no sparse-directory entry itself. *)
Theorem ensure_full_index_entries (env : sparse_env) (st : index_state)
    (ce : cache_entry) :
  sparse_index st = true ->
  In ce (entries_of (ensure_full_index env st)) ->
  (In ce (entries_of st) /\ S_ISSPARSEDIR ce = false) \/
  (exists d, In d (entries_of st) /\ S_ISSPARSEDIR d = true /\
             name d `prefix_of` name ce /\ plain ce /\
             S_ISSPARSEDIR ce = false).
Proof.
  intros Hs. unfold ensure_full_index. rewrite Hs. cbn [negb].
  unfold entries_of at 1. cbn [cache cache_nr].
  rewrite Nat2Z.id, firstn_all.
  apply expand_entries_origin.
Qed.

(** The file [b/c] of the sparse directory [b/] of the example. *)
Lemma ensure_full_index_entries_witness :
  sparse_index sparse_two = true /\
  In (set_skip_worktree (file_entry "b/c" Byte.x0c 0 true))
     (entries_of (ensure_full_index four_env sparse_two)) /\
  ((In (set_skip_worktree (file_entry "b/c" Byte.x0c 0 true))
       (entries_of sparse_two) /\
    S_ISSPARSEDIR (set_skip_worktree (file_entry "b/c" Byte.x0c 0 true)) = false) \/
   (exists d, In d (entries_of sparse_two) /\ S_ISSPARSEDIR d = true /\
              name d `prefix_of`
                name (set_skip_worktree (file_entry "b/c" Byte.x0c 0 true)) /\
              plain (set_skip_worktree (file_entry "b/c" Byte.x0c 0 true)) /\
              S_ISSPARSEDIR (set_skip_worktree (file_entry "b/c" Byte.x0c 0 true))
              = false)).
Proof.
  assert (Hs : sparse_index sparse_two = true) by reflexivity.
  assert (Hin : In (set_skip_worktree (file_entry "b/c" Byte.x0c 0 true))
                  (entries_of (ensure_full_index four_env sparse_two))).
  { vm_compute. right. left. reflexivity. }
  split; [exact Hs|]. split; [exact Hin|].
  apply (ensure_full_index_entries four_env sparse_two _ Hs Hin).
Defined.

End SparseExpand.
(* ===================================================================== *)
(** * Looking an object up in the list of MIDXs *)
(* ===================================================================== *)

Module FillPackEntry.
Import Midx MidxSpec MidxLookup MidxProps MidxExamples.

(** X17: [fill_pack_entry_midx] answers from the first MIDX of the list
    that finds the object.  When the MIDXs before it miss and it finds
    the object in a pack, the answer is that pack with the offset if
    [is_pack_valid] accepts the pack, and 0 if it does not; in both cases
    the MIDXs behind it are not consulted and stay as they are. *)
Theorem fill_pack_entry_first_hit (is_pack_valid : packed_git -> bool)
    (o : object_id) (before behind : list midx_node) (n : midx_node)
    (q : packed_git) (off : Z) (ps : list (option packed_git)) :
  Forall (node_misses o) before ->
  find_pack_entry_midx (node_env n) o (node_midx n) (node_packs n) =
    Ok (Some (Some q, off), ps) ->
  fill_pack_entry_midx is_pack_valid true o (before ++ n :: behind) =
  Ok (if is_pack_valid q then Some {| e_offset := off; e_p := q |} else None,
      before ++ set_node_packs n ps :: behind).
Proof.
  intros Hmiss Hfind. unfold fill_pack_entry_midx. cbn [negb].
  induction before as [|b before IH].
  - cbn [app fill_pack_entry_loop]. rewrite Hfind. cbn [bind].
    destruct (is_pack_valid q); reflexivity.
  - inversion Hmiss as [|? ? Hb Hrest]; subst.
    cbn [app fill_pack_entry_loop]. unfold node_misses in Hb. rewrite Hb.
    cbn [bind]. rewrite (IH Hrest). cbn [bind].
    destruct b. reflexivity.
Qed.

(** Three MIDXs: the first holds the object with first byte 1 only and
    misses the object asked for, the second holds it at offset 200, and
    the third, which holds it as well, is left with no pack open. *)
Lemma fill_pack_entry_first_hit_witness :
  exists m0 m ps,
    load_midxed_git_one false (Some first_object_file) = Ok (Some m0) /\
    load_midxed_git_one false (Some two_objects_file) = Ok (Some m) /\
    fill_pack_entry_midx (fun _ => true) true (oid_of 2)
      ([{| node_env := example_env; node_midx := m0; node_packs := [None] |}] ++
       {| node_env := example_env; node_midx := m;
          node_packs := [None; None] |} ::
       [{| node_env := example_env; node_midx := m;
           node_packs := [None; None] |}]) =
    Ok (Some {| e_offset := 200; e_p := example_pack |},
        [{| node_env := example_env; node_midx := m0; node_packs := [None] |}] ++
        set_node_packs
          {| node_env := example_env; node_midx := m;
             node_packs := [None; None] |} ps ::
        [{| node_env := example_env; node_midx := m;
            node_packs := [None; None] |}]).
Proof.
  eexists. eexists. eexists.
  assert (Hl0 : load_midxed_git_one false (Some first_object_file) = Ok (Some _))
    by (vm_compute; reflexivity).
  assert (Hl : load_midxed_git_one false (Some two_objects_file) = Ok (Some _))
    by (vm_compute; reflexivity).
  split; [exact Hl0|]. split; [exact Hl|].
  apply (fill_pack_entry_first_hit (fun _ => true) (oid_of 2)
           [{| node_env := example_env; node_midx := _; node_packs := [None] |}]
           [{| node_env := example_env; node_midx := _;
               node_packs := [None; None] |}]
           {| node_env := example_env; node_midx := _;
              node_packs := [None; None] |} example_pack 200 _).
  - constructor; [|constructor]. vm_compute. reflexivity.
  - vm_compute. reflexivity.
Defined.

End FillPackEntry.
